(** * halmoni: a shallow embedding of the music-theory core

    The Python sources under [halmoni/core], [halmoni/analysis],
    [halmoni/suggestions] and [examples/chord_jazzer_demo.py] are embedded
    as Rocq functions, class by class.  Conventions:

    - a Python [int] is a [Z]; [%] and [//] are [Z.modulo] and [Z.div]
      (both floor, as in Python, for the positive divisors used here);
    - a Python [float] is a binary64 [float] of the kernel, so sums such as
      [0.1 + 0.2] round exactly as they do in CPython;
    - a Python [str] is a [string] (bytes; every literal of the sources
      that takes part in a comparison is ASCII, the two degree signs of
      [Chord._parse_quality] are written as their UTF-8 bytes);
    - a [dict] that is only looked up is a [gmap]; a [dict] whose iteration
      order is observed is an association list in insertion order;
    - a [set] is a [gset];
    - a call that may raise returns a [result]; [try]/[except] is a match
      on it. *)

From Stdlib Require Import ZArith QArith Qminmax List String Ascii Bool Lia Lqa
  Floats DecimalString Sorting.Sorted Sorting.Permutation.
From stdpp Require Import gmap strings.

Set Warnings "-inexact-float".
Local Open Scope string_scope.
Local Open Scope Z_scope.

(** ** Python's exceptions and results *)

Inductive exn : Type :=
| ValueError
| KeyError
| IndexError.

Inductive result (A : Type) : Type :=
| Ok (a : A)
| Raise (e : exn).
Arguments Ok {A} a.
Arguments Raise {A} e.

(** Sequencing: an exception raised by the first call escapes.  The
    notation [x ← c; k] is stdpp's, through the [MBind] instance. *)
#[global] Instance result_bind : MBind result :=
  fun A B (k : A -> result B) (r : result A) =>
    match r with
    | Ok a => k a
    | Raise e => Raise e
    end.
#[global] Instance result_ret : MRet result := fun A a => Ok a.

Definition is_ok {A : Type} (r : result A) : bool :=
  match r with Ok _ => true | Raise _ => false end.

(** [try: r except Exception: d] *)
Definition try_except {A : Type} (r : result A) (d : A) : A :=
  match r with Ok a => a | Raise _ => d end.

(** [[f(x) for x in l]] where [f] may raise: the first exception escapes. *)
Fixpoint mapM {A B : Type} (f : A -> result B) (l : list A) : result (list B) :=
  match l with
  | [] => Ok []
  | x :: l' => y ← f x; ys ← mapM f l'; Ok (y :: ys)
  end.

(** ** Python built-ins used by the sources *)

Module Py.

(** [l.index(x)] on a list of strings; raises [ValueError] when absent. *)
Fixpoint index_from (x : string) (l : list string) (i : Z) : result Z :=
  match l with
  | [] => Raise ValueError
  | y :: l' => if String.eqb y x then Ok i else index_from x l' (i + 1)
  end.
Definition index (x : string) (l : list string) : result Z := index_from x l 0.

(** [x in l] for a list of strings and for a list of integers. *)
Definition str_in (x : string) (l : list string) : bool :=
  existsb (String.eqb x) l.
Definition int_in (x : Z) (l : list Z) : bool :=
  existsb (Z.eqb x) l.

(** [l[i]] for [0 <= i < len(l)]; the callers below never index
    otherwise, and the default is returned nowhere. *)
Definition nth_Z {A : Type} (i : Z) (l : list A) (d : A) : A :=
  nth (Z.to_nat i) l d.

(** [l[i]] with Python's negative indices; [IndexError] out of range. *)
Definition getitem {A : Type} (l : list A) (i : Z) : result A :=
  let n := Z.of_nat (length l) in
  let j := if i <? 0 then i + n else i in
  if (0 <=? j) && (j <? n) then
    match nth_error l (Z.to_nat j) with
    | Some a => Ok a
    | None => Raise IndexError
    end
  else Raise IndexError.

(** The start or stop of a slice, clamped into [0, len]. *)
Definition clamp_index (n i : Z) : Z :=
  if i <? 0 then Z.max 0 (i + n) else Z.min i n.

(** [l[:k]] and [l[k:]]. *)
Definition slice_to {A : Type} (l : list A) (k : Z) : list A :=
  firstn (Z.to_nat (clamp_index (Z.of_nat (length l)) k)) l.
Definition slice_from {A : Type} (l : list A) (k : Z) : list A :=
  skipn (Z.to_nat (clamp_index (Z.of_nat (length l)) k)) l.

(** [l * times]. *)
Fixpoint repeat_list {A : Type} (l : list A) (times : nat) : list A :=
  match times with
  | O => []
  | S t => (l ++ repeat_list l t)%list
  end.
Definition mul_list {A : Type} (l : list A) (times : Z) : list A :=
  repeat_list l (Z.to_nat times).

(** [float(i)] and the float an [int] operand is promoted to; exact for
    the magnitudes met here (below [2^53]). *)
Definition float_of_Z (z : Z) : float :=
  if z <? 0 then (- PrimFloat.of_uint63 (Uint63.of_Z (- z)))%float
  else PrimFloat.of_uint63 (Uint63.of_Z z).

(** [min(a, b)] and [max(a, b)] on floats: the first argument is kept
    unless the second is strictly better. *)
Definition min (a b : float) : float := if (b <? a)%float then b else a.
Definition max (a b : float) : float := if (a <? b)%float then b else a.

(** Strings hold the bytes of their UTF-8 encoding. *)
Definition utf8 (bytes : list N) : string :=
  fold_right (fun n s => String (ascii_of_N n) s) EmptyString bytes.

(** The code points for which [str.isspace()] holds, which are the ones
    [str.strip()] removes. *)
Definition WHITE_SPACE : list string :=
  map utf8
    [(* U+0009 .. U+000D *)
     [9]; [10]; [11]; [12]; [13];
     (* U+001C .. U+0020 *)
     [28]; [29]; [30]; [31]; [32];
     (* U+0085, U+00A0 *)
     [194; 133]; [194; 160];
     (* U+1680 *)
     [225; 154; 128];
     (* U+2000 .. U+200A *)
     [226; 128; 128]; [226; 128; 129]; [226; 128; 130]; [226; 128; 131];
     [226; 128; 132]; [226; 128; 133]; [226; 128; 134]; [226; 128; 135];
     [226; 128; 136]; [226; 128; 137]; [226; 128; 138];
     (* U+2028, U+2029, U+202F *)
     [226; 128; 168]; [226; 128; 169]; [226; 128; 175];
     (* U+205F *)
     [226; 129; 159];
     (* U+3000 *)
     [227; 128; 128]]%N.

(** [s] is one white-space code point. *)
Definition is_space (s : string) : bool := existsb (String.eqb s) WHITE_SPACE.

(** [s.lstrip()]: leading white-space code points, of one to three
    bytes, are removed. *)
Fixpoint lstrip (s : string) : string :=
  match s with
  | String a s1 =>
      if is_space (String a EmptyString) then lstrip s1
      else
        match s1 with
        | String b s2 =>
            if is_space (String a (String b EmptyString)) then lstrip s2
            else
              match s2 with
              | String c s3 =>
                  if is_space (String a (String b (String c EmptyString)))
                  then lstrip s3 else s
              | EmptyString => s
              end
        | EmptyString => s
        end
  | EmptyString => EmptyString
  end.

(** [s.rstrip()]: what is left once only white space follows is
    removed.  No white-space code point starts with a continuation
    byte, so a rest that begins inside a code point is kept. *)
Fixpoint rstrip (s : string) : string :=
  match s with
  | EmptyString => EmptyString
  | String c s' =>
      match lstrip s with
      | EmptyString => EmptyString
      | _ => String c (rstrip s')
      end
  end.

Definition strip (s : string) : string := rstrip (lstrip s).

(** [c in s] for a one-character [c]. *)
Fixpoint contains_char (c : ascii) (s : string) : bool :=
  match s with
  | EmptyString => false
  | String d s' => Ascii.eqb c d || contains_char c s'
  end.

(** [s.split(c)]. *)
Fixpoint split_on (c : ascii) (s : string) : list string :=
  match s with
  | EmptyString => [EmptyString]
  | String d s' =>
      if Ascii.eqb c d then EmptyString :: split_on c s'
      else match split_on c s' with
           | t :: ts => String d t :: ts
           | [] => [String d EmptyString]
           end
  end.

(** [sub in s] for strings. *)
Fixpoint contains_str (sub s : string) : bool :=
  String.prefix sub s
  || match s with
     | EmptyString => false
     | String _ s' => contains_str sub s'
     end.

(** [s.lower()] on ASCII letters. *)
Definition lower_char (c : ascii) : ascii :=
  let n := N_of_ascii c in
  if ((65 <=? n) && (n <=? 90))%N then ascii_of_N (n + 32) else c.
Fixpoint lower (s : string) : string :=
  match s with
  | EmptyString => EmptyString
  | String c s' => String (lower_char c) (lower s')
  end.

(** [s.upper()] on ASCII letters. *)
Definition upper_char (c : ascii) : ascii :=
  let n := N_of_ascii c in
  if ((97 <=? n) && (n <=? 122))%N then ascii_of_N (n - 32) else c.
Fixpoint upper (s : string) : string :=
  match s with
  | EmptyString => EmptyString
  | String c s' => String (upper_char c) (upper s')
  end.


(** [s.startswith(prefix)]. *)
Definition startswith (s prefix : string) : bool := String.prefix prefix s.
End Py.

(** ** core/note.py *)

Module Note.

Record t : Type := mk {
  pitch_class : string;
  octave : Z;
  midi_number : Z
}.

Definition CHROMATIC_SCALE : list string :=
  ["C"; "C#"; "D"; "D#"; "E"; "F"; "F#"; "G"; "G#"; "A"; "A#"; "B"].
Definition FLAT_SCALE : list string :=
  ["C"; "Db"; "D"; "Eb"; "E"; "F"; "Gb"; "G"; "Ab"; "A"; "Bb"; "B"].

Definition ENHARMONIC_MAP : gmap string string :=
  list_to_map
    [("C#", "Db"); ("Db", "C#"); ("D#", "Eb"); ("Eb", "D#");
     ("F#", "Gb"); ("Gb", "F#"); ("G#", "Ab"); ("Ab", "G#");
     ("A#", "Bb"); ("Bb", "A#")].

(** [re.match(r'^[A-G][#b]?$', pitch)] on a stripped string. *)
Definition is_letter_A_G (c : ascii) : bool :=
  let n := N_of_ascii c in ((65 <=? n) && (n <=? 71))%N.
Definition is_accidental (c : ascii) : bool :=
  Ascii.eqb c "#"%char || Ascii.eqb c "b"%char.
Definition matches_pitch_class (s : string) : bool :=
  match s with
  | String c EmptyString => is_letter_A_G c
  | String c (String a EmptyString) => is_letter_A_G c && is_accidental a
  | _ => false
  end.

Definition _normalize_pitch_class (pitch : string) : result string :=
  let pitch := Py.strip pitch in
  if matches_pitch_class pitch then Ok pitch else Raise ValueError.

(** The [except ValueError] branch looks the name up in [FLAT_SCALE];
    a [ValueError] raised there escapes. *)
Definition _calculate_midi_number (pitch_class : string) (octave : Z) : result Z :=
  pitch_index ←
    match Py.index pitch_class CHROMATIC_SCALE with
    | Ok i => Ok i
    | Raise _ => Py.index pitch_class FLAT_SCALE
    end;
  Ok ((octave + 1) * 12 + pitch_index).

(** The [pitch] argument is a [Union[str, int]]. *)
Inductive pitch_arg : Type :=
| PInt (n : Z)
| PStr (s : string).

(** [Note.__init__]. *)
Definition init (pitch : pitch_arg) (octave : option Z) : result t :=
  match pitch with
  | PInt pitch =>
      if negb ((0 <=? pitch) && (pitch <=? 127)) then Raise ValueError
      else Ok {| midi_number := pitch;
                 pitch_class := Py.nth_Z (pitch mod 12) CHROMATIC_SCALE "";
                 octave := pitch / 12 - 1 |}
  | PStr pitch =>
      pc ← _normalize_pitch_class pitch;
      match octave with
      | None => Raise ValueError
      | Some octave =>
          if negb ((0 <=? octave) && (octave <=? 10)) then Raise ValueError
          else
            midi ← _calculate_midi_number pc octave;
            Ok {| pitch_class := pc; octave := octave; midi_number := midi |}
      end
  end.

Definition of_midi (n : Z) : result t := init (PInt n) None.
Definition of_name (s : string) (octave : Z) : result t := init (PStr s) (Some octave).

Definition transpose (self : t) (semitones : Z) : result t :=
  let new_midi := midi_number self + semitones in
  if negb ((0 <=? new_midi) && (new_midi <=? 127)) then Raise ValueError
  else init (PInt new_midi) None.

Definition enharmonic_equivalent (self : t) : result (option t) :=
  match ENHARMONIC_MAP !! pitch_class self with
  | Some equiv_pitch => n ← init (PStr equiv_pitch) (Some (octave self)); Ok (Some n)
  | None => Ok None
  end.

(** [__eq__] and [__lt__] compare MIDI numbers. *)
Definition eqb (a b : t) : bool := midi_number a =? midi_number b.
Definition ltb (a b : t) : bool := midi_number a <? midi_number b.

(** The invariant the documentation states for a note. *)
Definition in_range (n : t) : Prop :=
  0 <= midi_number n <= 127 /\ 0 <= octave n <= 10.

End Note.

(** ** core/interval.py *)

Module Interval.

Record t : Type := mk {
  _semitones : Z;
  _octaves : Z
}.

Definition init (semitones : Z) : t :=
  {| _semitones := semitones mod 12; _octaves := semitones / 12 |}.

Definition from_notes (note1 note2 : Note.t) : t :=
  init (Note.midi_number note2 - Note.midi_number note1).

Definition semitones (self : t) : Z := _semitones self + _octaves self * 12.
Definition simple_semitones (self : t) : Z := _semitones self.
Definition octaves (self : t) : Z := _octaves self.

Definition invert (self : t) : t := init ((12 - simple_semitones self) mod 12).

Definition add (self other : t) : t := init (semitones self + semitones other).
Definition subtract (self other : t) : t := init (semitones self - semitones other).

Definition is_consonant (self : t) : bool :=
  Py.int_in (simple_semitones self) [0; 3; 4; 7; 8; 9].
Definition is_perfect (self : t) : bool :=
  Py.int_in (simple_semitones self) [0; 5; 7].

(** [__eq__]: the total number of semitones. *)
Definition eqb (a b : t) : bool := semitones a =? semitones b.

(** The dictionary [base_semitones] of [from_name]. *)
Definition base_semitones : gmap Z Z :=
  list_to_map [(1, 0); (2, 2); (3, 4); (4, 5); (5, 7); (6, 9); (7, 11); (8, 12)].

Section WithInt.

(** Python's [int] on a string: the number read, or [ValueError]. *)
Variable int : string -> result Z.

(** [Interval.from_name].  The name is stripped and UPPER-CASED
    before its first character is compared with the quality
    letters. *)
Definition from_name (name : string) : result t :=
  let name := Py.upper (Py.strip name) in
  match name with
  | String quality (String _ _ as rest) =>
      number ← int rest;
      let octaves := (number - 1) / 7 in
      let simple_number := (number - 1) mod 7 + 1 in
      match base_semitones !! simple_number with
      | None => Raise ValueError
      | Some base =>
          let semitones := base + octaves * 12 in
          if Ascii.eqb quality "M" then Ok (init semitones)
          else if Ascii.eqb quality "m" then
            if Py.int_in simple_number [2; 3; 6; 7] then Ok (init (semitones - 1))
            else Raise ValueError
          else if Ascii.eqb quality "P" then
            if negb (Py.int_in simple_number [1; 4; 5; 8]) then Raise ValueError
            else Ok (init semitones)
          else if Ascii.eqb quality "d" then
            if Py.int_in simple_number [1; 4; 5; 8] then Ok (init (semitones - 1))
            else Ok (init (semitones - 2))
          else if Ascii.eqb quality "A" then
            if Py.int_in simple_number [1; 4; 5; 8] then Ok (init (semitones + 1))
            else Ok (init (semitones + 2))
          else Raise ValueError
      end
  | _ => Raise ValueError
  end.

End WithInt.

End Interval.

(** ** core/chord.py *)

Module Chord.

Record t : Type := mk {
  root : Note.t;
  quality : string;
  bass : Note.t
}.

Definition CHORD_TONES : gmap string (list Z) :=
  list_to_map
    [("major", [0; 4; 7]);
     ("minor", [0; 3; 7]);
     ("diminished", [0; 3; 6]);
     ("augmented", [0; 4; 8]);
     ("major7", [0; 4; 7; 11]);
     ("minor7", [0; 3; 7; 10]);
     ("dominant7", [0; 4; 7; 10]);
     ("diminished7", [0; 3; 6; 9]);
     ("half_diminished7", [0; 3; 6; 10]);
     ("major9", [0; 4; 7; 11; 2]);
     ("minor9", [0; 3; 7; 10; 2]);
     ("dominant9", [0; 4; 7; 10; 2]);
     ("major11", [0; 4; 7; 11; 2; 5]);
     ("minor11", [0; 3; 7; 10; 2; 5]);
     ("dominant11", [0; 4; 7; 10; 2; 5]);
     ("major13", [0; 4; 7; 11; 2; 5; 9]);
     ("minor13", [0; 3; 7; 10; 2; 5; 9]);
     ("dominant13", [0; 4; 7; 10; 2; 5; 9]);
     ("sus2", [0; 2; 7]);
     ("sus4", [0; 5; 7])].

Definition CHORD_SYMBOLS : gmap string string :=
  list_to_map
    [("major", "");
     ("minor", "m");
     ("diminished", "dim");
     ("augmented", "aug");
     ("major7", "maj7");
     ("minor7", "m7");
     ("dominant7", "7");
     ("diminished7", "dim7");
     ("half_diminished7", "m7b5");
     ("major9", "maj9");
     ("minor9", "m9");
     ("dominant9", "9");
     ("major11", "maj11");
     ("minor11", "m11");
     ("dominant11", "11");
     ("major13", "maj13");
     ("minor13", "m13");
     ("dominant13", "13");
     ("sus2", "sus2");
     ("sus4", "sus4")].

(** [Chord.__init__]: [bass or root], then the catalog check. *)
Definition init (root : Note.t) (quality : string) (bass : option Note.t) : result t :=
  let self := {| root := root; quality := quality;
                 bass := match bass with Some b => b | None => root end |} in
  match CHORD_TONES !! quality with
  | None => Raise ValueError
  | Some _ => Ok self
  end.

(** The degree sign U+00B0 and the slashed o U+00F8, in UTF-8. *)
Definition degree_sign : string :=
  String (ascii_of_N 194) (String (ascii_of_N 176) EmptyString).
Definition slashed_o : string :=
  String (ascii_of_N 195) (String (ascii_of_N 184) EmptyString).

Definition quality_map : gmap string string :=
  list_to_map
    [("", "major");
     ("M", "major");
     ("maj", "major");
     ("m", "minor");
     ("min", "minor");
     ("dim", "diminished");
     (degree_sign, "diminished");
     ("aug", "augmented");
     ("+", "augmented");
     ("7", "dominant7");
     ("maj7", "major7");
     ("M7", "major7");
     ("m7", "minor7");
     ("min7", "minor7");
     ("dim7", "diminished7");
     (degree_sign ++ "7", "diminished7");
     ("m7b5", "half_diminished7");
     (slashed_o ++ "7", "half_diminished7");
     ("9", "dominant9");
     ("maj9", "major9");
     ("M9", "major9");
     ("m9", "minor9");
     ("11", "dominant11");
     ("maj11", "major11");
     ("m11", "minor11");
     ("13", "dominant13");
     ("maj13", "major13");
     ("m13", "minor13");
     ("sus2", "sus2");
     ("sus4", "sus4")]%string.

Definition _parse_quality (quality_str : string) : result string :=
  match quality_map !! quality_str with
  | Some q => Ok q
  | None => Raise ValueError
  end.

(** [Chord.from_symbol].  Unpacking [symbol.split('/')] into two names
    raises [ValueError] unless there is exactly one slash. *)
Definition from_symbol (symbol : string) (octave : Z) : result t :=
  '(chord_part, bass_note) ←
    (if Py.contains_char "/"%char symbol then
       match Py.split_on "/"%char symbol with
       | [chord_part; bass_part] =>
           bass_note ← Note.of_name bass_part octave;
           Ok (chord_part, Some bass_note)
       | _ => Raise ValueError
       end
     else Ok (symbol, None));
  match chord_part with
  | EmptyString => Raise ValueError
  | String c0 remainder =>
      let '(root_str, remainder) :=
        match remainder with
        | String a rest =>
            if Note.is_accidental a
            then (String c0 (String a EmptyString), rest)
            else (String c0 EmptyString, remainder)
        | EmptyString => (String c0 EmptyString, remainder)
        end in
      root_note ← Note.of_name root_str octave;
      quality ← _parse_quality remainder;
      init root_note quality bass_note
  end.

(** The [notes] property: the root transposed by each cataloged interval. *)
Definition notes (self : t) : result (list Note.t) :=
  match CHORD_TONES !! quality self with
  | None => Raise KeyError
  | Some intervals => mapM (Note.transpose (root self)) intervals
  end.

Definition pitch_classes (self : t) : result (gset string) :=
  ns ← notes self;
  Ok (list_to_set (map Note.pitch_class ns)).

Definition symbol (self : t) : result string :=
  match CHORD_SYMBOLS !! quality self with
  | None => Raise KeyError
  | Some suffix =>
      let symbol := (Note.pitch_class (root self) ++ suffix)%string in
      if negb (Note.eqb (bass self) (root self))
      then Ok (symbol ++ "/" ++ Note.pitch_class (bass self))%string
      else Ok symbol
  end.

Definition contains_note (self : t) (note : Note.t) : result bool :=
  pcs ← pitch_classes self;
  Ok (bool_decide (Note.pitch_class note ∈ pcs)).

(** [__eq__]: root, quality and bass. *)
Definition eqb (a b : t) : bool :=
  Note.eqb (root a) (root b) && String.eqb (quality a) (quality b)
  && Note.eqb (bass a) (bass b).

End Chord.

(** The class [ChordInversion] of core/chord.py. *)

Module ChordInversion.

Record t : Type := mk {
  chord : Chord.t;
  inversion : Z
}.

(** [ChordInversion.__init__]. *)
Definition init (chord : Chord.t) (inversion : Z) : result t :=
  chord_notes ← Chord.notes chord;
  if Z.of_nat (length chord_notes) <=? inversion then Raise ValueError
  else Ok {| chord := chord; inversion := inversion |}.

(** [chord_notes[self.inversion % len(chord_notes)]]; every cataloged
    quality has tones, so the modulus is positive whenever [notes]
    returns. *)
Definition bass_note (self : t) : result Note.t :=
  chord_notes ← Chord.notes (chord self);
  Py.getitem chord_notes (inversion self mod Z.of_nat (length chord_notes)).

Definition symbol (self : t) : result string :=
  if inversion self =? 0 then Chord.symbol (chord self)
  else
    bass_note ← bass_note self;
    chord_symbol ← Chord.symbol (chord self);
    Ok (chord_symbol ++ "/" ++ Note.pitch_class bass_note)%string.

End ChordInversion.

(** The class [ChordVoicing] of core/chord.py. *)

Module ChordVoicing.

Record t : Type := mk {
  chord : Chord.t;
  notes : list Note.t
}.

(** [sorted(notes)]: ascending by [__lt__], equal notes in their
    original order. *)
Fixpoint insert_sorted (x : Note.t) (l : list Note.t) : list Note.t :=
  match l with
  | [] => [x]
  | y :: l' => if Note.ltb y x then y :: insert_sorted x l' else x :: l
  end.
Definition sorted (l : list Note.t) : list Note.t := foldr insert_sorted [] l.

(** The validation loop: the first note outside the chord raises. *)
Fixpoint validate (chord_pitch_classes : gset string) (notes : list Note.t)
    : result unit :=
  match notes with
  | [] => Ok tt
  | note :: notes' =>
      if negb (bool_decide (Note.pitch_class note ∈ chord_pitch_classes))
      then Raise ValueError
      else validate chord_pitch_classes notes'
  end.

(** [ChordVoicing.__init__]. *)
Definition init (chord : Chord.t) (notes : list Note.t) : result t :=
  let self := {| chord := chord; notes := sorted notes |} in
  chord_pitch_classes ← Chord.pitch_classes chord;
  _ ← validate chord_pitch_classes notes;
  Ok self.

Definition bass_note (self : t) : result Note.t := Py.getitem (notes self) 0.
Definition soprano_note (self : t) : result Note.t := Py.getitem (notes self) (-1).

Definition range (self : t) : result Interval.t :=
  bass ← bass_note self;
  soprano ← soprano_note self;
  Ok (Interval.from_notes bass soprano).

Definition get_intervals_from_bass (self : t) : result (list Interval.t) :=
  bass ← bass_note self;
  Ok (map (fun note => Interval.from_notes bass note) (notes self)).

End ChordVoicing.

(** ** core/scale.py *)

Module Scale.

Record t : Type := mk {
  tonic : Note.t;
  scale_type : string;
  _is_mode : bool;
  _parent_scale : option string;
  _mode_number : option Z
}.

(** The class attribute [SCALE_PATTERNS] as the module is loaded. *)
Definition SCALE_PATTERNS : gmap string (list Z) :=
  list_to_map
    [("major", [0; 2; 4; 5; 7; 9; 11]);
     ("natural_minor", [0; 2; 3; 5; 7; 8; 10]);
     ("harmonic_minor", [0; 2; 3; 5; 7; 8; 11]);
     ("melodic_minor", [0; 2; 3; 5; 7; 9; 11]);
     ("dorian", [0; 2; 3; 5; 7; 9; 10]);
     ("phrygian", [0; 1; 3; 5; 7; 8; 10]);
     ("lydian", [0; 2; 4; 6; 7; 9; 11]);
     ("mixolydian", [0; 2; 4; 5; 7; 9; 10]);
     ("locrian", [0; 1; 3; 5; 6; 8; 10]);
     ("chromatic", [0; 1; 2; 3; 4; 5; 6; 7; 8; 9; 10; 11]);
     ("pentatonic_major", [0; 2; 4; 7; 9]);
     ("pentatonic_minor", [0; 3; 5; 7; 10]);
     ("blues", [0; 3; 5; 6; 7; 10]);
     ("whole_tone", [0; 2; 4; 6; 8; 10]);
     ("diminished_hw", [0; 1; 3; 4; 6; 7; 9; 10]);
     ("diminished_wh", [0; 2; 3; 5; 6; 8; 9; 11])].

Definition MODE_NAMES : gmap Z string :=
  list_to_map
    [(0, "ionian"); (1, "dorian"); (2, "phrygian"); (3, "lydian");
     (4, "mixolydian"); (5, "aeolian"); (6, "locrian")].

(** Every method reads the catalog through the class attribute; [cat]
    is the dictionary the attribute holds when the method runs. *)
Section WithCatalog.
Variable cat : gmap string (list Z).

(** [Scale.__init__]. *)
Definition init (tonic : Note.t) (scale_type : string) : result t :=
  match cat !! scale_type with
  | None => Raise ValueError
  | Some _ =>
      Ok {| tonic := tonic; scale_type := scale_type; _is_mode := false;
            _parent_scale := None; _mode_number := None |}
  end.

Definition major (tonic : Note.t) : result t := init tonic "major".
Definition minor (tonic : Note.t) : result t := init tonic "natural_minor".

(** [self.SCALE_PATTERNS[self.scale_type]]. *)
Definition pattern (self : t) : result (list Z) :=
  match cat !! scale_type self with
  | None => Raise KeyError
  | Some p => Ok p
  end.

Definition notes (self : t) : result (list Note.t) :=
  p ← pattern self;
  mapM (Note.transpose (tonic self)) p.

Definition pitch_classes (self : t) : result (list string) :=
  ns ← notes self;
  Ok (map Note.pitch_class ns).

Definition get_degree (self : t) (degree : Z) : result Note.t :=
  p ← pattern self;
  if negb ((1 <=? degree) && (degree <=? Z.of_nat (length p)))
  then Raise ValueError
  else ns ← notes self; Py.getitem ns (degree - 1).

(** The first position whose pitch-class name equals the note's. *)
Fixpoint find_degree (note_pitch_class : string) (ns : list Note.t) (i : Z)
  : option Z :=
  match ns with
  | [] => None
  | scale_note :: ns' =>
      if String.eqb (Note.pitch_class scale_note) note_pitch_class
      then Some (i + 1)
      else find_degree note_pitch_class ns' (i + 1)
  end.

Definition get_note_degree (self : t) (note : Note.t) : result (option Z) :=
  ns ← notes self;
  Ok (find_degree (Note.pitch_class note) ns 0).

Definition contains_note (self : t) (note : Note.t) : result bool :=
  pcs ← pitch_classes self;
  Ok (Py.str_in (Note.pitch_class note) pcs).

Definition triad_quality (intervals : list Z) : string :=
  if bool_decide (intervals = [4; 7]) then "major"
  else if bool_decide (intervals = [3; 7]) then "minor"
  else if bool_decide (intervals = [3; 6]) then "diminished"
  else if bool_decide (intervals = [4; 8]) then "augmented"
  else "major".

Definition seventh_quality (intervals : list Z) : string :=
  if bool_decide (intervals = [4; 7; 11]) then "major7"
  else if bool_decide (intervals = [3; 7; 10]) then "minor7"
  else if bool_decide (intervals = [4; 7; 10]) then "dominant7"
  else if bool_decide (intervals = [3; 6; 10]) then "half_diminished7"
  else if bool_decide (intervals = [3; 6; 9]) then "diminished7"
  else "dominant7".

Definition get_chord_for_degree (self : t) (degree : Z) (chord_type : string)
  : result Chord.t :=
  root ← get_degree self degree;
  degrees ←
    (if String.eqb chord_type "triad" then Ok [0; 2; 4]
     else if String.eqb chord_type "seventh" then Ok [0; 2; 4; 6]
     else Raise ValueError);
  scale_notes ← notes self;
  let scale_length := Z.of_nat (length scale_notes) in
  let root_index := degree - 1 in
  chord_notes ←
    mapM (fun deg_offset =>
            Py.getitem scale_notes ((root_index + deg_offset) mod scale_length))
         degrees;
  let intervals :=
    map (fun note => Interval.simple_semitones (Interval.from_notes root note))
        (tl chord_notes) in
  let quality :=
    if (length intervals =? 2)%nat then triad_quality intervals
    else if (length intervals =? 3)%nat then seventh_quality intervals
    else "major" in
  Chord.init root quality None.

Definition get_parallel_scale (self : t) (scale_type : string) : result t :=
  init (tonic self) scale_type.

(** [get_relative_scale]: the first scale note from which the notes,
    read as intervals, start with the target pattern. *)
Definition test_pattern (current_notes : list Note.t) (i : Z) : list Z :=
  let test_notes :=
    (Py.slice_from current_notes i ++ Py.slice_to current_notes i)%list in
  match test_notes with
  | [] => [0]
  | first :: rest =>
      0 :: map (fun note =>
                  Interval.simple_semitones (Interval.from_notes first note))
               rest
  end.

Fixpoint find_relative (target_pattern : list Z) (current_notes : list Note.t)
    (candidates : list (Z * Note.t)) : option Note.t :=
  match candidates with
  | [] => None
  | (i, potential_tonic) :: candidates' =>
      let pattern := test_pattern current_notes i in
      if bool_decide
           (Py.slice_to pattern (Z.of_nat (length target_pattern)) = target_pattern)
      then Some potential_tonic
      else find_relative target_pattern current_notes candidates'
  end.

Definition get_relative_scale (self : t) (scale_type : string) : result t :=
  match cat !! scale_type with
  | None => Raise ValueError
  | Some target_pattern =>
      current_notes ← notes self;
      match find_relative target_pattern current_notes
              (combine (map Z.of_nat (seq 0 (length current_notes))) current_notes)
      with
      | Some potential_tonic => init potential_tonic scale_type
      | None => Raise ValueError
      end
  end.

End WithCatalog.

(** [__eq__]: tonic and scale type. *)
Definition eqb (a b : t) : bool :=
  Note.eqb (tonic a) (tonic b) && String.eqb (scale_type a) (scale_type b).

(** *** The class attribute as a mutable binding

    [from_mode] copies the dictionary the attribute refers to, writes
    the new pattern into the ORIGINAL object, builds the scale, and in
    its [finally] rebinds the attribute to the copy.  The state is the
    store of dictionary objects and the location the attribute holds. *)
Record class_state : Type := mk_state {
  objects : list (gmap string (list Z));
  SCALE_PATTERNS_ref : nat
}.

Definition initial_state : class_state :=
  {| objects := [SCALE_PATTERNS]; SCALE_PATTERNS_ref := 0 |}.

(** The dictionary [cls.SCALE_PATTERNS] evaluates to. *)
Definition patterns (st : class_state) : gmap string (list Z) :=
  default ∅ (objects st !! SCALE_PATTERNS_ref st).

Definition decimal (z : Z) : string :=
  DecimalString.NilZero.string_of_int (Z.to_int z).

Definition from_mode (st : class_state) (tonic : Note.t) (mode : Z)
    (parent_scale : string) : result t * class_state :=
  match patterns st !! parent_scale with
  | None => (Raise ValueError, st)
  | Some parent_pattern =>
      if Z.of_nat (length parent_pattern) <=? mode then (Raise ValueError, st)
      else
        match Py.getitem parent_pattern mode with
        | Raise e => (Raise e, st)
        | Ok mode_root =>
            let mode_pattern :=
              map (fun degree => (degree - mode_root) mod 12)
                  (Py.slice_from parent_pattern mode
                     ++ Py.slice_to parent_pattern mode)%list in
            let mode_name :=
              match (if String.eqb parent_scale "major"
                     then MODE_NAMES !! mode else None) with
              | Some name => name
              | None => (parent_scale ++ "_mode_" ++ decimal mode)%string
              end in
            (* original_patterns = cls.SCALE_PATTERNS.copy() *)
            let original_patterns := length (objects st) in
            let st1 :=
              {| objects := (objects st ++ [patterns st])%list;
                 SCALE_PATTERNS_ref := SCALE_PATTERNS_ref st |} in
            (* cls.SCALE_PATTERNS[mode_name] = mode_pattern *)
            let st2 :=
              {| objects :=
                   <[SCALE_PATTERNS_ref st1 :=
                       <[mode_name := mode_pattern]> (patterns st1)]>
                     (objects st1);
                 SCALE_PATTERNS_ref := SCALE_PATTERNS_ref st1 |} in
            (* try: ... *)
            let r :=
              scale ← init (patterns st2) tonic mode_name;
              Ok {| tonic := Scale.tonic scale;
                    scale_type := Scale.scale_type scale;
                    _is_mode := true;
                    _parent_scale := Some parent_scale;
                    _mode_number := Some mode |} in
            (* finally: cls.SCALE_PATTERNS = original_patterns *)
            (r, {| objects := objects st2;
                   SCALE_PATTERNS_ref := original_patterns |})
        end
  end.

End Scale.

(** ** core/key.py *)

Module Key.

Record t : Type := mk {
  tonic : Note.t;
  mode : string;
  _scale : Scale.t
}.

(** [Key.__init__].  The mode is lowered for the attribute and the
    check, while the scale type is chosen on the argument as given.
    Outside [Scale.from_mode] the class attribute holds the contents of
    [Scale.SCALE_PATTERNS], which is what the methods below read. *)
Definition init (tonic : Note.t) (mode : string) : result t :=
  let self_mode := Py.lower mode in
  if negb (Py.str_in self_mode ["major"; "minor"]) then Raise ValueError
  else
    scale ← Scale.init Scale.SCALE_PATTERNS tonic
               (if String.eqb mode "major" then "major" else "natural_minor");
    Ok {| tonic := tonic; mode := self_mode; _scale := scale |}.

Definition scale (self : t) : Scale.t := _scale self.

Definition parallel_key (self : t) : result t :=
  let new_mode := if String.eqb (mode self) "major" then "minor" else "major" in
  init (tonic self) new_mode.

Definition contains_note (self : t) (note : Note.t) : result bool :=
  Scale.contains_note Scale.SCALE_PATTERNS (scale self) note.

Definition get_chord_for_degree (self : t) (degree : Z) : result Chord.t :=
  Scale.get_chord_for_degree Scale.SCALE_PATTERNS (scale self) degree "triad".

Definition get_seventh_chord_for_degree (self : t) (degree : Z) : result Chord.t :=
  Scale.get_chord_for_degree Scale.SCALE_PATTERNS (scale self) degree "seventh".

(** The dictionary [analyze_chord] returns.  [non_chord_tones] is filled
    while iterating over a [set], whose order Python leaves open; the
    model lists it in the order of [elements]. *)
Record analysis : Type := mk_analysis {
  chord : Chord.t;
  is_diatonic : bool;
  degree : option Z;
  function : option string;
  non_chord_tones : list string
}.

(** The two branches of "Determine harmonic function". *)
Definition function_in_major (root_degree : Z) : option string :=
  if Py.int_in root_degree [1] then Some "tonic"
  else if Py.int_in root_degree [4] then Some "subdominant"
  else if Py.int_in root_degree [5] then Some "dominant"
  else if Py.int_in root_degree [6; 3] then Some "tonic"
  else if Py.int_in root_degree [2] then Some "subdominant"
  else if Py.int_in root_degree [7] then Some "dominant"
  else None.

Definition function_in_minor (root_degree : Z) : option string :=
  if Py.int_in root_degree [1] then Some "tonic"
  else if Py.int_in root_degree [4] then Some "subdominant"
  else if Py.int_in root_degree [5] then Some "dominant"
  else if Py.int_in root_degree [3; 6] then Some "tonic"
  else if Py.int_in root_degree [2] then Some "subdominant"
  else if Py.int_in root_degree [7] then Some "dominant"
  else None.

Definition analyze_chord (self : t) (chord : Chord.t) : result analysis :=
  root_degree ← Scale.get_note_degree Scale.SCALE_PATTERNS (scale self)
                   (Chord.root chord);
  match root_degree with
  | Some d =>
      expected_chord ← get_chord_for_degree self d;
      chord_pitch_classes ← Chord.pitch_classes chord;
      expected_pitch_classes ← Chord.pitch_classes expected_chord;
      '(diatonic, non_chord) ←
        (if bool_decide (chord_pitch_classes = expected_pitch_classes)
         then Ok (true, [])
         else
           scale_pcs ← Scale.pitch_classes Scale.SCALE_PATTERNS (scale self);
           Ok (false,
               filter (fun pitch_class => negb (Py.str_in pitch_class scale_pcs))
                      (elements chord_pitch_classes)));
      let function :=
        if String.eqb (mode self) "major"
        then function_in_major d else function_in_minor d in
      Ok {| chord := chord; is_diatonic := diatonic; degree := Some d;
            function := function; non_chord_tones := non_chord |}
  | None =>
      Ok {| chord := chord; is_diatonic := false; degree := None;
            function := None; non_chord_tones := [] |}
  end.

(** [__eq__]: pitch class of the tonic and mode. *)
Definition eqb (a b : t) : bool :=
  String.eqb (Note.pitch_class (tonic a)) (Note.pitch_class (tonic b))
  && String.eqb (mode a) (mode b).

Definition MAJOR_KEY_SIGNATURES : list (string * Z) :=
  [("C", 0); ("G", 1); ("D", 2); ("A", 3); ("E", 4); ("B", 5); ("F#", 6); ("C#", 7);
   ("F", -1); ("Bb", -2); ("Eb", -3); ("Ab", -4); ("Db", -5); ("Gb", -6); ("Cb", -7)].

Definition MINOR_KEY_SIGNATURES : list (string * Z) :=
  [("A", 0); ("E", 1); ("B", 2); ("F#", 3); ("C#", 4); ("G#", 5); ("D#", 6); ("A#", 7);
   ("D", -1); ("G", -2); ("C", -3); ("F", -4); ("Bb", -5); ("Eb", -6); ("Ab", -7)].

Definition SHARPS_ORDER : list string := ["F#"; "C#"; "G#"; "D#"; "A#"; "E#"; "B#"].
Definition FLATS_ORDER : list string := ["Bb"; "Eb"; "Ab"; "Db"; "Gb"; "Cb"; "Fb"].

(** [{v: k for k, v in table.items()}]: a later item replaces an
    earlier one with the same value. *)
Definition inverted (table : list (string * Z)) : gmap Z string :=
  list_to_map (rev (map (fun item => (snd item, fst item)) table)).

(** [Key.from_signature]. *)
Definition from_signature (signature : Z) (mode : string) : result t :=
  let sig_map :=
    if String.eqb mode "major" then inverted MAJOR_KEY_SIGNATURES
    else inverted MINOR_KEY_SIGNATURES in
  match sig_map !! signature with
  | None => Raise ValueError
  | Some tonic_name =>
      tonic ← Note.of_name tonic_name 4;
      init tonic mode
  end.

(** The [signature] property: [dict.get(tonic_name, 0)]. *)
Definition signature (self : t) : Z :=
  let tonic_name := Note.pitch_class (tonic self) in
  let table : gmap string Z :=
    if String.eqb (mode self) "major" then list_to_map MAJOR_KEY_SIGNATURES
    else list_to_map MINOR_KEY_SIGNATURES in
  default 0 (table !! tonic_name).

Definition accidentals (self : t) : list string :=
  let sig := signature self in
  if 0 <? sig then Py.slice_to SHARPS_ORDER sig
  else if sig <? 0 then Py.slice_to FLATS_ORDER (Z.abs sig)
  else [].

(** The [relative_key] property. *)
Definition relative_key (self : t) : result t :=
  if String.eqb (mode self) "major" then
    relative_tonic ← Note.transpose (tonic self) (-3);
    init relative_tonic "minor"
  else
    relative_tonic ← Note.transpose (tonic self) 3;
    init relative_tonic "major".

Definition get_dominant_key (self : t) : result t :=
  dominant_tonic ← Note.transpose (tonic self) 7;
  init dominant_tonic (mode self).

Definition get_subdominant_key (self : t) : result t :=
  subdominant_tonic ← Note.transpose (tonic self) 5;
  init subdominant_tonic (mode self).

Definition get_closely_related_keys (self : t) : result (list t) :=
  relative ← relative_key self;
  dominant ← get_dominant_key self;
  subdominant ← get_subdominant_key self;
  dominant' ← get_dominant_key self;
  dominant_relative ← relative_key dominant';
  subdominant' ← get_subdominant_key self;
  subdominant_relative ← relative_key subdominant';
  Ok [relative; dominant; subdominant; dominant_relative; subdominant_relative].

Definition tonicize (self : t) (degree : Z) : result t :=
  new_tonic ← Scale.get_degree Scale.SCALE_PATTERNS (scale self) degree;
  init new_tonic (mode self).

End Key.

(** ** core/progression.py *)

Module ChordProgression.

Record t : Type := mk {
  chords : list Chord.t;
  key : option Key.t;
  durations : list float
}.

(** [ChordProgression.__init__]. *)
Definition init (chords : list Chord.t) (key : option Key.t)
    (durations : option (list float)) : result t :=
  match chords with
  | [] => Raise ValueError
  | _ =>
      match durations with
      | None =>
          Ok {| chords := chords; key := key;
                durations := Py.mul_list [1.0%float] (Z.of_nat (length chords)) |}
      | Some durations =>
          if negb (length durations =? length chords)%nat then Raise ValueError
          else Ok {| chords := chords; key := key; durations := durations |}
      end
  end.

Definition len (self : t) : Z := Z.of_nat (length (chords self)).

(** [new_chords[index] = new_chord] on a copy. *)
Definition setitem {A : Type} (l : list A) (index : Z) (x : A) : result (list A) :=
  let n := Z.of_nat (length l) in
  let j := if index <? 0 then index + n else index in
  if (0 <=? j) && (j <? n) then Ok (<[Z.to_nat j := x]> l)
  else Raise IndexError.

(** [l.insert(index, x)] on a copy. *)
Definition list_insert {A : Type} (l : list A) (index : Z) (x : A) : list A :=
  let k := Z.to_nat (Py.clamp_index (Z.of_nat (length l)) index) in
  (firstn k l ++ x :: skipn k l)%list.

Definition transpose_chord (interval : Interval.t) (chord : Chord.t) : result Chord.t :=
  new_root ← Note.transpose (Chord.root chord) (Interval.semitones interval);
  new_bass ←
    (if negb (Note.eqb (Chord.bass chord) (Chord.root chord))
     then b ← Note.transpose (Chord.bass chord) (Interval.semitones interval);
          Ok (Some b)
     else Ok None);
  Chord.init new_root (Chord.quality chord) new_bass.

Definition transpose (self : t) (interval : Interval.t) : result t :=
  transposed_chords ← mapM (transpose_chord interval) (chords self);
  new_key ←
    match key self with
    | Some k =>
        new_tonic ← Note.transpose (Key.tonic k) (Interval.semitones interval);
        k' ← Key.init new_tonic (Key.mode k);
        Ok (Some k')
    | None => Ok None
    end;
  init transposed_chords new_key (Some (durations self)).

Definition substitute_chord (self : t) (index : Z) (new_chord : Chord.t) : result t :=
  new_chords ← setitem (chords self) index new_chord;
  init new_chords (key self) (Some (durations self)).

Definition insert_chord (self : t) (index : Z) (chord : Chord.t) (duration : float)
    : result t :=
  let new_chords := list_insert (chords self) index chord in
  let new_durations := list_insert (durations self) index duration in
  init new_chords (key self) (Some new_durations).

Definition extend (self other : t) : result t :=
  let extended_chords := (chords self ++ chords other)%list in
  let extended_durations := (durations self ++ durations other)%list in
  init extended_chords (key self) (Some extended_durations).

Definition repeat (self : t) (times : Z) : result t :=
  if times <? 1 then Raise ValueError
  else
    let repeated_chords := Py.mul_list (chords self) times in
    let repeated_durations := Py.mul_list (durations self) times in
    init repeated_chords (key self) (Some repeated_durations).

(** The invariant of the data model. *)
Definition invariant (p : t) : Prop :=
  length (chords p) = length (durations p) /\ chords p <> [].

(** [ChordProgression.from_symbols]: [Chord.from_symbol] with its
    default octave 4. *)
Definition from_symbols (chord_symbols : list string) (key : option Key.t)
    (durations : option (list float)) : result t :=
  chords ← mapM (fun symbol => Chord.from_symbol symbol 4) chord_symbols;
  init chords key durations.

(** The dictionary [numeral_map], in the order its keys are iterated. *)
Definition numeral_map : list (string * Z) :=
  [("I", 1); ("i", 1); ("II", 2); ("ii", 2); ("III", 3); ("iii", 3);
   ("IV", 4); ("iv", 4); ("V", 5); ("v", 5); ("VI", 6); ("vi", 6);
   ("VII", 7); ("vii", 7)].

(** [_parse_roman_numeral]: the first key the numeral starts with.
    Every branch on the case of the numeral sets the same unused
    [chord_type]. *)
Definition _parse_roman_numeral (numeral : string) (key : Key.t) : result Chord.t :=
  let numeral := Py.strip numeral in
  match find (fun item => Py.startswith numeral (fst item)) numeral_map with
  | None => Raise ValueError
  | Some (base_numeral, degree) => Key.get_chord_for_degree key degree
  end.

Definition from_roman_numerals (numerals : list string) (key : Key.t)
    (durations : option (list float)) : result t :=
  chords ← mapM (fun numeral => _parse_roman_numeral numeral key) numerals;
  init chords (Some key) durations.

(** [__getitem__]. *)
Definition getitem (self : t) (index : Z) : result Chord.t :=
  Py.getitem (chords self) index.

(** [__setitem__], which writes into the progression's own list: the
    progression afterwards. *)
Definition setitem_chord (self : t) (index : Z) (chord : Chord.t) : result t :=
  new_chords ← setitem (chords self) index chord;
  Ok {| chords := new_chords; key := key self; durations := durations self |}.

(** The [unique_chords] property.  Membership in the set [seen] is
    equality by [Chord.__eq__], with which [Chord.__hash__] agrees. *)
Fixpoint unique_loop (seen unique : list Chord.t) (chords : list Chord.t)
    : list Chord.t :=
  match chords with
  | [] => unique
  | chord :: chords' =>
      if negb (existsb (Chord.eqb chord) seen)
      then unique_loop (chord :: seen) (unique ++ [chord]) chords'
      else unique_loop seen unique chords'
  end.

Definition unique_chords (self : t) : list Chord.t :=
  unique_loop [] [] (chords self).

Definition chord_symbols (self : t) : result (list string) :=
  mapM Chord.symbol (chords self).

(** [get_chord_transitions]: for [i] in [range(len(self.chords) - 1)]. *)
Fixpoint transitions (chords : list Chord.t)
    : list (Chord.t * Chord.t * Interval.t) :=
  match chords with
  | current_chord :: (next_chord :: _) as rest =>
      (current_chord, next_chord,
       Interval.from_notes (Chord.root current_chord) (Chord.root next_chord))
      :: transitions rest
  | _ => []
  end.

Definition get_chord_transitions (self : t)
    : list (Chord.t * Chord.t * Interval.t) :=
  transitions (chords self).

End ChordProgression.

(** ** suggestions/base_strategy.py *)

Module ChordSuggestion.

(** The dataclass, without its [reasoning] text: a display string that
    is built from chord symbols, cannot raise and is never read back. *)
Record t : Type := mk {
  chord : Chord.t;
  confidence : float;
  position : float;
  voice_leading_quality : float;
  strategy_source : option string
}.

(** [sorted(suggestions, key=lambda x: x.confidence, reverse=True)]:
    descending, equal confidences in their original order. *)
Fixpoint insert_desc (x : t) (l : list t) : list t :=
  match l with
  | [] => [x]
  | y :: l' =>
      if (confidence x <? confidence y)%float then y :: insert_desc x l'
      else x :: l
  end.

Definition sorted_desc (l : list t) : list t := foldr insert_desc [] l.

End ChordSuggestion.

(** A [try] body that appends to the result list step by step: whatever
    was appended before the first exception stays in the list. *)
Fixpoint appended_until_raise {A : Type} (steps : list (result (list A))) : list A :=
  match steps with
  | [] => []
  | Ok l :: rest => (l ++ appended_until_raise rest)%list
  | Raise _ :: _ => []
  end.

Module Strategy.

Import ChordSuggestion.
Local Open Scope float_scope.

(** The arithmetic of [_calculate_voice_leading_quality], on the two
    counts and the root interval it is computed from. *)
Definition voice_leading_formula (common_tones max_possible_common : Z)
    (root_simple_semitones : Z) : float :=
  let common_tone_ratio :=
    Py.float_of_Z common_tones / Py.float_of_Z max_possible_common in
  let root_motion_semitones := Z.abs root_simple_semitones in
  let effective_semitones :=
    Z.min root_motion_semitones (12 - root_motion_semitones) in
  let root_motion_quality := 1.0 - (Py.float_of_Z effective_semitones / 12.0) in
  let root_motion_quality :=
    if Py.int_in root_motion_semitones [5; 7]%Z then root_motion_quality + 0.2
    else if Py.int_in root_motion_semitones [1; 2]%Z then root_motion_quality + 0.1
    else if Py.int_in root_motion_semitones [3; 4]%Z then root_motion_quality + 0.15
    else root_motion_quality in
  let voice_leading_quality :=
    common_tone_ratio * 0.6 + root_motion_quality * 0.4 in
  Py.min 1.0 (Py.max 0.0 voice_leading_quality).

Definition _calculate_voice_leading_quality (chord1 chord2 : Chord.t) : result float :=
  pc1 ← Chord.pitch_classes chord1;
  pc2 ← Chord.pitch_classes chord2;
  let common_tones := Z.of_nat (size (pc1 ∩ pc2)) in
  let max_possible_common := Z.min (Z.of_nat (size pc1)) (Z.of_nat (size pc2)) in
  if (max_possible_common =? 0)%Z then Ok 0.5
  else
    let root_interval := Interval.from_notes (Chord.root chord1) (Chord.root chord2) in
    Ok (voice_leading_formula common_tones max_possible_common
          (Interval.simple_semitones root_interval)).

(** [try: ... except: return None]. *)
Definition _get_scale_degree (chord : Chord.t) (key : Key.t) : option Z :=
  try_except
    (Scale.get_note_degree Scale.SCALE_PATTERNS (Key.scale key) (Chord.root chord))
    None.

Definition _is_diatonic_chord (chord : Chord.t) (key : Key.t) : result bool :=
  analysis ← Key.analyze_chord key chord;
  Ok (Key.is_diatonic analysis).

(** [analysis.get('function', 'unknown')]: the key is always present, so
    the default never applies and [None] comes back as it is. *)
Definition _get_harmonic_function (chord : Chord.t) (key : Key.t)
    : result (option string) :=
  analysis ← Key.analyze_chord key chord;
  Ok (Key.function analysis).

Definition _is_cadential_position (progression : ChordProgression.t) (position : Z)
    : bool :=
  (ChordProgression.len progression - 2 <=? position)%Z.

Definition _get_next_chord (progression : ChordProgression.t) (position : Z)
    : result (option Chord.t) :=
  if (position <? ChordProgression.len progression - 1)%Z
  then c ← Py.getitem (ChordProgression.chords progression) (position + 1);
       Ok (Some c)
  else Ok None.

Definition _get_previous_chord (progression : ChordProgression.t) (position : Z)
    : result (option Chord.t) :=
  if (0 <? position)%Z
  then c ← Py.getitem (ChordProgression.chords progression) (position - 1);
       Ok (Some c)
  else Ok None.

(** [function == 'name'] for a function that may be [None]. *)
Definition is_function (f : option string) (name : string) : bool :=
  match f with
  | Some s => String.eqb s name
  | None => false
  end.

(** [analysis_key = key or progression.key]. *)
Definition analysis_key (progression : ChordProgression.t) (key : option Key.t)
    : option Key.t :=
  match key with
  | Some k => Some k
  | None => ChordProgression.key progression
  end.

(** [enumerate(l)]. *)
Definition enumerate {A : Type} (l : list A) : list (Z * A) :=
  combine (map Z.of_nat (seq 0 (length l))) l.

(** [range(n)]. *)
Definition range (n : Z) : list Z := map Z.of_nat (seq 0 (Z.to_nat n)).

(** A loop that extends [suggestions] with what each round yields; an
    exception in a round escapes the loop. *)
Fixpoint extend_each {A B : Type} (f : A -> result (list B)) (l : list A)
    : result (list B) :=
  match l with
  | [] => Ok []
  | x :: l' => ys ← f x; rest ← extend_each f l'; Ok (ys ++ rest)%list
  end.

End Strategy.

(** ** suggestions/borrowed_chord.py *)

Module BorrowedChordStrategy.

Import ChordSuggestion Strategy.
Local Open Scope float_scope.

Definition get_strategy_name : string := "BorrowedChord".

Definition _is_good_borrowed_chord_position (progression : ChordProgression.t)
    (position : Z) (key : Key.t) : result bool :=
  current_chord ← Py.getitem (ChordProgression.chords progression) position;
  diatonic ← _is_diatonic_chord current_chord key;
  if negb diatonic then Ok false
  else if _is_cadential_position progression position then Ok true
  else
    function ← _get_harmonic_function current_chord key;
    if is_function function "subdominant" || is_function function "tonic"
    then Ok true
    else
      next_chord ← _get_next_chord progression position;
      match next_chord with
      | Some next_chord =>
          next_function ← _get_harmonic_function next_chord key;
          if is_function next_function "dominant" then Ok true else Ok false
      | None => Ok false
      end.

Definition _calculate_borrowed_chord_confidence (current_chord borrowed_chord : Chord.t)
    (key : Key.t) (position : Z) (progression : ChordProgression.t) : result float :=
  let base_confidence := 0.7 in
  let base_confidence :=
    if String.eqb (Key.mode key) "minor" then base_confidence + 0.1
    else base_confidence in
  function ← _get_harmonic_function current_chord key;
  let base_confidence :=
    if is_function function "subdominant" then base_confidence + 0.1
    else if is_function function "tonic" && (0 <? position)%Z
         then base_confidence + 0.05
         else base_confidence in
  voice_leading ← _calculate_voice_leading_quality current_chord borrowed_chord;
  let confidence := base_confidence + (voice_leading * 0.15) in
  let confidence :=
    if (ChordProgression.len progression - 2 <=? position)%Z then confidence + 0.1
    else confidence in
  Ok (Py.min 0.95 confidence).

Definition _calculate_modal_borrowed_confidence (current_chord borrowed_chord : Chord.t)
    (key : Key.t) (source_mode : string) : result float :=
  let base_confidence := 0.65 in
  let base_confidence :=
    if String.eqb source_mode "mixolydian" then base_confidence + 0.15
    else base_confidence in
  voice_leading ← _calculate_voice_leading_quality current_chord borrowed_chord;
  let confidence := base_confidence + (voice_leading * 0.1) in
  Ok (Py.min 0.9 confidence).

(** One modal-interchange case: the whole body sits in a [try]. *)
Definition modal_case (current_chord : Chord.t) (key : Key.t) (position : Z)
    (semitones : Z) (source_mode : string) : list ChordSuggestion.t :=
  try_except
    (borrowed_root ← Note.transpose (Key.tonic key) semitones;
     borrowed ← Chord.init borrowed_root "major" None;
     confidence ← _calculate_modal_borrowed_confidence current_chord borrowed key
                    source_mode;
     vlq ← _calculate_voice_leading_quality current_chord borrowed;
     Ok [ {| chord := borrowed; confidence := confidence;
             position := Py.float_of_Z position;
             voice_leading_quality := vlq; strategy_source := None |} ])
    [].

Definition _generate_modal_borrowed_chords (current_chord : Chord.t) (key : Key.t)
    (degree : Z) (position : Z) (progression : ChordProgression.t)
    : list ChordSuggestion.t :=
  if negb (String.eqb (Key.mode key) "major") then []
  else
    ((if (degree =? 7)%Z then modal_case current_chord key position 10 "mixolydian"
      else [])
     ++
     (if (degree =? 3)%Z then modal_case current_chord key position 3 "natural_minor"
      else []))%list.

Definition _generate_borrowed_chords (current_chord : Chord.t) (key : Key.t)
    (position : Z) (progression : ChordProgression.t)
    : result (list ChordSuggestion.t) :=
  match _get_scale_degree current_chord key with
  | None => Ok []
  | Some degree =>
      if (degree =? 0)%Z then Ok []
      else
        parallel_key ← Key.parallel_key key;
        let from_parallel :=
          try_except
            (borrowed_chord ← Key.get_chord_for_degree parallel_key degree;
             if negb (Chord.eqb borrowed_chord current_chord) then
               confidence ← _calculate_borrowed_chord_confidence current_chord
                              borrowed_chord key position progression;
               vlq ← _calculate_voice_leading_quality current_chord borrowed_chord;
               Ok [ {| chord := borrowed_chord; confidence := confidence;
                       position := Py.float_of_Z position;
                       voice_leading_quality := vlq; strategy_source := None |} ]
             else Ok [])
            [] in
        Ok (from_parallel
            ++ _generate_modal_borrowed_chords current_chord key degree position
                 progression)%list
  end.

Definition suggest (progression : ChordProgression.t) (key : option Key.t)
    : result (list ChordSuggestion.t) :=
  match analysis_key progression key with
  | None => Ok []
  | Some analysis_key =>
      suggestions ←
        extend_each
          (fun item : Z * Chord.t =>
             let '(i, current_chord) := item in
             good ← _is_good_borrowed_chord_position progression i analysis_key;
             if good : bool
             then _generate_borrowed_chords current_chord analysis_key i progression
             else Ok [])
          (enumerate (ChordProgression.chords progression));
      Ok (sorted_desc suggestions)
  end.

End BorrowedChordStrategy.

(** ** suggestions/chromatic_approach.py *)

Module ChromaticApproachStrategy.

Import ChordSuggestion Strategy.
Local Open Scope float_scope.

Definition get_strategy_name : string := "ChromaticApproach".

Definition _should_suggest_passing_chord (interval : Interval.t)
    (chord1 chord2 : Chord.t) : bool :=
  let semitones := Z.abs (Interval.semitones interval) in
  if ((2 <=? semitones) && (semitones <=? 7))%Z then true
  else if Py.int_in semitones [5; 7]%Z then true
  else false.

Definition _is_minor_passing_appropriate (root : Note.t) (chord1 chord2 : Chord.t)
    (key : Key.t) : bool :=
  try_except (Key.contains_note key root) false.

Definition _is_major_passing_appropriate (root : Note.t) (chord1 chord2 : Chord.t)
    (key : Key.t) : bool :=
  match Scale.get_note_degree Scale.SCALE_PATTERNS (Key.scale key) root with
  | Ok (Some degree) => negb (degree =? 0)%Z && Py.int_in degree [1; 4; 5]%Z
  | _ => false
  end.

Definition _could_be_secondary_dominant (root : Note.t) (target_chord : Chord.t)
    (key : Key.t) : bool :=
  let interval_to_target := Interval.from_notes root (Chord.root target_chord) in
  (Z.abs (Interval.simple_semitones interval_to_target) =? 7)%Z.

(** The options, without their reasoning suffix. *)
Definition _get_passing_chord_qualities (root : Note.t) (chord1 chord2 : Chord.t)
    (key : Key.t) (direction : string) : list (string * float) :=
  ([("diminished7", 1.0); ("dominant7", 0.85); ("half_diminished7", 0.75)]
   ++ (if _is_minor_passing_appropriate root chord1 chord2 key
       then [("minor", 0.65)] else [])
   ++ (if _is_major_passing_appropriate root chord1 chord2 key
       then [("major", 0.6)] else [])
   ++ (if _could_be_secondary_dominant root chord2 key
       then [("dominant7", 0.9)] else []))%list.

(** One round of the loop over the options; [base] is 0.75 going down
    and 0.7 going up, [cap] 0.95 and 0.9. *)
Definition passing_chord (base cap : float) (passing_root : Note.t)
    (chord1 chord2 : Chord.t) (position : Z) (option : string * float)
    : list ChordSuggestion.t :=
  let '(chord_quality, confidence_mod) := option in
  try_except
    (passing_chord ← Chord.init passing_root chord_quality None;
     let base_confidence := base * confidence_mod in
     voice_leading_quality ← _calculate_voice_leading_quality chord1 passing_chord;
     voice_leading_quality2 ← _calculate_voice_leading_quality passing_chord chord2;
     let avg_voice_leading := (voice_leading_quality + voice_leading_quality2) / 2 in
     let confidence := Py.min cap (base_confidence + avg_voice_leading * 0.2) in
     Ok [ {| chord := passing_chord; confidence := confidence;
             position := Py.float_of_Z position + 0.5;
             voice_leading_quality := avg_voice_leading;
             strategy_source := None |} ])
    [].

Definition _generate_descending_passing_chords (chord1 chord2 : Chord.t) (key : Key.t)
    (position : Z) (distance : Z) : result (list ChordSuggestion.t) :=
  passing_root ← Note.transpose (Chord.root chord1) (-1);
  let passing_chord_options :=
    _get_passing_chord_qualities passing_root chord1 chord2 key "descending" in
  Ok (flat_map (passing_chord 0.75 0.95 passing_root chord1 chord2 position)
               passing_chord_options).

Definition _generate_ascending_passing_chords (chord1 chord2 : Chord.t) (key : Key.t)
    (position : Z) (distance : Z) : result (list ChordSuggestion.t) :=
  passing_root ← Note.transpose (Chord.root chord1) 1;
  let passing_chord_options :=
    _get_passing_chord_qualities passing_root chord1 chord2 key "ascending" in
  Ok (flat_map (passing_chord 0.7 0.9 passing_root chord1 chord2 position)
               passing_chord_options).

Definition _generate_passing_chords (chord1 chord2 : Chord.t) (key : Key.t)
    (position : Z) : result (list ChordSuggestion.t) :=
  let root_interval := Interval.from_notes (Chord.root chord1) (Chord.root chord2) in
  let semitone_distance := Interval.semitones root_interval in
  if (semitone_distance <=? -2)%Z
  then _generate_descending_passing_chords chord1 chord2 key position
         (Z.abs semitone_distance)
  else if (2 <=? semitone_distance)%Z
  then _generate_ascending_passing_chords chord1 chord2 key position semitone_distance
  else Ok [].

Definition suggest (progression : ChordProgression.t) (key : option Key.t)
    : result (list ChordSuggestion.t) :=
  match analysis_key progression key with
  | None => Ok []
  | Some analysis_key =>
      suggestions ←
        extend_each
          (fun i =>
             current_chord ← Py.getitem (ChordProgression.chords progression) i;
             next_chord ← Py.getitem (ChordProgression.chords progression) (i + 1);
             let root_interval :=
               Interval.from_notes (Chord.root current_chord) (Chord.root next_chord) in
             if _should_suggest_passing_chord root_interval current_chord next_chord
             then _generate_passing_chords current_chord next_chord analysis_key i
             else Ok [])
          (range (ChordProgression.len progression - 1));
      Ok (sorted_desc suggestions)
  end.

End ChromaticApproachStrategy.

(** ** suggestions/neapolitan.py *)

Module NeapolitanStrategy.

Import ChordSuggestion Strategy.
Local Open Scope float_scope.

Definition get_strategy_name : string := "Neapolitan".

(** [any(self._get_harmonic_function(c, key) == 'dominant' for c in l)]. *)
Fixpoint any_dominant (key : Key.t) (l : list Chord.t) : result bool :=
  match l with
  | [] => Ok false
  | c :: l' =>
      f ← _get_harmonic_function c key;
      if is_function f "dominant" then Ok true else any_dominant key l'
  end.

Definition _is_good_neapolitan_position (progression : ChordProgression.t)
    (position : Z) (key : Key.t) : result bool :=
  current_chord ← Py.getitem (ChordProgression.chords progression) position;
  function ← _get_harmonic_function current_chord key;
  if is_function function "subdominant" then Ok true
  else
    next_chord ← _get_next_chord progression position;
    next_is_dominant ←
      match next_chord with
      | Some next_chord =>
          next_function ← _get_harmonic_function next_chord key;
          Ok (is_function next_function "dominant")
      | None => Ok false
      end;
    if next_is_dominant : bool then Ok true
    else
      sets_up_cadence ←
        (if _is_cadential_position progression position
            && (position <? ChordProgression.len progression - 1)%Z
         then any_dominant key
                (Py.slice_from (ChordProgression.chords progression) (position + 1))
         else Ok false);
      if sets_up_cadence : bool then Ok true
      else
        match _get_scale_degree current_chord key with
        | Some 2%Z => Ok true
        | _ => Ok false
        end.

Definition _create_neapolitan_sixth (neapolitan_triad : Chord.t) : option Chord.t :=
  try_except
    (chord_notes ← Chord.notes neapolitan_triad;
     if (2 <=? Z.of_nat (length chord_notes))%Z then
       third_note ← Py.getitem chord_notes 1;
       c ← Chord.init (Chord.root neapolitan_triad) "major" (Some third_note);
       Ok (Some c)
     else Ok None)
    None.

Definition _create_neapolitan_seventh (flat_ii_root : Note.t) : option Chord.t :=
  match Chord.init flat_ii_root "dominant7" None with
  | Ok c => Some c
  | Raise _ => None
  end.

(** The dictionary [_analyze_neapolitan_resolution] returns, without the
    entry that is never written. *)
Definition _analyze_neapolitan_resolution (progression : ChordProgression.t)
    (position : Z) (key : Key.t) : result (bool * float) :=
  if (position <? ChordProgression.len progression - 1)%Z then
    next_chord ← Py.getitem (ChordProgression.chords progression) (position + 1);
    next_function ← _get_harmonic_function next_chord key;
    if is_function next_function "dominant" then
      let resolution_quality := 0.5 + 0.3 in
      if (position <? ChordProgression.len progression - 2)%Z then
        final_chord ← Py.getitem (ChordProgression.chords progression) (position + 2);
        final_function ← _get_harmonic_function final_chord key;
        if is_function final_function "tonic"
        then Ok (true, resolution_quality + 0.2)
        else Ok (true, resolution_quality)
      else Ok (true, resolution_quality)
    else Ok (false, 0.5)
  else Ok (false, 0.5).

Definition base_confidence_map (chord_type : string) : float :=
  if String.eqb chord_type "sixth" then 0.85
  else if String.eqb chord_type "root" then 0.65
  else if String.eqb chord_type "seventh" then 0.75
  else 0.7.

Definition _calculate_neapolitan_confidence (current_chord neapolitan_chord : Chord.t)
    (key : Key.t) (position : Z) (chord_type : string)
    (progression : ChordProgression.t) : result float :=
  let base_confidence := base_confidence_map chord_type in
  let base_confidence :=
    if String.eqb (Key.mode key) "minor" then base_confidence + 0.1
    else base_confidence in
  current_function ← _get_harmonic_function current_chord key;
  let base_confidence :=
    if is_function current_function "subdominant" then base_confidence + 0.1
    else base_confidence in
  let current_degree := _get_scale_degree current_chord key in
  let base_confidence :=
    if bool_decide (current_degree = Some 2%Z) then base_confidence + 0.15
    else base_confidence in
  '(has_dominant_resolution, resolution_quality) ←
    _analyze_neapolitan_resolution progression position key;
  let base_confidence :=
    if has_dominant_resolution : bool then base_confidence + 0.1
    else base_confidence in
  let base_confidence := base_confidence + resolution_quality * 0.2 in
  voice_leading ← _calculate_voice_leading_quality current_chord neapolitan_chord;
  let voice_leading :=
    if String.eqb chord_type "sixth" then voice_leading + 0.1 else voice_leading in
  let final_confidence := base_confidence + (voice_leading * 0.1) in
  Ok (Py.min 0.95 final_confidence).

(** One variant: its confidence, then its voice leading, then the append. *)
Definition variant (current_chord : Chord.t) (key : Key.t) (position : Z)
    (progression : ChordProgression.t) (neapolitan : Chord.t) (chord_type : string)
    : result (list ChordSuggestion.t) :=
  confidence ← _calculate_neapolitan_confidence current_chord neapolitan key position
                 chord_type progression;
  vlq ← _calculate_voice_leading_quality current_chord neapolitan;
  Ok [ {| chord := neapolitan; confidence := confidence;
          position := Py.float_of_Z position;
          voice_leading_quality := vlq; strategy_source := None |} ].

Definition _generate_neapolitan_chords (current_chord : Chord.t) (key : Key.t)
    (position : Z) (progression : ChordProgression.t)
    : result (list ChordSuggestion.t) :=
  flat_ii_root ← Note.transpose (Key.tonic key) 1;
  match Chord.init flat_ii_root "major" None with
  | Raise _ => Ok []
  | Ok neapolitan_triad =>
      Ok (appended_until_raise
            [ match _create_neapolitan_sixth neapolitan_triad with
              | Some neapolitan_sixth =>
                  variant current_chord key position progression neapolitan_sixth "sixth"
              | None => Ok []
              end;
              variant current_chord key position progression neapolitan_triad "root";
              match _create_neapolitan_seventh flat_ii_root with
              | Some neapolitan_seventh =>
                  variant current_chord key position progression neapolitan_seventh
                    "seventh"
              | None => Ok []
              end ])
  end.

Definition suggest (progression : ChordProgression.t) (key : option Key.t)
    : result (list ChordSuggestion.t) :=
  match analysis_key progression key with
  | None => Ok []
  | Some analysis_key =>
      suggestions ←
        extend_each
          (fun item : Z * Chord.t =>
             let '(i, chord) := item in
             good ← _is_good_neapolitan_position progression i analysis_key;
             if good : bool
             then _generate_neapolitan_chords chord analysis_key i progression
             else Ok [])
          (enumerate (ChordProgression.chords progression));
      Ok (sorted_desc suggestions)
  end.

End NeapolitanStrategy.

(** ** suggestions/sub_v7.py *)

Module SubV7Strategy.

Import ChordSuggestion Strategy.
Local Open Scope float_scope.

Definition get_strategy_name : string := "SubV7".

Definition _is_substitutable_dominant (chord : Chord.t) (key : Key.t) : result bool :=
  let dominant_qualities := ["dominant7"; "dominant9"; "dominant11"; "dominant13"] in
  if negb (Py.str_in (Chord.quality chord) dominant_qualities) then Ok false
  else
    function ← _get_harmonic_function chord key;
    if is_function function "dominant" then Ok true
    else
      diatonic ← _is_diatonic_chord chord key;
      if negb diatonic && Py.contains_str "dominant" (Chord.quality chord)
      then Ok true else Ok false.

(** The body sits in a [try] whose handler returns 0.5; nothing in it
    raises. *)
Definition _calculate_bass_motion_smoothness (chord1 chord2 : Chord.t) : float :=
  let interval := Interval.from_notes (Chord.root chord1) (Chord.root chord2) in
  let semitones := Z.abs (Interval.simple_semitones interval) in
  if (semitones <=? 2)%Z then 1.0
  else if (semitones <=? 4)%Z then 0.7
  else if Py.int_in semitones [5; 7]%Z then 0.6
  else 0.4.

Definition _creates_smooth_bass_line (sub_chord : Chord.t)
    (progression : ChordProgression.t) (position : Z) : result bool :=
  smooth_from_previous ←
    (if (0 <? position)%Z then
       prev_chord ← Py.getitem (ChordProgression.chords progression) (position - 1);
       Ok (0.8 <=? _calculate_bass_motion_smoothness prev_chord sub_chord)
     else Ok false);
  if smooth_from_previous : bool then Ok true
  else if (position <? ChordProgression.len progression - 1)%Z then
    next_chord ← Py.getitem (ChordProgression.chords progression) (position + 1);
    Ok (0.8 <=? _calculate_bass_motion_smoothness sub_chord next_chord)
  else Ok false.

(** [bool(progression)]: the class defines [__len__]. *)
Definition truthy (progression : ChordProgression.t) : bool :=
  negb (ChordProgression.len progression =? 0)%Z.

Definition _appears_to_be_jazz_context (progression : ChordProgression.t) (key : Key.t)
    : bool :=
  if negb (truthy progression) then false
  else
    let jazz_indicators :=
      Z.of_nat
        (length
           (filter
              (fun chord : Chord.t =>
                 Py.str_in (Chord.quality chord)
                   ["major7"; "minor7"; "dominant7"; "dominant9";
                    "dominant11"; "dominant13"; "minor9"; "major9"])
              (ChordProgression.chords progression))) in
    Py.float_of_Z (ChordProgression.len progression) / 2
      <=? Py.float_of_Z jazz_indicators.

Definition _calculate_sub_confidence (original_chord sub_chord : Chord.t) (key : Key.t)
    (position : Z) (progression : ChordProgression.t) : result float :=
  let base_confidence := 0.8 in
  let original_degree := _get_scale_degree original_chord key in
  let base_confidence :=
    if bool_decide (original_degree = Some 5%Z) then base_confidence + 0.1
    else base_confidence in
  smooth ←
    (if truthy progression then _creates_smooth_bass_line sub_chord progression position
     else Ok false);
  let base_confidence :=
    if smooth : bool then base_confidence + 0.1 else base_confidence in
  resolves_to_tonic ←
    (if truthy progression && (position <? ChordProgression.len progression - 1)%Z
     then
       next_chord ← Py.getitem (ChordProgression.chords progression) (position + 1);
       next_function ← _get_harmonic_function next_chord key;
       Ok (is_function next_function "tonic")
     else Ok false);
  let base_confidence :=
    if resolves_to_tonic : bool then base_confidence + 0.1 else base_confidence in
  let base_confidence :=
    if _appears_to_be_jazz_context progression key then base_confidence + 0.15
    else base_confidence in
  Ok (Py.min 0.95 base_confidence).

Definition _calculate_tritone_voice_leading (original_chord sub_chord : Chord.t)
    (progression : ChordProgression.t) (position : Z) : result float :=
  let base_voice_leading := 0.85 in
  if (position <? ChordProgression.len progression - 1)%Z then
    next_chord ← Py.getitem (ChordProgression.chords progression) (position + 1);
    let orig_bass_motion := _calculate_bass_motion_smoothness original_chord next_chord in
    let sub_bass_motion := _calculate_bass_motion_smoothness sub_chord next_chord in
    let base_voice_leading :=
      if orig_bass_motion <? sub_bass_motion then base_voice_leading + 0.1
      else base_voice_leading in
    Ok (Py.min 1.0 base_voice_leading)
  else Ok (Py.min 1.0 base_voice_leading).

Definition _get_altered_dominant_qualities (original_chord : Chord.t) : list string :=
  filter (fun quality => bool_decide (is_Some (Chord.CHORD_TONES !! quality)))
         ["dominant7b5"; "dominant7#5"].

(** One round of either loop of [_generate_sub_variations]. *)
Definition variation (factor vlq : float) (sub_root : Note.t) (original_chord : Chord.t)
    (key : Key.t) (position : Z) (progression : ChordProgression.t) (quality : string)
    : list ChordSuggestion.t :=
  try_except
    (var_chord ← Chord.init sub_root quality None;
     confidence ← _calculate_sub_confidence original_chord var_chord key position
                    progression;
     Ok [ {| chord := var_chord; confidence := confidence * factor;
             position := Py.float_of_Z position;
             voice_leading_quality := vlq; strategy_source := None |} ])
    [].

Definition _generate_sub_variations (sub_root : Note.t) (original_chord : Chord.t)
    (key : Key.t) (position : Z) (progression : ChordProgression.t)
    : list ChordSuggestion.t :=
  ((if String.eqb (Chord.quality original_chord) "dominant7"
    then flat_map (variation 0.85 0.8 sub_root original_chord key position progression)
                  ["dominant9"; "dominant13"]
    else [])
   ++ flat_map (variation 0.75 0.75 sub_root original_chord key position progression)
               (_get_altered_dominant_qualities original_chord))%list.

Definition _generate_tritone_substitutions (dominant_chord : Chord.t) (key : Key.t)
    (position : Z) (progression : ChordProgression.t)
    : result (list ChordSuggestion.t) :=
  sub_root ← Note.transpose (Chord.root dominant_chord) 6;
  Ok (appended_until_raise
        [ (sub_chord ← Chord.init sub_root (Chord.quality dominant_chord) None;
           confidence ← _calculate_sub_confidence dominant_chord sub_chord key position
                          progression;
           voice_leading_quality ← _calculate_tritone_voice_leading dominant_chord
                                     sub_chord progression position;
           Ok [ {| chord := sub_chord; confidence := confidence;
                   position := Py.float_of_Z position;
                   voice_leading_quality := voice_leading_quality;
                   strategy_source := None |} ]);
          Ok (_generate_sub_variations sub_root dominant_chord key position
                progression) ]).

Definition suggest (progression : ChordProgression.t) (key : option Key.t)
    : result (list ChordSuggestion.t) :=
  match analysis_key progression key with
  | None => Ok []
  | Some analysis_key =>
      suggestions ←
        extend_each
          (fun item : Z * Chord.t =>
             let '(i, chord) := item in
             good ← _is_substitutable_dominant chord analysis_key;
             if good : bool
             then _generate_tritone_substitutions chord analysis_key i progression
             else Ok [])
          (enumerate (ChordProgression.chords progression));
      Ok (sorted_desc suggestions)
  end.

End SubV7Strategy.

(** ** suggestions/suspend.py *)

Module SuspendStrategy.

Import ChordSuggestion Strategy.
Local Open Scope float_scope.

Definition get_strategy_name : string := "Suspend".

Definition _is_good_suspension_candidate (chord : Chord.t) (key : option Key.t) : bool :=
  if Py.str_in (Chord.quality chord) ["major"; "minor"] then true
  else if Py.str_in (Chord.quality chord)
            ["dominant7"; "dominant9"; "dominant11"; "dominant13"] then true
  else if Py.str_in (Chord.quality chord) ["major7"; "minor7"] then true
  else false.

Definition _can_use_sus2 (chord : Chord.t) : bool :=
  if Py.str_in (Chord.quality chord) ["major"; "minor"] then true
  else if Py.str_in (Chord.quality chord) ["major7"; "minor7"] then true
  else false.

Definition _can_use_sus4 (chord : Chord.t) : bool :=
  Py.str_in (Chord.quality chord)
    ["major"; "minor"; "dominant7"; "major7"; "minor7";
     "dominant9"; "major9"; "minor9"].

Definition base_confidence_map (sus_type : string) : float :=
  if String.eqb sus_type "sus2" then 0.75
  else if String.eqb sus_type "sus4" then 0.8
  else 0.7.

Definition _calculate_suspension_confidence (original_chord suspended_chord : Chord.t)
    (key : option Key.t) (position : Z) (sus_type : string) : result float :=
  let base_confidence := base_confidence_map sus_type in
  functional ←
    match key with
    | Some key =>
        function ← _get_harmonic_function original_chord key;
        Ok (is_function function "dominant" || is_function function "subdominant")
    | None => Ok false
    end;
  let base_confidence :=
    if functional : bool then base_confidence + 0.15 else base_confidence in
  let base_confidence :=
    if String.eqb sus_type "sus4"
       && Py.str_in (Chord.quality original_chord) ["dominant7"; "major"]
    then base_confidence + 0.1 else base_confidence in
  let base_confidence :=
    if Py.str_in (Chord.quality original_chord) ["major"; "minor"]
    then base_confidence + 0.05 else base_confidence in
  Ok (Py.min 0.95 base_confidence).

Definition sus2_suggestion (chord : Chord.t) (key : option Key.t) (position : Z)
    : list ChordSuggestion.t :=
  try_except
    (sus2_chord ← Chord.init (Chord.root chord) "sus2" (Some (Chord.bass chord));
     confidence ← _calculate_suspension_confidence chord sus2_chord key position "sus2";
     voice_leading_quality ← _calculate_voice_leading_quality chord sus2_chord;
     Ok [ {| chord := sus2_chord; confidence := confidence;
             position := Py.float_of_Z position;
             voice_leading_quality := voice_leading_quality;
             strategy_source := None |} ])
    [].

Definition sus4_suggestion (chord : Chord.t) (key : option Key.t) (position : Z)
    : list ChordSuggestion.t :=
  try_except
    (sus4_chord ← Chord.init (Chord.root chord) "sus4" (Some (Chord.bass chord));
     confidence ← _calculate_suspension_confidence chord sus4_chord key position "sus4";
     let confidence :=
       if Py.str_in (Chord.quality chord) ["dominant7"; "major"]
       then Py.min 0.95 (confidence + 0.1) else confidence in
     voice_leading_quality ← _calculate_voice_leading_quality chord sus4_chord;
     Ok [ {| chord := sus4_chord; confidence := confidence;
             position := Py.float_of_Z position;
             voice_leading_quality := voice_leading_quality;
             strategy_source := None |} ])
    [].

Definition _generate_suspensions (chord : Chord.t) (key : option Key.t) (position : Z)
    : list ChordSuggestion.t :=
  ((if _can_use_sus2 chord then sus2_suggestion chord key position else [])
   ++ (if _can_use_sus4 chord then sus4_suggestion chord key position else []))%list.

Definition _chords_suitable_for_suspension_resolution (chord1 chord2 : Chord.t)
    : result bool :=
  if String.eqb (Note.pitch_class (Chord.root chord1))
                (Note.pitch_class (Chord.root chord2))
  then Ok true
  else
    pc1 ← Chord.pitch_classes chord1;
    pc2 ← Chord.pitch_classes chord2;
    if (2 <=? Z.of_nat (size (pc1 ∩ pc2)))%Z then Ok true
    else if Py.str_in (Chord.quality chord1) ["dominant7"; "dominant9"]
            && Py.str_in (Chord.quality chord2) ["major"; "minor"]
    then Ok true
    else Ok false.

Definition _create_resolving_suspension (chord1 chord2 : Chord.t) : option Chord.t :=
  if String.eqb (Note.pitch_class (Chord.root chord1))
                (Note.pitch_class (Chord.root chord2))
  then
    let try_sus (sus : string) : option Chord.t :=
      if Py.str_in (Chord.quality chord2) ["major"; "minor"]
         && negb (String.eqb (Chord.quality chord1) sus)
      then match Chord.init (Chord.root chord1) sus (Some (Chord.bass chord1)) with
           | Ok c => Some c
           | Raise _ => None
           end
      else None in
    match try_sus "sus4" with
    | Some c => Some c
    | None => try_sus "sus2"
    end
  else None.

Definition _generate_suspension_resolutions (chord1 chord2 : Chord.t)
    (key : option Key.t) (position : Z) : result (list ChordSuggestion.t) :=
  suitable ← _chords_suitable_for_suspension_resolution chord1 chord2;
  if suitable : bool then
    match _create_resolving_suspension chord1 chord2 with
    | Some resolving_suspension =>
        Ok [ {| chord := resolving_suspension; confidence := 0.85;
                position := Py.float_of_Z position;
                voice_leading_quality := 0.9; strategy_source := None |} ]
    | None => Ok []
    end
  else Ok [].

Definition suggest (progression : ChordProgression.t) (key : option Key.t)
    : result (list ChordSuggestion.t) :=
  let analysis_key := analysis_key progression key in
  let suspensions :=
    flat_map
      (fun item : Z * Chord.t =>
         let '(i, chord) := item in
         if _is_good_suspension_candidate chord analysis_key
         then _generate_suspensions chord analysis_key i else [])
      (enumerate (ChordProgression.chords progression)) in
  resolutions ←
    extend_each
      (fun i =>
         chord1 ← Py.getitem (ChordProgression.chords progression) i;
         chord2 ← Py.getitem (ChordProgression.chords progression) (i + 1);
         _generate_suspension_resolutions chord1 chord2 analysis_key i)
      (range (ChordProgression.len progression - 1));
  Ok (sorted_desc (suspensions ++ resolutions)%list).

End SuspendStrategy.

(** ** suggestions/tsd_movement.py *)

Module TSDMovementStrategy.

Import ChordSuggestion Strategy.
Local Open Scope float_scope.

Definition get_strategy_name : string := "TSDMovement".

Definition FUNCTIONAL_GROUPS : gmap string (gmap string (list Z)) :=
  list_to_map
    [("major",
      list_to_map [("tonic", [1; 6; 3]); ("subdominant", [4; 2]);
                   ("dominant", [5; 7])]);
     ("minor",
      list_to_map [("tonic", [1; 6; 3]); ("subdominant", [4; 2; 6]);
                   ("dominant", [5; 7])])]%Z.

Definition primary_degrees : gmap string Z :=
  list_to_map [("tonic", 1); ("subdominant", 4); ("dominant", 5)]%Z.

Definition common_substitutions : gmap string (list Z) :=
  list_to_map [("tonic", [6]); ("subdominant", [2]); ("dominant", [])]%Z.

Definition _analyze_functional_progression (progression : ChordProgression.t)
    (key : Key.t) : result (list (Chord.t * option string)) :=
  mapM (fun chord => function ← _get_harmonic_function chord key; Ok (chord, function))
       (ChordProgression.chords progression).

Definition _calculate_functional_confidence (current_chord suggested_chord : Chord.t)
    (function : string) (key : Key.t) (position : Z) : result float :=
  let base_confidence := 0.6 in
  match _get_scale_degree suggested_chord key with
  | None => Ok base_confidence
  | Some suggested_degree =>
      if (suggested_degree =? 0)%Z then Ok base_confidence
      else
        let base_confidence :=
          if bool_decide (primary_degrees !! function = Some suggested_degree)
          then base_confidence + 0.2 else base_confidence in
        let base_confidence :=
          match common_substitutions !! function with
          | Some degrees =>
              if Py.int_in suggested_degree degrees then base_confidence + 0.15
              else base_confidence
          | None => base_confidence
          end in
        voice_leading ← _calculate_voice_leading_quality current_chord suggested_chord;
        let final_confidence := base_confidence + (voice_leading * 0.15) in
        Ok (Py.min 0.95 final_confidence)
  end.

(** One round of the loop over the functional group. *)
Definition alternative (current_chord : Chord.t) (current_function : string)
    (key : Key.t) (position : Z) (alt_degree : Z) : list ChordSuggestion.t :=
  try_except
    (alt_chord ← Key.get_chord_for_degree key alt_degree;
     if negb (Chord.eqb alt_chord current_chord) then
       confidence ← _calculate_functional_confidence current_chord alt_chord
                      current_function key position;
       if 0.6 <? confidence then
         voice_leading_quality ← _calculate_voice_leading_quality current_chord alt_chord;
         Ok [ {| chord := alt_chord; confidence := confidence;
                 position := Py.float_of_Z position;
                 voice_leading_quality := voice_leading_quality;
                 strategy_source := None |} ]
       else Ok []
     else Ok [])
    [].

Definition _suggest_functional_improvements (progression : ChordProgression.t)
    (position : Z) (current_function : option string) (key : Key.t)
    : result (list ChordSuggestion.t) :=
  current_chord ← Py.getitem (ChordProgression.chords progression) position;
  if is_function current_function "unknown" then Ok []
  else
    match _get_scale_degree current_chord key with
    | None => Ok []
    | Some degree =>
        if (degree =? 0)%Z then Ok []
        else
          match FUNCTIONAL_GROUPS !! Key.mode key with
          | None => Raise KeyError
          | Some groups =>
              match current_function with
              | None => Ok []
              | Some current_function =>
                  match groups !! current_function with
                  | None => Ok []
                  | Some functional_group =>
                      Ok (flat_map
                            (fun alt_degree =>
                               if negb (alt_degree =? degree)%Z
                               then alternative current_chord current_function key
                                      position alt_degree
                               else [])
                            functional_group)
                  end
              end
          end
    end.

Definition _should_insert_functional_bridge (func1 func2 : option string) : bool :=
  if is_function func1 "unknown" || is_function func2 "unknown" then false
  else
    existsb
      (fun weak : string * string =>
         is_function func1 (fst weak) && is_function func2 (snd weak))
      [("tonic", "dominant"); ("dominant", "subdominant"); ("tonic", "tonic");
       ("subdominant", "subdominant"); ("dominant", "dominant")].

(** One round of a bridge loop. *)
Definition bridge (key : Key.t) (position : Z) (confidence vlq : float) (degree : Z)
    : list ChordSuggestion.t :=
  try_except
    (bridge_chord ← Key.get_chord_for_degree key degree;
     Ok [ {| chord := bridge_chord; confidence := confidence;
             position := Py.float_of_Z position + 0.5;
             voice_leading_quality := vlq; strategy_source := None |} ])
    [].

(** [self.FUNCTIONAL_GROUPS[key.mode][name]]. *)
Definition group_of (key : Key.t) (name : string) : result (list Z) :=
  match FUNCTIONAL_GROUPS !! Key.mode key with
  | None => Raise KeyError
  | Some groups =>
      match groups !! name with
      | None => Raise KeyError
      | Some degrees => Ok degrees
      end
  end.

Definition _get_functional_bridge_suggestions (func1 func2 : option string)
    (key : Key.t) (position : Z) : result (list ChordSuggestion.t) :=
  if is_function func1 "tonic" && is_function func2 "dominant" then
    subdominant_degrees ← group_of key "subdominant";
    Ok (flat_map (bridge key position 0.8 0.8) subdominant_degrees)
  else if is_function func1 "dominant" && is_function func2 "subdominant" then
    tonic_degrees ← group_of key "tonic";
    Ok (flat_map (bridge key position 0.7 0.75) (Py.slice_to tonic_degrees 1))
  else Ok [].

(** One cadential completion, placed after the last chord. *)
Definition completion (progression : ChordProgression.t) (key : Key.t)
    (degree : Z) (confidence vlq : float) : list ChordSuggestion.t :=
  try_except
    (c ← Key.get_chord_for_degree key degree;
     Ok [ {| chord := c; confidence := confidence;
             position := Py.float_of_Z (ChordProgression.len progression);
             voice_leading_quality := vlq; strategy_source := None |} ])
    [].

Definition _suggest_cadential_completions (progression : ChordProgression.t)
    (functional_analysis : list (Chord.t * option string)) (key : Key.t)
    : list ChordSuggestion.t :=
  if (2 <=? Z.of_nat (length functional_analysis))%Z then
    let last_two_functions := map snd (Py.slice_from functional_analysis (-2)) in
    if negb (bool_decide (last_two_functions = [Some "dominant"; Some "tonic"])) then
      if is_function (List.last last_two_functions None) "dominant"
      then completion progression key 1 0.9 0.95
      else if negb (existsb (fun f => is_function f "dominant") last_two_functions)
      then completion progression key 5 0.85 0.8
      else []
    else []
  else [].

Definition _suggest_functional_completions (progression : ChordProgression.t)
    (functional_analysis : list (Chord.t * option string)) (key : Key.t)
    : result (list ChordSuggestion.t) :=
  bridges ←
    extend_each
      (fun i =>
         current ← Py.getitem functional_analysis i;
         next ← Py.getitem functional_analysis (i + 1);
         if _should_insert_functional_bridge (snd current) (snd next)
         then _get_functional_bridge_suggestions (snd current) (snd next) key i
         else Ok [])
      (range (Z.of_nat (length functional_analysis) - 1));
  Ok (bridges ++ _suggest_cadential_completions progression functional_analysis key)%list.

Definition suggest (progression : ChordProgression.t) (key : option Key.t)
    : result (list ChordSuggestion.t) :=
  match analysis_key progression key with
  | None => Ok []
  | Some analysis_key =>
      functional_analysis ← _analyze_functional_progression progression analysis_key;
      improvements ←
        extend_each
          (fun item : Z * (Chord.t * option string) =>
             let '(i, (chord, function)) := item in
             _suggest_functional_improvements progression i function analysis_key)
          (enumerate functional_analysis);
      completions ←
        _suggest_functional_completions progression functional_analysis analysis_key;
      Ok (sorted_desc (improvements ++ completions)%list)
  end.

End TSDMovementStrategy.

(** ** suggestions/suggestion_engine.py *)

Module ChordSuggestionEngine.

Import ChordSuggestion.

(** The interface [ChordSuggestionStrategy]: two abstract methods. *)
Record strategy : Type := mk_strategy {
  get_strategy_name : string;
  suggest : ChordProgression.t -> option Key.t -> result (list ChordSuggestion.t)
}.

Definition BorrowedChord : strategy :=
  mk_strategy BorrowedChordStrategy.get_strategy_name BorrowedChordStrategy.suggest.
Definition ChromaticApproach : strategy :=
  mk_strategy ChromaticApproachStrategy.get_strategy_name
    ChromaticApproachStrategy.suggest.
Definition Neapolitan : strategy :=
  mk_strategy NeapolitanStrategy.get_strategy_name NeapolitanStrategy.suggest.
Definition SubV7 : strategy :=
  mk_strategy SubV7Strategy.get_strategy_name SubV7Strategy.suggest.
Definition Suspend : strategy :=
  mk_strategy SuspendStrategy.get_strategy_name SuspendStrategy.suggest.
Definition TSDMovement : strategy :=
  mk_strategy TSDMovementStrategy.get_strategy_name TSDMovementStrategy.suggest.

Record t : Type := mk { strategies : list strategy }.

(** [ChordSuggestionEngine.__init__]. *)
Definition init : t :=
  {| strategies :=
       [BorrowedChord; ChromaticApproach; Neapolitan; SubV7; Suspend; TSDMovement] |}.

(** The dictionary [suggestion_groups], in insertion order.  Keys are
    [(chord symbol, position)] tuples; two keys are the same when the
    symbols are equal strings and the positions are [==] as floats. *)
Definition group_key : Type := (string * float)%type.

Definition key_eqb (k1 k2 : group_key) : bool :=
  String.eqb (fst k1) (fst k2) && (snd k1 =? snd k2)%float.

Fixpoint dict_get (k : group_key) (d : list (group_key * ChordSuggestion.t))
    : option ChordSuggestion.t :=
  match d with
  | [] => None
  | (k', v) :: d' => if key_eqb k' k then Some v else dict_get k d'
  end.

Fixpoint dict_set (k : group_key) (v : ChordSuggestion.t)
    (d : list (group_key * ChordSuggestion.t)) : list (group_key * ChordSuggestion.t) :=
  match d with
  | [] => [(k, v)]
  | (k', v') :: d' =>
      if key_eqb k' k then (k', v) :: d' else (k', v') :: dict_set k v d'
  end.

Definition key_of (suggestion : ChordSuggestion.t) : result group_key :=
  symbol ← Chord.symbol (chord suggestion);
  Ok (symbol, position suggestion).

(** One round of the loop of [_remove_duplicates]. *)
Definition remove_step (suggestion_groups : list (group_key * ChordSuggestion.t))
    (suggestion : ChordSuggestion.t) : result (list (group_key * ChordSuggestion.t)) :=
  key ← key_of suggestion;
  match dict_get key suggestion_groups with
  | None => Ok (dict_set key suggestion suggestion_groups)
  | Some kept =>
      if (confidence kept <? confidence suggestion)%float
      then Ok (dict_set key suggestion suggestion_groups)
      else Ok suggestion_groups
  end.

Fixpoint remove_loop (suggestion_groups : list (group_key * ChordSuggestion.t))
    (suggestions : list ChordSuggestion.t)
    : result (list (group_key * ChordSuggestion.t)) :=
  match suggestions with
  | [] => Ok suggestion_groups
  | suggestion :: rest =>
      groups ← remove_step suggestion_groups suggestion;
      remove_loop groups rest
  end.

Definition _remove_duplicates (suggestions : list ChordSuggestion.t)
    : result (list ChordSuggestion.t) :=
  suggestion_groups ← remove_loop [] suggestions;
  Ok (map snd suggestion_groups).

(** [suggestion.strategy_source = strategy.get_strategy_name()]. *)
Definition tag (name : string) (s : ChordSuggestion.t) : ChordSuggestion.t :=
  {| chord := chord s; confidence := confidence s; position := position s;
     voice_leading_quality := voice_leading_quality s;
     strategy_source := Some name |}.

Definition active_strategies (self : t) (strategy_filter : option (list string))
    : list strategy :=
  match strategy_filter with
  | None | Some [] => strategies self
  | Some names =>
      filter (fun strategy => Py.str_in (get_strategy_name strategy) names)
             (strategies self)
  end.

(** The merged output: a failing strategy is skipped. *)
Definition collect (active : list strategy) (progression : ChordProgression.t)
    (key : option Key.t) : list ChordSuggestion.t :=
  flat_map
    (fun strategy =>
       match suggest strategy progression key with
       | Ok suggestions => map (tag (get_strategy_name strategy)) suggestions
       | Raise _ => []
       end)
    active.

Definition get_suggestions (self : t) (progression : ChordProgression.t)
    (key : option Key.t) (strategy_filter : option (list string))
    (max_suggestions : Z) : result (list ChordSuggestion.t) :=
  let all_suggestions :=
    collect (active_strategies self strategy_filter) progression key in
  unique_suggestions ← _remove_duplicates all_suggestions;
  let sorted_suggestions := sorted_desc unique_suggestions in
  Ok (Py.slice_to sorted_suggestions max_suggestions).

Definition get_suggestions_for_position (self : t) (progression : ChordProgression.t)
    (position : Z) (key : option Key.t) (strategy_filter : option (list string))
    : result (list ChordSuggestion.t) :=
  all_suggestions ← get_suggestions self progression key strategy_filter 20;
  Ok (filter
        (fun suggestion =>
           (abs (ChordSuggestion.position suggestion - Py.float_of_Z position)
              <? 0.1)%float)
        all_suggestions).

End ChordSuggestionEngine.

(** ** analysis/chord_detector.py *)

Module ChordDetector.

Local Open Scope float_scope.

(** Iterated with [.items()]: the declaration order matters. *)
Definition CHORD_TEMPLATES : list (string * list Z) :=
  [("major", [0; 4; 7]);
   ("minor", [0; 3; 7]);
   ("diminished", [0; 3; 6]);
   ("augmented", [0; 4; 8]);
   ("sus2", [0; 2; 7]);
   ("sus4", [0; 5; 7]);
   ("major7", [0; 4; 7; 11]);
   ("minor7", [0; 3; 7; 10]);
   ("dominant7", [0; 4; 7; 10]);
   ("diminished7", [0; 3; 6; 9]);
   ("half_diminished7", [0; 3; 6; 10]);
   ("minor_major7", [0; 3; 7; 11]);
   ("augmented7", [0; 4; 8; 10]);
   ("major9", [0; 4; 7; 11; 2]);
   ("minor9", [0; 3; 7; 10; 2]);
   ("dominant9", [0; 4; 7; 10; 2]);
   ("major11", [0; 4; 7; 11; 2; 5]);
   ("minor11", [0; 3; 7; 10; 2; 5]);
   ("dominant11", [0; 4; 7; 10; 2; 5]);
   ("major13", [0; 4; 7; 11; 2; 5; 9]);
   ("minor13", [0; 3; 7; 10; 2; 5; 9]);
   ("dominant13", [0; 4; 7; 10; 2; 5; 9]);
   ("dominant7b5", [0; 4; 6; 10]);
   ("dominant7#5", [0; 4; 8; 10]);
   ("dominant7b9", [0; 4; 7; 10; 1]);
   ("dominant7#9", [0; 4; 7; 10; 3]);
   ("dominant7#11", [0; 4; 7; 10; 6]);
   ("dominant7b13", [0; 4; 7; 10; 8])]%Z.

Record t : Type := mk {
  min_notes : Z;
  bass_weight : float
}.

(** [ChordDetector()], with the default arguments. *)
Definition default : t := {| min_notes := 2; bass_weight := 2.0 |}.

(** [sorted(set(l))] on integers. *)
Fixpoint insert_unique (x : Z) (l : list Z) : list Z :=
  match l with
  | [] => [x]
  | y :: l' =>
      if (x <? y)%Z then x :: l
      else if (x =? y)%Z then l
      else y :: insert_unique x l'
  end.
Definition sorted_set (l : list Z) : list Z := foldr insert_unique [] l.

(** [min(notes, key=lambda n: n.midi_number)]: the first lowest note. *)
Fixpoint lowest (best : Note.t) (notes : list Note.t) : Note.t :=
  match notes with
  | [] => best
  | n :: notes' =>
      lowest (if (Note.midi_number n <? Note.midi_number best)%Z then n else best)
             notes'
  end.

Definition _calculate_chord_score (normalized_semitones template : list Z)
    (notes : list Note.t) (root_semitone : Z) : float :=
  let template_set : gset Z := list_to_set template in
  let notes_set : gset Z := list_to_set normalized_semitones in
  let matches := Z.of_nat (size (template_set ∩ notes_set)) in
  let template_size := Z.of_nat (size template_set) in
  if (template_size =? 0)%Z then 0.0
  else
    let match_score := Py.float_of_Z matches / Py.float_of_Z template_size in
    let extra_notes := Z.of_nat (size (notes_set ∖ template_set)) in
    let total_notes := Z.of_nat (size notes_set) in
    if (total_notes =? 0)%Z then 0.0
    else
      let extra_penalty := Py.float_of_Z extra_notes / Py.float_of_Z total_notes in
      let bass_bonus :=
        match notes with
        | [] => 0.0
        | n :: notes' =>
            let bass_note := lowest n notes' in
            if (Note.midi_number bass_note mod 12 =? root_semitone)%Z then 0.2
            else 0.0
        end in
      let essential_bonus := 0.0 in
      let essential_bonus :=
        if (Py.int_in 3 template || Py.int_in 4 template)
           && (bool_decide (3%Z ∈ notes_set) || bool_decide (4%Z ∈ notes_set))
        then essential_bonus + 0.1 else essential_bonus in
      let essential_bonus :=
        if Py.int_in 7 template && bool_decide (7%Z ∈ notes_set)
        then essential_bonus + 0.1 else essential_bonus in
      let total_score :=
        match_score - (0.5 * extra_penalty) + bass_bonus + essential_bonus in
      Py.max 0.0 total_score.

(** The loop state of [_find_best_chord_match]. *)
Definition best : Type := (float * option Chord.t)%type.

(** One round of the inner loop.  [best_score] is overwritten before
    the chord is built; when [Chord] rejects the quality the [continue]
    leaves [best_chord] as it was. *)
Definition try_template (normalized : list Z) (notes : list Note.t)
    (bass_note : option Note.t) (root_semitone : Z) (state : best)
    (entry : string * list Z) : result best :=
  let '(best_score, best_chord) := state in
  let '(chord_quality, template) := entry in
  let score := _calculate_chord_score normalized template notes root_semitone in
  if best_score <? score then
    root_note ← Note.of_midi root_semitone;
    let slash_bass :=
      match bass_note with
      | Some b =>
          if negb (String.eqb (Note.pitch_class b) (Note.pitch_class root_note))
          then Some b else None
      | None => None
      end in
    match Chord.init root_note chord_quality slash_bass with
    | Ok c => Ok (score, Some c)
    | Raise _ => Ok (score, best_chord)
    end
  else Ok state.

Fixpoint foldM {A B : Type} (f : B -> A -> result B) (l : list A) (b : B) : result B :=
  match l with
  | [] => Ok b
  | x :: l' => b' ← f b x; foldM f l' b'
  end.

Definition try_root (semitones : list Z) (notes : list Note.t)
    (bass_note : option Note.t) (state : best) (root_semitone : Z) : result best :=
  let normalized := sorted_set (map (fun s => (s - root_semitone) mod 12)%Z semitones) in
  foldM (try_template normalized notes bass_note root_semitone) CHORD_TEMPLATES state.

Definition _find_best_chord_match (semitones : list Z) (notes : list Note.t)
    (bass_note : option Note.t) : result (option Chord.t) :=
  '(best_score, best_chord) ← foldM (try_root semitones notes bass_note) semitones
                                 (-1, None);
  let threshold := 0.5 in
  if threshold <? best_score then Ok best_chord else Ok None.

Definition detect_chord_from_notes (self : t) (notes : list Note.t)
    (bass_note : option Note.t) : result (option Chord.t) :=
  if (Z.of_nat (length notes) <? min_notes self)%Z then Ok None
  else
    let pitch_classes : gset string := list_to_set (map Note.pitch_class notes) in
    if (Z.of_nat (size pitch_classes) <? min_notes self)%Z then Ok None
    else
      semitones ←
        mapM (fun pc => note ← Note.of_name pc 4; Ok (Note.midi_number note mod 12)%Z)
             (elements pitch_classes);
      _find_best_chord_match (sorted_set semitones) notes bass_note.

(** [detect_chord_inversions]: the position of the lowest note's
    pitch class among the chord tones, 0 when it is not one. *)
Definition detect_chord_inversions (chord : Chord.t) (voicing_notes : list Note.t)
    : result Z :=
  match voicing_notes with
  | [] => Ok 0%Z
  | n :: notes' =>
      let bass_note := lowest n notes' in
      let bass_pitch_class := Note.pitch_class bass_note in
      chord_notes ← Chord.notes chord;
      let chord_pitch_classes := map Note.pitch_class chord_notes in
      match Py.index bass_pitch_class chord_pitch_classes with
      | Ok inversion => Ok inversion
      | Raise _ => Ok 0%Z
      end
  end.

End ChordDetector.

(** ** analysis/key_detector.py

    The histogram, the profiles and the correlations are numpy arrays and
    numpy scalars.  Their float64 arithmetic is idealised as exact
    arithmetic on rationals, and [np.corrcoef(x, y)[0, 1]] is a parameter
    of the model: [None] stands for [nan]. *)

Module KeyDetector.

Local Open Scope Q_scope.

Definition MAJOR_PROFILE : list Q :=
  [6.35; 2.23; 3.48; 2.33; 4.38; 4.09; 2.52; 5.19; 2.39; 3.66; 2.29; 2.88].
Definition MINOR_PROFILE : list Q :=
  [6.33; 2.68; 3.52; 5.38; 2.60; 3.53; 2.54; 4.75; 3.98; 2.69; 3.34; 3.17].
Definition CLASSICAL_MAJOR_PROFILE : list Q :=
  [6.6; 2.0; 3.5; 2.3; 4.4; 4.1; 2.5; 5.2; 2.4; 3.7; 2.3; 2.9].
Definition CLASSICAL_MINOR_PROFILE : list Q :=
  [6.4; 2.7; 3.6; 5.4; 2.5; 3.5; 2.6; 4.8; 4.0; 2.7; 3.4; 3.2].
Definition FOLK_MAJOR_PROFILE : list Q :=
  [6.8; 1.5; 3.2; 2.0; 4.2; 4.3; 2.2; 5.5; 2.1; 3.4; 2.0; 2.5].
Definition FOLK_MINOR_PROFILE : list Q :=
  [6.5; 2.2; 3.8; 5.8; 2.2; 3.2; 2.2; 5.0; 4.3; 2.4; 3.0; 2.8].

Definition CHROMATIC_NOTES : list string :=
  ["C"; "C#"; "D"; "D#"; "E"; "F"; "F#"; "G"; "G#"; "A"; "A#"; "B"].

Record t : Type := mk {
  profile_type : string;
  major_profile : list Q;
  minor_profile : list Q
}.

(** [KeyDetector.__init__]. *)
Definition init (profile_type : string) : t :=
  if String.eqb profile_type "classical" then
    mk profile_type CLASSICAL_MAJOR_PROFILE CLASSICAL_MINOR_PROFILE
  else if String.eqb profile_type "folk" then
    mk profile_type FOLK_MAJOR_PROFILE FOLK_MINOR_PROFILE
  else mk profile_type MAJOR_PROFILE MINOR_PROFILE.

Definition sum (l : list Q) : Q := fold_left Qplus l 0.

(** [np.roll(profile, -i)]. *)
Definition roll_left (profile : list Q) (i : Z) : list Q :=
  match profile with
  | [] => []
  | _ =>
      let k := Z.to_nat (i mod Z.of_nat (length profile)) in
      (skipn k profile ++ firstn k profile)%list
  end.

(** [histogram[index] += weight]. *)
Definition add_at (histogram : list Q) (index : Z) (weight : Q) : list Q :=
  alter (fun x => x + weight) (Z.to_nat index) histogram.

(** [weights[i] if weights else 1.0]. *)
Definition weight_at (weights : option (list Q)) (i : Z) : result Q :=
  match weights with
  | None | Some [] => Ok 1
  | Some ws => Py.getitem ws i
  end.

Fixpoint fill_histogram (weights : option (list Q)) (histogram : list Q)
    (notes : list Note.t) (i : Z) : result (list Q) :=
  match notes with
  | [] => Ok histogram
  | note :: notes' =>
      pitch_class_index ← Py.index (Note.pitch_class note) CHROMATIC_NOTES;
      weight ← weight_at weights i;
      fill_histogram weights (add_at histogram pitch_class_index weight) notes'
                     (i + 1)%Z
  end.

Definition _create_pitch_class_histogram (notes : list Note.t)
    (weights : option (list Q)) : result (list Q) :=
  histogram ← fill_histogram weights (replicate 12 0) notes 0%Z;
  let total := sum histogram in
  if Qlt_le_dec 0 total then Ok (map (fun x => x / total) histogram)
  else Ok histogram.

(** [Key(Note('C', 4), 'major')], the default answer. *)
Definition key_named (tonic_name mode : string) : result Key.t :=
  tonic ← Note.of_name tonic_name 4;
  Key.init tonic mode.

(** A MIDI note dictionary: each entry may be missing. *)
Record midi_note_dict : Type := mk_midi {
  midi_note : option Z;
  duration : option Q;
  velocity : option Q
}.

Section Numpy.

(** [np.corrcoef(x, y)[0, 1]], or [None] for [nan]. *)
Variable corrcoef : list Q -> list Q -> option Q.

(** The loop state: [best_correlation] and [best_key]. *)
Definition best : Type := (Q * Key.t)%type.

(** One round of either loop of [_find_best_key_match]. *)
Definition try_key (histogram profile : list Q) (mode : string) (state : best)
    (item : Z * string) : result best :=
  let '(i, tonic_name) := item in
  let rotated_profile := roll_left profile i in
  let rotated_profile := map (fun x => x / sum rotated_profile) rotated_profile in
  match corrcoef histogram rotated_profile with
  | Some correlation =>
      if Qlt_le_dec (fst state) correlation then
        best_key ← key_named tonic_name mode;
        Ok (correlation, best_key)
      else Ok state
  | None => Ok state
  end.

Definition _find_best_key_match (self : t) (histogram : list Q)
    : result (Key.t * Q) :=
  best_key ← key_named "C" "major";
  state ← ChordDetector.foldM (try_key histogram (major_profile self) "major")
             (Strategy.enumerate CHROMATIC_NOTES) (-1, best_key);
  state ← ChordDetector.foldM (try_key histogram (minor_profile self) "minor")
             (Strategy.enumerate CHROMATIC_NOTES) state;
  let '(best_correlation, best_key) := state in
  let confidence := Qmax 0 ((best_correlation + 1) / 2) in
  Ok (best_key, confidence).

Definition detect_key_from_notes (self : t) (notes : list Note.t)
    (weights : option (list Q)) : result (Key.t * Q) :=
  match notes with
  | [] => best_key ← key_named "C" "major"; Ok (best_key, 0)
  | _ =>
      histogram ← _create_pitch_class_histogram notes weights;
      _find_best_key_match self histogram
  end.

(** One round of the conversion loop; a [ValueError] or [KeyError]
    skips the entry. *)
Definition convert (d : midi_note_dict) : option (Note.t * Q) :=
  match midi_note d with
  | None => None
  | Some m =>
      match Note.of_midi m with
      | Raise _ => None
      | Ok note =>
          let duration_weight := default 1 (duration d) in
          let velocity_weight := default 64 (velocity d) / 127 in
          Some (note, duration_weight * velocity_weight)
      end
  end.

Definition detect_key_from_midi_notes (self : t) (midi_notes : list midi_note_dict)
    : result (Key.t * Q) :=
  match midi_notes with
  | [] => best_key ← key_named "C" "major"; Ok (best_key, 0)
  | _ =>
      let converted := omap convert midi_notes in
      detect_key_from_notes self (map fst converted) (Some (map snd converted))
  end.

(** The largest correlation over the twenty-four keys, with the
    initial value -1 of the search: what the property calls the best
    correlation. *)
Definition correlations (self : t) (histogram : list Q) : list Q :=
  omap (fun item : list Q * Z =>
          let rotated_profile := roll_left (fst item) (snd item) in
          corrcoef histogram
            (map (fun x => x / sum rotated_profile) rotated_profile))
       (map (fun i => (major_profile self, i)) (Strategy.range 12)
        ++ map (fun i => (minor_profile self, i)) (Strategy.range 12))%list.

Definition best_correlation (self : t) (histogram : list Q) : Q :=
  fold_left Qmax (correlations self histogram) (-1).

End Numpy.

End KeyDetector.

(** ** examples/chord_jazzer_demo.py *)

Module ChordJazzerDemo.

Local Open Scope float_scope.

Definition get_harmonic_function (chord : Chord.t) (key : Key.t)
    : result (option string) :=
  analysis ← Key.analyze_chord key chord;
  Ok (Key.function analysis).

Definition score_functional_transition (func1 func2 : string) : float :=
  if String.eqb func1 "subdominant" && String.eqb func2 "dominant" then 1.0
  else if String.eqb func1 "dominant" && String.eqb func2 "tonic" then 1.0
  else if String.eqb func1 "tonic" && Py.str_in func2 ["subdominant"; "dominant"]
  then 0.7
  else if String.eqb func1 "dominant" && String.eqb func2 "subdominant" then 0.1
  else if String.eqb func1 "tonic" && String.eqb func2 "tonic" then 0.5
  else 0.3.

End ChordJazzerDemo.

(** * The vocabulary of the properties

    Definitions that the statements below use: the tables and ranges the
    properties speak of, the finite case lists the proofs enumerate, and
    the inputs of the examples. *)

(** ** Function labels and transition tables *)
Inductive function_label := Tonic | Subdominant | Dominant | OtherLabel.

Definition label_of (func : string) : function_label :=
  if String.eqb func "tonic" then Tonic
  else if String.eqb func "subdominant" then Subdominant
  else if String.eqb func "dominant" then Dominant
  else OtherLabel.

Definition claimed_transition_table (a b : function_label) : float :=
  match a, b with
  | Subdominant, Dominant => 1.0
  | Dominant, Tonic => 1.0
  | Tonic, Subdominant | Tonic, Dominant => 0.7
  | Subdominant, Tonic => 0.6
  | Dominant, Subdominant => 0.1
  | Tonic, Tonic => 0.5
  | _, _ => 0.3
  end%float.

Definition coded_transition_table (a b : function_label) : float :=
  match a, b with
  | Subdominant, Dominant => 1.0
  | Dominant, Tonic => 1.0
  | Tonic, Subdominant | Tonic, Dominant => 0.7
  | Dominant, Subdominant => 0.1
  | Tonic, Tonic => 0.5
  | _, _ => 0.3
  end%float.

(** ** Chord symbols *)

#[local] Instance note_eq_dec : EqDecision Note.t.
Proof. solve_decision. Defined.

Definition octave4_roots : list Note.t :=
  omap (fun pc => match Note.of_name pc 4 with Ok n => Some n | Raise _ => None end)
       (Note.CHROMATIC_SCALE ++ Note.FLAT_SCALE)%list.

Definition chord_qualities : list string :=
  ["major"; "minor"; "diminished"; "augmented"; "major7"; "minor7"; "dominant7";
   "diminished7"; "half_diminished7"; "major9"; "minor9"; "dominant9"; "major11";
   "minor11"; "dominant11"; "major13"; "minor13"; "dominant13"; "sus2"; "sus4"].

Definition roundtrip_check (root : Note.t) (q : string) : bool :=
  match Chord.init root q None with
  | Ok c =>
      match Chord.symbol c with
      | Ok s =>
          match Chord.from_symbol s 4 with
          | Ok c' => Chord.eqb c' c && Note.eqb (Chord.bass c) root
                     && bool_decide (Chord.root c = root)
          | Raise _ => false
          end
      | Raise _ => false
      end
  | Raise _ => false
  end.

(** ** Scales and keys *)

Definition well_formed (st : Scale.class_state) : Prop :=
  (Scale.SCALE_PATTERNS_ref st < length (Scale.objects st))%nat.

Definition c4 : Note.t := Note.mk "C" 4 60.

Definition c_major : result Key.t := Key.init c4 "major".

Definition d_flat_major : result Chord.t := Chord.from_symbol "Db" 4.

(** The degree table as the property words it. *)
Definition claimed_degree_table (root_degree : Z) : option string :=
  if (root_degree =? 1) || (root_degree =? 3) || (root_degree =? 6) then Some "tonic"
  else if (root_degree =? 2) || (root_degree =? 4) then Some "subdominant"
  else if (root_degree =? 5) || (root_degree =? 7) then Some "dominant"
  else None.

(** ** Bounds of the suggestion strategies *)

Definition in_unit (x : float) : bool := ((0 <=? x) && (x <=? 1))%float.

Definition Zrange (lo hi : Z) : list Z :=
  map (fun n => lo + Z.of_nat n) (seq 0 (Z.to_nat (hi - lo + 1))).

Definition voice_leading_values : list float :=
  0.5%float
  :: flat_map
       (fun max_possible_common =>
          flat_map
            (fun common_tones =>
               map (Strategy.voice_leading_formula common_tones max_possible_common)
                   (Zrange 0 11))
            (Zrange 0 max_possible_common))
       (Zrange 1 7).

(** The property of C9, with the chord's catalog membership *)
Definition well_bounded (s : ChordSuggestion.t) : Prop :=
  in_unit (ChordSuggestion.confidence s) = true
  /\ in_unit (ChordSuggestion.voice_leading_quality s) = true
  /\ is_Some (Chord.CHORD_SYMBOLS !! Chord.quality (ChordSuggestion.chord s)).

Definition passing_modifiers : list float := [1.0; 0.85; 0.75; 0.65; 0.6; 0.9]%float.

Definition passing_check (base cap modifier : float) (v1 v2 : float) : bool :=
  (in_unit (Py.min cap (base * modifier + (v1 + v2) / 2 * 0.2))
   && in_unit ((v1 + v2) / 2))%float.

Definition passing_check_for (base cap : float) : bool :=
  forallb
    (fun modifier =>
       forallb
         (fun v1 => forallb (passing_check base cap modifier v1) voice_leading_values)
         voice_leading_values)
    passing_modifiers.

Definition resolution_qualities : list float :=
  [0.5; 0.5 + 0.3; 0.5 + 0.3 + 0.2]%float.

(** ** The suggestion engine *)

Section SuggestionVocabulary.
Import ChordSuggestionEngine.

Definition same_key (a b : ChordSuggestion.t) : bool :=
  match key_of a, key_of b with
  | Ok ka, Ok kb => key_eqb ka kb
  | _, _ => false
  end.

Definition no_match (k : group_key) (d : list (group_key * ChordSuggestion.t)) : Prop :=
  Forall (fun e => key_eqb (fst e) k = false) d.

Definition not_nan (s : ChordSuggestion.t) : Prop :=
  is_nan (ChordSuggestion.confidence s) = false.

Definition conf_le (a b : ChordSuggestion.t) : Prop :=
  (ChordSuggestion.confidence a <=? ChordSuggestion.confidence b)%float = true.

Record groups_ok (processed : list ChordSuggestion.t)
    (d : list (group_key * ChordSuggestion.t)) : Prop := {
  keys_distinct :
    ForallOrdPairs (fun k1 k2 => key_eqb k1 k2 = false) (map fst d);
  values_keyed :
    Forall (fun e => In (snd e) processed
                     /\ exists kv, key_of (snd e) = Ok kv
                                   /\ (key_eqb (fst e) kv = true \/ kv = fst e)) d;
  all_covered :
    forall s, In s processed ->
      exists e ks, In e d /\ conf_le s (snd e) /\ key_of s = Ok ks
                   /\ (key_eqb (fst e) ks = true \/ snd e = s)
}.

Definition unit_bounded (s : ChordSuggestion.t) : Prop :=
  in_unit (ChordSuggestion.confidence s) = true
  /\ in_unit (ChordSuggestion.voice_leading_quality s) = true.

Definition all_bounded (r : result (list ChordSuggestion.t)) : Prop :=
  match r with
  | Ok l => Forall unit_bounded l
  | Raise _ => True
  end.

Definition bounded_strategy (st : strategy) : Prop :=
  forall progression key l, suggest st progression key = Ok l -> Forall well_bounded l.

Definition demo_progression : result ChordProgression.t :=
  chords ← mapM (fun s => Chord.from_symbol s 4) ["C"; "Am"; "F"; "G"];
  ChordProgression.init chords None None.

Definition conf_ge (a b : ChordSuggestion.t) : Prop := conf_le b a.

Definition c_am_f_g : ChordProgression.t :=
  {| ChordProgression.chords :=
       [ Chord.mk (Note.mk "C" 4 60) "major" (Note.mk "C" 4 60);
         Chord.mk (Note.mk "A" 4 69) "minor" (Note.mk "A" 4 69);
         Chord.mk (Note.mk "F" 4 65) "major" (Note.mk "F" 4 65);
         Chord.mk (Note.mk "G" 4 67) "major" (Note.mk "G" 4 67) ];
     ChordProgression.key := None;
     ChordProgression.durations := [1; 1; 1; 1]%float |}.

Definition c_em_g_c : ChordProgression.t :=
  {| ChordProgression.chords :=
       [ Chord.mk (Note.mk "C" 4 60) "major" (Note.mk "C" 4 60);
         Chord.mk (Note.mk "E" 4 64) "minor" (Note.mk "E" 4 64);
         Chord.mk (Note.mk "G" 4 67) "major" (Note.mk "G" 4 67);
         Chord.mk (Note.mk "C" 4 60) "major" (Note.mk "C" 4 60) ];
     ChordProgression.key := None;
     ChordProgression.durations := [1; 1; 1; 1]%float |}.

End SuggestionVocabulary.

(** ** Key detection *)

Section KeyVocabulary.
Import KeyDetector.

(** A stand-in for numpy: a constant correlation. *)
Definition constant_corrcoef (c : Q) (x y : list Q) : option Q := Some c.

Definition in_correlation_range (c : Q) : Prop := (-1 <= c)%Q /\ (c <= 1)%Q.

Definition correlation_with (corrcoef : list Q -> list Q -> option Q)
    (histogram profile : list Q) (i : Z) : option Q :=
  let rotated_profile := roll_left profile i in
  corrcoef histogram (map (fun x => x / sum rotated_profile)%Q rotated_profile).

End KeyVocabulary.

(** ** Chord detection *)

Section DetectorVocabulary.
Import ChordDetector.

(** The score of every candidate: each root among [semitones] crossed
    with each template of [CHORD_TEMPLATES], in the order of the loops. *)
Definition candidates (semitones : list Z) (notes : list Note.t)
    : list (Z * string * float) :=
  flat_map
    (fun root_semitone =>
       let normalized :=
         sorted_set (map (fun s => (s - root_semitone) mod 12) semitones) in
       map (fun entry : string * list Z =>
              (root_semitone, fst entry,
               _calculate_chord_score normalized (snd entry) notes root_semitone))
           CHORD_TEMPLATES)
    semitones.

Definition score_of (semitones : list Z) (notes : list Note.t) (root_semitone : Z)
    (quality : string) : option float :=
  option_map (fun c : Z * string * float => snd c)
    (List.find (fun c : Z * string * float =>
                  (fst (fst c) =? root_semitone) && String.eqb (snd (fst c)) quality)
               (candidates semitones notes)).

(** A quality that [Chord] accepts. *)
Definition constructible (quality : string) : bool :=
  bool_decide (is_Some (Chord.CHORD_TONES !! quality)).

Definition b_c_d_sharp : list Note.t :=
  [Note.mk "B" 3 59; Note.mk "C" 4 60; Note.mk "D#" 4 63].

Definition c_c_sharp : list Note.t := [Note.mk "C" 4 60; Note.mk "C#" 4 61].

End DetectorVocabulary.

(** ** Further properties: case lists, canonical forms and examples *)

(** The names [Note] accepts: the sharp and the flat spellings. *)
Definition note_names : list string := (Note.CHROMATIC_SCALE ++ Note.FLAT_SCALE)%list.

(** The position of a pitch-class name in its scale. *)
Definition name_index (name : string) : Z :=
  match Py.index name Note.CHROMATIC_SCALE with
  | Ok i => i
  | Raise _ => try_except (Py.index name Note.FLAT_SCALE) 0
  end.

Definition natural_names : list string := ["C"; "D"; "E"; "F"; "G"; "A"; "B"].

(** What the proof of the enharmonic round trip checks for each name. *)
Definition enharmonic_check (name : string) : bool :=
  match Note.ENHARMONIC_MAP !! name with
  | None => Py.str_in name natural_names
  | Some equiv =>
      negb (Py.str_in name natural_names)
      && String.eqb (Py.strip equiv) equiv
      && String.eqb (Py.strip name) name
      && Py.str_in equiv note_names
      && (name_index equiv =? name_index name)
      && bool_decide (Note.ENHARMONIC_MAP !! equiv = Some name)
      && negb (String.eqb equiv name)
  end.

(** The semitones of the major or perfect interval with a number. *)
Definition natural_semitones (number : Z) : option Z :=
  base ← Interval.base_semitones !! ((number - 1) mod 7 + 1);
  Some (base + (number - 1) / 7 * 12).

(** A stand-in for Python's [int] on the strings of ASCII digits;
    Python's also reads signs, underscores and surrounding blanks. *)
Definition int_of_digits (s : string) : result Z :=
  match s with
  | EmptyString => Raise ValueError
  | _ =>
      match DecimalString.NilEmpty.uint_of_string s with
      | Some d => Ok (Z.of_uint d)
      | None => Raise ValueError
      end
  end.

(** The note [Note(name, octave)] for a name of [note_names]. *)
Definition named_note (octave : Z) (name : string) : Note.t :=
  Note.mk name octave ((octave + 1) * 12 + name_index name).

(** The chord [from_symbol] builds from a root name, a quality and the
    name after the slash, if any. *)
Definition built_chord (octave : Z) (root_name quality : string)
    (bass_name : option string) : Chord.t :=
  {| Chord.root := named_note octave root_name;
     Chord.quality := quality;
     Chord.bass := match bass_name with
                   | Some b => named_note octave b
                   | None => named_note octave root_name
                   end |}.

Definition symbol_round_trip_check (octave : Z) (root_name quality : string)
    (bass_name : option string) : bool :=
  let c := built_chord octave root_name quality bass_name in
  match Chord.symbol c with
  | Ok s =>
      match Chord.from_symbol s octave with
      | Ok c' => Chord.eqb c' c
      | Raise _ => false
      end
  | Raise _ => false
  end.

Definition bass_names : list (option string) := None :: map Some note_names.

Definition symbol_round_trip_all : bool :=
  forallb (fun octave =>
    forallb (fun root_name =>
      forallb (fun quality =>
        forallb (symbol_round_trip_check octave root_name quality) bass_names)
        chord_qualities)
      note_names)
    (Zrange 0 10).

Definition flat_names : list string := ["Db"; "Eb"; "Gb"; "Ab"; "Bb"].

Definition f_major : result Key.t := Key.init (Note.mk "F" 4 65) "major".

Definition b_flat_chord : result Chord.t := Chord.from_symbol "Bb" 4.

(** The sharp spelling of a MIDI number's pitch class. *)
Definition sharp_name (m : Z) : string := Py.nth_Z (m mod 12) Note.CHROMATIC_SCALE "".

(** For a root residue and a quality: each tone's pitch class is found
    at its own position among the chord's pitch classes. *)
Definition inversion_check (r : Z) (quality : string) : bool :=
  match Chord.CHORD_TONES !! quality with
  | Some tones =>
      let pcs := map (fun t => sharp_name (r + t)) tones in
      forallb (fun k => match Py.index (nth k pcs "") pcs with
                        | Ok i => i =? Z.of_nat k
                        | Raise _ => false
                        end)
              (seq 0 (length pcs))
  | None => true
  end.

Definition midi_le (a b : Note.t) : Prop := Note.midi_number a <= Note.midi_number b.

Definition scale_types : list string :=
  ["major"; "natural_minor"; "harmonic_minor"; "melodic_minor"; "dorian"; "phrygian";
   "lydian"; "mixolydian"; "locrian"; "chromatic"; "pentatonic_major";
   "pentatonic_minor"; "blues"; "whole_tone"; "diminished_hw"; "diminished_wh"].

(** A scale of the catalog on a tonic with a given MIDI number: what the
    methods of [Scale] read of a scale. *)
Definition scale_on (m : Z) (scale_type : string) : Scale.t :=
  {| Scale.tonic := Note.mk "" 0 m; Scale.scale_type := scale_type;
     Scale._is_mode := false; Scale._parent_scale := None;
     Scale._mode_number := None |}.

(** For a tonic and a scale type: each degree's note is found at its own
    degree, and the scale contains it. *)
Definition degree_check (m : Z) (scale_type : string) : bool :=
  let scale := scale_on m scale_type in
  forallb (fun d =>
             match Scale.get_degree Scale.SCALE_PATTERNS scale d with
             | Ok n =>
                 match Scale.get_note_degree Scale.SCALE_PATTERNS scale n with
                 | Ok (Some d') => d' =? d
                 | _ => false
                 end
                 && match Scale.contains_note Scale.SCALE_PATTERNS scale n with
                    | Ok b => b
                    | Raise _ => false
                    end
             | Raise _ => true
             end)
          (Zrange 1 12).

(** The qualities of the chords on the seven degrees. *)
Definition diatonic_triads (mode : string) : list string :=
  if String.eqb mode "major"
  then ["major"; "minor"; "minor"; "major"; "major"; "minor"; "diminished"]
  else ["minor"; "diminished"; "major"; "minor"; "minor"; "major"; "major"].

Definition diatonic_sevenths (mode : string) : list string :=
  if String.eqb mode "major"
  then ["major7"; "minor7"; "minor7"; "major7"; "dominant7"; "minor7";
        "half_diminished7"]
  else ["minor7"; "half_diminished7"; "major7"; "minor7"; "minor7"; "major7";
        "dominant7"].

Definition key_scale_type (mode : string) : string :=
  if String.eqb mode "major" then "major" else "natural_minor".

Definition diatonic_check (m : Z) (mode : string) : bool :=
  let scale := scale_on m (key_scale_type mode) in
  forallb
    (fun d =>
       match Scale.get_chord_for_degree Scale.SCALE_PATTERNS scale d "triad",
             Scale.get_chord_for_degree Scale.SCALE_PATTERNS scale d "seventh",
             Scale.SCALE_PATTERNS !! key_scale_type mode with
       | Ok triad, Ok seventh, Some pattern =>
           bool_decide (nth_error (diatonic_triads mode) (Z.to_nat (d - 1))
                        = Some (Chord.quality triad))
           && bool_decide (nth_error (diatonic_sevenths mode) (Z.to_nat (d - 1))
                           = Some (Chord.quality seventh))
           && (Note.midi_number (Chord.root triad) =? m + Py.nth_Z (d - 1) pattern 0)
           && (Note.midi_number (Chord.root seventh) =? m + Py.nth_Z (d - 1) pattern 0)
       | _, _, _ => false
       end)
    (Zrange 1 7).

(** Two lists of pitch classes with the same members. *)
Definition same_members (a b : list string) : bool :=
  forallb (fun x => Py.str_in x b) a && forallb (fun x => Py.str_in x a) b.

Definition note_same (a b : Note.t) : bool :=
  String.eqb (Note.pitch_class a) (Note.pitch_class b)
  && (Note.octave a =? Note.octave b)
  && (Note.midi_number a =? Note.midi_number b).

Definition relative_check (m : Z) (from_type to_type : string) : bool :=
  let scale := scale_on m from_type in
  match Scale.get_relative_scale Scale.SCALE_PATTERNS scale to_type with
  | Ok r =>
      String.eqb (Scale.scale_type r) to_type
      && match Scale.notes Scale.SCALE_PATTERNS scale with
         | Ok ns => existsb (note_same (Scale.tonic r)) ns
         | Raise _ => false
         end
      && match Scale.pitch_classes Scale.SCALE_PATTERNS r,
               Scale.pitch_classes Scale.SCALE_PATTERNS scale with
         | Ok pcs', Ok pcs => same_members pcs pcs'
         | Ok _, Raise _ => false
         | Raise _, _ => true
         end
  | Raise _ => true
  end.

(** A key on a tonic with a given MIDI number, as [Key.__init__] builds it
    for the modes 'major' and 'minor'. *)
Definition key_on (m : Z) (mode : string) : Key.t :=
  {| Key.tonic := Note.mk "" 0 m; Key.mode := mode;
     Key._scale := scale_on m (key_scale_type mode) |}.

Definition other_mode (mode : string) : string :=
  if String.eqb mode "major" then "minor" else "major".

Definition relative_shift (mode : string) : Z :=
  if String.eqb mode "major" then -3 else 3.

Definition key_pitch_classes (key : Key.t) : result (list string) :=
  Scale.pitch_classes Scale.SCALE_PATTERNS (Key.scale key).

Definition relative_key_check (m : Z) (mode : string) : bool :=
  match Key.relative_key (key_on m mode) with
  | Ok rk =>
      String.eqb (Key.mode rk) (other_mode mode)
      && (Note.midi_number (Key.tonic rk) =? m + relative_shift mode)
      && match Key.relative_key rk with
         | Ok back =>
             String.eqb (Key.mode back) mode
             && (Note.midi_number (Key.tonic back) =? m)
         | Raise _ => false
         end
      && match key_pitch_classes (key_on m mode), key_pitch_classes rk with
         | Ok pcs, Ok pcs' => same_members pcs pcs'
         | _, _ => true
         end
  | Raise _ => false
  end.

Definition signature_check (sig : Z) (mode : string) : bool :=
  match Key.from_signature sig mode with
  | Ok key =>
      (Key.signature key =? sig)
      && String.eqb (Key.mode key) mode
      && (Note.octave (Key.tonic key) =? 4)
      && (Z.of_nat (length (Key.accidentals key)) =? Z.abs sig)
  | Raise _ => false
  end.

Definition plain_scale_same (a b : Scale.t) : bool :=
  note_same (Scale.tonic a) (Scale.tonic b)
  && String.eqb (Scale.scale_type a) (Scale.scale_type b)
  && negb (Scale._is_mode a) && negb (Scale._is_mode b)
  && match Scale._parent_scale a, Scale._parent_scale b,
           Scale._mode_number a, Scale._mode_number b with
     | None, None, None, None => true
     | _, _, _, _ => false
     end.

Definition key_same (a b : Key.t) : bool :=
  note_same (Key.tonic a) (Key.tonic b)
  && String.eqb (Key.mode a) (Key.mode b)
  && plain_scale_same (Key._scale a) (Key._scale b).

Definition fifths_check (m : Z) (mode : string) : bool :=
  let key := key_on m mode in
  match Key.get_dominant_key key, Key.get_subdominant_key key,
        Key.tonicize key 5, Key.tonicize key 4 with
  | Ok d, Ok s, Ok d', Ok s' =>
      key_same d' d && key_same s' s
      && (Note.midi_number (Key.tonic d) =? m + 7)
      && (Note.midi_number (Key.tonic s) =? m + 5)
      && String.eqb (Key.mode d) mode && String.eqb (Key.mode s) mode
      && match Key.get_subdominant_key d, Key.get_dominant_key s with
         | Ok back, Ok back' =>
             key_same back' back
             && (Note.midi_number (Key.tonic back) =? m + 12)
             && String.eqb (Key.mode back) mode
         | _, _ => false
         end
  | _, _, _, _ => false
  end.

(** The pattern [from_mode] computes for a mode of a parent pattern. *)
Definition rotated_pattern (parent_pattern : list Z) (mode : Z) : list Z :=
  map (fun degree => (degree - Py.nth_Z (if mode <? 0
                                         then mode + Z.of_nat (length parent_pattern)
                                         else mode) parent_pattern 0) mod 12)
      (Py.slice_from parent_pattern mode ++ Py.slice_to parent_pattern mode)%list.

Definition usable_mode (parent_scale : string) (mode : Z) : bool :=
  String.eqb parent_scale "major" && Py.int_in mode [1; 2; 3; 4; 6].

Definition result_eqb {A : Type} (eqb : A -> A -> bool) (r : result A) (expected : result A)
    : bool :=
  match r, expected with
  | Ok a, Ok b => eqb a b
  | Raise KeyError, Raise KeyError => true
  | _, _ => false
  end.

Definition pattern_eqb (a b : list Z) : bool := bool_decide (a = b).

Definition from_mode_check (tonic : Note.t) (parent_scale : string) (mode : Z) : bool :=
  match Scale.from_mode Scale.initial_state tonic mode parent_scale with
  | (Ok scale, st') =>
      match Scale.SCALE_PATTERNS !! parent_scale with
      | Some parent_pattern =>
          if usable_mode parent_scale mode
          then result_eqb pattern_eqb (Scale.pattern (Scale.patterns st') scale)
                          (Ok (rotated_pattern parent_pattern mode))
          else result_eqb pattern_eqb (Scale.pattern (Scale.patterns st') scale)
                          (Raise KeyError)
               && match Scale.notes (Scale.patterns st') scale with
                  | Raise KeyError => true
                  | _ => false
                  end
      | None => false
      end
  | (Raise _, _) => true
  end.

(** The degree [_parse_roman_numeral] reads from the first letter. *)
Definition numeral_degree (c : ascii) : option Z :=
  if Ascii.eqb c "I" || Ascii.eqb c "i" then Some 1
  else if Ascii.eqb c "V" || Ascii.eqb c "v" then Some 5
  else None.

Definition c_major_key : Key.t :=
  {| Key.tonic := Note.mk "C" 4 60; Key.mode := "major";
     Key._scale := Scale.mk (Note.mk "C" 4 60) "major" false None None |}.

(** The position a Python index denotes in a list of [n] items. *)
Definition list_position (n index : Z) : Z := if index <? 0 then index + n else index.

Definition chord_on (name : string) (midi : Z) (quality : string) : Chord.t :=
  Chord.mk (Note.mk name 4 midi) quality (Note.mk name 4 midi).

Definition four_chords : ChordProgression.t :=
  {| ChordProgression.chords :=
       [chord_on "C" 60 "major"; chord_on "A" 69 "minor"; chord_on "F" 65 "major";
        chord_on "G" 67 "major"];
     ChordProgression.key := None;
     ChordProgression.durations := [1.0; 1.0; 2.0; 4.0]%float |}.

Fixpoint sum_semitones (ts : list (Chord.t * Chord.t * Interval.t)) : Z :=
  match ts with
  | [] => 0
  | (_, _, root_movement) :: ts' => Interval.semitones root_movement + sum_semitones ts'
  end.

(** A chord of a quality on a root with a given MIDI number: what
    [Chord.notes] reads of a chord. *)
Definition chord_at (m : Z) (quality : string) : Chord.t :=
  Chord.mk (Note.mk "" 0 m) quality (Note.mk "" 0 m).

Definition detect_check (m : Z) (quality : string) : bool :=
  match Chord.notes (chord_at m quality) with
  | Ok notes =>
      match ChordDetector.detect_chord_from_notes ChordDetector.default notes None with
      | Ok (Some c) =>
          String.eqb (Chord.quality c) quality
          && note_same (Chord.root c)
               (Note.mk (Py.nth_Z (m mod 12) Note.CHROMATIC_SCALE "") (-1) (m mod 12))
          && note_same (Chord.bass c) (Chord.root c)
      | _ => false
      end
  | Raise _ => true
  end.

Definition sharp_spelled (note : Note.t) : Prop :=
  In (Note.pitch_class note) KeyDetector.CHROMATIC_NOTES.

(** * Proofs *)

(** ** Exceptions *)

Lemma bind_Ok {A B : Type} (r : result A) (k : A -> result B) (b : B) :
  (r ≫= k) = Ok b -> exists a, r = Ok a /\ k a = Ok b.
Proof. destruct r as [a|e]; simpl; [eauto | discriminate]. Qed.

Tactic Notation "inv_bind" hyp(H) "as" ident(a) ident(Ha) :=
  apply bind_Ok in H; destruct H as (a & Ha & H).

Lemma Ok_inj {A : Type} (a b : A) : Ok a = Ok b -> a = b.
Proof. intros H. injection H as H. exact H. Qed.

(** [H : Ok a = Ok x] for a variable [x]: replace [x] by [a]. *)
Ltac inv_ok H := apply Ok_inj in H; subst.

Lemma bind_eq {A B : Type} (r : result A) (k : A -> result B) (a : A) :
  r = Ok a -> (r ≫= k) = k a.
Proof. intros ->. reflexivity. Qed.

(** ** The order of binary64 floats *)

Section FloatOrder.
Local Open Scope float_scope.

Ltac fold_pos_compare :=
  repeat match goal with
  | |- context [Pos.compare_cont Eq ?a ?b] => change (Pos.compare_cont Eq a b) with (Pos.compare a b)
  | H : context [Pos.compare_cont Eq ?a ?b] |- _ => change (Pos.compare_cont Eq a b) with (Pos.compare a b) in H
  end.

Ltac pos_compare_to_order :=
  repeat match goal with
  | H : Pos.compare ?a ?b = Lt |- _ => change (Pos.lt a b) in H
  | H : Pos.compare _ _ = Gt |- _ => apply Pos.compare_gt_iff in H
  | |- Pos.compare ?a ?b = Lt => change (Pos.lt a b)
  | |- Pos.compare _ _ = Gt => apply Pos.compare_gt_iff
  end.

Lemma SFcompare_antisym (x y : spec_float) :
  SFcompare y x = option_map CompOpp (SFcompare x y).
Proof.
  destruct x as [sx|sx| |sx mx ex], y as [sy|sy| |sy my ey]; simpl;
    try reflexivity; try (destruct sx, sy; reflexivity);
    try (destruct sx; reflexivity); try (destruct sy; reflexivity).
  fold_pos_compare.
  destruct sx, sy; simpl; try reflexivity;
    rewrite (Z.compare_antisym ex ey), (Pos.compare_antisym mx my);
    destruct (ex ?= ey)%Z; simpl; try reflexivity;
    destruct (mx ?= my)%positive; reflexivity.
Qed.

Lemma SFcompare_eq_left (x y z : spec_float) :
  SFcompare x y = Some Eq -> SFcompare x z = SFcompare y z.
Proof.
  intros H.
  assert (Hxy : match x, y with
                | S754_finite sx mx ex, S754_finite sy my ey =>
                    sx = sy /\ mx = my /\ ex = ey
                | S754_zero _, S754_zero _ => True
                | S754_infinity sx, S754_infinity sy => sx = sy
                | _, _ => False
                end).
  { destruct x as [sx|sx| |sx mx ex], y as [sy|sy| |sy my ey]; simpl in H;
      try discriminate; try exact I;
      try (destruct sx; discriminate); try (destruct sy; discriminate).
    - destruct sx, sy; try discriminate; reflexivity.
    - fold_pos_compare.
      destruct sx, sy; try discriminate;
        (destruct (Z.compare_spec ex ey) as [->| |]; try discriminate);
        injection H as H;
        try (apply CompOpp_iff in H; simpl in H);
        apply Pos.compare_eq in H; subst; auto. }
  destruct x as [sx|sx| |sx mx ex], y as [sy|sy| |sy my ey]; try contradiction.
  - destruct z; reflexivity.
  - subst; reflexivity.
  - destruct Hxy as (-> & -> & ->); reflexivity.
Qed.

Lemma SFcompare_lt_trans (x y z : spec_float) :
  SFcompare x y = Some Lt -> SFcompare y z = Some Lt -> SFcompare x z = Some Lt.
Proof.
  destruct x as [sx|sx| |sx mx ex], y as [sy|sy| |sy my ey], z as [sz|sz| |sz mz ez];
    simpl; try discriminate;
    try (destruct sx; try discriminate); try (destruct sy; try discriminate);
    try (destruct sz; try discriminate); try reflexivity; simpl; try discriminate.
  all: fold_pos_compare.
  all: intros H1 H2; injection H1 as H1; injection H2 as H2; f_equal.
  all: destruct (Z.compare_spec ex ey) as [E1|E1|E1]; try discriminate;
       destruct (Z.compare_spec ey ez) as [E2|E2|E2]; try discriminate;
       destruct (Z.compare_spec ex ez) as [E3|E3|E3]; try lia; try reflexivity.
  all: try (apply CompOpp_iff in H1; simpl in H1); try (apply CompOpp_iff in H2; simpl in H2).
  all: try (apply CompOpp_iff; simpl).
  all: pos_compare_to_order; lia.
Qed.

Lemma SFcompare_some (x y : float) :
  is_nan x = false -> is_nan y = false ->
  exists c, SFcompare (Prim2SF x) (Prim2SF y) = Some c.
Proof.
  unfold is_nan. rewrite !negb_false_iff, !FloatAxioms.eqb_spec. unfold SFeqb.
  destruct (Prim2SF x), (Prim2SF y); simpl; try discriminate; eauto.
Qed.

Lemma float_leb_not_nan (x y : float) :
  (x <=? y) = true -> is_nan x = false /\ is_nan y = false.
Proof.
  unfold is_nan. rewrite !negb_false_iff, FloatAxioms.leb_spec, !FloatAxioms.eqb_spec. unfold SFleb, SFeqb.
  destruct (Prim2SF x) as [[]|[]| |[] ? ?], (Prim2SF y) as [[]|[]| |[] ? ?]; simpl;
    try discriminate; intros _; fold_pos_compare;
    rewrite ?Z.compare_refl, ?Pos.compare_refl; auto.
Qed.

Lemma float_ltb_leb (x y : float) : (x <? y) = true -> (x <=? y) = true.
Proof.
  rewrite FloatAxioms.ltb_spec, FloatAxioms.leb_spec. unfold SFltb, SFleb.
  destruct (SFcompare _ _) as [[]|]; easy.
Qed.

Lemma float_ltb_false_leb (x y : float) :
  is_nan x = false -> is_nan y = false -> (x <? y) = false -> (y <=? x) = true.
Proof.
  intros Hx Hy. destruct (SFcompare_some x y Hx Hy) as [c Hc].
  rewrite FloatAxioms.ltb_spec, FloatAxioms.leb_spec. unfold SFltb, SFleb.
  rewrite (SFcompare_antisym (Prim2SF x) (Prim2SF y)), Hc.
  destruct c; simpl; easy.
Qed.

Lemma float_leb_refl (x : float) : is_nan x = false -> (x <=? x) = true.
Proof.
  unfold is_nan. rewrite negb_false_iff, FloatAxioms.leb_spec, FloatAxioms.eqb_spec. unfold SFleb, SFeqb.
  destruct (SFcompare _ _) as [[]|]; easy.
Qed.

Lemma float_leb_trans (x y z : float) :
  (x <=? y) = true -> (y <=? z) = true -> (x <=? z) = true.
Proof.
  rewrite !FloatAxioms.leb_spec. unfold SFleb.
  destruct (SFcompare (Prim2SF x) (Prim2SF y)) as [[]|] eqn:Hxy; try discriminate;
    destruct (SFcompare (Prim2SF y) (Prim2SF z)) as [[]|] eqn:Hyz; try discriminate;
    intros _ _.
  - rewrite (SFcompare_eq_left _ _ _ Hxy), Hyz. reflexivity.
  - rewrite (SFcompare_eq_left _ _ _ Hxy), Hyz. reflexivity.
  - assert (Hzy : SFcompare (Prim2SF z) (Prim2SF y) = Some Eq)
      by (rewrite SFcompare_antisym, Hyz; reflexivity).
    rewrite (SFcompare_antisym (Prim2SF z) (Prim2SF x)),
            (SFcompare_eq_left _ _ _ Hzy), (SFcompare_antisym (Prim2SF x) (Prim2SF y)), Hxy.
    reflexivity.
  - rewrite (SFcompare_lt_trans _ _ _ Hxy Hyz). reflexivity.
Qed.

Lemma float_eqb_sym (x y : float) : (x =? y) = (y =? x).
Proof.
  rewrite !FloatAxioms.eqb_spec. unfold SFeqb.
  rewrite (SFcompare_antisym (Prim2SF y) (Prim2SF x)).
  destruct (SFcompare _ _) as [[]|]; reflexivity.
Qed.

Lemma float_eqb_trans (x y z : float) :
  (x =? y) = true -> (y =? z) = true -> (x =? z) = true.
Proof.
  rewrite !FloatAxioms.eqb_spec. unfold SFeqb.
  destruct (SFcompare (Prim2SF x) (Prim2SF y)) as [[]|] eqn:Hxy; try discriminate.
  rewrite (SFcompare_eq_left _ _ _ Hxy). auto.
Qed.

End FloatOrder.

(** ** core/note.py and core/chord.py *)

Lemma index_from_In (x : string) (l : list string) (i j : Z) :
  Py.index_from x l i = Ok j -> In x l.
Proof.
  revert i. induction l as [|y l IH]; simpl; intros i H; [discriminate|].
  destruct (String.eqb_spec y x) as [->|]; [now left | right; eauto].
Qed.

(** C3 (the code departs from the property).  Each way of building a
    note checks one half of the invariant only.  The integer path and
    [transpose] check the MIDI number, which lies in 0..127 for every
    note they return; the string path checks the octave, which lies in
    0..10 for every note it returns.  So [Note('A', 9)] is built with
    the MIDI number 129, which [Note(129)] rejects; [Note(0)] is built
    with the octave -1, which [Note('C', -1)] rejects; and transposing
    C0 down an octave returns a note of octave -1 as well. *)
Theorem note_invariant_not_enforced :
  (forall (m : Z) (octave : option Z) (n : Note.t),
      Note.init (Note.PInt m) octave = Ok n -> 0 <= Note.midi_number n <= 127)
  /\ (forall (self : Note.t) (semitones : Z) (n : Note.t),
         Note.transpose self semitones = Ok n -> 0 <= Note.midi_number n <= 127)
  /\ (forall (pitch : string) (octave : option Z) (n : Note.t),
         Note.init (Note.PStr pitch) octave = Ok n -> 0 <= Note.octave n <= 10)
  /\ (exists n,
         Note.init (Note.PStr "A") (Some 9) = Ok n
         /\ Note.midi_number n = 129 /\ ~ Note.in_range n
         /\ Note.init (Note.PInt 129) None = Raise ValueError)
  /\ (exists n,
         Note.init (Note.PInt 0) None = Ok n
         /\ Note.octave n = -1 /\ ~ Note.in_range n
         /\ Note.init (Note.PStr "C") (Some (-1)) = Raise ValueError)
  /\ (exists c0 n,
         Note.init (Note.PStr "C") (Some 0) = Ok c0
         /\ Note.transpose c0 (-12) = Ok n
         /\ Note.octave n = -1 /\ ~ Note.in_range n).
Proof.
  assert (Hint : forall m octave n,
             Note.init (Note.PInt m) octave = Ok n -> 0 <= Note.midi_number n <= 127).
  { intros m octave n H. unfold Note.init in H.
    destruct ((0 <=? m) && (m <=? 127)) eqn:Hr; simpl in H; [|discriminate].
    injection H as <-. cbn [Note.midi_number].
    apply andb_true_iff in Hr as [H0 H1].
    apply Z.leb_le in H0, H1. lia. }
  split; [exact Hint|]. split; [|split].
  - intros self semitones n H. unfold Note.transpose in H.
    destruct (negb _); [discriminate|].
    apply Hint in H. exact H.
  - intros pitch octave n H. unfold Note.init in H.
    inv_bind H as pc Hpc. destruct octave as [o|]; [|discriminate].
    destruct ((0 <=? o) && (o <=? 10)) eqn:Hr; simpl in H; [|discriminate].
    inv_bind H as midi Hmidi. injection H as <-. cbn [Note.octave].
    apply andb_true_iff in Hr as [H0 H1]. apply Z.leb_le in H0, H1. lia.
  - split; [|split].
    + exists (Note.mk "A" 9 129). split; [reflexivity|]. split; [reflexivity|].
      split; [|reflexivity].
      unfold Note.in_range. cbn [Note.midi_number Note.octave]. lia.
    + exists (Note.mk "C" (-1) 0). split; [reflexivity|]. split; [reflexivity|].
      split; [|reflexivity].
      unfold Note.in_range. cbn [Note.midi_number Note.octave]. lia.
    + exists (Note.mk "C" 0 12), (Note.mk "C" (-1) 0).
      split; [reflexivity|]. split; [reflexivity|]. split; [reflexivity|].
      unfold Note.in_range. cbn [Note.midi_number Note.octave]. lia.
Qed.

Lemma chord_tones_keys (q : string) (l : list Z) :
  Chord.CHORD_TONES !! q = Some l -> In q chord_qualities.
Proof.
  intros H. unfold Chord.CHORD_TONES in H.
  apply elem_of_list_to_map_2, list_elem_of_In in H. simpl in H.
  repeat (destruct H as [H|H]; [injection H as <- _; simpl; tauto|]).
  contradiction.
Qed.

Lemma octave4_root_cases (pitch : Note.pitch_arg) (octave : option Z) (root : Note.t) :
  Note.init pitch octave = Ok root -> Note.octave root = 4 -> In root octave4_roots.
Proof.
  intros H Ho. destruct pitch as [m|s].
  - unfold Note.init in H.
    destruct ((0 <=? m) && (m <=? 127)) eqn:Hr; simpl in H; [|discriminate].
    injection H as <-. cbn [Note.octave] in Ho.
    assert (Hm : 60 <= m <= 71) by (Z.div_mod_to_equations; lia).
    assert (Hc : m = 60 \/ m = 61 \/ m = 62 \/ m = 63 \/ m = 64 \/ m = 65 \/ m = 66
                 \/ m = 67 \/ m = 68 \/ m = 69 \/ m = 70 \/ m = 71) by lia.
    repeat (destruct Hc as [->|Hc]; [vm_compute; tauto|]).
    subst m. vm_compute. tauto.
  - unfold Note.init in H. inv_bind H as pc Hpc.
    destruct octave as [o|]; [|discriminate].
    destruct (negb _); [discriminate|]. inv_bind H as midi Hmidi. injection H as <-.
    cbn [Note.octave] in Ho. subst o.
    assert (Hin : In pc (Note.CHROMATIC_SCALE ++ Note.FLAT_SCALE)%list).
    { pose proof Hmidi as Hi. unfold Note._calculate_midi_number in Hi.
      inv_bind Hi as i Hidx.
      apply in_or_app.
      destruct (Py.index pc Note.CHROMATIC_SCALE) eqn:Hc.
      - left. eapply index_from_In. exact Hc.
      - right. eapply index_from_In. exact Hidx. }
    simpl in Hin.
    repeat (destruct Hin as [<-|Hin];
            [vm_compute in Hmidi; injection Hmidi as <-; vm_compute; tauto|]).
    contradiction.
Qed.

Lemma roundtrip_check_all :
  forallb (fun root => forallb (roundtrip_check root) chord_qualities) octave4_roots
  = true.
Proof. vm_compute. reflexivity. Qed.

(** C5.  For every quality of [CHORD_TONES] and every root note at octave
    4, with the bass equal to the root, the chord has a symbol and
    [from_symbol] parses that symbol back into an equal chord. *)
Theorem from_symbol_roundtrip (pitch : Note.pitch_arg) (octave : option Z)
    (root : Note.t) (q : string) (bass : option Note.t) :
  Note.init pitch octave = Ok root -> Note.octave root = 4 ->
  is_Some (Chord.CHORD_TONES !! q) ->
  match bass with Some b => Note.eqb b root = true | None => True end ->
  exists c s c',
    Chord.init root q bass = Ok c /\ Chord.symbol c = Ok s
    /\ Chord.from_symbol s 4 = Ok c' /\ Chord.eqb c' c = true.
Proof.
  intros Hroot Ho [l Hq] Hbass.
  pose proof (octave4_root_cases _ _ _ Hroot Ho) as Hin.
  pose proof (chord_tones_keys _ _ Hq) as Hqin.
  pose proof roundtrip_check_all as Hall.
  rewrite forallb_forall in Hall. specialize (Hall _ Hin).
  rewrite forallb_forall in Hall. specialize (Hall _ Hqin).
  unfold roundtrip_check in Hall.
  unfold Chord.init in *. rewrite Hq in *.
  unfold Chord.symbol in *. cbn [Chord.quality Chord.root Chord.bass] in *.
  destruct (Chord.CHORD_SYMBOLS !! q) as [suffix|] eqn:Hsuf; [|discriminate].
  assert (Hself : Note.eqb root root = true) by apply Z.eqb_refl.
  rewrite Hself in Hall. cbn [negb] in Hall.
  destruct (Chord.from_symbol (Note.pitch_class root ++ suffix) 4) as [c'|]
    eqn:Hfs; [|discriminate].
  apply andb_true_iff in Hall as [Hall _]. apply andb_true_iff in Hall as [Heq _].
  destruct bass as [b|].
  - eexists _, _, c'. split; [reflexivity|]. cbn [Chord.quality Chord.root Chord.bass].
    rewrite Hsuf, Hbass. cbn [negb]. split; [reflexivity|]. split; [exact Hfs|].
    unfold Chord.eqb in *. cbn [Chord.quality Chord.root Chord.bass] in *.
    apply andb_true_iff in Heq as [Heq Hb]. rewrite Heq. cbn [andb].
    unfold Note.eqb in *. apply Z.eqb_eq in Hb, Hbass. apply Z.eqb_eq. lia.
  - eexists _, _, c'. split; [reflexivity|]. cbn [Chord.quality Chord.root Chord.bass].
    rewrite Hsuf, Hself. cbn [negb]. auto.
Qed.

(** C5 at F#4 minor7. *)
Lemma from_symbol_roundtrip_witness :
  exists c s c',
    Chord.init (Note.mk "F#" 4 66) "minor7" None = Ok c /\ Chord.symbol c = Ok s
    /\ Chord.from_symbol s 4 = Ok c' /\ Chord.eqb c' c = true.
Proof.
  apply (from_symbol_roundtrip (Note.PStr "F#") (Some 4) (Note.mk "F#" 4 66) "minor7" None).
  - reflexivity.
  - reflexivity.
  - vm_compute. eauto.
  - exact I.
Defined.

(** ** core/progression.py and core/scale.py *)

Lemma length_repeat_list {A : Type} (l : list A) (n : nat) :
  length (Py.repeat_list l n) = (n * length l)%nat.
Proof. induction n as [|n IH]; simpl; [reflexivity|]. rewrite length_app, IH. lia. Qed.

Lemma init_invariant (chords : list Chord.t) (key : option Key.t)
    (durations : option (list float)) (p : ChordProgression.t) :
  ChordProgression.init chords key durations = Ok p -> ChordProgression.invariant p.
Proof.
  unfold ChordProgression.init, ChordProgression.invariant.
  destruct chords as [|c chords]; [discriminate|].
  destruct durations as [ds|].
  - destruct (Nat.eqb_spec (length ds) (length (c :: chords))) as [E|]; simpl;
      [|discriminate].
    intros [= <-]. simpl. split; [symmetry; exact E | discriminate].
  - intros [= <-]. cbn [ChordProgression.chords ChordProgression.durations].
    split; [|discriminate].
    unfold Py.mul_list. rewrite Nat2Z.id, length_repeat_list. cbn [length]. lia.
Qed.

Lemma length_list_insert {A : Type} (l : list A) (index : Z) (x : A) :
  length (ChordProgression.list_insert l index x) = S (length l).
Proof.
  unfold ChordProgression.list_insert.
  set (k := Z.to_nat _).
  pose proof (firstn_skipn k l) as E. apply (f_equal (@length A)) in E.
  rewrite length_app in E. rewrite length_app. cbn [length]. lia.
Qed.

(** C7.  [ChordProgression] raises [ValueError] for an empty chord list
    and for a durations list of another length than the chord list.
    Every progression that [transpose], [substitute_chord],
    [insert_chord], [extend] or [repeat] returns has as many durations as
    chords and is not empty; on a progression with the invariant,
    [insert_chord] and [extend] always return, [repeat] returns for a
    positive count and [substitute_chord] for an index in range. *)
Theorem progression_invariant :
  (forall key durations,
      ChordProgression.init [] key durations = Raise ValueError)
  /\ (forall chords key durations,
         length durations <> length chords ->
         ChordProgression.init chords key (Some durations) = Raise ValueError)
  /\ (forall self interval p,
         ChordProgression.transpose self interval = Ok p -> ChordProgression.invariant p)
  /\ (forall self index new_chord p,
         ChordProgression.substitute_chord self index new_chord = Ok p ->
         ChordProgression.invariant p)
  /\ (forall self index chord duration p,
         ChordProgression.insert_chord self index chord duration = Ok p ->
         ChordProgression.invariant p)
  /\ (forall self other p,
         ChordProgression.extend self other = Ok p -> ChordProgression.invariant p)
  /\ (forall self times p,
         ChordProgression.repeat self times = Ok p -> ChordProgression.invariant p)
  /\ (forall self,
         ChordProgression.invariant self ->
         (forall index chord duration,
             is_ok (ChordProgression.insert_chord self index chord duration) = true)
         /\ (forall other, ChordProgression.invariant other ->
                           is_ok (ChordProgression.extend self other) = true)
         /\ (forall times, 1 <= times ->
                           is_ok (ChordProgression.repeat self times) = true)
         /\ (forall index new_chord,
                - ChordProgression.len self <= index < ChordProgression.len self ->
                is_ok (ChordProgression.substitute_chord self index new_chord) = true)).
Proof.
  split; [reflexivity|]. split.
  { intros chords key durations Hne. unfold ChordProgression.init.
    destruct chords; [reflexivity|].
    destruct (Nat.eqb_spec (length durations) (length (t :: chords))); [contradiction|].
    reflexivity. }
  split.
  { intros self interval p H. unfold ChordProgression.transpose in H.
    inv_bind H as cs Hcs. inv_bind H as k Hk. eapply init_invariant; eauto. }
  split.
  { intros self index new_chord p H. unfold ChordProgression.substitute_chord in H.
    inv_bind H as cs Hcs. eapply init_invariant; eauto. }
  split. { intros self index chord duration p H. eapply init_invariant; eauto. }
  split. { intros self other p H. eapply init_invariant; eauto. }
  split.
  { intros self times p H. unfold ChordProgression.repeat in H.
    destruct (times <? 1); [discriminate|]. eapply init_invariant; eauto. }
  intros self [Hlen Hne]. repeat split.
  - intros index chord duration. unfold ChordProgression.insert_chord, ChordProgression.init.
    destruct (ChordProgression.list_insert (ChordProgression.chords self) index chord)
      eqn:E.
    + apply (f_equal (@length _)) in E. rewrite length_list_insert in E. discriminate.
    + rewrite <- E, !length_list_insert, Hlen, Nat.eqb_refl. reflexivity.
  - intros other [Hlen' Hne']. unfold ChordProgression.extend, ChordProgression.init.
    destruct (ChordProgression.chords self ++ ChordProgression.chords other)%list eqn:E.
    + apply app_eq_nil in E as [E _]. contradiction.
    + rewrite <- E, !length_app, Hlen, Hlen', Nat.eqb_refl. reflexivity.
  - intros times Ht. unfold ChordProgression.repeat, ChordProgression.init.
    destruct (Z.ltb_spec times 1); [lia|].
    destruct (Py.mul_list (ChordProgression.chords self) times) eqn:E.
    + apply (f_equal (@length _)) in E. unfold Py.mul_list in E.
      rewrite length_repeat_list in E. cbn [length] in E.
      destruct (ChordProgression.chords self); [contradiction|]. cbn [length] in E. nia.
    + rewrite <- E. unfold Py.mul_list. rewrite !length_repeat_list, Hlen, Nat.eqb_refl.
      reflexivity.
  - intros index new_chord Hi.
    unfold ChordProgression.substitute_chord, ChordProgression.setitem,
      ChordProgression.len in *.
    set (n := Z.of_nat (length (ChordProgression.chords self))) in *.
    assert (Hr : (0 <=? (if index <? 0 then index + n else index))
                 && ((if index <? 0 then index + n else index) <? n) = true).
    { destruct (Z.ltb_spec index 0); apply andb_true_iff; split;
        try apply Z.leb_le; try apply Z.ltb_lt; lia. }
    rewrite Hr. cbn. unfold ChordProgression.init.
    destruct (<[_ := new_chord]> (ChordProgression.chords self)) eqn:E.
    + apply (f_equal (@length _)) in E. rewrite length_insert in E. cbn [length] in E.
      destruct (ChordProgression.chords self); [contradiction|]. discriminate.
    + rewrite <- E, length_insert, Hlen, Nat.eqb_refl. reflexivity.
Qed.

Lemma initial_state_well_formed : well_formed Scale.initial_state.
Proof. unfold well_formed. simpl. lia. Qed.

(** C10.  [from_mode] leaves [SCALE_PATTERNS] with the contents it had
    before the call, whatever the outcome.  For the tonic C4, mode 0 of
    'major', the scale returned has the type 'ionian', which the catalog
    does not hold, and reading its pattern or its notes raises
    [KeyError]. *)
Theorem from_mode_restores_catalog :
  (forall st tonic mode parent_scale r st',
      well_formed st ->
      Scale.from_mode st tonic mode parent_scale = (r, st') ->
      well_formed st' /\ Scale.patterns st' = Scale.patterns st)
  /\ (exists scale st',
         Note.of_name "C" 4 = Ok c4
         /\ Scale.from_mode Scale.initial_state c4 0 "major" = (Ok scale, st')
         /\ Scale.scale_type scale = "ionian"
         /\ Scale.SCALE_PATTERNS !! "ionian" = None
         /\ Scale.patterns st' = Scale.SCALE_PATTERNS
         /\ Scale.pattern (Scale.patterns st') scale = Raise KeyError
         /\ Scale.notes (Scale.patterns st') scale = Raise KeyError).
Proof.
  split.
  - intros st tonic mode parent_scale r st' Hwf H. unfold Scale.from_mode in H.
    destruct (Scale.patterns st !! parent_scale) as [parent_pattern|];
      [|injection H as <- <-; auto].
    destruct (Z.of_nat (length parent_pattern) <=? mode); [injection H as <- <-; auto|].
    destruct (Py.getitem parent_pattern mode) as [mode_root|e];
      [|injection H as <- <-; auto].
    injection H as <- <-. unfold well_formed, Scale.patterns in *.
    cbn [Scale.objects Scale.SCALE_PATTERNS_ref].
    rewrite length_insert, length_app. cbn [length]. split; [lia|].
    rewrite list_lookup_insert_ne by lia.
    rewrite lookup_app_r by lia. rewrite Nat.sub_diag. reflexivity.
  - eexists _, _. split; [reflexivity|]. split; [vm_compute; reflexivity|].
    repeat split; vm_compute; reflexivity.
Qed.

(** ** core/key.py *)

Lemma function_tables (d : Z) :
  Key.function_in_major d = claimed_degree_table d
  /\ Key.function_in_minor d = claimed_degree_table d.
Proof.
  unfold Key.function_in_major, Key.function_in_minor, claimed_degree_table, Py.int_in.
  cbn [existsb].
  destruct (Z.eqb_spec d 1), (Z.eqb_spec d 2), (Z.eqb_spec d 3), (Z.eqb_spec d 4),
    (Z.eqb_spec d 5), (Z.eqb_spec d 6), (Z.eqb_spec d 7);
    try lia; split; reflexivity.
Qed.

Lemma claimed_degree_table_known (d : Z) : claimed_degree_table d <> Some "unknown".
Proof.
  unfold claimed_degree_table.
  destruct (_ || _ || _); [discriminate|]. destruct (_ || _); [discriminate|].
  destruct (_ || _); discriminate.
Qed.

(** C4 (the code departs from the property).  Whenever [analyze_chord]
    returns, the function is the entry of the degree table for the root's
    degree, the same in major and minor, and it is [None] when the root
    has no degree; it is never the string 'unknown'.  For the key of C
    major and the chord Db, whose root is outside the scale, the function
    is [None], and both readers of the analysis that default to 'unknown'
    return [None] as well. *)
Theorem analyze_chord_function_never_unknown :
  (forall key chord analysis,
      Key.analyze_chord key chord = Ok analysis ->
      Key.function analysis <> Some "unknown"
      /\ Key.function analysis
         = match Key.degree analysis with
           | Some d => claimed_degree_table d
           | None => None
           end)
  /\ (exists key chord analysis,
        c_major = Ok key /\ d_flat_major = Ok chord
        /\ Key.analyze_chord key chord = Ok analysis
        /\ Scale.contains_note Scale.SCALE_PATTERNS (Key.scale key) (Chord.root chord)
           = Ok false
        /\ Key.degree analysis = None
        /\ Key.function analysis = None
        /\ Strategy._get_harmonic_function chord key = Ok None
        /\ ChordJazzerDemo.get_harmonic_function chord key = Ok None).
Proof.
  split.
  - intros key chord analysis H. unfold Key.analyze_chord in H.
    inv_bind H as root_degree Hdeg. destruct root_degree as [d|].
    + inv_bind H as expected Hexp. inv_bind H as cpcs Hc. inv_bind H as epcs He.
      inv_bind H as pair Hpair. destruct pair as [diatonic non_chord].
      apply Ok_inj in H. subst analysis. cbn [Key.function Key.degree].
      destruct (function_tables d) as [Hmaj Hmin].
      destruct (String.eqb _ _); [rewrite Hmaj | rewrite Hmin];
        (split; [apply claimed_degree_table_known | reflexivity]).
    + apply Ok_inj in H. subst analysis. cbn [Key.function Key.degree].
      split; [discriminate | reflexivity].
  - eexists _, _, _. split; [vm_compute; reflexivity|].
    split; [vm_compute; reflexivity|]. split; [vm_compute; reflexivity|].
    repeat split; vm_compute; reflexivity.
Qed.

(** ** analysis/chord_detector.py *)

Section ChordDetection.
Import ChordDetector.

(** C1 (the code departs from the property).  [_find_best_chord_match]
    overwrites [best_score] before it builds the chord, and a template
    whose quality [Chord] rejects leaves the chord of an earlier round in
    place.  On the notes B3, C4, D#4 (MIDI 59, 60, 63) the detector
    returns C minor, although B major scores higher and B dominant7b9 is
    the highest-scoring candidate.  On C4, C#4 it returns C major, whose
    own score is below the threshold 0.5, while no quality that [Chord]
    accepts scores above 0.5. *)
Theorem detect_chord_keeps_stale_chord :
  (exists chord returned_score major_score best_score,
      mapM Note.of_midi [59; 60; 63] = Ok b_c_d_sharp
      /\ detect_chord_from_notes default b_c_d_sharp None = Ok (Some chord)
      /\ _find_best_chord_match [0; 3; 11] b_c_d_sharp None = Ok (Some chord)
      /\ Note.pitch_class (Chord.root chord) = "C" /\ Chord.quality chord = "minor"
      /\ score_of [0; 3; 11] b_c_d_sharp 0 "minor" = Some returned_score
      /\ score_of [0; 3; 11] b_c_d_sharp 11 "major" = Some major_score
      /\ score_of [0; 3; 11] b_c_d_sharp 11 "dominant7b9" = Some best_score
      /\ constructible "major" = true /\ constructible "dominant7b9" = false
      /\ (returned_score <? major_score)%float = true
      /\ (major_score <? best_score)%float = true
      /\ forallb (fun c : Z * string * float => (snd c <=? best_score)%float)
                 (candidates [0; 3; 11] b_c_d_sharp) = true
      /\ forallb (fun c : Z * string * float =>
                    negb (constructible (snd (fst c))) || (snd c <=? major_score)%float)
                 (candidates [0; 3; 11] b_c_d_sharp) = true)
  /\ (exists chord returned_score,
        detect_chord_from_notes default c_c_sharp None = Ok (Some chord)
        /\ _find_best_chord_match [0; 1] c_c_sharp None = Ok (Some chord)
        /\ Note.pitch_class (Chord.root chord) = "C" /\ Chord.quality chord = "major"
        /\ score_of [0; 1] c_c_sharp 0 "major" = Some returned_score
        /\ (returned_score <? 0.5)%float = true
        /\ forallb (fun c : Z * string * float =>
                      negb (constructible (snd (fst c))) || (snd c <=? 0.5)%float)
                   (candidates [0; 1] c_c_sharp) = true).
Proof.
  split.
  - do 4 eexists.
    split; [vm_compute; reflexivity|].
    split; [vm_compute; reflexivity|].
    split; [vm_compute; reflexivity|].
    split; [reflexivity|]. split; [reflexivity|].
    split; [vm_compute; reflexivity|].
    split; [vm_compute; reflexivity|].
    split; [vm_compute; reflexivity|].
    repeat split; vm_compute; reflexivity.
  - do 2 eexists.
    split; [vm_compute; reflexivity|].
    split; [vm_compute; reflexivity|].
    split; [reflexivity|]. split; [reflexivity|].
    split; [vm_compute; reflexivity|].
    split; vm_compute; reflexivity.
Qed.

End ChordDetection.

(** ** analysis/key_detector.py *)

Section KeyDetection.
Import KeyDetector.

Lemma Qmax_lt (a c : Q) : (a < c)%Q -> Qmax a c = c.
Proof.
  intros H. unfold Qmax, GenericMinMax.gmax.
  pose proof (proj1 (Qlt_alt a c) H) as E. rewrite E. reflexivity.
Qed.

Lemma Qmax_ge (a c : Q) : (c <= a)%Q -> Qmax a c = a.
Proof.
  intros H. unfold Qmax, GenericMinMax.gmax.
  destruct (a ?= c)%Q eqn:E; try reflexivity.
  pose proof (proj2 (Qlt_alt a c) E) as Hlt. apply Qle_not_lt in H. contradiction.
Qed.

Lemma Qmax_cases (a c : Q) : Qmax a c = a \/ Qmax a c = c.
Proof. unfold Qmax, GenericMinMax.gmax. destruct (a ?= c)%Q; auto. Qed.

Lemma fold_Qmax_range (l : list Q) (a : Q) :
  in_correlation_range a -> Forall in_correlation_range l ->
  in_correlation_range (fold_left Qmax l a).
Proof.
  intros Ha Hl. revert a Ha. induction Hl as [|c l Hc Hl IH]; cbn [fold_left]; intros a Ha.
  - exact Ha.
  - apply IH. destruct (Qmax_cases a c) as [-> | ->]; assumption.
Qed.

Lemma omap_map {A B C : Type} (f : B -> option C) (g : A -> B) (l : list A) :
  omap f (map g l) = omap (fun x => f (g x)) l.
Proof.
  induction l as [|x l IH]; cbn; [reflexivity|]. rewrite IH. reflexivity.
Qed.

Lemma omap_Forall {A B : Type} (P : B -> Prop) (f : A -> option B) (l : list A) :
  (forall x y, f x = Some y -> P y) -> Forall P (omap f l).
Proof.
  intros Hf. induction l as [|x l IH]; cbn; [constructor|].
  destruct (f x) as [y|] eqn:E; [constructor; eauto | exact IH].
Qed.

Lemma omap_app_list {A B : Type} (f : A -> option B) (l1 l2 : list A) :
  omap f (l1 ++ l2)%list = (omap f l1 ++ omap f l2)%list.
Proof.
  induction l1 as [|x l1 IH]; cbn; [reflexivity|].
  rewrite IH. destruct (f x); reflexivity.
Qed.

Lemma key_named_chromatic (mode : string) :
  mode = "major" \/ mode = "minor" ->
  Forall (fun item : Z * string => is_ok (key_named (snd item) mode) = true)
         (Strategy.enumerate CHROMATIC_NOTES).
Proof.
  intros [-> | ->]; apply List.Forall_forall; apply forallb_forall;
    vm_compute; reflexivity.
Qed.

Lemma of_midi_index (m : Z) (note : Note.t) :
  Note.of_midi m = Ok note ->
  Py.index (Note.pitch_class note) CHROMATIC_NOTES = Ok (m mod 12).
Proof.
  unfold Note.of_midi, Note.init. destruct (negb _) eqn:E; [discriminate|].
  intros H. apply Ok_inj in H. subst note. cbn [Note.pitch_class].
  pose proof (Z.mod_pos_bound m 12 ltac:(lia)) as Hr.
  set (r := m mod 12) in *.
  assert (Hcases : r = 0 \/ r = 1 \/ r = 2 \/ r = 3 \/ r = 4 \/ r = 5 \/ r = 6
                   \/ r = 7 \/ r = 8 \/ r = 9 \/ r = 10 \/ r = 11) by lia.
  repeat (destruct Hcases as [-> | Hcases]; [reflexivity|]). rewrite Hcases. reflexivity.
Qed.

Lemma getitem_in_range {A : Type} (l : list A) (i : Z) :
  0 <= i < Z.of_nat (length l) -> is_ok (Py.getitem l i) = true.
Proof.
  intros Hi. unfold Py.getitem. cbv zeta.
  destruct (i <? 0) eqn:E; [lia|].
  destruct ((0 <=? i) && (i <? Z.of_nat (length l)))%bool eqn:E'.
  - destruct (nth_error l (Z.to_nat i)) eqn:En; [reflexivity|].
    apply nth_error_None in En. lia.
  - apply andb_false_iff in E'. lia.
Qed.

Lemma fill_histogram_total (ws : list Q) (notes : list Note.t) (histogram : list Q) (i : Z) :
  Forall (fun note => is_ok (Py.index (Note.pitch_class note) CHROMATIC_NOTES) = true)
         notes ->
  0 <= i -> i + Z.of_nat (length notes) <= Z.of_nat (length ws) ->
  is_ok (fill_histogram (Some ws) histogram notes i) = true.
Proof.
  intros Hn. revert histogram i.
  induction Hn as [|note notes Hnote Hn IH]; intros histogram i Hi Hlen;
    cbn [fill_histogram]; [reflexivity|].
  destruct (Py.index _ _) as [idx|] eqn:Hidx; [|discriminate].
  cbn [length] in Hlen.
  assert (Hw : is_ok (weight_at (Some ws) i) = true).
  { unfold weight_at. destruct ws as [|w ws]; [reflexivity|].
    apply getitem_in_range. lia. }
  destruct (weight_at (Some ws) i) as [w|] eqn:Hw'; [|discriminate].
  rewrite !(bind_eq (Ok _) _ _ eq_refl).
  apply IH; lia.
Qed.

Lemma omap_cons {A B : Type} (f : A -> option B) (x : A) (l : list A) :
  omap f (x :: l) = match f x with Some y => y :: omap f l | None => omap f l end.
Proof. reflexivity. Qed.

Section KeyCorrelation.

Variable corrcoef : list Q -> list Q -> option Q.

Lemma try_key_step (histogram profile : list Q) (mode : string)
    (c0 : Q) (k0 : Key.t) (i : Z) (name : string) :
  is_ok (key_named name mode) = true ->
  exists k,
    try_key corrcoef histogram profile mode (c0, k0) (i, name)
    = Ok (match correlation_with corrcoef histogram profile i with
          | Some c => Qmax c0 c
          | None => c0
          end, k).
Proof.
  intros Hname. unfold try_key, correlation_with. cbv zeta.
  destruct (corrcoef histogram _) as [c|]; cbn [fst]; [|exists k0; reflexivity].
  destruct (Qlt_le_dec c0 c) as [Hlt|Hle].
  - destruct (key_named name mode) as [k|]; [|discriminate].
    exists k. rewrite (Qmax_lt _ _ Hlt). reflexivity.
  - exists k0. rewrite (Qmax_ge _ _ Hle). reflexivity.
Qed.

Lemma try_key_fold (histogram profile : list Q) (mode : string)
    (items : list (Z * string)) (state : best) :
  Forall (fun item : Z * string => is_ok (key_named (snd item) mode) = true) items ->
  exists k,
    ChordDetector.foldM (try_key corrcoef histogram profile mode) items state
    = Ok (fold_left Qmax
            (omap (fun item : Z * string =>
                     correlation_with corrcoef histogram profile (fst item)) items)
            (fst state), k).
Proof.
  intros H. revert state.
  induction H as [|[i name] items Hitem H IH]; intros [c0 k0];
    cbn [ChordDetector.foldM]; [exists k0; reflexivity|].
  rewrite omap_cons. cbn [fst snd] in *.
  destruct (try_key_step histogram profile mode c0 k0 i name Hitem) as [k Hk].
  rewrite (bind_eq _ _ _ Hk).
  destruct (correlation_with corrcoef histogram profile i) as [c|];
    cbn [fold_left]; apply (IH (_, k)).
Qed.

Lemma correlations_enumerate (self : t) (histogram : list Q) :
  correlations corrcoef self histogram
  = (omap (fun item : Z * string =>
             correlation_with corrcoef histogram (major_profile self) (fst item))
          (Strategy.enumerate CHROMATIC_NOTES)
     ++ omap (fun item : Z * string =>
                correlation_with corrcoef histogram (minor_profile self) (fst item))
             (Strategy.enumerate CHROMATIC_NOTES))%list.
Proof.
  unfold correlations. rewrite omap_app_list, !omap_map. reflexivity.
Qed.

Lemma find_best_key_match_confidence (self : t) (histogram : list Q) :
  exists key,
    _find_best_key_match corrcoef self histogram
    = Ok (key, Qmax 0 ((best_correlation corrcoef self histogram + 1) / 2)).
Proof.
  unfold _find_best_key_match, best_correlation.
  destruct (key_named "C" "major") as [k0|] eqn:Hk0; [|vm_compute in Hk0; discriminate].
  rewrite (bind_eq (Ok _) _ _ eq_refl).
  destruct (try_key_fold histogram (major_profile self) "major" _ (-1, k0)%Q
              (key_named_chromatic "major" (or_introl eq_refl))) as [k1 H1].
  rewrite (bind_eq _ _ _ H1).
  destruct (try_key_fold histogram (minor_profile self) "minor" _
              (fold_left Qmax
                 (omap (fun item : Z * string =>
                    correlation_with corrcoef histogram (major_profile self) (fst item))
                    (Strategy.enumerate CHROMATIC_NOTES)) (-1)%Q, k1)
              (key_named_chromatic "minor" (or_intror eq_refl))) as [k2 H2].
  cbn [fst] in H1. rewrite (bind_eq _ _ _ H2). cbn [fst].
  exists k2. rewrite correlations_enumerate, fold_left_app. reflexivity.
Qed.

Hypothesis corrcoef_range :
  forall x y c, corrcoef x y = Some c -> in_correlation_range c.

Lemma best_correlation_range (self : t) (histogram : list Q) :
  in_correlation_range (best_correlation corrcoef self histogram).
Proof.
  unfold best_correlation. apply fold_Qmax_range.
  - split; [apply Qle_refl | discriminate].
  - unfold correlations. apply omap_Forall. intros item c Hc.
    eapply corrcoef_range. exact Hc.
Qed.

Lemma confidence_range (self : t) (histogram : list Q) :
  (0 <= Qmax 0 ((best_correlation corrcoef self histogram + 1) / 2)
   /\ Qmax 0 ((best_correlation corrcoef self histogram + 1) / 2) <= 1)%Q.
Proof.
  destruct (best_correlation_range self histogram) as [Hlo Hhi].
  set (b := best_correlation corrcoef self histogram) in *.
  split; [apply Q.le_max_l|].
  apply Q.max_lub; [discriminate|].
  apply Qle_shift_div_r; [reflexivity|]. lra.
Qed.

End KeyCorrelation.

Lemma convert_indexable (midi_notes : list midi_note_dict) :
  Forall (fun note => is_ok (Py.index (Note.pitch_class note) CHROMATIC_NOTES) = true)
         (map fst (omap convert midi_notes)).
Proof.
  apply List.Forall_map. apply omap_Forall. intros d [note w] H. cbn [fst].
  unfold convert in H. destruct (midi_note d) as [m|]; [|discriminate].
  destruct (Note.of_midi m) as [n|] eqn:Hn; [|discriminate].
  injection H as -> _. rewrite (of_midi_index _ _ Hn). reflexivity.
Qed.

Lemma histogram_total (notes : list Note.t) (ws : list Q) :
  Forall (fun note => is_ok (Py.index (Note.pitch_class note) CHROMATIC_NOTES) = true)
         notes ->
  length notes = length ws ->
  is_ok (_create_pitch_class_histogram notes (Some ws)) = true.
Proof.
  intros Hn Hlen. unfold _create_pitch_class_histogram.
  pose proof (fill_histogram_total ws notes (replicate 12 0%Q) 0 Hn ltac:(lia) ltac:(lia))
    as Hfill.
  destruct (fill_histogram _ _ _ _) as [h|]; [|discriminate].
  rewrite (bind_eq (Ok _) _ _ eq_refl). destruct (Qlt_le_dec _ _); reflexivity.
Qed.

(** C8.  With correlations in -1..1, as [np.corrcoef] gives them:
    on an empty input both entry points return C major with confidence
    0; on a non-empty note list, whenever [detect_key_from_notes]
    returns, the confidence is [max(0, (best correlation + 1) / 2)] for
    the histogram of the notes and lies in 0..1, and it does return as
    soon as the histogram can be built; [detect_key_from_midi_notes]
    returns on every input, with a confidence in 0..1.  On a non-empty
    MIDI list, the entries that convert to a note always have a
    histogram, weighted by duration times velocity / 127, and the
    confidence returned is [max(0, (best correlation + 1) / 2)] for that
    histogram; when no entry converts, the answer is C major with
    confidence 0, the value of the formula at the correlation -1 from
    which the search starts. *)
Theorem detect_key_default_and_confidence
    (corrcoef : list Q -> list Q -> option Q) (self : t) :
  (forall x y c, corrcoef x y = Some c -> in_correlation_range c) ->
  (exists default_key,
      key_named "C" "major" = Ok default_key
      /\ Key.tonic default_key = c4 /\ Key.mode default_key = "major"
      /\ (forall weights,
            detect_key_from_notes corrcoef self [] weights = Ok (default_key, 0%Q))
      /\ detect_key_from_midi_notes corrcoef self [] = Ok (default_key, 0%Q))
  /\ (forall notes weights key confidence,
        notes <> [] ->
        detect_key_from_notes corrcoef self notes weights = Ok (key, confidence) ->
        exists histogram,
          _create_pitch_class_histogram notes weights = Ok histogram
          /\ confidence = Qmax 0 ((best_correlation corrcoef self histogram + 1) / 2)
          /\ (0 <= confidence)%Q /\ (confidence <= 1)%Q)
  /\ (forall notes weights histogram,
        notes <> [] ->
        _create_pitch_class_histogram notes weights = Ok histogram ->
        exists key,
          detect_key_from_notes corrcoef self notes weights
          = Ok (key, Qmax 0 ((best_correlation corrcoef self histogram + 1) / 2)))
  /\ (forall midi_notes,
        exists key confidence,
          detect_key_from_midi_notes corrcoef self midi_notes = Ok (key, confidence)
          /\ (0 <= confidence)%Q /\ (confidence <= 1)%Q)
  /\ (forall midi_notes,
        midi_notes <> [] ->
        let converted := omap convert midi_notes in
        (converted = [] ->
         exists default_key,
           key_named "C" "major" = Ok default_key
           /\ detect_key_from_midi_notes corrcoef self midi_notes = Ok (default_key, 0%Q))
        /\ (converted <> [] ->
            exists histogram key,
              _create_pitch_class_histogram (map fst converted) (Some (map snd converted))
              = Ok histogram
              /\ detect_key_from_midi_notes corrcoef self midi_notes
                 = Ok (key, Qmax 0 ((best_correlation corrcoef self histogram + 1) / 2))
              /\ (0 <= Qmax 0 ((best_correlation corrcoef self histogram + 1) / 2))%Q
              /\ (Qmax 0 ((best_correlation corrcoef self histogram + 1) / 2) <= 1)%Q)).
Proof.
  intros Hrange.
  assert (Hdefault : exists default_key,
            key_named "C" "major" = Ok default_key
            /\ Key.tonic default_key = c4 /\ Key.mode default_key = "major").
  { eexists. split; [vm_compute; reflexivity|]. split; reflexivity. }
  destruct Hdefault as (default_key & Hkey & Htonic & Hmode).
  assert (Hnotes : forall notes weights histogram,
            notes <> [] ->
            _create_pitch_class_histogram notes weights = Ok histogram ->
            exists key,
              detect_key_from_notes corrcoef self notes weights
              = Ok (key, Qmax 0 ((best_correlation corrcoef self histogram + 1) / 2))).
  { intros notes weights histogram Hne Hh. unfold detect_key_from_notes.
    destruct notes as [|note notes]; [contradiction|].
    rewrite (bind_eq _ _ _ Hh). apply find_best_key_match_confidence. }
  split; [|split; [|split; [exact Hnotes|split]]].
  - exists default_key. repeat split; try assumption.
    + intros weights. unfold detect_key_from_notes. rewrite (bind_eq _ _ _ Hkey).
      reflexivity.
    + unfold detect_key_from_midi_notes. rewrite (bind_eq _ _ _ Hkey). reflexivity.
  - intros notes weights key confidence Hne H.
    destruct (_create_pitch_class_histogram notes weights) as [histogram|] eqn:Hh.
    + destruct (Hnotes notes weights histogram Hne Hh) as [key' Hrun].
      rewrite Hrun in H. apply Ok_inj in H. injection H as _ <-.
      exists histogram. split; [reflexivity|]. split; [reflexivity|].
      apply confidence_range, Hrange.
    + unfold detect_key_from_notes in H. destruct notes; [contradiction|].
      rewrite Hh in H. discriminate.
  - intros midi_notes. unfold detect_key_from_midi_notes.
    destruct midi_notes as [|d midi_notes].
    { exists default_key, 0%Q. rewrite (bind_eq _ _ _ Hkey).
      split; [reflexivity|]. split; discriminate. }
    set (converted := omap convert (d :: midi_notes)).
    destruct (map fst converted) as [|note notes] eqn:Hconv.
    { exists default_key, 0%Q. unfold detect_key_from_notes.
      rewrite (bind_eq _ _ _ Hkey). split; [reflexivity|]. split; discriminate. }
    pose proof (histogram_total (map fst converted) (map snd converted)
                  (convert_indexable _) ltac:(rewrite !length_map; reflexivity)) as Hh.
    rewrite Hconv in Hh.
    destruct (_create_pitch_class_histogram (note :: notes) _) as [histogram|] eqn:Hhist;
      [|discriminate].
    destruct (Hnotes (note :: notes) _ histogram ltac:(discriminate) Hhist) as [key Hrun].
    exists key, (Qmax 0 ((best_correlation corrcoef self histogram + 1) / 2)).
    split; [exact Hrun|]. apply confidence_range, Hrange.
  - intros midi_notes Hne converted. unfold detect_key_from_midi_notes.
    destruct midi_notes as [|d midi_notes]; [contradiction|].
    fold converted. split.
    + intros Hnone. exists default_key. split; [exact Hkey|]. rewrite Hnone.
      unfold detect_key_from_notes. cbn [map]. rewrite (bind_eq _ _ _ Hkey). reflexivity.
    + intros Hsome.
      pose proof (histogram_total (map fst converted) (map snd converted)
                    (convert_indexable _) ltac:(rewrite !length_map; reflexivity)) as Hh.
      destruct (_create_pitch_class_histogram (map fst converted) _)
        as [histogram|] eqn:Hhist; [|discriminate].
      assert (Hmap : map fst converted <> []).
      { destruct converted; [contradiction|discriminate]. }
      destruct (Hnotes (map fst converted) _ histogram Hmap Hhist) as [key Hrun].
      exists histogram, key. split; [reflexivity|]. split; [exact Hrun|].
      apply confidence_range, Hrange.
Qed.

(** C8 with a constant correlation of 1/2: on the single note C4 the
    confidence is 3/4; on the MIDI entries 60 and 200, of which the
    second is skipped, the confidence is 3/4 for the histogram of C4
    with weight 64/127; on the MIDI entries 200 and a missing number,
    both skipped, the answer is C major with confidence 0. *)
Lemma detect_key_default_and_confidence_witness :
  (forall x y c, constant_corrcoef (1 # 2) x y = Some c -> in_correlation_range c)
  /\ (exists key confidence,
        detect_key_from_notes (constant_corrcoef (1 # 2)) (init "standard") [c4] None
        = Ok (key, confidence)
        /\ (confidence == 3 # 4)%Q /\ (0 <= confidence)%Q /\ (confidence <= 1)%Q)
  /\ (exists key histogram,
        [mk_midi (Some 60) None None; mk_midi (Some 200) None None] <> []
        /\ omap convert [mk_midi (Some 60) None None; mk_midi (Some 200) None None]
           = [(c4, 1 * (64 / 127))%Q]
        /\ _create_pitch_class_histogram [c4] (Some [1 * (64 / 127)]%Q) = Ok histogram
        /\ detect_key_from_midi_notes (constant_corrcoef (1 # 2)) (init "standard")
             [mk_midi (Some 60) None None; mk_midi (Some 200) None None]
           = Ok (key, Qmax 0 ((best_correlation (constant_corrcoef (1 # 2))
                                 (init "standard") histogram + 1) / 2))
        /\ (Qmax 0 ((best_correlation (constant_corrcoef (1 # 2))
                       (init "standard") histogram + 1) / 2) == 3 # 4)%Q)
  /\ (exists default_key,
        [mk_midi (Some 200) None None; mk_midi None None None] <> []
        /\ omap convert [mk_midi (Some 200) None None; mk_midi None None None] = []
        /\ key_named "C" "major" = Ok default_key
        /\ detect_key_from_midi_notes (constant_corrcoef (1 # 2)) (init "standard")
             [mk_midi (Some 200) None None; mk_midi None None None]
           = Ok (default_key, 0%Q)).
Proof.
  assert (Hrange : forall x y c,
            constant_corrcoef (1 # 2) x y = Some c -> in_correlation_range c).
  { intros x y c H. injection H as <-. split; discriminate. }
  split; [exact Hrange|].
  assert (Hrun : exists key confidence,
            detect_key_from_notes (constant_corrcoef (1 # 2)) (init "standard") [c4] None
            = Ok (key, confidence) /\ (confidence == 3 # 4)%Q).
  { vm_compute. do 2 eexists. split; reflexivity. }
  destruct Hrun as (key & confidence & Hrun & Hvalue).
  destruct (detect_key_default_and_confidence (constant_corrcoef (1 # 2))
              (init "standard") Hrange) as (_ & Hconf & _ & _ & Hmidi).
  destruct (Hconf [c4] None key confidence ltac:(discriminate) Hrun)
    as (histogram & _ & _ & Hlo & Hhi).
  split; [exists key, confidence; auto|].
  assert (Hconverted :
            omap convert [mk_midi (Some 60) None None; mk_midi (Some 200) None None]
            = [(c4, 1 * (64 / 127))%Q]).
  { vm_compute. reflexivity. }
  assert (Hskipped :
            omap convert [mk_midi (Some 200) None None; mk_midi None None None] = []).
  { vm_compute. reflexivity. }
  split.
  - destruct (Hmidi [mk_midi (Some 60) None None; mk_midi (Some 200) None None]
                ltac:(discriminate)) as [_ Hsome].
    cbv zeta in Hsome. rewrite Hconverted in Hsome.
    destruct (Hsome ltac:(discriminate)) as (histogram' & key' & Hh & Hrun' & _).
    cbn [map fst snd] in Hh.
    exists key', histogram'.
    split; [discriminate|]. split; [exact Hconverted|]. split; [exact Hh|].
    split; [exact Hrun'|].
    revert Hh. vm_compute. intros Hh. injection Hh as <-. vm_compute. reflexivity.
  - destruct (Hmidi [mk_midi (Some 200) None None; mk_midi None None None]
                ltac:(discriminate)) as [Hnone _].
    cbv zeta in Hnone.
    destruct (Hnone Hskipped) as (default_key & Hkey & Hrun').
    exists default_key.
    split; [discriminate|]. split; [exact Hskipped|]. split; [exact Hkey|exact Hrun'].
Defined.

End KeyDetection.

(** ** The strategies: confidence and voice leading within 0..1 *)

Lemma In_Zrange (lo hi x : Z) : lo <= x <= hi -> In x (Zrange lo hi).
Proof.
  intros H. unfold Zrange. apply in_map_iff. exists (Z.to_nat (x - lo)).
  split; [lia|]. apply in_seq. lia.
Qed.

Lemma mapM_length {A B : Type} (f : A -> result B) (l : list A) (k : list B) :
  mapM f l = Ok k -> length k = length l.
Proof.
  revert k. induction l as [|x l IH]; simpl; intros k H.
  - inv_ok H. reflexivity.
  - inv_bind H as y Hy. inv_bind H as ys Hys. inv_ok H. simpl.
    f_equal. auto.
Qed.

Lemma size_list_to_set_le (l : list string) :
  (size (list_to_set l : gset string) <= length l)%nat.
Proof.
  induction l as [|x l IH].
  - rewrite list_to_set_nil, size_empty. simpl. lia.
  - rewrite list_to_set_cons, size_union_alt, size_singleton. cbn [length].
    assert (size (list_to_set l ∖ {[x]} : gset string) <= size (list_to_set l : gset string))%nat
      by (apply subseteq_size, subseteq_difference_l; reflexivity).
    lia.
Qed.

Lemma chord_tones_length (q : string) (l : list Z) :
  Chord.CHORD_TONES !! q = Some l -> (length l <= 7)%nat.
Proof.
  intros H. unfold Chord.CHORD_TONES in H.
  apply elem_of_list_to_map_2, list_elem_of_In in H. simpl in H.
  repeat (destruct H as [H|H]; [injection H as _ <-; simpl; lia|]).
  contradiction.
Qed.

Lemma pitch_classes_size (c : Chord.t) (pcs : gset string) :
  Chord.pitch_classes c = Ok pcs -> (size pcs <= 7)%nat.
Proof.
  unfold Chord.pitch_classes, Chord.notes. intros H. inv_bind H as ns Hns.
  inv_ok H.
  destruct (Chord.CHORD_TONES !! Chord.quality c) as [l|] eqn:Hq; [|discriminate].
  apply mapM_length in Hns. apply chord_tones_length in Hq.
  pose proof (size_list_to_set_le (map Note.pitch_class ns)) as Hs.
  rewrite length_map in Hs. lia.
Qed.

Lemma voice_leading_in_values (chord1 chord2 : Chord.t) (v : float) :
  Strategy._calculate_voice_leading_quality chord1 chord2 = Ok v ->
  In v voice_leading_values.
Proof.
  unfold Strategy._calculate_voice_leading_quality. intros H.
  inv_bind H as pc1 H1. inv_bind H as pc2 H2.
  apply pitch_classes_size in H1, H2.
  assert (Hc : (size (pc1 ∩ pc2) <= size pc1)%nat)
    by apply subseteq_size, intersection_subseteq_l.
  assert (Hc' : (size (pc1 ∩ pc2) <= size pc2)%nat)
    by apply subseteq_size, intersection_subseteq_r.
  destruct (Z.eqb_spec (Z.of_nat (size pc1) `min` Z.of_nat (size pc2)) 0) as [E|E].
  - inv_ok H. left. reflexivity.
  - inv_ok H. right.
    apply in_flat_map. exists (Z.of_nat (size pc1) `min` Z.of_nat (size pc2)).
    split; [apply In_Zrange; lia|].
    apply in_flat_map. exists (Z.of_nat (size (pc1 ∩ pc2))).
    split; [apply In_Zrange; lia|].
    apply in_map. apply In_Zrange.
    unfold Interval.simple_semitones, Interval.from_notes, Interval.init. simpl.
    pose proof (Z.mod_pos_bound
                  (Note.midi_number (Chord.root chord2) - Note.midi_number (Chord.root chord1))
                  12). lia.
Qed.

Lemma forallb_values (f : float -> bool) :
  forallb f voice_leading_values = true -> forall v, In v voice_leading_values -> f v = true.
Proof. intros H v Hv. rewrite forallb_forall in H. auto. Qed.

Lemma voice_leading_in_unit (chord1 chord2 : Chord.t) (v : float) :
  Strategy._calculate_voice_leading_quality chord1 chord2 = Ok v -> in_unit v = true.
Proof.
  intros H. apply voice_leading_in_values in H. revert v H.
  apply forallb_values. vm_compute. reflexivity.
Qed.

Section ForallSuggestions.

Context {A : Type} (P : A -> Prop).

Lemma extend_each_Forall {B : Type} (f : B -> result (list A)) (l : list B)
    (r : list A) :
  (forall x ys, f x = Ok ys -> Forall P ys) ->
  Strategy.extend_each f l = Ok r -> Forall P r.
Proof.
  intros Hf. revert r. induction l as [|x l IH]; simpl; intros r H.
  - inv_ok H. constructor.
  - inv_bind H as ys Hys. inv_bind H as rest Hrest. inv_ok H.
    apply Forall_app. split; eauto.
Qed.

Lemma flat_map_Forall {B : Type} (f : B -> list A) (l : list B) :
  (forall x, In x l -> Forall P (f x)) -> Forall P (flat_map f l).
Proof.
  induction l as [|x l IH]; simpl; intros Hf; [constructor|].
  apply Forall_app. split; auto.
Qed.

Lemma try_except_Forall (r : result (list A)) :
  (forall l, r = Ok l -> Forall P l) -> Forall P (try_except r []).
Proof. intros H. destruct r as [l|e]; simpl; [auto | constructor]. Qed.

Lemma appended_until_raise_Forall (steps : list (result (list A))) :
  Forall (fun step => forall l, step = Ok l -> Forall P l) steps ->
  Forall P (appended_until_raise steps).
Proof.
  induction 1 as [|step steps Hstep _ IH]; simpl; [constructor|].
  destruct step as [l|e]; [|constructor].
  apply Forall_app. split; auto.
Qed.

End ForallSuggestions.

Lemma insert_desc_Forall (P : ChordSuggestion.t -> Prop) (x : ChordSuggestion.t)
    (l : list ChordSuggestion.t) :
  P x -> Forall P l -> Forall P (ChordSuggestion.insert_desc x l).
Proof.
  intros Hx. induction 1 as [|y l Hy Hl IH]; simpl; [repeat constructor; auto|].
  destruct (_ <? _)%float; repeat constructor; auto.
Qed.

Lemma sorted_desc_Forall (P : ChordSuggestion.t -> Prop) (l : list ChordSuggestion.t) :
  Forall P l -> Forall P (ChordSuggestion.sorted_desc l).
Proof.
  unfold ChordSuggestion.sorted_desc.
  induction 1 as [|x l Hx Hl IH]; simpl; [constructor|].
  apply insert_desc_Forall; auto.
Qed.

Lemma chord_init_cataloged (root : Note.t) (q : string) (bass : option Note.t)
    (c : Chord.t) :
  Chord.init root q bass = Ok c -> is_Some (Chord.CHORD_SYMBOLS !! Chord.quality c).
Proof.
  unfold Chord.init. destruct (Chord.CHORD_TONES !! q) as [l|] eqn:Hq; [|discriminate].
  intros [= <-]. cbn [Chord.quality].
  unfold Chord.CHORD_TONES in Hq.
  apply elem_of_list_to_map_2, list_elem_of_In in Hq. simpl in Hq.
  repeat (destruct Hq as [Hq|Hq]; [injection Hq as <- _; vm_compute; eauto|]).
  contradiction.
Qed.

Lemma get_chord_for_degree_cataloged (key : Key.t) (degree : Z) (c : Chord.t) :
  Key.get_chord_for_degree key degree = Ok c ->
  is_Some (Chord.CHORD_SYMBOLS !! Chord.quality c).
Proof.
  unfold Key.get_chord_for_degree, Scale.get_chord_for_degree. intros H.
  inv_bind H as root Hroot. inv_bind H as degrees Hdeg. inv_bind H as ns Hns.
  inv_bind H as cn Hcn. eapply chord_init_cataloged; eauto.
Qed.

Ltac split_conditions :=
  repeat match goal with
         | |- context [if ?b then _ else _] =>
             lazymatch b with
             | context [PrimFloat.ltb] => fail
             | context [PrimFloat.leb] => fail
             | _ => destruct b
             end
         end.

Ltac check_values v Hv :=
  revert v Hv;
  match goal with
  | |- forall v, In v _ -> @?f v = true => apply (forallb_values f)
  end;
  vm_compute; reflexivity.

Ltac single_suggestion :=
  constructor; [|constructor]; unfold well_bounded;
  cbn [ChordSuggestion.confidence ChordSuggestion.voice_leading_quality
       ChordSuggestion.chord].

Lemma borrowed_confidence_in_unit cur bor key pos prog c :
  BorrowedChordStrategy._calculate_borrowed_chord_confidence cur bor key pos prog = Ok c ->
  in_unit c = true.
Proof.
  unfold BorrowedChordStrategy._calculate_borrowed_chord_confidence. intros H.
  inv_bind H as f Hf. inv_bind H as v Hv. inv_ok H.
  apply voice_leading_in_values in Hv. cbv zeta. split_conditions; check_values v Hv.
Qed.

Lemma modal_confidence_in_unit cur bor key mode c :
  BorrowedChordStrategy._calculate_modal_borrowed_confidence cur bor key mode = Ok c ->
  in_unit c = true.
Proof.
  unfold BorrowedChordStrategy._calculate_modal_borrowed_confidence. intros H.
  inv_bind H as v Hv. inv_ok H.
  apply voice_leading_in_values in Hv. cbv zeta. split_conditions; check_values v Hv.
Qed.

Lemma borrowed_suggest_bounded progression key l :
  BorrowedChordStrategy.suggest progression key = Ok l -> Forall well_bounded l.
Proof.
  unfold BorrowedChordStrategy.suggest. intros H.
  destruct (Strategy.analysis_key progression key) as [k|]; [|inv_ok H; constructor].
  inv_bind H as suggestions Hs. inv_ok H.
  apply sorted_desc_Forall. revert Hs. apply extend_each_Forall.
  intros [i current] ys H. inv_bind H as good Hgood.
  destruct good; [|inv_ok H; constructor].
  unfold BorrowedChordStrategy._generate_borrowed_chords in H.
  destruct (Strategy._get_scale_degree current k) as [degree|];
    [|inv_ok H; constructor].
  destruct (degree =? 0); [inv_ok H; constructor|].
  inv_bind H as parallel Hpar. inv_ok H.
  apply Forall_app. split.
  - apply try_except_Forall. intros l H. inv_bind H as borrowed Hb.
    destruct (negb _); [|inv_ok H; constructor].
    inv_bind H as c Hc. inv_bind H as v Hv. inv_ok H.
    single_suggestion. split; [eapply borrowed_confidence_in_unit; eauto|].
    split; [eapply voice_leading_in_unit; eauto|].
    eapply get_chord_for_degree_cataloged; eauto.
  - unfold BorrowedChordStrategy._generate_modal_borrowed_chords.
    destruct (negb _); [constructor|].
    apply Forall_app. split.
    + destruct (degree =? 7); [|constructor].
      apply try_except_Forall. intros l H. inv_bind H as r Hr. inv_bind H as b Hb.
      inv_bind H as c Hc. inv_bind H as v Hv. inv_ok H.
      single_suggestion. split; [eapply modal_confidence_in_unit; eauto|].
      split; [eapply voice_leading_in_unit; eauto|].
      eapply chord_init_cataloged; eauto.
    + destruct (degree =? 3); [|constructor].
      apply try_except_Forall. intros l H. inv_bind H as r Hr. inv_bind H as b Hb.
      inv_bind H as c Hc. inv_bind H as v Hv. inv_ok H.
      single_suggestion. split; [eapply modal_confidence_in_unit; eauto|].
      split; [eapply voice_leading_in_unit; eauto|].
      eapply chord_init_cataloged; eauto.
Qed.

Lemma forallb_values2 (f : float -> float -> bool) :
  forallb (fun a => forallb (f a) voice_leading_values) voice_leading_values = true ->
  forall a b, In a voice_leading_values -> In b voice_leading_values -> f a b = true.
Proof.
  intros H a b Ha Hb. rewrite forallb_forall in H. specialize (H a Ha).
  rewrite forallb_forall in H. auto.
Qed.

Lemma passing_options_modifiers root chord1 chord2 key direction option :
  In option
     (ChromaticApproachStrategy._get_passing_chord_qualities root chord1 chord2 key
        direction) ->
  In (snd option) passing_modifiers.
Proof.
  unfold ChromaticApproachStrategy._get_passing_chord_qualities, passing_modifiers.
  destruct (ChromaticApproachStrategy._is_minor_passing_appropriate _ _ _ _),
    (ChromaticApproachStrategy._is_major_passing_appropriate _ _ _ _),
    (ChromaticApproachStrategy._could_be_secondary_dominant _ _ _);
    cbn [app In]; intros H;
    repeat (destruct H as [<-|H]; [cbn [snd In]; tauto|]); contradiction.
Qed.

Lemma passing_check_descending : passing_check_for 0.75 0.95 = true.
Proof. vm_compute. reflexivity. Qed.

Lemma passing_check_ascending : passing_check_for 0.7 0.9 = true.
Proof. vm_compute. reflexivity. Qed.

Lemma passing_chord_bounded base cap root chord1 chord2 position option :
  passing_check_for base cap = true ->
  In (snd option) passing_modifiers ->
  Forall well_bounded
    (ChromaticApproachStrategy.passing_chord base cap root chord1 chord2 position option).
Proof.
  intros Hall Hm. unfold ChromaticApproachStrategy.passing_chord.
  destruct option as [quality modifier]. cbn [snd] in Hm.
  apply try_except_Forall. intros l H.
  inv_bind H as pc Hpc. inv_bind H as v1 Hv1. inv_bind H as v2 Hv2. inv_ok H.
  apply voice_leading_in_values in Hv1, Hv2.
  unfold passing_check_for in Hall.
  rewrite forallb_forall in Hall. specialize (Hall _ Hm).
  pose proof (forallb_values2 _ Hall v1 v2 Hv1 Hv2) as Hc.
  unfold passing_check in Hc. apply andb_true_iff in Hc as [Hc1 Hc2].
  single_suggestion. split; [exact Hc1|]. split; [exact Hc2|].
  eapply chord_init_cataloged; eauto.
Qed.

Lemma chromatic_suggest_bounded progression key l :
  ChromaticApproachStrategy.suggest progression key = Ok l -> Forall well_bounded l.
Proof.
  unfold ChromaticApproachStrategy.suggest. intros H.
  destruct (Strategy.analysis_key progression key) as [k|]; [|inv_ok H; constructor].
  inv_bind H as suggestions Hs. inv_ok H.
  apply sorted_desc_Forall. revert Hs. apply extend_each_Forall.
  intros i ys H. inv_bind H as current Hcur. inv_bind H as next Hnext.
  destruct (ChromaticApproachStrategy._should_suggest_passing_chord _ _ _);
    [|inv_ok H; constructor].
  unfold ChromaticApproachStrategy._generate_passing_chords in H.
  destruct (_ <=? -2).
  - unfold ChromaticApproachStrategy._generate_descending_passing_chords in H.
    inv_bind H as root Hroot. inv_ok H.
    apply flat_map_Forall. intros option Hin.
    apply passing_chord_bounded; [exact passing_check_descending|].
    eapply passing_options_modifiers; eauto.
  - destruct (2 <=? _); [|inv_ok H; constructor].
    unfold ChromaticApproachStrategy._generate_ascending_passing_chords in H.
    inv_bind H as root Hroot. inv_ok H.
    apply flat_map_Forall. intros option Hin.
    apply passing_chord_bounded; [exact passing_check_ascending|].
    eapply passing_options_modifiers; eauto.
Qed.

Lemma neapolitan_resolution_cases progression position key has quality :
  NeapolitanStrategy._analyze_neapolitan_resolution progression position key
  = Ok (has, quality) ->
  In quality resolution_qualities.
Proof.
  unfold NeapolitanStrategy._analyze_neapolitan_resolution, resolution_qualities.
  intros H.
  destruct (position <? ChordProgression.len progression - 1);
    [|apply Ok_inj in H; injection H as <- <-; cbn [In]; tauto].
  inv_bind H as next Hnext. inv_bind H as f Hf.
  destruct (Strategy.is_function f "dominant"); [|apply Ok_inj in H; injection H as <- <-; cbn [In]; tauto].
  destruct (position <? ChordProgression.len progression - 2);
    [|apply Ok_inj in H; injection H as <- <-; cbn [In]; tauto].
  inv_bind H as final Hfinal. inv_bind H as ff Hff.
  destruct (Strategy.is_function ff "tonic"); apply Ok_inj in H; injection H as <- <-; cbn [In]; tauto.
Qed.

Lemma neapolitan_confidence_in_unit cur nea key pos chord_type prog c :
  NeapolitanStrategy._calculate_neapolitan_confidence cur nea key pos chord_type prog
  = Ok c ->
  in_unit c = true.
Proof.
  unfold NeapolitanStrategy._calculate_neapolitan_confidence,
    NeapolitanStrategy.base_confidence_map.
  intros H. inv_bind H as f Hf. inv_bind H as res Hres. destruct res as [has rq].
  inv_bind H as v Hv. inv_ok H.
  apply voice_leading_in_values in Hv.
  apply neapolitan_resolution_cases in Hres. unfold resolution_qualities in Hres.
  cbv zeta.
  cbn [In] in Hres. destruct Hres as [<-|[<-|[<-|[]]]];
    split_conditions; check_values v Hv.
Qed.

Lemma neapolitan_variant_bounded cur key pos prog nea chord_type l :
  is_Some (Chord.CHORD_SYMBOLS !! Chord.quality nea) ->
  NeapolitanStrategy.variant cur key pos prog nea chord_type = Ok l ->
  Forall well_bounded l.
Proof.
  unfold NeapolitanStrategy.variant. intros Hn H.
  inv_bind H as c Hc. inv_bind H as v Hv. inv_ok H.
  single_suggestion. split; [eapply neapolitan_confidence_in_unit; eauto|].
  split; [eapply voice_leading_in_unit; eauto | exact Hn].
Qed.

Lemma neapolitan_suggest_bounded progression key l :
  NeapolitanStrategy.suggest progression key = Ok l -> Forall well_bounded l.
Proof.
  unfold NeapolitanStrategy.suggest. intros H.
  destruct (Strategy.analysis_key progression key) as [k|]; [|inv_ok H; constructor].
  inv_bind H as suggestions Hs. inv_ok H.
  apply sorted_desc_Forall. revert Hs. apply extend_each_Forall.
  intros [i chord] ys H. inv_bind H as good Hgood.
  destruct good; [|inv_ok H; constructor].
  unfold NeapolitanStrategy._generate_neapolitan_chords in H.
  inv_bind H as root Hroot.
  destruct (Chord.init root "major" None) as [triad|] eqn:Htriad;
    [|inv_ok H; constructor].
  inv_ok H. apply appended_until_raise_Forall.
  repeat constructor.
  - intros l H.
    destruct (NeapolitanStrategy._create_neapolitan_sixth triad) as [sixth|] eqn:Hsixth;
      [|inv_ok H; constructor].
    eapply neapolitan_variant_bounded; [|exact H].
    unfold NeapolitanStrategy._create_neapolitan_sixth in Hsixth.
    destruct (Chord.notes triad ≫= _) as [o|] eqn:Hn; cbn [try_except] in Hsixth;
      [|discriminate].
    subst o. inv_bind Hn as ns Hns.
    destruct (2 <=? _); [|discriminate].
    inv_bind Hn as third Hthird. inv_bind Hn as c Hc. inv_ok Hn.
    injection Hn as <-. eapply chord_init_cataloged; eauto.
  - intros l H. eapply neapolitan_variant_bounded; [|exact H].
    eapply chord_init_cataloged; eauto.
  - intros l H.
    destruct (NeapolitanStrategy._create_neapolitan_seventh root) as [seventh|]
      eqn:Hseventh; [|inv_ok H; constructor].
    eapply neapolitan_variant_bounded; [|exact H].
    unfold NeapolitanStrategy._create_neapolitan_seventh in Hseventh.
    destruct (Chord.init root "dominant7" None) as [c|] eqn:Hc; [|discriminate].
    injection Hseventh as <-. eapply chord_init_cataloged; eauto.
Qed.

Lemma sub_confidence_in_unit orig sub key pos prog c :
  SubV7Strategy._calculate_sub_confidence orig sub key pos prog = Ok c ->
  (in_unit c && in_unit (c * 0.85) && in_unit (c * 0.75))%float = true.
Proof.
  unfold SubV7Strategy._calculate_sub_confidence. intros H.
  inv_bind H as smooth Hsmooth. inv_bind H as resolves Hresolves. inv_ok H.
  cbv zeta. split_conditions; vm_compute; reflexivity.
Qed.

Lemma tritone_voice_leading_in_unit orig sub prog pos v :
  SubV7Strategy._calculate_tritone_voice_leading orig sub prog pos = Ok v ->
  in_unit v = true.
Proof.
  unfold SubV7Strategy._calculate_tritone_voice_leading,
    SubV7Strategy._calculate_bass_motion_smoothness.
  intros H.
  destruct (pos <? ChordProgression.len prog - 1).
  - inv_bind H as next Hnext. inv_ok H. cbv zeta.
    split_conditions; vm_compute; reflexivity.
  - inv_ok H. vm_compute. reflexivity.
Qed.

Lemma sub_variation_bounded factor vlq root orig key pos prog quality :
  In (factor, vlq) [(0.85, 0.8); (0.75, 0.75)]%float ->
  Forall well_bounded
    (SubV7Strategy.variation factor vlq root orig key pos prog quality).
Proof.
  intros Hf. unfold SubV7Strategy.variation.
  apply try_except_Forall. intros l H.
  inv_bind H as var Hvar. inv_bind H as c Hc. inv_ok H.
  apply sub_confidence_in_unit in Hc.
  apply andb_true_iff in Hc as [Hc H75]. apply andb_true_iff in Hc as [Hc H85].
  single_suggestion.
  cbn [In] in Hf. destruct Hf as [Hf|[Hf|[]]]; injection Hf as <- <-;
    (split; [assumption|]); (split; [vm_compute; reflexivity|]);
    eapply chord_init_cataloged; eauto.
Qed.

Lemma sub_v7_suggest_bounded progression key l :
  SubV7Strategy.suggest progression key = Ok l -> Forall well_bounded l.
Proof.
  unfold SubV7Strategy.suggest. intros H.
  destruct (Strategy.analysis_key progression key) as [k|]; [|inv_ok H; constructor].
  inv_bind H as suggestions Hs. inv_ok H.
  apply sorted_desc_Forall. revert Hs. apply extend_each_Forall.
  intros [i chord] ys H. inv_bind H as good Hgood.
  destruct good; [|inv_ok H; constructor].
  unfold SubV7Strategy._generate_tritone_substitutions in H.
  inv_bind H as root Hroot. inv_ok H.
  apply appended_until_raise_Forall. repeat constructor.
  - intros l H. inv_bind H as sub Hsub. inv_bind H as c Hc. inv_bind H as v Hv.
    inv_ok H. apply sub_confidence_in_unit in Hc.
    apply andb_true_iff in Hc as [Hc _]. apply andb_true_iff in Hc as [Hc _].
    single_suggestion. split; [exact Hc|].
    split; [eapply tritone_voice_leading_in_unit; eauto|].
    eapply chord_init_cataloged; eauto.
  - intros l H. inv_ok H. unfold SubV7Strategy._generate_sub_variations.
    apply Forall_app. split.
    + destruct (String.eqb _ _); [|constructor].
      apply flat_map_Forall. intros q _. apply sub_variation_bounded. cbn [In]. tauto.
    + apply flat_map_Forall. intros q _. apply sub_variation_bounded. cbn [In]. tauto.
Qed.

Lemma suspension_confidence_in_unit orig sus key pos sus_type c :
  SuspendStrategy._calculate_suspension_confidence orig sus key pos sus_type = Ok c ->
  (in_unit c && in_unit (Py.min 0.95 (c + 0.1)))%float = true.
Proof.
  unfold SuspendStrategy._calculate_suspension_confidence,
    SuspendStrategy.base_confidence_map.
  intros H. inv_bind H as functional Hfun. inv_ok H. cbv zeta.
  split_conditions; vm_compute; reflexivity.
Qed.

Lemma suspend_suggest_bounded progression key l :
  SuspendStrategy.suggest progression key = Ok l -> Forall well_bounded l.
Proof.
  unfold SuspendStrategy.suggest. intros H. inv_bind H as resolutions Hres. inv_ok H.
  apply sorted_desc_Forall. apply Forall_app. split.
  - apply flat_map_Forall. intros [i chord] _.
    destruct (SuspendStrategy._is_good_suspension_candidate _ _); [|constructor].
    unfold SuspendStrategy._generate_suspensions. apply Forall_app. split.
    + destruct (SuspendStrategy._can_use_sus2 chord); [|constructor].
      apply try_except_Forall. intros l H.
      inv_bind H as sus Hsus. inv_bind H as c Hc. inv_bind H as v Hv. inv_ok H.
      apply suspension_confidence_in_unit in Hc. apply andb_true_iff in Hc as [Hc _].
      single_suggestion. split; [exact Hc|].
      split; [eapply voice_leading_in_unit; eauto|].
      eapply chord_init_cataloged; eauto.
    + destruct (SuspendStrategy._can_use_sus4 chord); [|constructor].
      apply try_except_Forall. intros l H.
      inv_bind H as sus Hsus. inv_bind H as c Hc. inv_bind H as v Hv. inv_ok H.
      apply suspension_confidence_in_unit in Hc. apply andb_true_iff in Hc as [Hc Hc'].
      single_suggestion.
      split; [destruct (Py.str_in _ _); assumption|].
      split; [eapply voice_leading_in_unit; eauto|].
      eapply chord_init_cataloged; eauto.
  - revert Hres. apply extend_each_Forall. intros i ys H.
    inv_bind H as chord1 H1. inv_bind H as chord2 H2.
    unfold SuspendStrategy._generate_suspension_resolutions in H.
    inv_bind H as suitable Hsuit. destruct suitable; [|inv_ok H; constructor].
    destruct (SuspendStrategy._create_resolving_suspension chord1 chord2)
      as [resolving|] eqn:Hr; [|inv_ok H; constructor].
    inv_ok H. single_suggestion.
    split; [vm_compute; reflexivity|]. split; [vm_compute; reflexivity|].
    unfold SuspendStrategy._create_resolving_suspension in Hr.
    destruct (String.eqb _ _); [|discriminate].
    repeat match type of Hr with
           | context [if ?b then _ else _] => destruct b
           end;
      repeat match type of Hr with
             | context [Chord.init ?r ?q ?b] =>
                 let E := fresh "E" in
                 destruct (Chord.init r q b) eqn:E
             end;
      try discriminate; injection Hr as <-; eapply chord_init_cataloged; eauto.
Qed.

Lemma functional_confidence_in_unit cur sug function key pos c :
  TSDMovementStrategy._calculate_functional_confidence cur sug function key pos = Ok c ->
  in_unit c = true.
Proof.
  unfold TSDMovementStrategy._calculate_functional_confidence. intros H.
  destruct (Strategy._get_scale_degree sug key) as [d|];
    [|inv_ok H; vm_compute; reflexivity].
  destruct (d =? 0); [inv_ok H; vm_compute; reflexivity|].
  inv_bind H as v Hv. inv_ok H. apply voice_leading_in_values in Hv. cbv zeta.
  destruct (TSDMovementStrategy.common_substitutions !! function) as [degrees|];
    split_conditions; check_values v Hv.
Qed.

Lemma bridge_bounded key position confidence vlq degree :
  in_unit confidence = true -> in_unit vlq = true ->
  Forall well_bounded (TSDMovementStrategy.bridge key position confidence vlq degree).
Proof.
  intros Hc Hv. unfold TSDMovementStrategy.bridge.
  apply try_except_Forall. intros l H. inv_bind H as c Hch. inv_ok H.
  single_suggestion. repeat split; auto.
  eapply get_chord_for_degree_cataloged; eauto.
Qed.

Lemma completion_bounded progression key degree confidence vlq :
  in_unit confidence = true -> in_unit vlq = true ->
  Forall well_bounded
    (TSDMovementStrategy.completion progression key degree confidence vlq).
Proof.
  intros Hc Hv. unfold TSDMovementStrategy.completion.
  apply try_except_Forall. intros l H. inv_bind H as c Hch. inv_ok H.
  single_suggestion. repeat split; auto.
  eapply get_chord_for_degree_cataloged; eauto.
Qed.

Lemma tsd_suggest_bounded progression key l :
  TSDMovementStrategy.suggest progression key = Ok l -> Forall well_bounded l.
Proof.
  unfold TSDMovementStrategy.suggest. intros H.
  destruct (Strategy.analysis_key progression key) as [k|]; [|inv_ok H; constructor].
  inv_bind H as fa Hfa. inv_bind H as improvements Himp.
  inv_bind H as completions Hcomp. inv_ok H.
  apply sorted_desc_Forall. apply Forall_app. split.
  - revert Himp. apply extend_each_Forall. intros [i [chord function]] ys H.
    unfold TSDMovementStrategy._suggest_functional_improvements in H.
    inv_bind H as current Hcur.
    destruct (Strategy.is_function function "unknown"); [inv_ok H; constructor|].
    destruct (Strategy._get_scale_degree current k) as [degree|];
      [|inv_ok H; constructor].
    destruct (degree =? 0); [inv_ok H; constructor|].
    destruct (TSDMovementStrategy.FUNCTIONAL_GROUPS !! Key.mode k) as [groups|];
      [|discriminate].
    destruct function as [function|]; [|inv_ok H; constructor].
    destruct (groups !! function) as [group|]; [|inv_ok H; constructor].
    inv_ok H. apply flat_map_Forall. intros alt _.
    destruct (negb _); [|constructor].
    unfold TSDMovementStrategy.alternative.
    apply try_except_Forall. intros l H. inv_bind H as alt_chord Halt.
    destruct (negb _); [|inv_ok H; constructor].
    inv_bind H as c Hc. destruct (0.6 <? c)%float; [|inv_ok H; constructor].
    inv_bind H as v Hv. inv_ok H.
    single_suggestion. split; [eapply functional_confidence_in_unit; eauto|].
    split; [eapply voice_leading_in_unit; eauto|].
    eapply get_chord_for_degree_cataloged; eauto.
  - unfold TSDMovementStrategy._suggest_functional_completions in Hcomp.
    inv_bind Hcomp as bridges Hbr. inv_ok Hcomp. apply Forall_app. split.
    + revert Hbr. apply extend_each_Forall. intros i ys H.
      inv_bind H as current Hcur. inv_bind H as next Hnext.
      destruct (TSDMovementStrategy._should_insert_functional_bridge _ _);
        [|inv_ok H; constructor].
      unfold TSDMovementStrategy._get_functional_bridge_suggestions in H.
      destruct (_ && _).
      * inv_bind H as degrees Hdeg. inv_ok H. apply flat_map_Forall. intros d _.
        apply bridge_bounded; vm_compute; reflexivity.
      * destruct (_ && _); [|inv_ok H; constructor].
        inv_bind H as degrees Hdeg. inv_ok H. apply flat_map_Forall. intros d _.
        apply bridge_bounded; vm_compute; reflexivity.
    + unfold TSDMovementStrategy._suggest_cadential_completions.
      destruct (2 <=? _); [|constructor].
      destruct (negb _); [|constructor].
      destruct (Strategy.is_function _ _).
      * apply completion_bounded; vm_compute; reflexivity.
      * destruct (negb _); [|constructor].
        apply completion_bounded; vm_compute; reflexivity.
Qed.

(** ** suggestions/suggestion_engine.py *)

Section SuggestionEngine.
Import ChordSuggestionEngine.

Lemma key_eqb_sym (k1 k2 : group_key) : key_eqb k1 k2 = key_eqb k2 k1.
Proof. unfold key_eqb. rewrite String.eqb_sym, float_eqb_sym. reflexivity. Qed.

Lemma key_eqb_trans (k1 k2 k3 : group_key) :
  key_eqb k1 k2 = true -> key_eqb k2 k3 = true -> key_eqb k1 k3 = true.
Proof.
  unfold key_eqb. rewrite !andb_true_iff. intros [H1 H1'] [H2 H2'].
  apply String.eqb_eq in H1, H2. split.
  - apply String.eqb_eq. congruence.
  - eapply float_eqb_trans; eauto.
Qed.

Lemma key_eqb_refl_of (k1 k2 : group_key) : key_eqb k1 k2 = true -> key_eqb k1 k1 = true.
Proof.
  intros H. eapply key_eqb_trans; [exact H|]. rewrite key_eqb_sym. exact H.
Qed.

Lemma same_key_sym a b : same_key a b = same_key b a.
Proof.
  unfold same_key. destruct (key_of a), (key_of b); try reflexivity. apply key_eqb_sym.
Qed.

Lemma same_key_trans a b c :
  same_key a b = true -> same_key b c = true -> same_key a c = true.
Proof.
  unfold same_key. destruct (key_of a), (key_of b), (key_of c); try discriminate.
  apply key_eqb_trans.
Qed.

Lemma dict_get_None k d :
  dict_get k d = None ->
  no_match k d /\ forall w, dict_set k w d = (d ++ [(k, w)])%list.
Proof.
  induction d as [|[k' v'] d IH]; simpl; intros H.
  - split; [constructor | reflexivity].
  - destruct (key_eqb k' k) eqn:E; [discriminate|].
    destruct (IH H) as [Hn Hs]. split; [constructor; auto|].
    intros w. rewrite Hs. reflexivity.
Qed.

Lemma dict_get_Some k d v :
  dict_get k d = Some v ->
  exists d1 k' d2,
    d = (d1 ++ (k', v) :: d2)%list /\ key_eqb k' k = true /\ no_match k d1
    /\ forall w, dict_set k w d = (d1 ++ (k', w) :: d2)%list.
Proof.
  induction d as [|[k' v'] d IH]; simpl; intros H; [discriminate|].
  destruct (key_eqb k' k) eqn:E.
  - injection H as ->. exists [], k', d. repeat split; auto. constructor.
  - destruct (IH H) as (d1 & k0 & d2 & -> & Hk & Hn & Hs).
    exists ((k', v') :: d1), k0, d2. repeat split; auto.
    + constructor; auto.
    + intros w. rewrite Hs. reflexivity.
Qed.

Lemma FOP_app {A : Type} (R : A -> A -> Prop) (l1 l2 : list A) :
  ForallOrdPairs R l1 -> ForallOrdPairs R l2 ->
  (forall a b, In a l1 -> In b l2 -> R a b) ->
  ForallOrdPairs R (l1 ++ l2).
Proof.
  induction 1 as [|a l1 Ha H1 IH]; simpl; intros H2 H12; [exact H2|].
  constructor.
  - apply Forall_app. split; [exact Ha|].
    apply Forall_forall. intros b Hb. apply list_elem_of_In in Hb. apply H12; auto.
  - apply IH; auto.
Qed.

Lemma in_snoc {A : Type} (x s : A) (l : list A) : In x (l ++ [s]) -> In x l \/ x = s.
Proof. intros H. apply in_app_or in H as [H|H]; [auto|]. destruct H as [H|H]; [auto|destruct H]. Qed.

Lemma in_one {A : Type} (x s : A) : In x [s] -> x = s.
Proof. intros H. destruct H as [H|H]; [auto|destruct H]. Qed.

Lemma remove_step_ok processed d s d' :
  groups_ok processed d -> Forall not_nan processed -> not_nan s ->
  remove_step d s = Ok d' ->
  groups_ok (processed ++ [s]) d'.
Proof.
  intros [Ha Hb Hc] Hnan Hs H. unfold remove_step in H.
  destruct (key_of s) as [ks|] eqn:Hks; [|discriminate]. cbn in H.
  assert (Hold : forall x, In x processed -> In x (processed ++ [s]))
    by (intros; apply in_or_app; auto).
  assert (Hnew : In s (processed ++ [s])) by (apply in_or_app; right; left; auto).
  destruct (dict_get ks d) as [kept|] eqn:Hget.
  - destruct (dict_get_Some _ _ _ Hget) as (d1 & k0 & d2 & -> & Hk0 & Hn & Hset).
    assert (Hkept : In kept processed /\ exists kv, key_of kept = Ok kv
                      /\ (key_eqb k0 kv = true \/ kv = k0)).
    { rewrite Forall_forall in Hb. apply (Hb (k0, kept)).
      apply list_elem_of_In, in_or_app. right. left. reflexivity. }
    destruct Hkept as (Hkin & kv & Hkv & Hkk).
    assert (Hk0kv : key_eqb k0 kv = true).
    { destruct Hkk as [Hq| ->]; [exact Hq|]. eapply key_eqb_refl_of; eauto. }
    destruct (_ <? _)%float eqn:Hlt; apply Ok_inj in H; subst d'.
    + rewrite Hset. constructor.
      * rewrite map_app in *. cbn [map fst] in *. exact Ha.
      * apply Forall_app in Hb as [Hb1 Hb2]. apply Forall_cons in Hb2 as [_ Hb2].
        apply Forall_app. split; [|apply Forall_cons; split].
        -- eapply Forall_impl; [exact Hb1|]. intros e (Hi & He). split; auto.
        -- cbn [fst snd]. split; [exact Hnew|]. exists ks. auto.
        -- eapply Forall_impl; [exact Hb2|]. intros e (Hi & He). split; auto.
      * intros x Hx. apply in_snoc in Hx as [Hx| ->].
        -- destruct (Hc x Hx) as (e & kx & He & Hle & Hkx & Halt).
           apply in_app_or in He as [He|[<-|He]].
           ++ exists e, kx. repeat split; auto. apply in_or_app. auto.
           ++ exists (k0, s), kx. cbn [fst snd] in *. split.
              { apply in_or_app. right. left. reflexivity. }
              split.
              { unfold conf_le in *. eapply float_leb_trans; [exact Hle|].
                apply float_ltb_leb. exact Hlt. }
              split; [exact Hkx|]. left.
              destruct Halt as [Hq| ->]; [exact Hq|]. congruence.
           ++ exists e, kx. repeat split; auto. apply in_or_app. right. right. auto.
        -- exists (k0, s), ks. cbn [fst snd]. split.
           { apply in_or_app. right. left. reflexivity. }
           split; [apply float_leb_refl; exact Hs|]. auto.
    + constructor; auto.
      * eapply Forall_impl; [exact Hb|]. intros e (Hi & He). split; auto.
      * intros x Hx. apply in_snoc in Hx as [Hx| ->].
        -- destruct (Hc x Hx) as (e & kx & He & Hrest). exists e, kx. auto.
        -- exists (k0, kept), ks. cbn [fst snd]. split.
           { apply in_or_app. right. left. reflexivity. }
           split.
           { apply float_ltb_false_leb; auto. rewrite Forall_forall in Hnan.
             apply Hnan, list_elem_of_In. exact Hkin. }
           auto.
  - destruct (dict_get_None _ _ Hget) as [Hn Hset].
    apply Ok_inj in H. subst d'. rewrite Hset. constructor.
    + rewrite map_app. apply FOP_app; [exact Ha| repeat constructor |].
      intros a b Hin Hb'. apply in_one in Hb'. subst b. apply in_map_iff in Hin as (e & <- & He).
      unfold no_match in Hn. rewrite Forall_forall in Hn. apply Hn, list_elem_of_In, He.
    + apply Forall_app. split.
      * eapply Forall_impl; [exact Hb|]. intros e (Hi & He). split; auto.
      * repeat constructor; cbn [fst snd]; auto. exists ks. auto.
    + intros x Hx. apply in_snoc in Hx as [Hx| ->].
      * destruct (Hc x Hx) as (e & kx & He & Hrest). exists e, kx.
        split; [apply in_or_app; auto | exact Hrest].
      * exists (ks, s), ks. cbn [fst snd]. split.
        { apply in_or_app. right. left. reflexivity. }
        split; [apply float_leb_refl; exact Hs|]. auto.
Qed.

Lemma remove_loop_ok l processed d d' :
  groups_ok processed d -> Forall not_nan processed -> Forall not_nan l ->
  remove_loop d l = Ok d' ->
  groups_ok (processed ++ l) d'.
Proof.
  revert processed d. induction l as [|s l IH]; cbn [remove_loop]; intros processed d Hok Hp Hl H.
  - apply Ok_inj in H. subst. rewrite app_nil_r. exact Hok.
  - inv_bind H as d1 Hd1. apply Forall_cons in Hl as [Hs Hl].
    replace (processed ++ s :: l)%list with ((processed ++ [s]) ++ l)%list
      by (rewrite <- app_assoc; reflexivity).
    eapply IH; [eapply remove_step_ok; eauto | | exact Hl | exact H].
    apply Forall_app. split; [exact Hp|]. repeat constructor. exact Hs.
Qed.

Lemma remove_loop_total l d :
  Forall (fun s => is_ok (key_of s) = true) l -> is_ok (remove_loop d l) = true.
Proof.
  revert d. induction l as [|s l IH]; cbn [remove_loop]; intros d Hl; [reflexivity|].
  apply Forall_cons in Hl as [Hs Hl]. unfold remove_step.
  destruct (key_of s) as [ks|]; [|discriminate]. cbn.
  destruct (dict_get ks d) as [kept|]; [destruct (_ <? _)%float|]; cbn; apply IH; auto.
Qed.

Lemma in_unit_not_nan (x : float) : in_unit x = true -> is_nan x = false.
Proof.
  unfold in_unit. intros H. apply andb_true_iff in H as [H _].
  apply float_leb_not_nan in H. tauto.
Qed.

Lemma well_bounded_not_nan s : well_bounded s -> not_nan s.
Proof. intros (H & _). apply in_unit_not_nan, H. Qed.

Lemma well_bounded_keyed s : well_bounded s -> is_ok (key_of s) = true.
Proof.
  intros (_ & _ & [suffix H]). unfold key_of, Chord.symbol.
  rewrite H. cbn. destruct (negb _); reflexivity.
Qed.

Lemma insert_desc_In x y l : In y (ChordSuggestion.insert_desc x l) -> y = x \/ In y l.
Proof.
  induction l as [|z l IH]; cbn [ChordSuggestion.insert_desc].
  - intros [<-|[]]. auto.
  - destruct (_ <? _)%float.
    + intros [<-|H]; [right; left; reflexivity|].
      destruct (IH H); [auto | right; right; assumption].
    + intros [<-|H]; auto.
Qed.

Lemma insert_desc_sorted x l :
  not_nan x -> Forall not_nan l ->
  StronglySorted conf_ge l -> StronglySorted conf_ge (ChordSuggestion.insert_desc x l).
Proof.
  intros Hx Hl Hs. induction Hs as [|y l Hs IH Hy]; cbn [ChordSuggestion.insert_desc].
  - repeat constructor.
  - apply Forall_cons in Hl as [Hny Hl].
    destruct (_ <? _)%float eqn:Hlt.
    + constructor; [apply IH, Hl|].
      apply List.Forall_forall. intros z Hz. apply insert_desc_In in Hz as [->|Hz].
      * apply float_ltb_leb, Hlt.
      * rewrite List.Forall_forall in Hy. apply Hy, Hz.
    + assert (Hyx : conf_ge x y) by (apply float_ltb_false_leb; assumption).
      constructor; [constructor; assumption|].
      constructor; [exact Hyx|].
      eapply List.Forall_impl; [|exact Hy]. intros z Hz. unfold conf_ge, conf_le in *.
      eapply float_leb_trans; eassumption.
Qed.

Lemma sorted_desc_sorted l :
  Forall not_nan l -> StronglySorted conf_ge (ChordSuggestion.sorted_desc l).
Proof.
  unfold ChordSuggestion.sorted_desc.
  induction 1 as [|x l Hx Hl IH]; cbn [foldr]; [constructor|].
  apply insert_desc_sorted; auto. apply sorted_desc_Forall in Hl. exact Hl.
Qed.

Lemma insert_desc_perm x l : Permutation (ChordSuggestion.insert_desc x l) (x :: l).
Proof.
  induction l as [|y l IH]; cbn [ChordSuggestion.insert_desc]; [reflexivity|].
  destruct (_ <? _)%float; [|reflexivity].
  rewrite IH. apply perm_swap.
Qed.

Lemma sorted_desc_perm l : Permutation (ChordSuggestion.sorted_desc l) l.
Proof.
  unfold ChordSuggestion.sorted_desc.
  induction l as [|x l IH]; cbn [foldr]; [reflexivity|].
  rewrite insert_desc_perm. constructor. exact IH.
Qed.

Lemma FOP_map {A B : Type} (f : A -> B) (R : B -> B -> Prop) (l : list A) :
  ForallOrdPairs R (map f l) <-> ForallOrdPairs (fun a b => R (f a) (f b)) l.
Proof.
  induction l as [|a l IH]; cbn [map]; split; intros H; try constructor;
    inversion H; subst.
  - rewrite List.Forall_map in *. assumption.
  - apply IH. assumption.
  - rewrite List.Forall_map. assumption.
  - apply IH. assumption.
Qed.

Lemma FOP_impl_In {A : Type} (R S : A -> A -> Prop) (l : list A) :
  (forall a b, In a l -> In b l -> R a b -> S a b) ->
  ForallOrdPairs R l -> ForallOrdPairs S l.
Proof.
  intros HRS H. induction H as [|a l Ha H IH]; constructor.
  - rewrite List.Forall_forall in *. intros b Hb. apply HRS; [left; auto | right; auto | auto].
  - apply IH. intros x y Hx Hy. apply HRS; right; auto.
Qed.

Lemma FOP_perm {A : Type} (R : A -> A -> Prop) (l l' : list A) :
  (forall a b, R a b -> R b a) ->
  Permutation l l' -> ForallOrdPairs R l -> ForallOrdPairs R l'.
Proof.
  intros Hsym Hp. induction Hp as [|x l l' Hp IH|x y l|l l' l'' Hp1 IH1 Hp2 IH2]; intros H.
  - constructor.
  - inversion H; subst. constructor; [|auto].
    eapply Permutation_Forall; eauto.
  - inversion H as [|? ? Hy Hrest]; subst. inversion Hrest as [|? ? Hx Hl]; subst.
    inversion Hy; subst. repeat constructor; auto.
  - auto.
Qed.

Lemma In_firstn {A : Type} (x : A) (n : nat) (l : list A) :
  In x (firstn n l) -> In x l.
Proof.
  revert n. induction l as [|a l IH]; intros [|n]; cbn [firstn]; try (intros H; destruct H; fail).
  intros [->|H]; [left; reflexivity | right; eapply IH; eauto].
Qed.

Lemma FOP_firstn {A : Type} (R : A -> A -> Prop) (n : nat) (l : list A) :
  ForallOrdPairs R l -> ForallOrdPairs R (firstn n l).
Proof.
  intros H. revert n. induction H as [|a l Ha H IH]; intros [|n]; cbn [firstn];
    try constructor; auto.
  rewrite List.Forall_forall in *. intros b Hb. apply Ha. eapply In_firstn; eauto.
Qed.

Lemma sorted_firstn {A : Type} (R : A -> A -> Prop) (n : nat) (l : list A) :
  StronglySorted R l -> StronglySorted R (firstn n l).
Proof.
  intros H. revert n. induction H as [|a l H IH Ha]; intros [|n]; cbn [firstn];
    try constructor; auto.
  rewrite List.Forall_forall in *. intros b Hb. apply Ha. eapply In_firstn; eauto.
Qed.

Lemma slice_to_firstn {A : Type} (l : list A) (k : Z) :
  0 <= k ->
  Py.slice_to l k = firstn (Z.to_nat k) l /\ Z.of_nat (length (Py.slice_to l k)) <= k.
Proof.
  intros Hk. unfold Py.slice_to, Py.clamp_index.
  destruct (k <? 0) eqn:E; [lia|].
  assert (Hlen : forall n, length (firstn n l) = Nat.min n (length l))
    by (intros; apply length_firstn).
  destruct (Z.min_spec k (Z.of_nat (length l))) as [[Hlt ->]|[Hle ->]].
  - split; [reflexivity|]. rewrite Hlen. lia.
  - split; [|rewrite Hlen; lia]. rewrite Nat2Z.id.
    rewrite !firstn_all2; auto; lia.
Qed.

Section Groups.

Variable processed : list ChordSuggestion.t.

Variable d : list (group_key * ChordSuggestion.t).

Hypothesis Hok : groups_ok processed d.

Lemma entry_key_matches e kv k :
  In e d -> key_of (snd e) = Ok kv -> key_eqb kv k = true -> key_eqb (fst e) k = true.
Proof.
  intros He Hkv Hk. pose proof (values_keyed _ _ Hok) as Hb.
  rewrite List.Forall_forall in Hb. destruct (Hb e He) as (_ & kv' & Hkv' & Halt).
  rewrite Hkv in Hkv'. apply Ok_inj in Hkv'. subst kv'.
  destruct Halt as [H| ->]; [eapply key_eqb_trans; eauto | exact Hk].
Qed.

Lemma cover_key e s ks :
  In e d -> key_of s = Ok ks -> key_eqb (fst e) ks = true \/ snd e = s ->
  key_eqb ks ks = true -> key_eqb (fst e) ks = true.
Proof.
  intros He Hks [H|H] Hrefl; [exact H|]. subst s. eapply entry_key_matches; eauto.
Qed.

Lemma same_entry e e' k :
  In e d -> In e' d -> key_eqb (fst e) k = true -> key_eqb (fst e') k = true -> e = e'.
Proof.
  intros He He' Hk Hk'. pose proof (keys_distinct _ _ Hok) as Ha.
  apply FOP_map in Ha.
  assert (Hee : key_eqb (fst e) (fst e') = true).
  { eapply key_eqb_trans; [exact Hk|]. rewrite key_eqb_sym. exact Hk'. }
  destruct (ForallOrdPairs_In Ha e e' He He') as [H|[H|H]]; [exact H| |].
  - cbv beta in H. congruence.
  - cbv beta in H. rewrite key_eqb_sym in H. congruence.
Qed.

Lemma unique_no_share :
  ForallOrdPairs (fun a b => same_key a b = false) (map snd d).
Proof.
  apply FOP_map. pose proof (keys_distinct _ _ Hok) as Ha. apply FOP_map in Ha.
  eapply FOP_impl_In; [|exact Ha]. cbv beta. intros e1 e2 H1 H2 Hne.
  destruct (same_key (snd e1) (snd e2)) eqn:Hsame; [|reflexivity].
  unfold same_key in Hsame.
  destruct (key_of (snd e1)) as [k1|] eqn:Hk1; [|discriminate].
  destruct (key_of (snd e2)) as [k2|] eqn:Hk2; [|discriminate].
  assert (H22 : key_eqb k2 k2 = true).
  { eapply key_eqb_refl_of. rewrite key_eqb_sym. exact Hsame. }
  pose proof (entry_key_matches e1 k1 k2 H1 Hk1 Hsame) as E1.
  pose proof (entry_key_matches e2 k2 k2 H2 Hk2 H22) as E2.
  rewrite key_eqb_sym in E2.
  rewrite (key_eqb_trans _ _ _ E1 E2) in Hne. discriminate.
Qed.

Lemma unique_incl : incl (map snd d) processed.
Proof.
  intros u Hu. apply in_map_iff in Hu as (e & <- & He).
  pose proof (values_keyed _ _ Hok) as Hb. rewrite List.Forall_forall in Hb.
  apply (Hb e He).
Qed.

Lemma one_survivor s :
  In s processed ->
  exists u, In u (map snd d)
    /\ (u = s \/ same_key u s = true)
    /\ conf_le s u
    /\ (forall s', In s' processed -> same_key s' s = true -> conf_le s' u)
    /\ (forall u', In u' (map snd d) -> same_key u' s = true -> u' = u).
Proof.
  intros Hs. destruct (all_covered _ _ Hok s Hs) as (e & ks & He & Hle & Hks & Halt).
  exists (snd e). split; [apply in_map; exact He|]. split; [|split; [exact Hle|split]].
  - destruct Halt as [H|H]; [right | left; exact H].
    pose proof (values_keyed _ _ Hok) as Hb. rewrite List.Forall_forall in Hb.
    destruct (Hb e He) as (_ & kv & Hkv & Halt').
    unfold same_key. rewrite Hkv, Hks.
    destruct Halt' as [H'| ->]; [|exact H].
    eapply key_eqb_trans; [|exact H]. rewrite key_eqb_sym. exact H'.
  - intros s' Hs' Hsame. unfold same_key in Hsame. rewrite Hks in Hsame.
    destruct (key_of s') as [ks'|] eqn:Hks'; [|discriminate].
    assert (Hrefl : key_eqb ks ks = true).
    { eapply key_eqb_refl_of. rewrite key_eqb_sym. exact Hsame. }
    assert (Hrefl' : key_eqb ks' ks' = true) by (eapply key_eqb_refl_of; exact Hsame).
    destruct (all_covered _ _ Hok s' Hs') as (e' & ks'' & He' & Hle' & Hks'' & Halt').
    rewrite Hks' in Hks''. apply Ok_inj in Hks''. subst ks''.
    pose proof (cover_key e s ks He Hks Halt Hrefl) as E.
    pose proof (cover_key e' s' ks' He' Hks' Halt' Hrefl') as E'.
    rewrite (same_entry e e' ks He He' E (key_eqb_trans _ _ _ E' Hsame)). exact Hle'.
  - intros u' Hu' Hsame. apply in_map_iff in Hu' as (e' & <- & He').
    unfold same_key in Hsame. rewrite Hks in Hsame.
    destruct (key_of (snd e')) as [k'|] eqn:Hk'; [|discriminate].
    assert (Hrefl : key_eqb ks ks = true).
    { eapply key_eqb_refl_of. rewrite key_eqb_sym. exact Hsame. }
    pose proof (cover_key e s ks He Hks Halt Hrefl) as E.
    pose proof (entry_key_matches e' k' ks He' Hk' Hsame) as E'.
    rewrite (same_entry e e' ks He He' E E'). reflexivity.
Qed.

End Groups.

Lemma remove_duplicates_groups merged :
  Forall well_bounded merged ->
  exists d, remove_loop [] merged = Ok d /\ groups_ok merged d
            /\ _remove_duplicates merged = Ok (map snd d).
Proof.
  intros H.
  assert (Ht : is_ok (remove_loop [] merged) = true).
  { apply remove_loop_total. eapply List.Forall_impl; [|exact H].
    intros s. apply well_bounded_keyed. }
  destruct (remove_loop [] merged) as [d|] eqn:Hd; [|discriminate].
  exists d. split; [reflexivity|]. split.
  - change merged with ([] ++ merged)%list.
    eapply remove_loop_ok; [| constructor | | exact Hd].
    + constructor; [constructor | constructor | intros s []].
    + eapply List.Forall_impl; [|exact H]. intros s. apply well_bounded_not_nan.
  - unfold _remove_duplicates. rewrite Hd. reflexivity.
Qed.

Lemma init_strategies_bounded : Forall bounded_strategy (strategies init).
Proof.
  repeat constructor; intros progression key l H.
  - eapply borrowed_suggest_bounded; exact H.
  - eapply chromatic_suggest_bounded; exact H.
  - eapply neapolitan_suggest_bounded; exact H.
  - eapply sub_v7_suggest_bounded; exact H.
  - eapply suspend_suggest_bounded; exact H.
  - eapply tsd_suggest_bounded; exact H.
Qed.

Lemma active_strategies_Forall (P : strategy -> Prop) self strategy_filter :
  Forall P (strategies self) -> Forall P (active_strategies self strategy_filter).
Proof.
  intros H. unfold active_strategies. destruct strategy_filter as [[|n names]|]; auto.
  rewrite List.Forall_forall in *. intros st Hst. apply H.
  apply list_elem_of_In in Hst. apply list_elem_of_filter in Hst as [_ Hst].
  apply list_elem_of_In. exact Hst.
Qed.

Lemma tag_well_bounded name s : well_bounded s -> well_bounded (tag name s).
Proof. intros H. exact H. Qed.

Lemma collect_bounded active progression key :
  Forall bounded_strategy active -> Forall well_bounded (collect active progression key).
Proof.
  intros H. unfold collect. apply flat_map_Forall. intros st Hst.
  rewrite List.Forall_forall in H. specialize (H st Hst).
  destruct (suggest st progression key) as [l|e] eqn:Hl; [|constructor].
  apply List.Forall_map. eapply List.Forall_impl; [|exact (H _ _ _ Hl)].
  intros s. apply tag_well_bounded.
Qed.

Lemma merged_bounded progression key strategy_filter :
  Forall well_bounded (collect (active_strategies init strategy_filter) progression key).
Proof. apply collect_bounded, active_strategies_Forall, init_strategies_bounded. Qed.

Lemma well_bounded_unit s : well_bounded s -> unit_bounded s.
Proof. intros (H1 & H2 & _). split; assumption. Qed.

Lemma demo_progression_built : demo_progression = Ok c_am_f_g.
Proof. vm_compute. reflexivity. Qed.

(** C6 (amended).  For every progression, key, strategy filter and
    [max_suggestions], [get_suggestions] of the engine with its six
    strategies returns the slice [[:max_suggestions]] of the
    deduplicated list sorted by descending confidence.  No two entries
    of the deduplicated list, nor of the returned list, have the same
    (chord symbol, position) key.  Every merged suggestion has exactly
    one survivor with its key in the deduplicated list, and no merged
    suggestion with that key has a higher confidence than the survivor.
    The returned list is sorted by descending confidence.  When
    [max_suggestions] is not negative, the slice is the first
    [max_suggestions] entries, so the returned list has at most
    [max_suggestions] entries. *)
Theorem get_suggestions_deduplicated_sorted_top
    (progression : ChordProgression.t) (key : option Key.t)
    (strategy_filter : option (list string)) (max_suggestions : Z) :
  let merged := collect (active_strategies init strategy_filter) progression key in
  exists unique out,
    _remove_duplicates merged = Ok unique
    /\ get_suggestions init progression key strategy_filter max_suggestions = Ok out
    /\ out = Py.slice_to (ChordSuggestion.sorted_desc unique) max_suggestions
    /\ Permutation (ChordSuggestion.sorted_desc unique) unique
    /\ incl unique merged
    /\ ForallOrdPairs (fun a b => same_key a b = false) unique
    /\ ForallOrdPairs (fun a b => same_key a b = false) out
    /\ (forall s, In s merged ->
          exists u, In u unique
            /\ (u = s \/ same_key u s = true)
            /\ conf_le s u
            /\ (forall s', In s' merged -> same_key s' s = true -> conf_le s' u)
            /\ (forall u', In u' unique -> same_key u' s = true -> u' = u))
    /\ StronglySorted (fun a b => conf_le b a) out
    /\ (0 <= max_suggestions ->
        out = firstn (Z.to_nat max_suggestions) (ChordSuggestion.sorted_desc unique)
        /\ Z.of_nat (length out) <= max_suggestions).
Proof.
  intros merged.
  pose proof (merged_bounded progression key strategy_filter) as Hb. fold merged in Hb.
  destruct (remove_duplicates_groups merged Hb) as (d & Hd & Hok & Hu).
  assert (Hno : ForallOrdPairs (fun a b => same_key a b = false) (map snd d))
    by (eapply unique_no_share; exact Hok).
  assert (Hnan : Forall not_nan (map snd d)).
  { rewrite List.Forall_forall in *. intros u Hin.
    apply well_bounded_not_nan, Hb. eapply unique_incl; eauto. }
  exists (map snd d), (Py.slice_to (ChordSuggestion.sorted_desc (map snd d)) max_suggestions).
  split; [exact Hu|]. split.
  { unfold get_suggestions. fold merged. rewrite Hu. reflexivity. }
  split; [reflexivity|]. split; [apply sorted_desc_perm|].
  split; [eapply unique_incl; exact Hok|]. split; [exact Hno|]. split.
  { unfold Py.slice_to. apply FOP_firstn.
    eapply FOP_perm; [| symmetry; apply sorted_desc_perm | exact Hno].
    intros a b H. rewrite same_key_sym. exact H. }
  split; [intros s Hs; eapply one_survivor; eauto|]. split.
  { unfold Py.slice_to. apply sorted_firstn. apply sorted_desc_sorted. exact Hnan. }
  intros Hmax. exact (slice_to_firstn (ChordSuggestion.sorted_desc (map snd d)) _ Hmax).
Qed.

(** C6 on the progression C, Em, G, C in C major with the default
    maximum of 20.  The merged output holds the chord F at position 1.5
    twice: from ChromaticApproach with confidence 0.498 and from
    TSDMovement with confidence 0.8.  Twenty suggestions come back, and
    the only one with that chord and position is the TSDMovement one. *)
Lemma get_suggestions_deduplicated_sorted_top_witness :
  exists key chromatic functional out,
       c_major = Ok key
       /\ (chords ← mapM (fun s => Chord.from_symbol s 4) ["C"; "Em"; "G"; "C"];
           ChordProgression.init chords None None) = Ok c_em_g_c
       /\ nth_error (collect (active_strategies init None) c_em_g_c (Some key)) 15
          = Some chromatic
       /\ nth_error (collect (active_strategies init None) c_em_g_c (Some key)) 31
          = Some functional
       /\ ChordSuggestion.strategy_source chromatic = Some "ChromaticApproach"
       /\ ChordSuggestion.strategy_source functional = Some "TSDMovement"
       /\ same_key chromatic functional = true
       /\ ChordSuggestion.confidence chromatic = 0.498%float
       /\ ChordSuggestion.confidence functional = 0.8%float
       /\ get_suggestions init c_em_g_c (Some key) None 20 = Ok out
       /\ length out = 20%nat
       /\ filter (fun u => same_key u chromatic) out = [functional]
       /\ ForallOrdPairs (fun a b => same_key a b = false) out
       /\ StronglySorted (fun a b => conf_le b a) out
       /\ Z.of_nat (length out) <= 20.
Proof.
  assert (Hkey : exists key, c_major = Ok key).
  { eexists. vm_compute. reflexivity. }
  destruct Hkey as (key & Hkey).
  pose proof Hkey as Hk. vm_compute in Hk. apply Ok_inj in Hk.
  assert (Hpair : exists chromatic functional,
             nth_error (collect (active_strategies init None) c_em_g_c (Some key)) 15
             = Some chromatic
             /\ nth_error (collect (active_strategies init None) c_em_g_c (Some key)) 31
                = Some functional
             /\ ChordSuggestion.strategy_source chromatic = Some "ChromaticApproach"
             /\ ChordSuggestion.strategy_source functional = Some "TSDMovement"
             /\ same_key chromatic functional = true
             /\ ChordSuggestion.confidence chromatic = 0.498%float
             /\ ChordSuggestion.confidence functional = 0.8%float
             /\ (res ← get_suggestions init c_em_g_c (Some key) None 20;
                 Ok (length res, filter (fun u => same_key u chromatic) res))
                = Ok (20%nat, [functional])).
  { subst key. eexists _, _.
    split; [vm_compute; reflexivity|]. split; [vm_compute; reflexivity|].
    split; [reflexivity|]. split; [reflexivity|].
    split; [vm_compute; reflexivity|].
    split; [reflexivity|]. split; [reflexivity|].
    vm_compute. reflexivity. }
  destruct Hpair as (chromatic & functional & H15 & H31 & Hc & Hf & Hsame & Hcc & Hcf
                     & Hres).
  destruct (get_suggestions_deduplicated_sorted_top c_em_g_c (Some key) None 20)
    as (unique & out & _ & Hout & _ & _ & _ & _ & Hno & _ & Hsorted & Htop).
  destruct (Htop ltac:(lia)) as [_ Hmax].
  assert (Hbuilt : (chords ← mapM (fun s => Chord.from_symbol s 4) ["C"; "Em"; "G"; "C"];
                    ChordProgression.init chords None None) = Ok c_em_g_c).
  { vm_compute. reflexivity. }
  exists key, chromatic, functional, out.
  rewrite Hout in Hres. apply Ok_inj in Hres.
  pose proof (f_equal fst Hres) as Hlen. pose proof (f_equal snd Hres) as Hfilter.
  cbn [fst snd] in Hlen, Hfilter.
  exact (conj Hkey (conj Hbuilt (conj H15 (conj H31 (conj Hc (conj Hf (conj Hsame (conj Hcc (conj Hcf
           (conj Hout (conj Hlen (conj Hfilter (conj Hno (conj Hsorted Hmax)))))))))))))).
Defined.

(** C6, the departure from the property as worded: with a maximum of -3
    on the progression C, Am, F, G in C major, the slice drops the last
    three of the 28 deduplicated suggestions and 25 come back. *)
Lemma get_suggestions_negative_maximum :
  exists key out,
    c_major = Ok key
    /\ get_suggestions init c_am_f_g (Some key) None (-3) = Ok out
    /\ length out = 25%nat
    /\ ~ Z.of_nat (length out) <= -3.
Proof.
  assert (Hkey : exists key, c_major = Ok key
            /\ (res ← get_suggestions init c_am_f_g (Some key) None (-3);
                Ok (length res))
               = Ok 25%nat).
  { eexists. split; [vm_compute; reflexivity|]. vm_compute. reflexivity. }
  destruct Hkey as (key & Hkey & Hlen).
  destruct (get_suggestions init c_am_f_g (Some key) None (-3)) as [out|] eqn:Hout;
    [|discriminate].
  apply Ok_inj in Hlen. exists key, out.
  split; [exact Hkey|]. split; [exact Hout|]. split; [exact Hlen|]. lia.
Qed.

(** C9.  Every suggestion that one of the six strategies produces has
    its confidence and its voice-leading quality in 0..1, and so has
    every suggestion that [get_suggestions] returns, which it does for
    every filter and maximum. *)
Theorem suggestions_within_unit_interval
    (progression : ChordProgression.t) (key : option Key.t) :
  Forall (fun st => all_bounded (suggest st progression key)) (strategies init)
  /\ forall strategy_filter max_suggestions,
       exists out,
         get_suggestions init progression key strategy_filter max_suggestions = Ok out
         /\ Forall unit_bounded out.
Proof.
  split.
  - eapply List.Forall_impl; [|exact init_strategies_bounded].
    intros st Hst. unfold all_bounded.
    destruct (suggest st progression key) as [l|e] eqn:Hl; [|exact I].
    eapply List.Forall_impl; [|exact (Hst _ _ _ Hl)]. intros s. apply well_bounded_unit.
  - intros strategy_filter max_suggestions.
    pose proof (merged_bounded progression key strategy_filter) as Hb.
    destruct (remove_duplicates_groups _ Hb) as (d & Hd & Hok & Hu).
    eexists. split.
    + unfold get_suggestions. rewrite Hu. reflexivity.
    + cbv zeta. unfold Py.slice_to.
      assert (Hs : Forall unit_bounded (ChordSuggestion.sorted_desc (map snd d))).
      { apply sorted_desc_Forall. rewrite List.Forall_forall in *. intros u Hin.
        apply well_bounded_unit, Hb. eapply unique_incl; eauto. }
      rewrite List.Forall_forall in *. intros u Hin. apply Hs. eapply In_firstn; eauto.
Qed.

End SuggestionEngine.

(** ** examples/chord_jazzer_demo.py *)

Ltac case_label f :=
  unfold label_of;
  destruct (String.eqb_spec f "tonic") as [->|];
  [| destruct (String.eqb_spec f "subdominant") as [->|];
     [| destruct (String.eqb_spec f "dominant") as [->|] ] ].

Lemma eqb_false_of_neq (a b : string) : a <> b -> String.eqb a b = false.
Proof. apply String.eqb_neq. Qed.

(** C2 (amended).  For all function names, [score_functional_transition]
    returns the entry of [coded_transition_table]: 1.0 for subdominant to
    dominant and dominant to tonic, 0.7 for tonic to subdominant or
    dominant, 0.1 for dominant to subdominant, 0.5 for tonic to tonic,
    and 0.3 for every other pair, subdominant to tonic included. *)
Theorem score_functional_transition_table (func1 func2 : string) :
  ChordJazzerDemo.score_functional_transition func1 func2
  = coded_transition_table (label_of func1) (label_of func2).
Proof.
  unfold ChordJazzerDemo.score_functional_transition, Py.str_in, existsb.
  case_label func1; case_label func2;
    repeat match goal with
           | H : ?f <> ?s |- context [String.eqb ?f ?s] =>
               rewrite (eqb_false_of_neq f s H)
           end;
    reflexivity.
Qed.

(** C2, the departure from the property as worded: subdominant to tonic
    scores the default 0.3, not 0.6. *)
Lemma score_subdominant_tonic_is_default :
  ChordJazzerDemo.score_functional_transition "subdominant" "tonic" = 0.3%float
  /\ ChordJazzerDemo.score_functional_transition "subdominant" "tonic"
     <> claimed_transition_table (label_of "subdominant") (label_of "tonic").
Proof.
  split; [reflexivity|].
  intros H. apply (f_equal (fun x => PrimFloat.eqb x 0.6%float)) in H.
  vm_compute in H. discriminate.
Qed.

(** * Further properties of the code *)

Lemma bind_Raise {A B : Type} (r : result A) (k : A -> result B) (e : exn) :
  r = Raise e -> (r ≫= k) = Raise e.
Proof. intros ->. reflexivity. Qed.

(** ** core/note.py and core/interval.py: construction, transposition, names *)

Lemma index_from_In_ok (x : string) (l : list string) (i : Z) :
  In x l -> is_ok (Py.index_from x l i) = true.
Proof.
  revert i. induction l as [|y l IH]; cbn [Py.index_from]; intros i H; [destruct H|].
  destruct (String.eqb_spec y x) as [->|Hne]; [reflexivity|].
  destruct H as [H|H]; [contradiction|]. apply IH, H.
Qed.

Lemma index_from_ok_In (x : string) (l : list string) (i j : Z) :
  Py.index_from x l i = Ok j -> In x l.
Proof.
  revert i. induction l as [|y l IH]; cbn [Py.index_from]; intros i H; [discriminate|].
  destruct (String.eqb_spec y x) as [->|Hne]; [left; reflexivity | right; eauto].
Qed.

Lemma index_from_raises (x : string) (l : list string) (i : Z) (e : exn) :
  Py.index_from x l i = Raise e -> e = ValueError.
Proof.
  revert i. induction l as [|y l IH]; cbn [Py.index_from]; intros i H.
  - injection H as <-. reflexivity.
  - destruct (String.eqb y x); [discriminate | eauto].
Qed.

Lemma calculate_midi_number_spec (pc : string) (octave : Z) :
  (In pc note_names ->
   Note._calculate_midi_number pc octave = Ok ((octave + 1) * 12 + name_index pc))
  /\ (~ In pc note_names -> Note._calculate_midi_number pc octave = Raise ValueError).
Proof.
  unfold Note._calculate_midi_number, name_index, note_names. split.
  - intros H. destruct (Py.index pc Note.CHROMATIC_SCALE) as [i|e] eqn:Hc;
      [reflexivity|].
    apply in_app_or in H as [H|H].
    + apply (index_from_In_ok _ _ 0) in H. unfold Py.index in Hc.
      rewrite Hc in H. discriminate.
    + pose proof (index_from_In_ok _ _ 0 H) as Hf. unfold Py.index.
      destruct (Py.index_from pc Note.FLAT_SCALE 0) as [j|]; [reflexivity|discriminate].
  - intros H. destruct (Py.index pc Note.CHROMATIC_SCALE) as [i|e] eqn:Hc.
    + exfalso. apply H, in_or_app. left. eapply index_from_ok_In. exact Hc.
    + destruct (Py.index pc Note.FLAT_SCALE) as [j|e'] eqn:Hf.
      * exfalso. apply H, in_or_app. right. eapply index_from_ok_In. exact Hf.
      * apply index_from_raises in Hf. subst e'. reflexivity.
Qed.

Lemma note_names_match (pc : string) :
  In pc note_names -> Note.matches_pitch_class pc = true.
Proof.
  intros H. unfold note_names in H. cbn in H.
  repeat (destruct H as [<-|H]; [reflexivity|]). destruct H.
Qed.

Lemma of_name_cases (pitch : string) (octave : Z) :
  (In (Py.strip pitch) note_names /\ 0 <= octave <= 10 ->
   Note.of_name pitch octave
   = Ok (Note.mk (Py.strip pitch) octave
                 ((octave + 1) * 12 + name_index (Py.strip pitch))))
  /\ (~ (In (Py.strip pitch) note_names /\ 0 <= octave <= 10) ->
      Note.of_name pitch octave = Raise ValueError)
  /\ (forall (p : Note.pitch_arg) (o : option Z) (e : exn),
        Note.init p o = Raise e -> e = ValueError).
Proof.
  assert (Hname : forall pitch octave,
    (In (Py.strip pitch) note_names /\ 0 <= octave <= 10 ->
     Note.of_name pitch octave
     = Ok (Note.mk (Py.strip pitch) octave
                   ((octave + 1) * 12 + name_index (Py.strip pitch))))
    /\ (~ (In (Py.strip pitch) note_names /\ 0 <= octave <= 10) ->
        Note.of_name pitch octave = Raise ValueError)).
  { clear. intros pitch octave.
    unfold Note.of_name, Note.init, Note._normalize_pitch_class.
    destruct (calculate_midi_number_spec (Py.strip pitch) octave) as [Hin Hout].
    split.
    - intros [Hn Ho]. rewrite (note_names_match _ Hn).
      rewrite (bind_eq _ _ _ eq_refl).
      destruct ((0 <=? octave) && (octave <=? 10)) eqn:E; [|lia]. cbn [negb].
      rewrite (Hin Hn). reflexivity.
    - intros Hnot. destruct (Note.matches_pitch_class (Py.strip pitch)); [|reflexivity].
      rewrite (bind_eq _ _ _ eq_refl).
      destruct ((0 <=? octave) && (octave <=? 10)) eqn:E; [|reflexivity]. cbn [negb].
      rewrite Hout; [reflexivity|]. intros Hn. apply Hnot. split; [exact Hn | lia]. }
  split; [apply Hname|]. split; [apply Hname|].
  intros p o e H. destruct p as [m|s].
  - unfold Note.init in H. destruct (negb _); [|discriminate]. congruence.
  - destruct o as [o|].
    + destruct (Hname s o) as [_ Hout].
      assert (Hdec : (In (Py.strip s) note_names /\ 0 <= o <= 10)
                     \/ ~ (In (Py.strip s) note_names /\ 0 <= o <= 10)).
      { destruct (in_dec string_dec (Py.strip s) note_names) as [Hi|Hi];
          [|right; tauto].
        destruct (Z_le_dec 0 o), (Z_le_dec o 10); try (right; lia). left. auto. }
      destruct Hdec as [Hyes|Hno].
      * destruct (Hname s o) as [Hin _]. unfold Note.of_name in Hin.
        rewrite (Hin Hyes) in H. discriminate.
      * unfold Note.of_name in Hout. rewrite (Hout Hno) in H. congruence.
    + unfold Note.init in H.
      destruct (Note._normalize_pitch_class s) as [pc|e'] eqn:Hn.
      * rewrite (bind_eq _ _ _ eq_refl) in H. congruence.
      * unfold Note._normalize_pitch_class in Hn.
        destruct (Note.matches_pitch_class _); [discriminate|].
        cbn in H. congruence.
Qed.

(** X1.  [Note(name, octave)] with a string name is built exactly when the
    name stripped of white space, as [str.strip] does it, is one of the
    names of the sharp and flat tables and 0 <= octave <= 10.  The note then has the stripped name, the octave
    given and the MIDI number (octave + 1) * 12 + the index of the name;
    in every other case the constructor raises [ValueError], and no
    call of [Note.__init__] raises anything else. *)
Theorem note_of_name_built_iff (pitch : string) (octave : Z) :
  (In (Py.strip pitch) note_names /\ 0 <= octave <= 10 ->
   Note.of_name pitch octave
   = Ok (Note.mk (Py.strip pitch) octave
                 ((octave + 1) * 12 + name_index (Py.strip pitch))))
  /\ (~ (In (Py.strip pitch) note_names /\ 0 <= octave <= 10) ->
      Note.of_name pitch octave = Raise ValueError)
  /\ (forall (p : Note.pitch_arg) (o : option Z) (e : exn),
        Note.init p o = Raise e -> e = ValueError).
Proof. exact (of_name_cases pitch octave). Qed.

(** X1: the name C# between a no-break space (U+00A0) and an em space
    (U+2003) followed by a line feed is stripped to C#, and the note is
    C#4; the name H and the octave 11 raise ValueError. *)
Lemma note_of_name_built_iff_witness :
  Py.strip (Py.utf8 [194; 160; 67; 35; 226; 128; 131; 10]%N) = "C#"
  /\ Note.of_name (Py.utf8 [194; 160; 67; 35; 226; 128; 131; 10]%N) 4
     = Ok (Note.mk "C#" 4 61)
  /\ Note.of_name "H" 4 = Raise ValueError
  /\ Note.of_name "C#" 11 = Raise ValueError.
Proof.
  split; [reflexivity|]. split; [|split].
  - apply (proj1 (note_of_name_built_iff
                    (Py.utf8 [194; 160; 67; 35; 226; 128; 131; 10]%N) 4)).
    split; [vm_compute; tauto | lia].
  - apply (proj1 (proj2 (note_of_name_built_iff "H" 4))).
    intros [H _]. vm_compute in H. intuition discriminate.
  - apply (proj1 (proj2 (note_of_name_built_iff "C#" 11))). intros [_ H]. lia.
Defined.

Lemma of_midi_spec (m : Z) :
  (0 <= m <= 127 ->
   Note.of_midi m
   = Ok (Note.mk (Py.nth_Z (m mod 12) Note.CHROMATIC_SCALE "") (m / 12 - 1) m))
  /\ (~ 0 <= m <= 127 -> Note.of_midi m = Raise ValueError).
Proof.
  unfold Note.of_midi, Note.init. split; intros H.
  - destruct ((0 <=? m) && (m <=? 127)) eqn:E; [reflexivity | lia].
  - destruct ((0 <=? m) && (m <=? 127)) eqn:E; [lia | reflexivity].
Qed.

Lemma sharp_name_facts (r : Z) :
  0 <= r < 12 ->
  let name := Py.nth_Z r Note.CHROMATIC_SCALE "" in
  In name Note.CHROMATIC_SCALE /\ Py.strip name = name /\ name_index name = r.
Proof.
  intros Hr.
  assert (Hc : r = 0 \/ r = 1 \/ r = 2 \/ r = 3 \/ r = 4 \/ r = 5 \/ r = 6
               \/ r = 7 \/ r = 8 \/ r = 9 \/ r = 10 \/ r = 11) by lia.
  repeat (destruct Hc as [->|Hc]; [vm_compute; tauto|]). subst r. vm_compute. tauto.
Qed.

(** X2.  For a note built from a MIDI number [m]: building a note again
    from its pitch class and octave returns the same note when
    [m >= 12], and raises [ValueError] when [m < 12], where the octave
    is -1. *)
Theorem note_midi_name_round_trip (m : Z) (n : Note.t) :
  Note.of_midi m = Ok n ->
  (12 <= m -> Note.of_name (Note.pitch_class n) (Note.octave n) = Ok n)
  /\ (m < 12 -> Note.of_name (Note.pitch_class n) (Note.octave n) = Raise ValueError).
Proof.
  intros H. destruct (of_midi_spec m) as [Hin Hout].
  assert (Hm : 0 <= m <= 127).
  { destruct (Z_le_dec 0 m), (Z_le_dec m 127); try lia;
      rewrite Hout in H by lia; discriminate. }
  rewrite (Hin Hm) in H. apply Ok_inj in H. subst n.
  cbn [Note.pitch_class Note.octave].
  destruct (sharp_name_facts (m mod 12) (Z.mod_pos_bound m 12 ltac:(lia)))
    as (Hname & Hstrip & Hidx).
  cbv zeta in *. set (name := Py.nth_Z (m mod 12) Note.CHROMATIC_SCALE "") in *.
  destruct (of_name_cases name (m / 12 - 1)) as (Hok & Hbad & _).
  rewrite Hstrip in Hok, Hbad. split; intros Hlow.
  - rewrite Hok.
    + rewrite Hidx. f_equal. f_equal. Z.div_mod_to_equations. lia.
    + split; [apply in_or_app; left; exact Hname|]. Z.div_mod_to_equations. lia.
  - apply Hbad. intros [_ Ho]. Z.div_mod_to_equations. lia.
Qed.

(** X2: MIDI 61 is C#4, and ['C#', 4] is the same note. *)
Lemma note_midi_name_round_trip_witness :
  Note.of_midi 61 = Ok (Note.mk "C#" 4 61)
  /\ Note.of_name "C#" 4 = Ok (Note.mk "C#" 4 61).
Proof.
  split; [reflexivity|].
  exact (proj1 (note_midi_name_round_trip 61 (Note.mk "C#" 4 61) eq_refl) ltac:(lia)).
Defined.

Lemma transpose_cases (n : Note.t) (a : Z) :
  (0 <= Note.midi_number n + a <= 127 ->
   exists n1, Note.transpose n a = Ok n1
     /\ Note.midi_number n1 = Note.midi_number n + a
     /\ In (Note.pitch_class n1) Note.CHROMATIC_SCALE
     /\ (forall b, Note.transpose n1 b = Note.transpose n (a + b))
     /\ Note.transpose n1 (- a) = Note.of_midi (Note.midi_number n))
  /\ (~ 0 <= Note.midi_number n + a <= 127 -> Note.transpose n a = Raise ValueError).
Proof.
  unfold Note.transpose. split; intros H.
  - destruct ((0 <=? Note.midi_number n + a) && (Note.midi_number n + a <=? 127)) eqn:E;
      [|lia]. cbn [negb].
    destruct (of_midi_spec (Note.midi_number n + a)) as [Hin _].
    unfold Note.of_midi in Hin. rewrite (Hin H). eexists. split; [reflexivity|].
    cbn [Note.midi_number Note.pitch_class]. split; [reflexivity|].
    split; [apply sharp_name_facts, Z.mod_pos_bound; lia|]. split.
    + intros b. rewrite Z.add_assoc. reflexivity.
    + replace (Note.midi_number n + a + - a) with (Note.midi_number n) by lia.
      unfold Note.of_midi, Note.init.
      destruct (negb _); reflexivity.
  - destruct ((0 <=? Note.midi_number n + a) && (Note.midi_number n + a <=? 127)) eqn:E;
      [lia | reflexivity].
Qed.

(** X3.  [transpose] returns exactly when the new MIDI number is within
    0..127 and raises [ValueError] otherwise.  The result has the MIDI
    number shifted by the semitones and a sharp-table spelling;
    transposing it again is transposing the original by the sum, and
    transposing it back gives the note of the original MIDI number. *)
Theorem note_transpose_laws (n : Note.t) (a : Z) :
  (0 <= Note.midi_number n + a <= 127 ->
   exists n1, Note.transpose n a = Ok n1
     /\ Note.midi_number n1 = Note.midi_number n + a
     /\ In (Note.pitch_class n1) Note.CHROMATIC_SCALE
     /\ (forall b, Note.transpose n1 b = Note.transpose n (a + b))
     /\ Note.transpose n1 (- a) = Note.of_midi (Note.midi_number n))
  /\ (~ 0 <= Note.midi_number n + a <= 127 -> Note.transpose n a = Raise ValueError).
Proof. exact (transpose_cases n a). Qed.

Lemma str_in_In (x : string) (l : list string) : Py.str_in x l = true <-> In x l.
Proof.
  unfold Py.str_in. rewrite existsb_exists. split.
  - intros (y & Hy & E). apply String.eqb_eq in E. subst. exact Hy.
  - intros H. exists x. split; [exact H | apply String.eqb_refl].
Qed.

Lemma enharmonic_check_all : forallb enharmonic_check note_names = true.
Proof. vm_compute. reflexivity. Qed.

Lemma note_init_shape (pitch : Note.pitch_arg) (octave : option Z) (n : Note.t) :
  Note.init pitch octave = Ok n ->
  In (Note.pitch_class n) note_names /\ -1 <= Note.octave n <= 10
  /\ Note.midi_number n = (Note.octave n + 1) * 12 + name_index (Note.pitch_class n).
Proof.
  intros H. destruct pitch as [m|s].
  - destruct (of_midi_spec m) as [Hin Hout].
    assert (Hm : 0 <= m <= 127).
    { destruct (Z_le_dec 0 m), (Z_le_dec m 127); try lia;
        unfold Note.init in H; destruct ((0 <=? m) && (m <=? 127)) eqn:E; try lia;
        discriminate. }
    unfold Note.init in H. destruct ((0 <=? m) && (m <=? 127)) eqn:E; [|lia].
    cbn [negb] in H. apply Ok_inj in H. subst n.
    cbn [Note.pitch_class Note.octave Note.midi_number].
    destruct (sharp_name_facts (m mod 12) (Z.mod_pos_bound m 12 ltac:(lia)))
      as (Hname & _ & Hidx). cbv zeta in *.
    split; [apply in_or_app; left; exact Hname|]. rewrite Hidx.
    Z.div_mod_to_equations. lia.
  - destruct octave as [o|].
    + destruct (of_name_cases s o) as (Hok & Hbad & _).
      assert (Hdec : (In (Py.strip s) note_names /\ 0 <= o <= 10)
                     \/ ~ (In (Py.strip s) note_names /\ 0 <= o <= 10)).
      { destruct (in_dec string_dec (Py.strip s) note_names) as [Hi|Hi];
          [|right; tauto].
        destruct (Z_le_dec 0 o), (Z_le_dec o 10); try (right; lia). left. auto. }
      unfold Note.of_name in *. destruct Hdec as [Hyes|Hno].
      * rewrite (Hok Hyes) in H. apply Ok_inj in H. subst n.
        cbn [Note.pitch_class Note.octave Note.midi_number]. split; [tauto|]. lia.
      * rewrite (Hbad Hno) in H. discriminate.
    + unfold Note.init in H. destruct (Note._normalize_pitch_class s); discriminate.
Qed.

(** X4.  For every note the constructor builds: a natural note has no
    enharmonic equivalent ([None]); an altered note in octave -1 makes
    [enharmonic_equivalent] raise [ValueError]; any other altered note
    has an equivalent with the same MIDI number and octave and another
    name, whose own equivalent is the note itself. *)
Theorem enharmonic_equivalent_round_trip (pitch : Note.pitch_arg) (octave : option Z)
    (n : Note.t) :
  Note.init pitch octave = Ok n ->
  (In (Note.pitch_class n) natural_names -> Note.enharmonic_equivalent n = Ok None)
  /\ (~ In (Note.pitch_class n) natural_names -> Note.octave n = -1 ->
      Note.enharmonic_equivalent n = Raise ValueError)
  /\ (~ In (Note.pitch_class n) natural_names -> 0 <= Note.octave n ->
      exists e, Note.enharmonic_equivalent n = Ok (Some e)
        /\ Note.midi_number e = Note.midi_number n
        /\ Note.octave e = Note.octave n
        /\ Note.pitch_class e <> Note.pitch_class n
        /\ Note.enharmonic_equivalent e = Ok (Some n)).
Proof.
  intros H. destruct (note_init_shape _ _ _ H) as (Hname & Hoct & Hmidi).
  destruct n as [pc o m]. cbn [Note.pitch_class Note.octave Note.midi_number] in *.
  pose proof enharmonic_check_all as Hall. rewrite forallb_forall in Hall.
  specialize (Hall pc Hname). unfold enharmonic_check in Hall.
  unfold Note.enharmonic_equivalent. cbn [Note.pitch_class Note.octave].
  destruct (Note.ENHARMONIC_MAP !! pc) as [equiv|] eqn:Hmap.
  - repeat (apply andb_true_iff in Hall as [Hall ?]).
    apply negb_true_iff in Hall.
    assert (Hnat : ~ In pc natural_names).
    { intros Hin. apply str_in_In in Hin. congruence. }
    match goal with Hs : String.eqb (Py.strip equiv) equiv = true |- _ =>
      apply String.eqb_eq in Hs; rename Hs into Hstrip end.
    match goal with Hs : String.eqb (Py.strip pc) pc = true |- _ =>
      apply String.eqb_eq in Hs; rename Hs into Hstrip' end.
    match goal with Hs : Py.str_in equiv note_names = true |- _ =>
      apply str_in_In in Hs; rename Hs into Hequiv end.
    match goal with Hs : (name_index equiv =? name_index pc) = true |- _ =>
      apply Z.eqb_eq in Hs; rename Hs into Hidx end.
    match goal with Hs : bool_decide _ = true |- _ =>
      apply bool_decide_eq_true in Hs; rename Hs into Hback end.
    match goal with Hs : negb (String.eqb equiv pc) = true |- _ =>
      apply negb_true_iff, String.eqb_neq in Hs; rename Hs into Hne end.
    destruct (of_name_cases equiv o) as (Hok & Hbad & _).
    rewrite Hstrip in Hok, Hbad. unfold Note.of_name in Hok, Hbad.
    split; [intros Hin; contradiction|]. split.
    + intros _ ->. rewrite Hbad by lia. reflexivity.
    + intros _ Ho. rewrite Hok by (split; [exact Hequiv | lia]).
      rewrite (bind_eq (Ok _) _ _ eq_refl). eexists. split; [reflexivity|].
      cbn [Note.pitch_class Note.octave Note.midi_number].
      split; [lia|]. split; [reflexivity|]. split; [exact Hne|].
      rewrite Hback.
      destruct (of_name_cases pc o) as (Hok' & _ & _).
      rewrite Hstrip' in Hok'. unfold Note.of_name in Hok'.
      rewrite Hok' by (split; [exact Hname | lia]).
      rewrite (bind_eq (Ok _) _ _ eq_refl). rewrite Hmidi. reflexivity.
  - apply str_in_In in Hall. split; [reflexivity|]. split; intros Hn; contradiction.
Qed.

(** X4: Bb3 and A#3 are each other's equivalents. *)
Lemma enharmonic_equivalent_round_trip_witness :
  Note.enharmonic_equivalent (Note.mk "Bb" 3 58) = Ok (Some (Note.mk "A#" 3 58))
  /\ Note.enharmonic_equivalent (Note.mk "A#" 3 58) = Ok (Some (Note.mk "Bb" 3 58)).
Proof.
  destruct (enharmonic_equivalent_round_trip (Note.PStr "Bb") (Some 3)
              (Note.mk "Bb" 3 58) eq_refl) as (_ & _ & H).
  destruct H as (e & He & _ & _ & _ & Hback).
  - cbn. intros Hin. repeat (destruct Hin as [Hin|Hin]; [discriminate|]). exact Hin.
  - cbn. lia.
  - assert (E : e = Note.mk "A#" 3 58).
    { assert (Hc : Note.enharmonic_equivalent (Note.mk "Bb" 3 58)
                   = Ok (Some (Note.mk "A#" 3 58))) by reflexivity.
      rewrite Hc in He. injection He as <-. reflexivity. }
    subst e. split; [exact He | exact Hback].
Defined.

Lemma interval_semitones_init (x : Z) : Interval.semitones (Interval.init x) = x.
Proof.
  unfold Interval.semitones, Interval.init.
  cbn [Interval._semitones Interval._octaves]. Z.div_mod_to_equations. lia.
Qed.

(** X5.  [Interval(s).semitones] is [s] for every integer, negative ones
    included, and the simple semitones lie in 0..11.  [add] adds the
    semitones and [subtract] undoes [add].  The inversion of an interval
    is simple, complements the simple semitones to a multiple of 12, and
    inverting twice gives the simple interval.  Transposing a note by
    the interval [from_notes] measures to a second note gives the note
    of the second MIDI number. *)
Theorem interval_arithmetic (s : Z) (a b : Interval.t) (n1 n2 : Note.t) :
  Interval.semitones (Interval.init s) = s
  /\ 0 <= Interval.simple_semitones (Interval.init s) < 12
  /\ Interval.semitones (Interval.add a b) = Interval.semitones a + Interval.semitones b
  /\ Interval.semitones (Interval.subtract (Interval.add a b) b) = Interval.semitones a
  /\ Interval.octaves (Interval.invert (Interval.init s)) = 0
  /\ (Interval.simple_semitones (Interval.invert (Interval.init s))
      + Interval.simple_semitones (Interval.init s)) mod 12 = 0
  /\ Interval.invert (Interval.invert (Interval.init s)) = Interval.init (s mod 12)
  /\ Note.transpose n1 (Interval.semitones (Interval.from_notes n1 n2))
     = Note.of_midi (Note.midi_number n2).
Proof.
  pose proof interval_semitones_init as Hsem.
  split; [apply Hsem|]. split.
  { unfold Interval.simple_semitones, Interval.init. cbn [Interval._semitones].
    apply Z.mod_pos_bound. lia. }
  split; [unfold Interval.add; apply Hsem|]. split.
  { unfold Interval.subtract, Interval.add. rewrite !Hsem. lia. }
  unfold Interval.invert, Interval.octaves, Interval.simple_semitones, Interval.init.
  cbn [Interval._semitones Interval._octaves].
  split; [Z.div_mod_to_equations; lia|]. split; [Z.div_mod_to_equations; lia|]. split.
  { f_equal; Z.div_mod_to_equations; lia. }
  unfold Interval.from_notes. fold (Interval.init (Note.midi_number n2 - Note.midi_number n1)).
  change (Interval.semitones _) with
    (Interval.semitones (Interval.init (Note.midi_number n2 - Note.midi_number n1))).
  rewrite Hsem. unfold Note.transpose, Note.of_midi.
  replace (Note.midi_number n1 + (Note.midi_number n2 - Note.midi_number n1))
    with (Note.midi_number n2) by lia.
  unfold Note.init. destruct (negb _); reflexivity.
Qed.

Lemma strip_cons (c : ascii) (s : string) :
  Py.is_space (String c "") = false ->
  (forall b, Py.is_space (String c (String b "")) = false) ->
  (forall b d, Py.is_space (String c (String b (String d ""))) = false) ->
  Py.strip (String c s) = String c (Py.rstrip s).
Proof.
  intros H1 H2 H3.
  assert (Hl : Py.lstrip (String c s) = String c s).
  { cbn [Py.lstrip]. rewrite H1. destruct s as [|b [|d s]]; [reflexivity| |].
    - rewrite H2. reflexivity.
    - rewrite H2, H3. reflexivity. }
  unfold Py.strip. rewrite Hl. cbn [Py.rstrip]. rewrite Hl. reflexivity.
Qed.

(** X6.  [Interval.from_name] upper-cases the name before it looks at the
    quality letter, so for whatever [int] does on the digits: a name
    that starts with 'm' is read as the same name with 'M', no name that
    starts with 'd' is accepted, and every interval returned is the
    major or perfect interval of its number, or that interval raised by
    one or two semitones for 'A'. *)
Theorem from_name_reads_no_minor (int : string -> result Z) :
  (forall rest,
      Interval.from_name int (String "m" rest) = Interval.from_name int (String "M" rest))
  /\ (forall rest, is_ok (Interval.from_name int (String "d" rest)) = false)
  /\ (forall name i,
        Interval.from_name int name = Ok i ->
        exists quality rest number natural,
          Py.upper (Py.strip name) = String quality rest
          /\ int rest = Ok number
          /\ natural_semitones number = Some natural
          /\ ((quality = "M"%char \/ quality = "P"%char)
                /\ Interval.semitones i = natural
              \/ quality = "A"%char
                 /\ (Interval.semitones i = natural + 1
                     \/ Interval.semitones i = natural + 2))).
Proof.
  assert (Hsem : forall x, Interval.semitones (Interval.init x) = x).
  { intros x. unfold Interval.semitones, Interval.init.
    cbn [Interval._semitones Interval._octaves]. Z.div_mod_to_equations. lia. }
  split; [|split].
  - intros rest. unfold Interval.from_name.
    rewrite !strip_cons by (intros; reflexivity). reflexivity.
  - intros rest. unfold Interval.from_name. rewrite strip_cons by (intros; reflexivity).
    cbn [Py.upper]. change (Py.upper_char "d") with "D"%char.
    destruct (Py.upper (Py.rstrip rest)) as [|c digits]; [reflexivity|].
    destruct (int (String c digits)) as [number|e]; [|reflexivity].
    rewrite (bind_eq (Ok _) _ _ eq_refl).
    destruct (Interval.base_semitones !! _); reflexivity.
  - intros name i H. unfold Interval.from_name in H.
    destruct (Py.upper (Py.strip name)) as [|quality [|c digits]] eqn:Hname;
      try discriminate.
    destruct (int (String c digits)) as [number|e] eqn:Hint; [|discriminate].
    rewrite (bind_eq (Ok _) _ _ eq_refl) in H.
    destruct (Interval.base_semitones !! ((number - 1) mod 7 + 1)) as [base|] eqn:Hbase;
      [|discriminate].
    exists quality, (String c digits), number, (base + (number - 1) / 7 * 12).
    split; [reflexivity|]. split; [exact Hint|].
    split; [unfold natural_semitones; rewrite Hbase; reflexivity|].
    assert (Hup : quality <> "m"%char /\ quality <> "d"%char).
    { destruct name as [|c0 name']; [discriminate|].
      assert (Hq : exists c1, quality = Py.upper_char c1).
      { destruct (Py.strip (String c0 name')) as [|c1 s1]; [discriminate|].
        cbn [Py.upper] in Hname. injection Hname as <- _. eauto. }
      destruct Hq as [c1 ->]. unfold Py.upper_char.
      destruct (((97 <=? N_of_ascii c1) && (N_of_ascii c1 <=? 122))%N) eqn:E.
      - assert (Hrange : (65 <= N_of_ascii c1 - 32 <= 90)%N).
        { apply andb_true_iff in E as [E1 E2].
          apply N.leb_le in E1, E2. lia. }
        split; intros Heq;
          apply (f_equal N_of_ascii) in Heq; rewrite N_ascii_embedding in Heq;
          cbn in Heq; lia.
      - split; intros ->; cbn in E; discriminate. }
    destruct Hup as [Hm Hd].
    destruct (Ascii.eqb_spec quality "M") as [->|HM].
    { apply Ok_inj in H. subst i. rewrite Hsem. auto. }
    destruct (Ascii.eqb_spec quality "m") as [->|_]; [contradiction|].
    destruct (Ascii.eqb_spec quality "P") as [->|HP].
    { destruct (negb _); [discriminate|]. apply Ok_inj in H. subst i.
      rewrite Hsem. auto. }
    destruct (Ascii.eqb_spec quality "d") as [->|_]; [contradiction|].
    destruct (Ascii.eqb_spec quality "A") as [->|HA]; [|discriminate].
    right. split; [reflexivity|].
    destruct (Py.int_in _ _); apply Ok_inj in H; subst i; rewrite Hsem; auto.
Qed.

(** X6: 'm3' and 'M3' are both four semitones, and 'd5' raises
    [ValueError]. *)
Lemma from_name_reads_no_minor_witness :
  Interval.from_name int_of_digits "m3" = Ok (Interval.init 4)
  /\ Interval.from_name int_of_digits "M3" = Ok (Interval.init 4)
  /\ Interval.from_name int_of_digits "d5" = Raise ValueError.
Proof.
  split; [|split; reflexivity].
  rewrite (proj1 (from_name_reads_no_minor int_of_digits) "3"). reflexivity.
Defined.

(** ** core/chord.py: symbols, notes, spelling *)

Lemma symbol_round_trip_all_true : symbol_round_trip_all = true.
Proof. vm_compute. reflexivity. Qed.

Lemma of_name_inv (pitch : string) (octave : Z) (n : Note.t) :
  Note.of_name pitch octave = Ok n ->
  In (Py.strip pitch) note_names /\ In octave (Zrange 0 10)
  /\ n = named_note octave (Py.strip pitch).
Proof.
  intros H. destruct (of_name_cases pitch octave) as (Hok & Hbad & _).
  assert (Hdec : (In (Py.strip pitch) note_names /\ 0 <= octave <= 10)
                 \/ ~ (In (Py.strip pitch) note_names /\ 0 <= octave <= 10)).
  { destruct (in_dec string_dec (Py.strip pitch) note_names) as [Hi|Hi];
      [|right; tauto].
    destruct (Z_le_dec 0 octave), (Z_le_dec octave 10); try (right; lia). left. auto. }
  destruct Hdec as [Hyes|Hno].
  - rewrite (Hok Hyes) in H. apply Ok_inj in H. subst n.
    split; [tauto|]. split; [apply In_Zrange; lia | reflexivity].
  - rewrite (Hbad Hno) in H. discriminate.
Qed.

Lemma strip_note_name (name : string) : In name note_names -> Py.strip name = name.
Proof.
  intros H. unfold note_names in H. cbn in H.
  repeat (destruct H as [<-|H]; [reflexivity|]). destruct H.
Qed.

Lemma parse_quality_cataloged (quality_str q : string) :
  Chord._parse_quality quality_str = Ok q -> In q chord_qualities.
Proof.
  unfold Chord._parse_quality. destruct (Chord.quality_map !! quality_str) as [q'|] eqn:H;
    [|discriminate].
  intros E. apply Ok_inj in E. subst q'. unfold Chord.quality_map in H.
  apply elem_of_list_to_map_2, list_elem_of_In in H. cbn [In] in H.
  repeat (destruct H as [H|H]; [injection H as _ <-; cbn; tauto|]).
  destruct H.
Qed.

Lemma from_symbol_shape (symbol : string) (octave : Z) (c : Chord.t) :
  Chord.from_symbol symbol octave = Ok c ->
  exists root_name quality bass_name,
    In octave (Zrange 0 10) /\ In root_name note_names /\ In quality chord_qualities
    /\ In bass_name bass_names /\ c = built_chord octave root_name quality bass_name.
Proof.
  intros H. unfold Chord.from_symbol in H.
  inv_bind H as parts Hparts. destruct parts as [chord_part bass_note].
  assert (Hbass : exists bass_name, In bass_name bass_names
            /\ bass_note = option_map (named_note octave) bass_name).
  { destruct (Py.contains_char "/" symbol).
    - destruct (Py.split_on "/" symbol) as [|p1 [|p2 [|p3 ps]]]; try discriminate.
      inv_bind Hparts as b Hb. apply Ok_inj in Hparts. injection Hparts as _ <-.
      apply of_name_inv in Hb as (Hin & _ & ->).
      exists (Some (Py.strip p2)). split; [|reflexivity].
      right. apply in_map. exact Hin.
    - apply Ok_inj in Hparts. injection Hparts as _ <-.
      exists None. split; [left; reflexivity | reflexivity]. }
  destruct Hbass as (bass_name & Hbn & ->).
  destruct chord_part as [|c0 remainder]; [discriminate|].
  assert (Hgen : forall root_str remainder0,
            (root_note ← Note.of_name root_str octave;
             quality ← Chord._parse_quality remainder0;
             Chord.init root_note quality (option_map (named_note octave) bass_name))
            = Ok c ->
            exists root_name quality,
              In octave (Zrange 0 10) /\ In root_name note_names
              /\ In quality chord_qualities
              /\ c = built_chord octave root_name quality bass_name).
  { clear H. intros root_str remainder0 H.
    inv_bind H as root_note Hroot. inv_bind H as quality Hq.
    apply of_name_inv in Hroot as (Hrin & Hoct & ->).
    apply parse_quality_cataloged in Hq.
    unfold Chord.init in H. destruct (Chord.CHORD_TONES !! quality); [|discriminate].
    apply Ok_inj in H. subst c.
    exists (Py.strip root_str), quality.
    repeat split; try assumption. unfold built_chord. destruct bass_name; reflexivity. }
  destruct remainder as [|a rest]; [|destruct (Note.is_accidental a)];
    cbv beta iota zeta in H; apply Hgen in H as (root_name & quality & Ho & Hr & Hq & ->);
    exists root_name, quality, bass_name; auto.
Qed.

(** X7.  Every chord that [from_symbol] parses, at any octave and with or
    without a slash bass, has a symbol, and parsing that symbol at the
    same octave gives an equal chord. *)
Theorem chord_symbol_parse_print_parse (symbol : string) (octave : Z) (c : Chord.t) :
  Chord.from_symbol symbol octave = Ok c ->
  exists printed c',
    Chord.symbol c = Ok printed
    /\ Chord.from_symbol printed octave = Ok c'
    /\ Chord.eqb c' c = true.
Proof.
  intros H. apply from_symbol_shape in H
    as (root_name & quality & bass_name & Ho & Hr & Hq & Hb & ->).
  pose proof symbol_round_trip_all_true as Hall. unfold symbol_round_trip_all in Hall.
  rewrite forallb_forall in Hall. specialize (Hall _ Ho).
  rewrite forallb_forall in Hall. specialize (Hall _ Hr).
  rewrite forallb_forall in Hall. specialize (Hall _ Hq).
  rewrite forallb_forall in Hall. specialize (Hall _ Hb).
  unfold symbol_round_trip_check in Hall. cbv zeta in Hall.
  destruct (Chord.symbol _) as [printed|]; [|discriminate].
  destruct (Chord.from_symbol printed octave) as [c'|] eqn:Hparse; [|discriminate].
  exists printed, c'. auto.
Qed.

(** X7: 'Dbmin7/Ab' at octave 3 prints as 'Dbm7/Ab'. *)
Lemma chord_symbol_parse_print_parse_witness :
  exists c printed c',
    Chord.from_symbol "Dbmin7/Ab" 3 = Ok c
    /\ Chord.symbol c = Ok printed /\ printed = "Dbm7/Ab"
    /\ Chord.from_symbol printed 3 = Ok c'
    /\ Chord.eqb c' c = true.
Proof.
  assert (H : exists c, Chord.from_symbol "Dbmin7/Ab" 3 = Ok c
                        /\ Chord.symbol c = Ok "Dbm7/Ab").
  { eexists. split; vm_compute; reflexivity. }
  destruct H as (c & Hc & Hs).
  destruct (chord_symbol_parse_print_parse "Dbmin7/Ab" 3 c Hc)
    as (printed & c' & Hp & Hc' & Heq).
  exists c, printed, c'. rewrite Hs in Hp. apply Ok_inj in Hp. subst printed. auto.
Defined.

Lemma mapM_Forall2 {A B : Type} (f : A -> result B) (l : list A) (ys : list B) :
  mapM f l = Ok ys <-> Forall2 (fun x y => f x = Ok y) l ys.
Proof.
  revert ys. induction l as [|x l IH]; intros ys; cbn [mapM]; split; intros H.
  - apply Ok_inj in H. subst. constructor.
  - inversion H. reflexivity.
  - inv_bind H as y Hy. inv_bind H as ys' Hys. apply Ok_inj in H. subst ys.
    constructor; [exact Hy | apply IH, Hys].
  - inversion H as [|? y ? ys' Hy Hys]; subst.
    rewrite (bind_eq _ _ _ Hy). apply IH in Hys. rewrite (bind_eq _ _ _ Hys). reflexivity.
Qed.

Lemma mapM_raises {A B : Type} (f : A -> result B) (l : list A) (e : exn) :
  (forall x e', f x = Raise e' -> e' = e) ->
  Exists (fun x => is_ok (f x) = false) l -> mapM f l = Raise e.
Proof.
  intros Hf. induction 1 as [x l Hx|x l Hl IH]; cbn [mapM].
  - destruct (f x) as [y|e'] eqn:E; [discriminate|]. rewrite (Hf _ _ E). reflexivity.
  - destruct (f x) as [y|e'] eqn:E.
    + rewrite (bind_eq (Ok _) _ _ eq_refl), IH. reflexivity.
    + rewrite (Hf _ _ E). reflexivity.
Qed.

Lemma transpose_inv (n : Note.t) (a : Z) (n1 : Note.t) :
  Note.transpose n a = Ok n1 ->
  0 <= Note.midi_number n + a <= 127
  /\ Note.midi_number n1 = Note.midi_number n + a
  /\ In (Note.pitch_class n1) Note.CHROMATIC_SCALE.
Proof.
  intros H. destruct (transpose_cases n a) as [Hin Hout].
  destruct (Z_le_dec 0 (Note.midi_number n + a)),
           (Z_le_dec (Note.midi_number n + a) 127);
    try (rewrite Hout in H by lia; discriminate).
  destruct Hin as (n1' & E & Hm & Hp & _); [lia|].
  rewrite E in H. apply Ok_inj in H. subst n1'. auto.
Qed.

Lemma transposed_notes_sharp (root : Note.t) (tones : list Z) (ns : list Note.t) :
  mapM (Note.transpose root) tones = Ok ns ->
  Forall (fun n => In (Note.pitch_class n) Note.CHROMATIC_SCALE) ns
  /\ map Note.midi_number ns = map (Z.add (Note.midi_number root)) tones.
Proof.
  intros H. apply mapM_Forall2 in H.
  induction H as [|t n tones ns Ht _ IH]; [split; constructor|].
  apply transpose_inv in Ht as (_ & Hm & Hp). destruct IH as [IH1 IH2].
  split; [constructor; assumption|]. cbn [map]. rewrite Hm, IH2. reflexivity.
Qed.

(** X8.  [Chord.notes] raises [KeyError] for a quality outside
    [CHORD_TONES]; for a cataloged quality it returns exactly when the
    root's MIDI number plus every tone is within 0..127, the notes then
    having these MIDI numbers in the order of the tones and sharp-table
    spellings; otherwise it raises [ValueError]. *)
Theorem chord_notes_spec (chord : Chord.t) :
  (Chord.CHORD_TONES !! Chord.quality chord = None -> Chord.notes chord = Raise KeyError)
  /\ (forall tones,
        Chord.CHORD_TONES !! Chord.quality chord = Some tones ->
        (Forall (fun t => 0 <= Note.midi_number (Chord.root chord) + t <= 127) tones ->
         exists ns, Chord.notes chord = Ok ns
           /\ map Note.midi_number ns
              = map (Z.add (Note.midi_number (Chord.root chord))) tones
           /\ Forall (fun n => In (Note.pitch_class n) Note.CHROMATIC_SCALE) ns)
        /\ (~ Forall (fun t => 0 <= Note.midi_number (Chord.root chord) + t <= 127) tones ->
            Chord.notes chord = Raise ValueError)).
Proof.
  unfold Chord.notes. split; [intros ->; reflexivity|].
  intros tones ->. split; intros H.
  - assert (Hok : exists ns, mapM (Note.transpose (Chord.root chord)) tones = Ok ns).
    { induction H as [|t tones Ht _ IH]; [exists []; reflexivity|].
      destruct IH as [ns Hns].
      destruct (transpose_cases (Chord.root chord) t) as [Hin _].
      destruct (Hin Ht) as (n1 & E & _).
      exists (n1 :: ns). cbn [mapM].
      rewrite (bind_eq _ _ _ E), (bind_eq _ _ _ Hns). reflexivity. }
    destruct Hok as [ns Hns]. exists ns. split; [exact Hns|].
    apply transposed_notes_sharp in Hns. tauto.
  - apply mapM_raises.
    + intros t e' E. unfold Note.transpose in E.
      destruct (negb _); [congruence|].
      destruct (of_name_cases "" 0) as (_ & _ & Herr). exact (Herr _ _ _ E).
    + apply List.Exists_Forall_neg in H;
        [|intros t; destruct (Z_le_dec 0 (Note.midi_number (Chord.root chord) + t)),
            (Z_le_dec (Note.midi_number (Chord.root chord) + t) 127); try (right; lia);
          left; lia].
      eapply List.Exists_impl; [|exact H]. intros t Ht. cbv beta in Ht.
      destruct (transpose_cases (Chord.root chord) t) as [_ Hout].
      rewrite (Hout Ht). reflexivity.
Qed.

Lemma flat_not_sharp (name : string) :
  In name flat_names -> ~ In name Note.CHROMATIC_SCALE.
Proof.
  intros H Hs. cbn in H.
  repeat (destruct H as [<-|H];
          [cbn in Hs; repeat (destruct Hs as [Hs|Hs]; [discriminate|]); exact Hs|]).
  exact H.
Qed.

Lemma find_degree_sharp (name : string) (ns : list Note.t) (i : Z) :
  Forall (fun n => In (Note.pitch_class n) Note.CHROMATIC_SCALE) ns ->
  ~ In name Note.CHROMATIC_SCALE ->
  Scale.find_degree name ns i = None.
Proof.
  intros Hns Hname. revert i. induction Hns as [|n ns Hn _ IH]; intros i;
    cbn [Scale.find_degree]; [reflexivity|].
  destruct (String.eqb_spec (Note.pitch_class n) name) as [E|_]; [|apply IH].
  rewrite E in Hn. contradiction.
Qed.

(** X9.  A note spelled with a flat (Db, Eb, Gb, Ab, Bb) is never found by
    pitch class: no chord and no scale contains it, no scale gives it a
    degree, and the analysis of a chord on such a root in any key has no
    degree, no function and is not diatonic. *)
Theorem flat_spelled_note_never_contained (note : Note.t) :
  In (Note.pitch_class note) flat_names ->
  (forall chord, Chord.contains_note chord note <> Ok true)
  /\ (forall cat scale,
        Scale.contains_note cat scale note <> Ok true
        /\ forall d, Scale.get_note_degree cat scale note <> Ok (Some d))
  /\ (forall key chord analysis,
        Chord.root chord = note ->
        Key.analyze_chord key chord = Ok analysis ->
        Key.degree analysis = None /\ Key.function analysis = None
        /\ Key.is_diatonic analysis = false).
Proof.
  intros Hflat. apply flat_not_sharp in Hflat.
  assert (Hscale : forall cat scale ns,
            Scale.notes cat scale = Ok ns ->
            Forall (fun n => In (Note.pitch_class n) Note.CHROMATIC_SCALE) ns).
  { intros cat scale ns H. unfold Scale.notes in H. inv_bind H as p Hp.
    apply transposed_notes_sharp in H. tauto. }
  split; [|split].
  - intros chord H. unfold Chord.contains_note, Chord.pitch_classes in H.
    inv_bind H as pcs Hpcs. inv_bind Hpcs as ns Hns. apply Ok_inj in Hpcs. subst pcs.
    apply Ok_inj in H. apply bool_decide_eq_true in H.
    apply elem_of_list_to_set, list_elem_of_In, in_map_iff in H as (n & E & Hn).
    unfold Chord.notes in Hns. destruct (Chord.CHORD_TONES !! _); [|discriminate].
    apply transposed_notes_sharp in Hns as [Hsharp _].
    rewrite List.Forall_forall in Hsharp. apply Hflat. rewrite <- E. apply Hsharp, Hn.
  - intros cat scale. split.
    + intros H. unfold Scale.contains_note, Scale.pitch_classes in H.
      inv_bind H as pcs Hpcs. inv_bind Hpcs as ns Hns. apply Ok_inj in Hpcs. subst pcs.
      apply Ok_inj in H. apply str_in_In, in_map_iff in H as (n & E & Hn).
      pose proof (Hscale _ _ _ Hns) as Hsharp. rewrite List.Forall_forall in Hsharp.
      apply Hflat. rewrite <- E. apply Hsharp, Hn.
    + intros d H. unfold Scale.get_note_degree in H. inv_bind H as ns Hns.
      rewrite (find_degree_sharp _ _ _ (Hscale _ _ _ Hns) Hflat) in H. discriminate.
  - intros key chord analysis Hroot H. unfold Key.analyze_chord in H.
    inv_bind H as root_degree Hdeg. unfold Scale.get_note_degree in Hdeg.
    inv_bind Hdeg as ns Hns. rewrite Hroot in Hdeg.
    rewrite (find_degree_sharp _ _ _ (Hscale _ _ _ Hns) Hflat) in Hdeg.
    apply Ok_inj in Hdeg. subst root_degree. apply Ok_inj in H. subst analysis.
    auto.
Qed.

(** X9: the chord Bb in F major, whose fourth degree is spelled A#. *)
Lemma flat_spelled_note_never_contained_witness :
  exists key chord analysis,
    f_major = Ok key /\ b_flat_chord = Ok chord
    /\ Key.analyze_chord key chord = Ok analysis
    /\ Key.degree analysis = None /\ Key.function analysis = None
    /\ Key.is_diatonic analysis = false
    /\ Key.get_chord_for_degree key 4 = Ok (Chord.mk (Note.mk "A#" 4 70) "major"
                                                     (Note.mk "A#" 4 70)).
Proof.
  assert (H : exists key chord analysis,
            f_major = Ok key /\ b_flat_chord = Ok chord
            /\ Chord.root chord = Note.mk "Bb" 4 70
            /\ Key.analyze_chord key chord = Ok analysis
            /\ Key.get_chord_for_degree key 4
               = Ok (Chord.mk (Note.mk "A#" 4 70) "major" (Note.mk "A#" 4 70))).
  { eexists _, _, _. split; [vm_compute; reflexivity|].
    split; [vm_compute; reflexivity|]. split; [reflexivity|].
    split; vm_compute; reflexivity. }
  destruct H as (key & chord & analysis & Hk & Hc & Hroot & Ha & H4).
  destruct (flat_spelled_note_never_contained (Note.mk "Bb" 4 70)) as (_ & _ & Hkey).
  - cbn. tauto.
  - destruct (Hkey key chord analysis Hroot Ha) as (Hd & Hf & Hdia).
    exists key, chord, analysis. auto 10.
Defined.

(** ** core/chord.py: inversions and voicings *)

Lemma inversion_check_all :
  forallb (fun r => forallb (inversion_check r) chord_qualities) (Zrange 0 11) = true.
Proof. vm_compute. reflexivity. Qed.

Lemma transpose_pitch_class (root : Note.t) (t : Z) (n : Note.t) :
  Note.transpose root t = Ok n ->
  Note.pitch_class n = sharp_name ((Note.midi_number root) mod 12 + t).
Proof.
  intros H. pose proof (transpose_inv _ _ _ H) as (Hr & _ & _).
  unfold Note.transpose in H. destruct (negb _); [discriminate|].
  destruct (of_midi_spec (Note.midi_number root + t)) as [Hin _].
  unfold Note.of_midi in Hin. rewrite (Hin Hr) in H. apply Ok_inj in H. subst n.
  cbn [Note.pitch_class]. unfold sharp_name. f_equal.
  rewrite Zplus_mod_idemp_l. reflexivity.
Qed.

Lemma chord_notes_pitch_classes (chord : Chord.t) (ns : list Note.t) :
  Chord.notes chord = Ok ns ->
  exists tones,
    Chord.CHORD_TONES !! Chord.quality chord = Some tones
    /\ map Note.pitch_class ns
       = map (fun t => sharp_name (Note.midi_number (Chord.root chord) mod 12 + t)) tones.
Proof.
  unfold Chord.notes. destruct (Chord.CHORD_TONES !! _) as [tones|]; [|discriminate].
  intros H. exists tones. split; [reflexivity|]. apply mapM_Forall2 in H.
  induction H as [|t n tones ns Ht _ IH]; [reflexivity|].
  cbn [map]. rewrite IH, (transpose_pitch_class _ _ _ Ht). reflexivity.
Qed.

Lemma lowest_first (b : Note.t) (rest : list Note.t) :
  Forall (fun n => Note.midi_number b <= Note.midi_number n) rest ->
  ChordDetector.lowest b rest = b.
Proof.
  induction 1 as [|n rest Hn _ IH]; cbn [ChordDetector.lowest]; [reflexivity|].
  destruct (Z.ltb_spec (Note.midi_number n) (Note.midi_number b)); [lia | exact IH].
Qed.

(** X10.  When [ChordInversion(chord, k)] is built for a non-negative [k] and
    has the bass note [b], then [detect_chord_inversions] of the chord
    and any voicing whose lowest note is [b], listed first, returns
    [k]. *)
Theorem inversion_bass_is_detected (chord : Chord.t) (k : Z) (inv : ChordInversion.t)
    (b : Note.t) (above : list Note.t) :
  ChordInversion.init chord k = Ok inv ->
  0 <= k ->
  ChordInversion.bass_note inv = Ok b ->
  Forall (fun n => Note.midi_number b <= Note.midi_number n) above ->
  ChordDetector.detect_chord_inversions chord (b :: above) = Ok k.
Proof.
  intros Hinit Hk Hbass Habove. unfold ChordInversion.init in Hinit.
  inv_bind Hinit as ns Hns.
  destruct (Z.leb_spec (Z.of_nat (length ns)) k) as [|Hlt]; [discriminate|].
  apply Ok_inj in Hinit. subst inv. unfold ChordInversion.bass_note in Hbass.
  cbn [ChordInversion.chord ChordInversion.inversion] in Hbass.
  rewrite (bind_eq _ _ _ Hns) in Hbass. rewrite Z.mod_small in Hbass by lia.
  unfold ChordDetector.detect_chord_inversions. rewrite (lowest_first _ _ Habove).
  rewrite (bind_eq _ _ _ Hns).
  destruct (chord_notes_pitch_classes _ _ Hns) as (tones & Htones & Hpcs).
  (* the bass note is the k-th note *)
  unfold Py.getitem in Hbass. cbv zeta in Hbass.
  destruct (k <? 0) eqn:E; [lia|].
  destruct ((0 <=? k) && (k <? Z.of_nat (length ns)))%bool; [|discriminate].
  destruct (nth_error ns (Z.to_nat k)) as [b'|] eqn:Hnth; [|discriminate].
  apply Ok_inj in Hbass. subst b'.
  assert (Hpc : Note.pitch_class b = nth (Z.to_nat k) (map Note.pitch_class ns) "").
  { rewrite (nth_error_nth (map Note.pitch_class ns) (Z.to_nat k) ""
               (x := Note.pitch_class b)); [reflexivity|].
    rewrite nth_error_map, Hnth. reflexivity. }
  rewrite Hpc, Hpcs.
  (* the table *)
  pose proof inversion_check_all as Hall. rewrite forallb_forall in Hall.
  assert (Hr : In (Note.midi_number (Chord.root chord) mod 12) (Zrange 0 11)).
  { apply In_Zrange. pose proof (Z.mod_pos_bound (Note.midi_number (Chord.root chord)) 12).
    lia. }
  specialize (Hall _ Hr). rewrite forallb_forall in Hall.
  specialize (Hall _ (chord_tones_keys _ _ Htones)).
  unfold inversion_check in Hall. rewrite Htones in Hall. cbv zeta in Hall.
  rewrite forallb_forall in Hall. specialize (Hall (Z.to_nat k)).
  assert (Hlen : length tones = length ns).
  { rewrite <- (length_map Note.pitch_class ns), Hpcs, length_map. reflexivity. }
  rewrite length_map in Hall.
  assert (Hin : In (Z.to_nat k) (seq 0 (length tones))) by (apply in_seq; lia).
  specialize (Hall Hin).
  destruct (Py.index _ _) as [i|]; [|discriminate].
  apply Z.eqb_eq in Hall. f_equal. lia.
Qed.

(** X10: Cmaj7 in second inversion has the bass G. *)
Lemma inversion_bass_is_detected_witness :
  exists chord inv b,
    Chord.from_symbol "Cmaj7" 4 = Ok chord
    /\ ChordInversion.init chord 2 = Ok inv
    /\ ChordInversion.bass_note inv = Ok b /\ Note.pitch_class b = "G"
    /\ ChordDetector.detect_chord_inversions chord [b] = Ok 2.
Proof.
  assert (H : exists chord inv b,
            Chord.from_symbol "Cmaj7" 4 = Ok chord
            /\ ChordInversion.init chord 2 = Ok inv
            /\ ChordInversion.bass_note inv = Ok b /\ Note.pitch_class b = "G").
  { eexists _, _, _. split; [vm_compute; reflexivity|].
    split; [vm_compute; reflexivity|]. split; [vm_compute; reflexivity|]. reflexivity. }
  destruct H as (chord & inv & b & Hc & Hi & Hb & Hpc).
  exists chord, inv, b. repeat split; try assumption.
  apply (inversion_bass_is_detected chord 2 inv b [] Hi ltac:(lia) Hb). constructor.
Defined.

Lemma insert_sorted_perm (x : Note.t) (l : list Note.t) :
  Permutation (ChordVoicing.insert_sorted x l) (x :: l).
Proof.
  induction l as [|y l IH]; cbn [ChordVoicing.insert_sorted]; [reflexivity|].
  destruct (Note.ltb y x); [|reflexivity]. rewrite IH. apply perm_swap.
Qed.

Lemma voicing_sorted_perm (l : list Note.t) : Permutation (ChordVoicing.sorted l) l.
Proof.
  unfold ChordVoicing.sorted. induction l as [|x l IH]; cbn [foldr]; [reflexivity|].
  rewrite insert_sorted_perm. constructor. exact IH.
Qed.

Lemma insert_sorted_sorted (x : Note.t) (l : list Note.t) :
  StronglySorted midi_le l -> StronglySorted midi_le (ChordVoicing.insert_sorted x l).
Proof.
  induction 1 as [|y l Hs IH Hy]; cbn [ChordVoicing.insert_sorted].
  - repeat constructor.
  - unfold Note.ltb. destruct (Z.ltb_spec (Note.midi_number y) (Note.midi_number x)).
    + constructor; [exact IH|].
      eapply Permutation_Forall; [symmetry; apply insert_sorted_perm|].
      constructor; [unfold midi_le; lia | exact Hy].
    + constructor; [constructor; assumption|].
      constructor; [unfold midi_le; lia|].
      eapply List.Forall_impl; [|exact Hy]. unfold midi_le. intros; lia.
Qed.

Lemma voicing_sorted_sorted (l : list Note.t) :
  StronglySorted midi_le (ChordVoicing.sorted l).
Proof.
  unfold ChordVoicing.sorted. induction l as [|x l IH]; cbn [foldr]; [constructor|].
  apply insert_sorted_sorted, IH.
Qed.

Lemma validate_Forall (pcs : gset string) (notes : list Note.t) :
  ChordVoicing.validate pcs notes = Ok tt
  <-> Forall (fun n => Note.pitch_class n ∈ pcs) notes.
Proof.
  induction notes as [|n notes IH]; cbn [ChordVoicing.validate].
  - split; [constructor | reflexivity].
  - destruct (bool_decide_reflect (Note.pitch_class n ∈ pcs)) as [Hin|Hout]; cbn [negb].
    + rewrite IH. split; [constructor; assumption | intros H; inversion H; assumption].
    + split; [discriminate | intros H; inversion H; contradiction].
Qed.

Lemma getitem_first {A : Type} (x : A) (l : list A) : Py.getitem (x :: l) 0 = Ok x.
Proof.
  unfold Py.getitem. cbv zeta. cbn [length].
  assert (E : ((0 <=? 0) && (0 <? Z.of_nat (S (length l))))%bool = true)
    by (apply andb_true_iff; split; [apply Z.leb_le | apply Z.ltb_lt]; lia).
  change (0 <? 0) with false. cbv iota. rewrite E. reflexivity.
Qed.

Lemma getitem_last {A : Type} (l : list A) (x : A) : Py.getitem (l ++ [x]) (-1) = Ok x.
Proof.
  unfold Py.getitem. cbv zeta. rewrite length_app. cbn [length].
  change (-1 <? 0) with true. cbv iota.
  replace (-1 + Z.of_nat (length l + 1)) with (Z.of_nat (length l)) by lia.
  assert (E : ((0 <=? Z.of_nat (length l))
               && (Z.of_nat (length l) <? Z.of_nat (length l + 1)))%bool = true)
    by (apply andb_true_iff; split; [apply Z.leb_le | apply Z.ltb_lt]; lia).
  rewrite E, Nat2Z.id, nth_error_app2, Nat.sub_diag by lia. reflexivity.
Qed.

(** X11.  A [ChordVoicing] that is built holds a permutation of the notes
    given, sorted by MIDI number, and each of them is contained in the
    chord.  With no notes, [bass_note] raises [IndexError]; otherwise
    the bass and the soprano are the lowest and the highest of the
    notes, and [range] is the interval between them, which is not
    negative. *)
Theorem voicing_is_sorted (chord : Chord.t) (notes : list Note.t) (v : ChordVoicing.t) :
  ChordVoicing.init chord notes = Ok v ->
  Permutation (ChordVoicing.notes v) notes
  /\ StronglySorted midi_le (ChordVoicing.notes v)
  /\ Forall (fun n => Chord.contains_note chord n = Ok true) notes
  /\ (notes = [] -> ChordVoicing.bass_note v = Raise IndexError)
  /\ (notes <> [] ->
      exists bass soprano,
        ChordVoicing.bass_note v = Ok bass
        /\ ChordVoicing.soprano_note v = Ok soprano
        /\ In bass notes /\ In soprano notes
        /\ Forall (fun n => midi_le bass n /\ midi_le n soprano) notes
        /\ ChordVoicing.range v = Ok (Interval.from_notes bass soprano)
        /\ Interval.semitones (Interval.from_notes bass soprano)
           = Note.midi_number soprano - Note.midi_number bass
        /\ 0 <= Interval.semitones (Interval.from_notes bass soprano)).
Proof.
  intros H. unfold ChordVoicing.init in H. cbv zeta in H.
  inv_bind H as pcs Hpcs. inv_bind H as u Hval. destruct u.
  apply Ok_inj in H. subst v. cbn [ChordVoicing.notes].
  pose proof (voicing_sorted_perm notes) as Hperm.
  pose proof (voicing_sorted_sorted notes) as Hsorted.
  split; [exact Hperm|]. split; [exact Hsorted|]. split.
  { apply validate_Forall in Hval. eapply List.Forall_impl; [|exact Hval].
    intros n Hn. unfold Chord.contains_note. rewrite (bind_eq _ _ _ Hpcs).
    rewrite bool_decide_eq_true_2 by exact Hn. reflexivity. }
  split; [intros ->; reflexivity|].
  intros Hne.
  set (s := ChordVoicing.sorted notes) in *.
  destruct s as [|bass s'] eqn:Hs.
  { apply Permutation_nil in Hperm. congruence. }
  assert (Hlast : exists front soprano, bass :: s' = (front ++ [soprano])%list).
  { destruct (exists_last (l := bass :: s') ltac:(discriminate)) as (front & soprano & E).
    eauto. }
  destruct Hlast as (front & soprano & Efs).
  exists bass, soprano.
  assert (Hbass_note : ChordVoicing.bass_note (ChordVoicing.mk chord (bass :: s'))
                       = Ok bass) by apply getitem_first.
  assert (Hsoprano_note : ChordVoicing.soprano_note (ChordVoicing.mk chord (bass :: s'))
                          = Ok soprano).
  { unfold ChordVoicing.soprano_note. cbn [ChordVoicing.notes]. rewrite Efs.
    apply getitem_last. }
  assert (Hb : In bass notes).
  { eapply Permutation_in; [exact Hperm | left; reflexivity]. }
  assert (Hsop : In soprano notes).
  { eapply Permutation_in; [exact Hperm|]. rewrite Efs. apply in_or_app.
    right. left. reflexivity. }
  assert (Hbounds : Forall (fun n => midi_le bass n /\ midi_le n soprano) (bass :: s')).
  { apply List.Forall_forall. intros n Hn. split.
    - inversion Hsorted as [|? ? _ Hall]; subst. destruct Hn as [<-|Hn].
      + unfold midi_le. lia.
      + rewrite List.Forall_forall in Hall. apply Hall, Hn.
    - rewrite Efs in Hsorted, Hn. clear - Hsorted Hn.
      induction front as [|y front IH]; cbn in *.
      + destruct Hn as [<-|[]]. unfold midi_le. lia.
      + inversion Hsorted as [|? ? Hs Hall]; subst. destruct Hn as [<-|Hn].
        * rewrite List.Forall_forall in Hall. apply Hall, in_or_app. right. left.
          reflexivity.
        * apply IH; assumption. }
  assert (Hrange : midi_le bass soprano).
  { rewrite List.Forall_forall in Hbounds. apply (Hbounds bass). left. reflexivity. }
  pose proof (interval_semitones_init
                (Note.midi_number soprano - Note.midi_number bass)) as Hsem.
  split; [exact Hbass_note|]. split; [exact Hsoprano_note|].
  split; [exact Hb|]. split; [exact Hsop|].
  split; [eapply Permutation_Forall; [exact Hperm | exact Hbounds]|].
  split.
  { unfold ChordVoicing.range. rewrite (bind_eq _ _ _ Hbass_note).
    rewrite (bind_eq _ _ _ Hsoprano_note). reflexivity. }
  unfold Interval.from_notes. rewrite Hsem. unfold midi_le in Hrange. lia.
Qed.

(** X11: G4, C5, E3 over C major are kept as E3, G4, C5. *)
Lemma voicing_is_sorted_witness :
  exists chord v,
    Chord.from_symbol "C" 4 = Ok chord
    /\ ChordVoicing.init chord [Note.mk "G" 4 67; Note.mk "C" 5 72; Note.mk "E" 3 52]
       = Ok v
    /\ ChordVoicing.notes v = [Note.mk "E" 3 52; Note.mk "G" 4 67; Note.mk "C" 5 72]
    /\ StronglySorted midi_le (ChordVoicing.notes v).
Proof.
  assert (H : exists chord v,
            Chord.from_symbol "C" 4 = Ok chord
            /\ ChordVoicing.init chord
                 [Note.mk "G" 4 67; Note.mk "C" 5 72; Note.mk "E" 3 52] = Ok v
            /\ ChordVoicing.notes v
               = [Note.mk "E" 3 52; Note.mk "G" 4 67; Note.mk "C" 5 72]).
  { eexists _, _. split; [vm_compute; reflexivity|].
    split; [vm_compute; reflexivity|]. reflexivity. }
  destruct H as (chord & v & Hc & Hv & Hn).
  exists chord, v. repeat split; try assumption.
  apply (voicing_is_sorted chord _ v Hv).
Defined.

(** ** core/scale.py: degrees, diatonic chords, relative scales *)

Lemma degree_check_all :
  forallb (fun m => forallb (degree_check m) scale_types) (Zrange 0 127) = true.
Proof. vm_compute. reflexivity. Qed.

Lemma scale_on_same (scale : Scale.t) :
  let scale' := scale_on (Note.midi_number (Scale.tonic scale)) (Scale.scale_type scale) in
  (forall cat, Scale.notes cat scale = Scale.notes cat scale')
  /\ (forall cat d, Scale.get_degree cat scale d = Scale.get_degree cat scale' d)
  /\ (forall cat n, Scale.get_note_degree cat scale n = Scale.get_note_degree cat scale' n)
  /\ (forall cat n, Scale.contains_note cat scale n = Scale.contains_note cat scale' n)
  /\ (forall cat d chord_type,
        Scale.get_chord_for_degree cat scale d chord_type
        = Scale.get_chord_for_degree cat scale' d chord_type)
  /\ (forall cat, Scale.pitch_classes cat scale = Scale.pitch_classes cat scale').
Proof.
  destruct scale as [[pc o m] ty im ps mn]. cbn [Scale.tonic Scale.scale_type Note.midi_number].
  repeat split; reflexivity.
Qed.

Lemma scale_patterns_keys (scale_type : string) (p : list Z) :
  Scale.SCALE_PATTERNS !! scale_type = Some p ->
  In scale_type scale_types /\ (exists rest, p = 0 :: rest) /\ (length p <= 12)%nat.
Proof.
  intros H. unfold Scale.SCALE_PATTERNS in H.
  apply elem_of_list_to_map_2, list_elem_of_In in H. cbn [In] in H.
  repeat (destruct H as [H|H];
          [injection H as <- <-; split; [cbn; tauto|]; split; [eauto | cbn; lia]|]).
  destruct H.
Qed.

Lemma scale_notes_in_range (scale : Scale.t) (ns : list Note.t) :
  Scale.notes Scale.SCALE_PATTERNS scale = Ok ns ->
  In (Note.midi_number (Scale.tonic scale)) (Zrange 0 127)
  /\ In (Scale.scale_type scale) scale_types.
Proof.
  intros H. unfold Scale.notes in H. inv_bind H as p Hp. unfold Scale.pattern in Hp.
  destruct (Scale.SCALE_PATTERNS !! Scale.scale_type scale) as [p'|] eqn:Hcat;
    [|discriminate].
  apply Ok_inj in Hp. subst p'.
  destruct (scale_patterns_keys _ _ Hcat) as (Hty & (rest & ->) & _).
  split; [|exact Hty]. apply mapM_Forall2 in H.
  inversion H as [|? n ? ns' Ht _]; subst. apply transpose_inv in Ht as (Hr & _).
  apply In_Zrange. lia.
Qed.

(** X12.  For every scale of the catalog: the note [get_degree] returns for
    a degree is contained in the scale, and [get_note_degree] gives that
    degree back. *)
Theorem scale_degree_round_trip (scale : Scale.t) (d : Z) (n : Note.t) :
  Scale.get_degree Scale.SCALE_PATTERNS scale d = Ok n ->
  Scale.get_note_degree Scale.SCALE_PATTERNS scale n = Ok (Some d)
  /\ Scale.contains_note Scale.SCALE_PATTERNS scale n = Ok true.
Proof.
  intros H. destruct (scale_on_same scale) as (_ & Hdeg & Hnd & Hcn & _).
  cbv zeta in *. rewrite Hdeg in H. rewrite Hnd, Hcn.
  assert (Hin : In (Note.midi_number (Scale.tonic scale)) (Zrange 0 127)
                /\ In (Scale.scale_type scale) scale_types /\ In d (Zrange 1 12)).
  { pose proof H as H'. unfold Scale.get_degree in H'. inv_bind H' as p Hp.
    destruct (negb _) eqn:E; [discriminate|]. inv_bind H' as ns Hns.
    destruct (scale_notes_in_range _ _ Hns) as [Hm Hty].
    split; [exact Hm|]. split; [exact Hty|].
    unfold Scale.pattern in Hp. cbn [scale_on Scale.scale_type] in Hp.
    destruct (Scale.SCALE_PATTERNS !! Scale.scale_type scale) as [p'|] eqn:Hcat;
      [|discriminate].
    apply Ok_inj in Hp. subst p'. destruct (scale_patterns_keys _ _ Hcat) as (_ & _ & Hlen).
    apply negb_false_iff, andb_true_iff in E as [E1 E2].
    apply Z.leb_le in E1, E2. apply In_Zrange. lia. }
  destruct Hin as (Hm & Hty & Hd).
  pose proof degree_check_all as Hall. rewrite forallb_forall in Hall.
  specialize (Hall _ Hm). rewrite forallb_forall in Hall. specialize (Hall _ Hty).
  unfold degree_check in Hall. cbv zeta in Hall. rewrite forallb_forall in Hall.
  specialize (Hall _ Hd). rewrite H in Hall.
  apply andb_true_iff in Hall as [H1 H2].
  destruct (Scale.get_note_degree _ _ n) as [[d'|]|]; try discriminate.
  apply Z.eqb_eq in H1. subst d'.
  destruct (Scale.contains_note _ _ n) as [b|]; [|discriminate]. subst b. auto.
Qed.

(** X12: the sixth degree of D dorian is B4. *)
Lemma scale_degree_round_trip_witness :
  exists scale n,
    Scale.init Scale.SCALE_PATTERNS (Note.mk "D" 4 62) "dorian" = Ok scale
    /\ Scale.get_degree Scale.SCALE_PATTERNS scale 6 = Ok n
    /\ n = Note.mk "B" 4 71
    /\ Scale.get_note_degree Scale.SCALE_PATTERNS scale n = Ok (Some 6).
Proof.
  assert (H : exists scale,
            Scale.init Scale.SCALE_PATTERNS (Note.mk "D" 4 62) "dorian" = Ok scale
            /\ Scale.get_degree Scale.SCALE_PATTERNS scale 6 = Ok (Note.mk "B" 4 71)).
  { eexists. split; vm_compute; reflexivity. }
  destruct H as (scale & Hs & Hd). exists scale, (Note.mk "B" 4 71).
  repeat split; try assumption.
  apply (scale_degree_round_trip scale 6 _ Hd).
Defined.

Lemma diatonic_check_all :
  forallb (fun m => diatonic_check m "major" && diatonic_check m "minor")
          (Zrange 0 116) = true.
Proof. vm_compute. reflexivity. Qed.

Lemma key_init_canonical (tonic : Note.t) (mode : string) (key : Key.t) :
  mode = "major" \/ mode = "minor" ->
  Key.init tonic mode = Ok key ->
  key = {| Key.tonic := tonic; Key.mode := mode;
           Key._scale := {| Scale.tonic := tonic;
                            Scale.scale_type := key_scale_type mode;
                            Scale._is_mode := false; Scale._parent_scale := None;
                            Scale._mode_number := None |} |}.
Proof.
  intros [-> | ->] H; vm_compute in H; apply Ok_inj in H; subst key; reflexivity.
Qed.

(** X13.  In a major or minor key whose tonic has a MIDI number of at most
    116, every degree 1..7 has a triad and a seventh chord, rooted on
    the degree's scale note, with the qualities of [diatonic_triads]
    and [diatonic_sevenths]: major, minor, minor, major, major, minor,
    diminished in major, and the natural-minor counterparts in
    minor. *)
Theorem diatonic_chords_of_key (tonic : Note.t) (mode : string) (key : Key.t) (d : Z) :
  mode = "major" \/ mode = "minor" ->
  Key.init tonic mode = Ok key ->
  0 <= Note.midi_number tonic <= 116 ->
  1 <= d <= 7 ->
  exists triad seventh pattern,
    Key.get_chord_for_degree key d = Ok triad
    /\ Key.get_seventh_chord_for_degree key d = Ok seventh
    /\ nth_error (diatonic_triads mode) (Z.to_nat (d - 1)) = Some (Chord.quality triad)
    /\ nth_error (diatonic_sevenths mode) (Z.to_nat (d - 1))
       = Some (Chord.quality seventh)
    /\ Scale.SCALE_PATTERNS !! key_scale_type mode = Some pattern
    /\ Note.midi_number (Chord.root triad)
       = Note.midi_number tonic + Py.nth_Z (d - 1) pattern 0
    /\ Note.midi_number (Chord.root seventh)
       = Note.midi_number tonic + Py.nth_Z (d - 1) pattern 0.
Proof.
  intros Hmode Hkey Hm Hd. rewrite (key_init_canonical _ _ _ Hmode Hkey).
  unfold Key.get_chord_for_degree, Key.get_seventh_chord_for_degree, Key.scale.
  cbn [Key._scale].
  set (scale := Scale.mk tonic (key_scale_type mode) false None None).
  destruct (scale_on_same scale) as (_ & _ & _ & _ & Hchord & _). cbv zeta in Hchord.
  rewrite !Hchord. subst scale. cbn [Scale.tonic Scale.scale_type].
  pose proof diatonic_check_all as Hall. rewrite forallb_forall in Hall.
  specialize (Hall (Note.midi_number tonic) (In_Zrange 0 116 _ Hm)).
  assert (Hcheck : diatonic_check (Note.midi_number tonic) mode = true).
  { apply andb_true_iff in Hall. destruct Hmode as [-> | ->]; tauto. }
  unfold diatonic_check in Hcheck. cbv zeta in Hcheck. rewrite forallb_forall in Hcheck.
  specialize (Hcheck d (In_Zrange 1 7 _ Hd)).
  destruct (Scale.get_chord_for_degree _ _ d "triad") as [triad|]; [|discriminate].
  destruct (Scale.get_chord_for_degree _ _ d "seventh") as [seventh|]; [|discriminate].
  destruct (Scale.SCALE_PATTERNS !! key_scale_type mode) as [pattern|]; [|discriminate].
  repeat (apply andb_true_iff in Hcheck as [Hcheck ?]).
  exists triad, seventh, pattern.
  repeat match goal with
         | H : bool_decide _ = true |- _ => apply bool_decide_eq_true in H
         | H : (_ =? _) = true |- _ => apply Z.eqb_eq in H
         end.
  auto 10.
Qed.

(** X13: the seventh degree of G major is F# diminished, F#
    half-diminished. *)
Lemma diatonic_chords_of_key_witness :
  exists key triad seventh,
    Key.init (Note.mk "G" 4 67) "major" = Ok key
    /\ Key.get_chord_for_degree key 7 = Ok triad
    /\ Key.get_seventh_chord_for_degree key 7 = Ok seventh
    /\ Chord.quality triad = "diminished"
    /\ Chord.quality seventh = "half_diminished7"
    /\ Note.midi_number (Chord.root triad) = 78.
Proof.
  assert (Hk : exists key, Key.init (Note.mk "G" 4 67) "major" = Ok key).
  { eexists. vm_compute. reflexivity. }
  destruct Hk as (key & Hk).
  destruct (diatonic_chords_of_key (Note.mk "G" 4 67) "major" key 7
              (or_introl eq_refl) Hk)
    as (triad & seventh & pattern & Ht & Hs & Hqt & Hqs & Hp & Hr & _).
  - cbn. lia.
  - lia.
  - exists key, triad, seventh. repeat split; try assumption.
    + change (Some "diminished" = Some (Chord.quality triad)) in Hqt. congruence.
    + change (Some "half_diminished7" = Some (Chord.quality seventh)) in Hqs.
      congruence.
    + vm_compute in Hp. injection Hp as <-. rewrite Hr. reflexivity.
Defined.

Lemma relative_check_all :
  forallb (fun m =>
             forallb (fun from_type => forallb (relative_check m from_type) scale_types)
                     scale_types)
          (Zrange 0 127) = true.
Proof. vm_compute. reflexivity. Qed.

Lemma note_same_eq (a b : Note.t) : note_same a b = true -> a = b.
Proof.
  unfold note_same. intros H. apply andb_true_iff in H as [H H3].
  apply andb_true_iff in H as [H1 H2]. apply String.eqb_eq in H1.
  apply Z.eqb_eq in H2, H3. destruct a, b. cbn in *. congruence.
Qed.

Lemma same_members_In (a b : list string) :
  same_members a b = true -> forall x, In x a <-> In x b.
Proof.
  unfold same_members. intros H x. apply andb_true_iff in H as [H1 H2].
  rewrite forallb_forall in H1, H2. split; intros Hx.
  - apply str_in_In, H1, Hx.
  - apply str_in_In, H2, Hx.
Qed.

Lemma relative_scale_same (scale : Scale.t) (scale_type : string) :
  Scale.get_relative_scale Scale.SCALE_PATTERNS scale scale_type
  = Scale.get_relative_scale Scale.SCALE_PATTERNS
      (scale_on (Note.midi_number (Scale.tonic scale)) (Scale.scale_type scale))
      scale_type.
Proof. destruct scale as [[pc o m] ty im ps mn]. reflexivity. Qed.

(** X14.  Whenever [get_relative_scale] returns a scale, it has the type
    asked for, its tonic is one of the notes of the original scale, and
    whenever its pitch classes can be read they are those of the
    original scale. *)
Theorem relative_scale_same_pitch_classes (scale : Scale.t) (scale_type : string)
    (r : Scale.t) :
  Scale.get_relative_scale Scale.SCALE_PATTERNS scale scale_type = Ok r ->
  Scale.scale_type r = scale_type
  /\ (exists ns, Scale.notes Scale.SCALE_PATTERNS scale = Ok ns /\ In (Scale.tonic r) ns)
  /\ (forall pcs',
        Scale.pitch_classes Scale.SCALE_PATTERNS r = Ok pcs' ->
        exists pcs,
          Scale.pitch_classes Scale.SCALE_PATTERNS scale = Ok pcs
          /\ forall pc, In pc pcs <-> In pc pcs').
Proof.
  intros H. destruct (scale_on_same scale) as (Hnotes & _ & _ & _ & _ & Hpcs).
  cbv zeta in *. rewrite relative_scale_same in H. rewrite Hnotes, Hpcs.
  assert (Hin : In (Note.midi_number (Scale.tonic scale)) (Zrange 0 127)
                /\ In (Scale.scale_type scale) scale_types
                /\ In scale_type scale_types).
  { pose proof H as H'. unfold Scale.get_relative_scale in H'.
    destruct (Scale.SCALE_PATTERNS !! scale_type) as [target|] eqn:Hcat; [|discriminate].
    destruct (scale_patterns_keys _ _ Hcat) as (Hty & _).
    inv_bind H' as ns Hns. apply scale_notes_in_range in Hns.
    cbn [scale_on Scale.tonic Scale.scale_type Note.midi_number] in Hns.
    destruct Hns as [Hns1 Hns2]. auto. }
  destruct Hin as (Hm & Hfrom & Hto).
  pose proof relative_check_all as Hall. rewrite forallb_forall in Hall.
  specialize (Hall _ Hm). rewrite forallb_forall in Hall. specialize (Hall _ Hfrom).
  rewrite forallb_forall in Hall. specialize (Hall _ Hto).
  unfold relative_check in Hall. cbv zeta in Hall. rewrite H in Hall.
  apply andb_true_iff in Hall as [Hall Hp]. apply andb_true_iff in Hall as [Hty Hton].
  apply String.eqb_eq in Hty. split; [exact Hty|]. split.
  - destruct (Scale.notes _ (scale_on _ _)) as [ns|]; [|discriminate].
    exists ns. split; [reflexivity|]. apply existsb_exists in Hton as (n & Hn & E).
    apply note_same_eq in E. subst n. exact Hn.
  - intros pcs' Hr. rewrite Hr in Hp.
    destruct (Scale.pitch_classes _ (scale_on _ _)) as [pcs|]; [|discriminate].
    exists pcs. split; [reflexivity|]. apply same_members_In, Hp.
Qed.

(** X14: the relative natural minor of C major is on A4. *)
Lemma relative_scale_same_pitch_classes_witness :
  exists scale r,
    Scale.major Scale.SCALE_PATTERNS (Note.mk "C" 4 60) = Ok scale
    /\ Scale.get_relative_scale Scale.SCALE_PATTERNS scale "natural_minor" = Ok r
    /\ Scale.tonic r = Note.mk "A" 4 69
    /\ Scale.scale_type r = "natural_minor".
Proof.
  eexists _, _. split; [vm_compute; reflexivity|].
  assert (H : Scale.get_relative_scale Scale.SCALE_PATTERNS
                (Scale.mk (Note.mk "C" 4 60) "major" false None None) "natural_minor"
              = Ok (Scale.mk (Note.mk "A" 4 69) "natural_minor" false None None)).
  { vm_compute. reflexivity. }
  split; [exact H|]. split; [reflexivity|].
  exact (proj1 (relative_scale_same_pitch_classes _ _ _ H)).
Defined.

(** ** core/key.py: relative keys, signatures, modes *)

Lemma relative_key_check_all :
  forallb (fun m => relative_key_check m "major") (Zrange 3 127)
  && forallb (fun m => relative_key_check m "minor") (Zrange 0 124) = true.
Proof. vm_compute. reflexivity. Qed.

Lemma relative_key_same (tonic : Note.t) (mode : string) (key : Key.t) :
  mode = "major" \/ mode = "minor" ->
  Key.init tonic mode = Ok key ->
  Key.mode key = mode
  /\ Key.relative_key key = Key.relative_key (key_on (Note.midi_number tonic) mode)
  /\ key_pitch_classes key = key_pitch_classes (key_on (Note.midi_number tonic) mode).
Proof.
  intros Hmode Hkey. rewrite (key_init_canonical _ _ _ Hmode Hkey).
  destruct tonic as [pc o m]. repeat split; reflexivity.
Qed.

(** X15.  For a major or minor key on a tonic within 0..127: [relative_key]
    returns exactly when the tonic moved by three semitones, down for
    major and up for minor, stays within 0..127, and raises
    [ValueError] otherwise.  The relative key has the other mode, the
    moved tonic and, where both scales can be read, the same pitch
    classes; its own relative key has the mode and the tonic's MIDI
    number of the key started from. *)
Theorem relative_key_round_trip (tonic : Note.t) (mode : string) (key : Key.t) :
  mode = "major" \/ mode = "minor" ->
  Key.init tonic mode = Ok key ->
  (0 <= Note.midi_number tonic <= 127 ->
   0 <= Note.midi_number tonic + relative_shift mode <= 127 ->
   exists rk back,
     Key.relative_key key = Ok rk
     /\ Key.mode rk = other_mode mode
     /\ Note.midi_number (Key.tonic rk) = Note.midi_number tonic + relative_shift mode
     /\ Key.relative_key rk = Ok back
     /\ Key.mode back = mode
     /\ Note.midi_number (Key.tonic back) = Note.midi_number tonic
     /\ (forall pcs pcs',
           key_pitch_classes key = Ok pcs -> key_pitch_classes rk = Ok pcs' ->
           forall pc, In pc pcs <-> In pc pcs'))
  /\ (~ 0 <= Note.midi_number tonic + relative_shift mode <= 127 ->
      Key.relative_key key = Raise ValueError).
Proof.
  intros Hmode Hkey. destruct (relative_key_same _ _ _ Hmode Hkey) as (Hm & Hrel & Hpcs).
  split.
  - intros Htonic Hrange. rewrite Hrel, Hpcs.
    pose proof relative_key_check_all as Hall. apply andb_true_iff in Hall as [Hmaj Hmin].
    rewrite forallb_forall in Hmaj, Hmin.
    assert (Hcheck : relative_key_check (Note.midi_number tonic) mode = true).
    { destruct Hmode as [-> | ->]; [apply Hmaj | apply Hmin];
        apply In_Zrange; cbn in Hrange; lia. }
    unfold relative_key_check in Hcheck.
    destruct (Key.relative_key (key_on _ _)) as [rk|]; [|discriminate].
    apply andb_true_iff in Hcheck as [Hcheck Hp].
    apply andb_true_iff in Hcheck as [Hcheck Hback].
    apply andb_true_iff in Hcheck as [Hrm Hrt].
    apply String.eqb_eq in Hrm. apply Z.eqb_eq in Hrt.
    destruct (Key.relative_key rk) as [back|] eqn:Hb; [|discriminate].
    apply andb_true_iff in Hback as [Hbm Hbt].
    apply String.eqb_eq in Hbm. apply Z.eqb_eq in Hbt.
    exists rk, back. do 6 (split; [first [reflexivity | assumption]|]).
    intros pcs pcs' H1 H2. rewrite H1, H2 in Hp. apply same_members_In, Hp.
  - intros Hout. rewrite (key_init_canonical _ _ _ Hmode Hkey).
    unfold Key.relative_key. cbn [Key.mode Key.tonic].
    destruct Hmode as [-> | ->]; cbn [String.eqb Ascii.eqb Bool.eqb relative_shift] in *.
    + destruct (transpose_cases tonic (-3)) as [_ Hraise]. rewrite (Hraise Hout).
      reflexivity.
    + destruct (transpose_cases tonic 3) as [_ Hraise]. rewrite (Hraise Hout).
      reflexivity.
Qed.

(** X15: C major, A minor on A3, and back. *)
Lemma relative_key_round_trip_witness :
  exists key rk back,
    Key.init (Note.mk "C" 4 60) "major" = Ok key
    /\ Key.relative_key key = Ok rk
    /\ Key.tonic rk = Note.mk "A" 3 57
    /\ Key.mode rk = "minor"
    /\ Key.relative_key rk = Ok back
    /\ Note.midi_number (Key.tonic back) = 60.
Proof.
  assert (Hk : exists key, Key.init (Note.mk "C" 4 60) "major" = Ok key).
  { eexists. vm_compute. reflexivity. }
  destruct Hk as (key & Hk).
  destruct (relative_key_round_trip (Note.mk "C" 4 60) "major" key (or_introl eq_refl) Hk)
    as [Hin _].
  destruct Hin as (rk & back & Hrk & Hm & Ht & Hb & _ & Hbt & _); [cbn; lia | cbn; lia|].
  exists key, rk, back. repeat split; try assumption.
  vm_compute in Hk. apply Ok_inj in Hk. subst key. vm_compute in Hrk.
  apply Ok_inj in Hrk. subst rk. reflexivity.
Defined.

Lemma signature_check_all :
  forallb (fun sig => signature_check sig "major") (Zrange (-6) 7)
  && forallb (fun sig => signature_check sig "minor") (Zrange (-7) 7) = true.
Proof. vm_compute. reflexivity. Qed.

Lemma inverted_out_of_range (table : list (string * Z)) (sig : Z) :
  table = Key.MAJOR_KEY_SIGNATURES \/ table = Key.MINOR_KEY_SIGNATURES ->
  ~ -7 <= sig <= 7 ->
  Key.inverted table !! sig = None.
Proof.
  intros Htable Hsig. unfold Key.inverted. apply not_elem_of_list_to_map_1.
  rewrite list_elem_of_In. intros Hin.
  destruct Htable as [-> | ->]; cbn in Hin; intuition lia.
Qed.

(** X16.  For the modes 'major' and 'minor': [from_signature] returns a key
    for every signature in -7..7 except -7 in major, whose tonic Cb is
    no note name; the key has the mode asked for, a tonic in octave 4,
    the signature it was built from, and as many accidentals as the
    signature counts.  For every other signature, and for -7 in major,
    [from_signature] raises [ValueError]. *)
Theorem key_signature_round_trip (sig : Z) (mode : string) :
  mode = "major" \/ mode = "minor" ->
  (-7 <= sig <= 7 /\ ~ (sig = -7 /\ mode = "major") ->
   exists key,
     Key.from_signature sig mode = Ok key
     /\ Key.signature key = sig
     /\ Key.mode key = mode
     /\ Note.octave (Key.tonic key) = 4
     /\ Z.of_nat (length (Key.accidentals key)) = Z.abs sig)
  /\ (~ -7 <= sig <= 7 \/ (sig = -7 /\ mode = "major") ->
      Key.from_signature sig mode = Raise ValueError).
Proof.
  intros Hmode. split.
  - intros [Hsig Hcb].
    pose proof signature_check_all as Hall. apply andb_true_iff in Hall as [Hmaj Hmin].
    rewrite forallb_forall in Hmaj, Hmin.
    assert (Hcheck : signature_check sig mode = true).
    { destruct Hmode as [-> | ->]; [apply Hmaj | apply Hmin]; apply In_Zrange; [|lia].
      destruct (Z.eq_dec sig (-7)); [tauto | lia]. }
    unfold signature_check in Hcheck.
    destruct (Key.from_signature sig mode) as [key|]; [|discriminate].
    repeat (apply andb_true_iff in Hcheck as [Hcheck ?]).
    exists key. apply Z.eqb_eq in Hcheck.
    repeat match goal with
           | H : (_ =? _) = true |- _ => apply Z.eqb_eq in H
           | H : String.eqb _ _ = true |- _ => apply String.eqb_eq in H
           end.
    auto.
  - intros [Hout | [-> ->]]; [|vm_compute; reflexivity].
    unfold Key.from_signature.
    destruct Hmode as [-> | ->]; cbn [String.eqb Ascii.eqb Bool.eqb];
      rewrite inverted_out_of_range by auto; reflexivity.
Qed.

(** X16: three flats in minor is C minor, with Bb, Eb, Ab. *)
Lemma key_signature_round_trip_witness :
  exists key,
    Key.from_signature (-3) "minor" = Ok key
    /\ Note.pitch_class (Key.tonic key) = "C"
    /\ Key.signature key = -3
    /\ Key.accidentals key = ["Bb"; "Eb"; "Ab"].
Proof.
  destruct (key_signature_round_trip (-3) "minor" (or_intror eq_refl)) as [Hin _].
  destruct Hin as (key & Hk & Hs & _); [split; [lia | intros [_ E]; discriminate E]|].
  exists key. split; [exact Hk|]. vm_compute in Hk. apply Ok_inj in Hk. subst key.
  repeat split; reflexivity.
Defined.

(** X17.  [Key.__init__] lowers the mode for the attribute but chooses the
    scale on the argument as written: for a mode that lowers to 'major'
    without being 'major', the key has the mode 'major' and a
    natural-minor scale, and its first-degree chord is minor. *)
Theorem key_init_capitalised_major (tonic : Note.t) (mode : string) :
  Py.lower mode = "major" ->
  mode <> "major" ->
  exists key,
    Key.init tonic mode = Ok key
    /\ Key.tonic key = tonic
    /\ Key.mode key = "major"
    /\ Scale.scale_type (Key.scale key) = "natural_minor"
    /\ (0 <= Note.midi_number tonic <= 116 ->
        exists triad,
          Key.get_chord_for_degree key 1 = Ok triad
          /\ Chord.quality triad = "minor").
Proof.
  intros Hlower Hmode. unfold Key.init. rewrite Hlower.
  apply String.eqb_neq in Hmode. rewrite Hmode.
  assert (Hscale : Scale.init Scale.SCALE_PATTERNS tonic "natural_minor"
                   = Ok (Scale.mk tonic "natural_minor" false None None)).
  { vm_compute. reflexivity. }
  change (negb (Py.str_in "major" ["major"; "minor"])) with false. cbv iota.
  rewrite (bind_eq _ _ _ Hscale). eexists. split; [reflexivity|].
  cbn [Key.tonic Key.mode Key.scale Key._scale Scale.scale_type].
  do 3 (split; [reflexivity|]). intros Hm.
  unfold Key.get_chord_for_degree, Key.scale. cbn [Key._scale].
  set (scale := Scale.mk tonic "natural_minor" false None None).
  destruct (scale_on_same scale) as (_ & _ & _ & _ & Hchord & _). cbv zeta in Hchord.
  rewrite Hchord. subst scale. cbn [Scale.tonic Scale.scale_type].
  pose proof diatonic_check_all as Hall. rewrite forallb_forall in Hall.
  specialize (Hall (Note.midi_number tonic) (In_Zrange 0 116 _ Hm)).
  apply andb_true_iff in Hall as [_ Hcheck].
  unfold diatonic_check in Hcheck. cbv zeta in Hcheck. rewrite forallb_forall in Hcheck.
  assert (Hone : 1 <= 1 <= 7) by lia.
  specialize (Hcheck 1 (In_Zrange 1 7 1 Hone)).
  change (key_scale_type "minor") with "natural_minor" in Hcheck.
  destruct (Scale.get_chord_for_degree _ _ 1 "triad") as [triad|]; [|discriminate].
  destruct (Scale.get_chord_for_degree _ _ 1 "seventh") as [seventh|]; [|discriminate].
  destruct (Scale.SCALE_PATTERNS !! "natural_minor") as [pattern|]; [|discriminate].
  repeat (apply andb_true_iff in Hcheck as [Hcheck ?]).
  apply bool_decide_eq_true in Hcheck.
  change (Some "minor" = Some (Chord.quality triad)) in Hcheck.
  exists triad. split; [reflexivity | congruence].
Qed.

(** X17: [Key(C4, 'Major')]. *)
Lemma key_init_capitalised_major_witness :
  exists key triad,
    Key.init (Note.mk "C" 4 60) "Major" = Ok key
    /\ Key.mode key = "major"
    /\ Key.get_chord_for_degree key 1 = Ok triad
    /\ Chord.quality triad = "minor".
Proof.
  destruct (key_init_capitalised_major (Note.mk "C" 4 60) "Major")
    as (key & Hk & _ & Hm & _ & Hchord).
  - reflexivity.
  - discriminate.
  - destruct Hchord as (triad & Ht & Hq); [cbn; lia|].
    exists key, triad. auto.
Defined.

Lemma fifths_check_all :
  forallb (fun m => fifths_check m "major" && fifths_check m "minor") (Zrange 0 115)
  = true.
Proof. vm_compute. reflexivity. Qed.

Lemma plain_scale_same_eq (a b : Scale.t) : plain_scale_same a b = true -> a = b.
Proof.
  unfold plain_scale_same. intros H.
  do 4 (apply andb_true_iff in H as [H ?]).
  apply note_same_eq in H.
  destruct a as [ta ya ia pa na], b as [tb yb ib pb nb]. cbn in *.
  match goal with E : String.eqb _ _ = true |- _ => apply String.eqb_eq in E end.
  destruct ia, ib, pa, pb, na, nb; try discriminate. congruence.
Qed.

Lemma key_same_eq (a b : Key.t) : key_same a b = true -> a = b.
Proof.
  unfold key_same. intros H. do 2 (apply andb_true_iff in H as [H ?]).
  apply note_same_eq in H.
  match goal with E : plain_scale_same _ _ = true |- _ => apply plain_scale_same_eq in E end.
  match goal with E : String.eqb _ _ = true |- _ => apply String.eqb_eq in E end.
  destruct a, b. cbn in *. congruence.
Qed.

(** X18.  In a major or minor key whose tonic has a MIDI number within
    0..115: [tonicize(5)] is the dominant key and [tonicize(4)] the
    subdominant key, a fifth and a fourth above the tonic and in the
    key's mode; the subdominant key of the dominant key, which is also
    the dominant key of the subdominant key, is the key in the same
    mode on the tonic an octave higher. *)
Theorem dominant_subdominant_tonicize (tonic : Note.t) (mode : string) (key : Key.t) :
  mode = "major" \/ mode = "minor" ->
  Key.init tonic mode = Ok key ->
  0 <= Note.midi_number tonic <= 115 ->
  exists dominant subdominant back,
    Key.get_dominant_key key = Ok dominant
    /\ Key.get_subdominant_key key = Ok subdominant
    /\ Key.tonicize key 5 = Ok dominant
    /\ Key.tonicize key 4 = Ok subdominant
    /\ Note.midi_number (Key.tonic dominant) = Note.midi_number tonic + 7
    /\ Note.midi_number (Key.tonic subdominant) = Note.midi_number tonic + 5
    /\ Key.mode dominant = mode /\ Key.mode subdominant = mode
    /\ Key.get_subdominant_key dominant = Ok back
    /\ Key.get_dominant_key subdominant = Ok back
    /\ Note.midi_number (Key.tonic back) = Note.midi_number tonic + 12
    /\ Key.mode back = mode.
Proof.
  intros Hmode Hkey Hm. rewrite (key_init_canonical _ _ _ Hmode Hkey).
  set (key' := Key.mk tonic mode _).
  assert (Hsame : Key.get_dominant_key key'
                  = Key.get_dominant_key (key_on (Note.midi_number tonic) mode)
                  /\ Key.get_subdominant_key key'
                     = Key.get_subdominant_key (key_on (Note.midi_number tonic) mode)
                  /\ (forall d, Key.tonicize key' d
                                = Key.tonicize (key_on (Note.midi_number tonic) mode) d)).
  { subst key'. destruct tonic as [pc o m]. repeat split; reflexivity. }
  destruct Hsame as (-> & -> & Hton). rewrite !Hton.
  pose proof fifths_check_all as Hall. rewrite forallb_forall in Hall.
  specialize (Hall _ (In_Zrange 0 115 _ Hm)).
  assert (Hcheck : fifths_check (Note.midi_number tonic) mode = true).
  { apply andb_true_iff in Hall. destruct Hmode as [-> | ->]; tauto. }
  unfold fifths_check in Hcheck. cbv zeta in Hcheck.
  destruct (Key.get_dominant_key (key_on _ _)) as [d|]; [|discriminate].
  destruct (Key.get_subdominant_key (key_on _ _)) as [s|]; [|discriminate].
  destruct (Key.tonicize _ 5) as [d'|]; [|discriminate].
  destruct (Key.tonicize _ 4) as [s'|]; [|discriminate].
  apply andb_true_iff in Hcheck as [Hcheck Hback].
  do 5 (apply andb_true_iff in Hcheck as [Hcheck ?]).
  destruct (Key.get_subdominant_key d) as [back|] eqn:Hbd; [|discriminate].
  destruct (Key.get_dominant_key s) as [back'|] eqn:Hbs; [|discriminate].
  do 2 (apply andb_true_iff in Hback as [Hback ?]).
  apply key_same_eq in Hcheck, Hback. subst d' back'.
  repeat match goal with
         | E : key_same _ _ = true |- _ => apply key_same_eq in E; subst
         | E : (_ =? _) = true |- _ => apply Z.eqb_eq in E
         | E : String.eqb _ _ = true |- _ => apply String.eqb_eq in E
         end.
  exists d, s, back. repeat split; first [reflexivity | assumption].
Qed.

(** X18: C major, its dominant on G4, and from there the subdominant on
    C5. *)
Lemma dominant_subdominant_tonicize_witness :
  exists key dominant back,
    Key.init (Note.mk "C" 4 60) "major" = Ok key
    /\ Key.get_dominant_key key = Ok dominant
    /\ Key.tonicize key 5 = Ok dominant
    /\ Key.tonic dominant = Note.mk "G" 4 67
    /\ Key.get_subdominant_key dominant = Ok back
    /\ Key.tonic back = Note.mk "C" 5 72.
Proof.
  assert (Hk : exists key, Key.init (Note.mk "C" 4 60) "major" = Ok key).
  { eexists. vm_compute. reflexivity. }
  destruct Hk as (key & Hk).
  destruct (dominant_subdominant_tonicize (Note.mk "C" 4 60) "major" key
              (or_introl eq_refl) Hk)
    as (d & s & back & Hd & _ & Ht & _ & _ & _ & _ & _ & Hb & _); [cbn; lia|].
  exists key, d, back. split; [exact Hk|]. split; [exact Hd|]. split; [exact Ht|].
  vm_compute in Hk. apply Ok_inj in Hk. subst key.
  vm_compute in Hd. apply Ok_inj in Hd. subst d.
  split; [reflexivity|]. split; [exact Hb|].
  vm_compute in Hb. apply Ok_inj in Hb. subst back. reflexivity.
Defined.

(** ** core/scale.py: modes *)

Lemma from_mode_check_all (tonic : Note.t) :
  forallb (fun parent_scale =>
             forallb (from_mode_check tonic parent_scale) (Zrange (-12) 11))
          scale_types = true.
Proof. vm_compute. reflexivity. Qed.

Lemma result_eqb_pattern (r expected : result (list Z)) :
  result_eqb pattern_eqb r expected = true -> r = expected.
Proof.
  destruct r as [a|[]], expected as [b|[]]; cbn; try discriminate; try reflexivity.
  intros H. apply bool_decide_eq_true in H. congruence.
Qed.

(** X19.  When [from_mode], called with the catalog as first loaded,
    returns a scale, that scale has a pattern only for the modes 1, 2,
    3, 4 and 6 of 'major', whose names the catalog holds; the pattern
    is then the rotation of the major pattern that [from_mode]
    computed.  For every other parent scale or mode number, reading the
    pattern or the notes of the returned scale raises [KeyError]. *)
Theorem from_mode_usable_modes (tonic : Note.t) (mode : Z) (parent_scale : string)
    (scale : Scale.t) (st' : Scale.class_state) :
  Scale.from_mode Scale.initial_state tonic mode parent_scale = (Ok scale, st') ->
  exists parent_pattern,
    Scale.SCALE_PATTERNS !! parent_scale = Some parent_pattern
    /\ - Z.of_nat (length parent_pattern) <= mode < Z.of_nat (length parent_pattern)
    /\ Scale.tonic scale = tonic
    /\ (usable_mode parent_scale mode = true ->
        Scale.pattern (Scale.patterns st') scale
        = Ok (rotated_pattern parent_pattern mode))
    /\ (usable_mode parent_scale mode = false ->
        Scale.pattern (Scale.patterns st') scale = Raise KeyError
        /\ Scale.notes (Scale.patterns st') scale = Raise KeyError).
Proof.
  intros H.
  assert (Hin : exists parent_pattern,
             Scale.SCALE_PATTERNS !! parent_scale = Some parent_pattern
             /\ - Z.of_nat (length parent_pattern) <= mode
                < Z.of_nat (length parent_pattern)
             /\ Scale.tonic scale = tonic).
  { pose proof H as H'. unfold Scale.from_mode in H'.
    change (Scale.patterns Scale.initial_state) with Scale.SCALE_PATTERNS in H'.
    destruct (Scale.SCALE_PATTERNS !! parent_scale) as [pp|] eqn:Hcat; [|discriminate].
    exists pp. split; [reflexivity|].
    destruct (Z.of_nat (length pp) <=? mode) eqn:Hlen; [discriminate|].
    apply Z.leb_gt in Hlen.
    destruct (Py.getitem pp mode) as [mode_root|] eqn:Hget; [|discriminate].
    split.
    - unfold Py.getitem in Hget.
      destruct (mode <? 0) eqn:Hneg;
        destruct (_ && _) eqn:Hb in Hget; try discriminate;
        apply andb_true_iff in Hb as [Hb1 Hb2]; apply Z.leb_le in Hb1; lia.
    - injection H' as H' _. unfold Scale.init in H'.
      destruct (_ !! _) in H'; [|discriminate].
      cbn in H'. injection H' as <-. reflexivity. }
  destruct Hin as (pp & Hcat & Hmode & Htonic). exists pp.
  split; [exact Hcat|]. split; [exact Hmode|]. split; [exact Htonic|].
  destruct (scale_patterns_keys _ _ Hcat) as (Hty & _ & Hlen).
  pose proof (from_mode_check_all tonic) as Hall. rewrite forallb_forall in Hall.
  specialize (Hall _ Hty). rewrite forallb_forall in Hall.
  assert (Hm : -12 <= mode <= 11) by lia.
  specialize (Hall _ (In_Zrange _ _ _ Hm)).
  unfold from_mode_check in Hall. rewrite H, Hcat in Hall.
  split; intros Hu; rewrite Hu in Hall.
  - apply result_eqb_pattern, Hall.
  - apply andb_true_iff in Hall as [Hp Hn]. split; [apply result_eqb_pattern, Hp|].
    destruct (Scale.notes _ scale) as [|[]]; try discriminate. reflexivity.
Qed.

(** X19: mode 1 of major on D is dorian and usable; mode 5 on A is
    'aeolian', whose notes raise [KeyError]. *)
Lemma from_mode_usable_modes_witness :
  exists scale st' aeolian st'',
    Scale.from_mode Scale.initial_state (Note.mk "D" 4 62) 1 "major" = (Ok scale, st')
    /\ Scale.scale_type scale = "dorian"
    /\ Scale.pattern (Scale.patterns st') scale = Ok [0; 2; 3; 5; 7; 9; 10]
    /\ Scale.from_mode Scale.initial_state (Note.mk "A" 4 69) 5 "major"
       = (Ok aeolian, st'')
    /\ Scale.scale_type aeolian = "aeolian"
    /\ Scale.notes (Scale.patterns st'') aeolian = Raise KeyError.
Proof.
  assert (H1 : exists scale st',
             Scale.from_mode Scale.initial_state (Note.mk "D" 4 62) 1 "major"
             = (Ok scale, st') /\ Scale.scale_type scale = "dorian").
  { eexists _, _. split; vm_compute; reflexivity. }
  assert (H2 : exists scale st',
             Scale.from_mode Scale.initial_state (Note.mk "A" 4 69) 5 "major"
             = (Ok scale, st') /\ Scale.scale_type scale = "aeolian").
  { eexists _, _. split; vm_compute; reflexivity. }
  destruct H1 as (scale & st' & H1 & Hd). destruct H2 as (aeolian & st'' & H2 & Ha).
  exists scale, st', aeolian, st''.
  destruct (from_mode_usable_modes _ _ _ _ _ H1) as (pp & Hpp & _ & _ & Hok & _).
  destruct (from_mode_usable_modes _ _ _ _ _ H2) as (pp' & _ & _ & _ & _ & Hbad).
  split; [exact H1|]. split; [exact Hd|]. split.
  - rewrite (Hok eq_refl). vm_compute in Hpp. injection Hpp as <-. reflexivity.
  - split; [exact H2|]. split; [exact Ha|]. exact (proj2 (Hbad eq_refl)).
Defined.

(** ** core/progression.py: numerals, editing, transposition *)

Lemma parse_roman_numeral_first_letter (numeral : string) (key : Key.t) :
  ChordProgression._parse_roman_numeral numeral key
  = match Py.strip numeral with
    | String c _ =>
        match numeral_degree c with
        | Some degree => Key.get_chord_for_degree key degree
        | None => Raise ValueError
        end
    | EmptyString => Raise ValueError
    end.
Proof.
  unfold ChordProgression._parse_roman_numeral.
  destruct (Py.strip numeral) as [|c rest]; [reflexivity|].
  destruct rest; destruct c as [[] [] [] [] [] [] [] []]; reflexivity.
Qed.

(** X20.  [_parse_roman_numeral] takes the first key of its table that the
    stripped numeral starts with, and 'I', 'i' come before every other
    numeral that starts with them, as 'V', 'v' do: the result is the
    chord on degree 1 for a numeral that starts with 'I' or 'i', the
    chord on degree 5 for one that starts with 'V' or 'v', and
    [ValueError] for any other.  So every chord of a progression that
    [from_roman_numerals] builds is the chord on degree 1 or 5 of the
    key. *)
Theorem roman_numerals_read_first_letter (key : Key.t) :
  (forall numeral,
      ChordProgression._parse_roman_numeral numeral key
      = match Py.strip numeral with
        | String c _ =>
            match numeral_degree c with
            | Some degree => Key.get_chord_for_degree key degree
            | None => Raise ValueError
            end
        | EmptyString => Raise ValueError
        end)
  /\ (forall numerals durations p,
        ChordProgression.from_roman_numerals numerals key durations = Ok p ->
        ChordProgression.key p = Some key
        /\ Forall2 (fun numeral chord =>
                      Key.get_chord_for_degree key 1 = Ok chord
                      \/ Key.get_chord_for_degree key 5 = Ok chord)
                   numerals (ChordProgression.chords p)).
Proof.
  split; [intros numeral; apply parse_roman_numeral_first_letter|].
  intros numerals durations p H. unfold ChordProgression.from_roman_numerals in H.
  inv_bind H as chords Hchords. apply mapM_Forall2 in Hchords.
  assert (Hp : ChordProgression.key p = Some key /\ ChordProgression.chords p = chords).
  { unfold ChordProgression.init in H. destruct chords; [discriminate|].
    destruct durations as [ds|].
    - destruct (negb _); [discriminate|]. apply Ok_inj in H. subst p. auto.
    - apply Ok_inj in H. subst p. auto. }
  destruct Hp as [Hkey ->]. split; [exact Hkey|].
  eapply Forall2_impl; [exact Hchords|]. intros numeral chord Hparse.
  cbv beta in Hparse. rewrite parse_roman_numeral_first_letter in Hparse.
  destruct (Py.strip numeral) as [|c rest]; [discriminate|].
  unfold numeral_degree in Hparse.
  destruct (Ascii.eqb c "I" || Ascii.eqb c "i"); [left; exact Hparse|].
  destruct (Ascii.eqb c "V" || Ascii.eqb c "v"); [right; exact Hparse|]. discriminate.
Qed.

(** X20: I, vi, IV, V in C major gives C, G, C, G; bVII raises ValueError;
    II between a no-break space (U+00A0) and a space is read as degree 1. *)
Lemma roman_numerals_read_first_letter_witness :
  exists p,
    Key.init (Note.mk "C" 4 60) "major" = Ok c_major_key
    /\ ChordProgression.from_roman_numerals ["I"; "vi"; "IV"; "V"] c_major_key None
       = Ok p
    /\ ChordProgression.chord_symbols p = Ok ["C"; "G"; "C"; "G"]
    /\ ChordProgression._parse_roman_numeral "bVII" c_major_key = Raise ValueError
    /\ ChordProgression._parse_roman_numeral (Py.utf8 [194; 160; 73; 73; 32]%N) c_major_key
       = Key.get_chord_for_degree c_major_key 1.
Proof.
  eexists. split; [vm_compute; reflexivity|].
  split; [vm_compute; reflexivity|]. split; [vm_compute; reflexivity|].
  split.
  - rewrite (proj1 (roman_numerals_read_first_letter c_major_key) "bVII"). reflexivity.
  - rewrite (proj1 (roman_numerals_read_first_letter c_major_key)
               (Py.utf8 [194; 160; 73; 73; 32]%N)).
    reflexivity.
Defined.

Lemma nth_error_insert {A : Type} (l : list A) (i j : nat) (x : A) :
  nth_error (<[i := x]> l) j
  = if decide (i = j /\ (i < length l)%nat) then Some x else nth_error l j.
Proof.
  revert i j. induction l as [|a l IH]; intros i j.
  - destruct i, j; cbn; destruct (decide _) as [[_ H]|_]; try reflexivity;
      cbn in H; lia.
  - destruct i as [|i], j as [|j]; cbn [nth_error length].
    + cbn. destruct (decide _) as [_|H]; [reflexivity|]. exfalso. apply H. lia.
    + cbn. destruct (decide _) as [[H _]|_]; [discriminate | reflexivity].
    + cbn. destruct (decide _) as [[H _]|_]; [discriminate | reflexivity].
    + change (<[S i := x]> (a :: l)) with (a :: <[i := x]> l). cbn [nth_error].
      rewrite IH. destruct (decide (i = j /\ (i < length l)%nat)) as [[H1 H2]|H];
        destruct (decide _) as [[H3 H4]|H']; try reflexivity; exfalso.
      * apply H'. split; [congruence | lia].
      * apply H. split; [congruence | lia].
Qed.

Lemma getitem_spec {A : Type} (l : list A) (index : Z) :
  let n := Z.of_nat (length l) in
  (- n <= index < n ->
   Py.getitem l index = match nth_error l (Z.to_nat (list_position n index)) with
                        | Some a => Ok a
                        | None => Raise IndexError
                        end
   /\ (Z.to_nat (list_position n index) < length l)%nat)
  /\ (~ - n <= index < n -> Py.getitem l index = Raise IndexError).
Proof.
  cbv zeta. unfold Py.getitem, list_position. split; intros H.
  - destruct (index <? 0) eqn:E;
      [apply Z.ltb_lt in E | apply Z.ltb_ge in E];
      (destruct (_ && _) eqn:Hb; [split; [reflexivity | lia]|]);
      apply andb_false_iff in Hb as [Hb|Hb];
      [apply Z.leb_gt in Hb | apply Z.ltb_ge in Hb
       | apply Z.leb_gt in Hb | apply Z.ltb_ge in Hb]; lia.
  - destruct (index <? 0) eqn:E;
      [apply Z.ltb_lt in E | apply Z.ltb_ge in E];
      (destruct (_ && _) eqn:Hb; [|reflexivity]);
      apply andb_true_iff in Hb as [Hb1 Hb2];
      apply Z.leb_le in Hb1; apply Z.ltb_lt in Hb2; lia.
Qed.

Lemma init_with_durations (chords : list Chord.t) (key : option Key.t)
    (durations : list float) :
  chords <> [] ->
  length chords = length durations ->
  ChordProgression.init chords key (Some durations)
  = Ok (ChordProgression.mk chords key durations).
Proof.
  intros Hne Hlen. unfold ChordProgression.init. destruct chords; [contradiction|].
  rewrite Hlen, Nat.eqb_refl. reflexivity.
Qed.

(** X21.  On a progression with as many durations as chords, which is not
    empty, and for an index within -n..n-1: [substitute_chord] and
    [__setitem__] give the same progression, in which the chord is read
    back at the index, every other position holds what it held, and the
    length, durations and key are unchanged.  For any other index both,
    and [__getitem__], raise [IndexError]. *)
Theorem substitute_chord_then_getitem (p : ChordProgression.t) (index : Z)
    (chord : Chord.t) :
  ChordProgression.invariant p ->
  let n := ChordProgression.len p in
  (- n <= index < n ->
   exists p',
     ChordProgression.substitute_chord p index chord = Ok p'
     /\ ChordProgression.setitem_chord p index chord = Ok p'
     /\ ChordProgression.getitem p' index = Ok chord
     /\ ChordProgression.len p' = n
     /\ ChordProgression.durations p' = ChordProgression.durations p
     /\ ChordProgression.key p' = ChordProgression.key p
     /\ (forall j, - n <= j < n -> list_position n j <> list_position n index ->
                   ChordProgression.getitem p' j = ChordProgression.getitem p j))
  /\ (~ - n <= index < n ->
      ChordProgression.substitute_chord p index chord = Raise IndexError
      /\ ChordProgression.setitem_chord p index chord = Raise IndexError
      /\ ChordProgression.getitem p index = Raise IndexError).
Proof.
  intros [Hlen Hne] n. subst n. unfold ChordProgression.len.
  unfold ChordProgression.substitute_chord, ChordProgression.setitem_chord,
    ChordProgression.getitem, ChordProgression.setitem.
  set (l := ChordProgression.chords p) in *. set (n := Z.of_nat (length l)).
  fold (list_position n index). split; intros H.
  - assert (Hpos : 0 <= list_position n index < n) by (unfold list_position; destruct (index <? 0) eqn:E; lia).
    assert (Hb : (0 <=? list_position n index) && (list_position n index <? n) = true).
    { apply andb_true_iff. split; [apply Z.leb_le | apply Z.ltb_lt]; lia. }
    rewrite Hb. rewrite !(bind_eq (Ok _) _ _ eq_refl).
    set (l' := <[Z.to_nat (list_position n index) := chord]> l).
    assert (Hl' : length l' = length l) by apply length_insert.
    assert (Hinit : ChordProgression.init l' (ChordProgression.key p)
                      (Some (ChordProgression.durations p))
                    = Ok (ChordProgression.mk l' (ChordProgression.key p)
                            (ChordProgression.durations p))).
    { apply init_with_durations; [|congruence].
      intros E. rewrite E in Hl'. destruct l; [contradiction | discriminate Hl']. }
    rewrite Hinit. eexists. split; [reflexivity|]. split; [reflexivity|].
    cbn [ChordProgression.chords ChordProgression.durations ChordProgression.key].
    rewrite Hl'. fold n. split.
    + destruct (getitem_spec l' index) as [Hin _]. cbv zeta in Hin. rewrite Hl' in Hin.
      fold n in Hin. destruct (Hin H) as [-> _]. unfold l'. rewrite nth_error_insert.
      destruct (decide _) as [_|Hd]; [reflexivity|]. exfalso. apply Hd. split; lia.
    + do 3 (split; [reflexivity|]). intros j Hj Hdiff.
      destruct (getitem_spec l' j) as [Hin _]. cbv zeta in Hin. rewrite Hl' in Hin.
      fold n in Hin. destruct (Hin Hj) as [-> _].
      destruct (getitem_spec l j) as [Hin' _]. cbv zeta in Hin'.
      fold n in Hin'. destruct (Hin' Hj) as [-> _]. unfold l'. rewrite nth_error_insert.
      destruct (decide _) as [[Hd _]|_]; [|reflexivity]. exfalso. apply Hdiff.
      assert (0 <= list_position n j < n) by (unfold list_position; destruct (j <? 0) eqn:E; lia).
      lia.
  - assert (Hb : (0 <=? list_position n index) && (list_position n index <? n) = false).
    { unfold list_position. destruct (index <? 0) eqn:E;
        [apply Z.ltb_lt in E | apply Z.ltb_ge in E]; apply andb_false_iff.
      - destruct (Z.le_gt_cases 0 (index + n)); [right; apply Z.ltb_ge | left; apply Z.leb_gt]; lia.
      - right. apply Z.ltb_ge. lia. }
    rewrite Hb. split; [reflexivity|]. split; [reflexivity|].
    destruct (getitem_spec l index) as [_ Hout]. apply Hout. exact H.
Qed.

Lemma four_chords_invariant : ChordProgression.invariant four_chords.
Proof. split; [reflexivity | discriminate]. Qed.

(** X21: replacing the last chord of four, by the index -1. *)
Lemma substitute_chord_then_getitem_witness :
  exists p',
    ChordProgression.substitute_chord four_chords (-1) (chord_on "E" 64 "minor") = Ok p'
    /\ ChordProgression.getitem p' (-1) = Ok (chord_on "E" 64 "minor")
    /\ ChordProgression.getitem p' 3 = Ok (chord_on "E" 64 "minor")
    /\ ChordProgression.getitem p' 0 = Ok (chord_on "C" 60 "major")
    /\ ChordProgression.substitute_chord four_chords 4 (chord_on "E" 64 "minor")
       = Raise IndexError.
Proof.
  destruct (substitute_chord_then_getitem four_chords (-1) (chord_on "E" 64 "minor")
              four_chords_invariant) as [Hin _].
  destruct Hin as (p' & Hs & _ & Hg & _); [change (- 4 <= -1 < 4); lia|].
  exists p'. split; [exact Hs|]. split; [exact Hg|].
  vm_compute in Hs. apply Ok_inj in Hs. subst p'.
  repeat split; vm_compute; reflexivity.
Defined.

Lemma nth_error_list_insert {A : Type} (l : list A) (k j : nat) (x : A) :
  (k <= length l)%nat ->
  nth_error (firstn k l ++ x :: skipn k l) j
  = if (j <? k)%nat then nth_error l j
    else if (j =? k)%nat then Some x
    else nth_error l (j - 1).
Proof.
  intros Hk. destruct (j <? k)%nat eqn:E1.
  - apply Nat.ltb_lt in E1. rewrite nth_error_app1 by (rewrite length_firstn; lia).
    rewrite nth_error_firstn. apply Nat.ltb_lt in E1. rewrite E1. reflexivity.
  - apply Nat.ltb_ge in E1. rewrite nth_error_app2 by (rewrite length_firstn; lia).
    rewrite length_firstn, Nat.min_l by exact Hk.
    destruct (j =? k)%nat eqn:E2.
    + apply Nat.eqb_eq in E2. subst j. rewrite Nat.sub_diag. reflexivity.
    + apply Nat.eqb_neq in E2. destruct (j - k)%nat as [|d] eqn:Ed; [lia|].
      cbn [nth_error]. rewrite nth_error_skipn. f_equal. lia.
Qed.

(** X22.  On a progression with as many durations as chords, which is not
    empty, [insert_chord] returns for every index a progression one
    longer.  The chord and its duration are at the position [k], which
    is the index clamped as [list.insert] does it; positions before [k]
    hold what they held and positions from [k] on are shifted by
    one. *)
Theorem insert_chord_then_getitem (p : ChordProgression.t) (index : Z) (chord : Chord.t)
    (duration : float) :
  ChordProgression.invariant p ->
  let n := ChordProgression.len p in
  let k := if index <? 0 then Z.max 0 (index + n) else Z.min index n in
  exists p',
    ChordProgression.insert_chord p index chord duration = Ok p'
    /\ ChordProgression.len p' = n + 1
    /\ ChordProgression.getitem p' k = Ok chord
    /\ Py.getitem (ChordProgression.durations p') k = Ok duration
    /\ (forall j, 0 <= j < k ->
                  ChordProgression.getitem p' j = ChordProgression.getitem p j
                  /\ Py.getitem (ChordProgression.durations p') j
                     = Py.getitem (ChordProgression.durations p) j)
    /\ (forall j, k <= j < n ->
                  ChordProgression.getitem p' (j + 1) = ChordProgression.getitem p j
                  /\ Py.getitem (ChordProgression.durations p') (j + 1)
                     = Py.getitem (ChordProgression.durations p) j).
Proof.
  intros [Hlen Hne] n k. unfold ChordProgression.insert_chord.
  unfold ChordProgression.list_insert, Py.clamp_index. rewrite <- Hlen.
  fold (ChordProgression.len p). fold n. fold k.
  assert (Hk : 0 <= k <= n).
  { subst k n. unfold ChordProgression.len. destruct (index <? 0) eqn:E;
      [apply Z.ltb_lt in E | apply Z.ltb_ge in E]; lia. }
  assert (Hkn : (Z.to_nat k <= length (ChordProgression.chords p))%nat).
  { subst n. unfold ChordProgression.len in Hk. lia. }
  set (cs := (firstn (Z.to_nat k) (ChordProgression.chords p)
              ++ chord :: skipn (Z.to_nat k) (ChordProgression.chords p))%list).
  set (ds := (firstn (Z.to_nat k) (ChordProgression.durations p)
              ++ duration :: skipn (Z.to_nat k) (ChordProgression.durations p))%list).
  assert (Hcs : length cs = S (length (ChordProgression.chords p))).
  { unfold cs. rewrite length_app, length_firstn. cbn [length]. rewrite length_skipn. lia. }
  assert (Hds : length ds = S (length (ChordProgression.chords p))).
  { unfold ds. rewrite length_app, length_firstn. cbn [length]. rewrite length_skipn. lia. }
  rewrite init_with_durations; [|intros E; rewrite E in Hcs; discriminate | congruence].
  eexists. split; [reflexivity|].
  unfold ChordProgression.getitem, ChordProgression.len.
  cbn [ChordProgression.chords ChordProgression.durations].
  assert (Hget : forall (A : Type) (l : list A) (x : A) (j : Z),
             length l = length (ChordProgression.chords p) ->
             0 <= j <= n ->
             Py.getitem (firstn (Z.to_nat k) l ++ x :: skipn (Z.to_nat k) l)%list j
             = if j <? k then Py.getitem l j
               else if j =? k then Ok x
               else Py.getitem l (j - 1)).
  { intros A l x j Hl Hj.
    assert (Hlen' : length (firstn (Z.to_nat k) l ++ x :: skipn (Z.to_nat k) l)%list
                    = S (length l)).
    { rewrite length_app, length_firstn. cbn [length]. rewrite length_skipn. lia. }
    destruct (getitem_spec (firstn (Z.to_nat k) l ++ x :: skipn (Z.to_nat k) l)%list j)
      as [Hin _]. cbv zeta in Hin. rewrite Hlen' in Hin.
    subst n. unfold ChordProgression.len in *.
    destruct Hin as [-> _]; [lia|]. unfold list_position.
    destruct (j <? 0) eqn:E0; [apply Z.ltb_lt in E0; lia|].
    rewrite nth_error_list_insert by lia.
    destruct (j <? k) eqn:E1; [apply Z.ltb_lt in E1 | apply Z.ltb_ge in E1].
    - destruct (Nat.ltb_spec (Z.to_nat j) (Z.to_nat k)); [|lia].
      destruct (getitem_spec l j) as [Hin _]. cbv zeta in Hin.
      destruct Hin as [-> _]; [lia|]. unfold list_position. rewrite E0. reflexivity.
    - destruct (Nat.ltb_spec (Z.to_nat j) (Z.to_nat k)); [lia|].
      destruct (j =? k) eqn:E2; [apply Z.eqb_eq in E2 | apply Z.eqb_neq in E2].
      + subst j. rewrite Nat.eqb_refl. reflexivity.
      + destruct (Nat.eqb_spec (Z.to_nat j) (Z.to_nat k)); [lia|].
        destruct (getitem_spec l (j - 1)) as [Hin _]. cbv zeta in Hin.
        destruct Hin as [-> _]; [lia|]. unfold list_position.
        destruct (j - 1 <? 0) eqn:E3; [apply Z.ltb_lt in E3; lia|].
        replace (Z.to_nat (j - 1)) with (Z.to_nat j - 1)%nat by lia. reflexivity. }
  split; [rewrite Hcs; subst n; unfold ChordProgression.len; lia|].
  split.
  { unfold cs. rewrite Hget by (auto; lia). rewrite Z.ltb_irrefl, Z.eqb_refl. reflexivity. }
  split.
  { unfold ds. rewrite Hget by (auto; lia). rewrite Z.ltb_irrefl, Z.eqb_refl. reflexivity. }
  split.
  - intros j Hj. unfold cs, ds. rewrite !Hget by (auto; lia).
    destruct (Z.ltb_spec j k); [|lia]. auto.
  - intros j Hj. unfold cs, ds. rewrite !Hget by (auto; lia).
    destruct (Z.ltb_spec (j + 1) k); [lia|].
    destruct (Z.eqb_spec (j + 1) k); [lia|].
    replace (j + 1 - 1) with j by lia. auto.
Qed.

(** X22: inserting at -1 into four chords puts the chord at position 3,
    before the last. *)
Lemma insert_chord_then_getitem_witness :
  exists p',
    ChordProgression.insert_chord four_chords (-1) (chord_on "E" 64 "minor") 0.5%float
    = Ok p'
    /\ ChordProgression.len p' = 5
    /\ ChordProgression.getitem p' 3 = Ok (chord_on "E" 64 "minor")
    /\ ChordProgression.getitem p' 4 = Ok (chord_on "G" 67 "major").
Proof.
  destruct (insert_chord_then_getitem four_chords (-1) (chord_on "E" 64 "minor")
              0.5%float four_chords_invariant)
    as (p' & Hi & Hl & Hg & _ & _ & Hafter).
  exists p'. split; [exact Hi|]. split; [exact Hl|]. split; [exact Hg|].
  destruct (Hafter 3) as [Hlast _]; [change (3 <= 3 < 4); lia|]. exact Hlast.
Defined.

Lemma transpose_chord_compose (i1 i2 : Interval.t) (c c1 : Chord.t) :
  ChordProgression.transpose_chord i1 c = Ok c1 ->
  ChordProgression.transpose_chord i2 c1
  = ChordProgression.transpose_chord (Interval.add i1 i2) c
  /\ Note.midi_number (Chord.root c1)
     = Note.midi_number (Chord.root c) + Interval.semitones i1
  /\ Chord.quality c1 = Chord.quality c.
Proof.
  unfold ChordProgression.transpose_chord. intros H.
  unfold Interval.add. rewrite interval_semitones_init.
  set (s1 := Interval.semitones i1) in *. set (s2 := Interval.semitones i2).
  inv_bind H as r1 Hr1. inv_bind H as b1 Hb1.
  assert (Hc1 : c1 = Chord.mk r1 (Chord.quality c)
                       (match b1 with Some b => b | None => r1 end)).
  { unfold Chord.init in H. destruct (Chord.CHORD_TONES !! Chord.quality c); [|discriminate].
    apply Ok_inj in H. subst c1. reflexivity. }
  destruct (transpose_cases (Chord.root c) s1) as [Hin Hout].
  assert (Hroot : 0 <= Note.midi_number (Chord.root c) + s1 <= 127).
  { destruct (Z_le_dec 0 (Note.midi_number (Chord.root c) + s1));
      [destruct (Z_le_dec (Note.midi_number (Chord.root c) + s1) 127); [lia|]|];
      rewrite Hout in Hr1 by lia; discriminate. }
  destruct (Hin Hroot) as (r1' & Hr1' & Hmidi & _ & Hcomp & _).
  rewrite Hr1 in Hr1'. apply Ok_inj in Hr1'. subst r1'.
  subst c1. cbn [Chord.root Chord.bass Chord.quality].
  split; [|split; [exact Hmidi | reflexivity]].
  rewrite Hcomp.
  destruct (Note.transpose (Chord.root c) (s1 + s2)) as [r2|e]; [|reflexivity].
  rewrite !(bind_eq (Ok _) _ _ eq_refl).
  destruct (negb (Note.eqb (Chord.bass c) (Chord.root c))) eqn:Hneq.
  - inv_bind Hb1 as b Hb. apply Ok_inj in Hb1. subst b1.
    destruct (transpose_cases (Chord.bass c) s1) as [Hbin Hbout].
    assert (Hbass : 0 <= Note.midi_number (Chord.bass c) + s1 <= 127).
    { destruct (Z_le_dec 0 (Note.midi_number (Chord.bass c) + s1));
        [destruct (Z_le_dec (Note.midi_number (Chord.bass c) + s1) 127); [lia|]|];
        rewrite Hbout in Hb by lia; discriminate. }
    destruct (Hbin Hbass) as (b' & Hb' & Hbmidi & _ & Hbcomp & _).
    rewrite Hb in Hb'. apply Ok_inj in Hb'. subst b'.
    assert (Hneq' : negb (Note.eqb b r1) = true).
    { unfold Note.eqb in *. rewrite Hbmidi, Hmidi.
      apply negb_true_iff, Z.eqb_neq. apply negb_true_iff, Z.eqb_neq in Hneq. lia. }
    rewrite Hneq', Hbcomp. reflexivity.
  - apply Ok_inj in Hb1. subst b1.
    assert (Heq : negb (Note.eqb r1 r1) = false).
    { unfold Note.eqb. rewrite Z.eqb_refl. reflexivity. }
    rewrite Heq. reflexivity.
Qed.

Lemma transpose_chords_compose (i1 i2 : Interval.t) (cs cs1 : list Chord.t) :
  mapM (ChordProgression.transpose_chord i1) cs = Ok cs1 ->
  mapM (ChordProgression.transpose_chord i2) cs1
  = mapM (ChordProgression.transpose_chord (Interval.add i1 i2)) cs
  /\ Forall2 (fun c c1 =>
                Note.midi_number (Chord.root c1)
                = Note.midi_number (Chord.root c) + Interval.semitones i1
                /\ Chord.quality c1 = Chord.quality c) cs cs1.
Proof.
  revert cs1. induction cs as [|c cs IH]; intros cs1 H; cbn [mapM] in H.
  - apply Ok_inj in H. subst cs1. split; [reflexivity | constructor].
  - inv_bind H as c1 Hc1. inv_bind H as cs1' Hcs1. apply Ok_inj in H. subst cs1.
    destruct (transpose_chord_compose _ i2 _ _ Hc1) as (Hc & Hfacts).
    destruct (IH _ Hcs1) as [Hrest Hall]. cbn [mapM]. rewrite Hc, Hrest.
    split; [reflexivity | constructor; assumption].
Qed.

(** X23.  For a progression whose key, if any, has the mode 'major' or
    'minor': when transposing by a first interval returns a progression,
    transposing that progression by a second interval is the same, as
    a result or as an exception, as transposing the original by the sum
    of the intervals.  The first transposition keeps the durations and
    the qualities and moves every root by the interval's semitones. *)
Theorem progression_transpose_composes (p p1 : ChordProgression.t)
    (i1 i2 : Interval.t) :
  (forall k, ChordProgression.key p = Some k ->
             Key.mode k = "major" \/ Key.mode k = "minor") ->
  ChordProgression.transpose p i1 = Ok p1 ->
  ChordProgression.transpose p1 i2 = ChordProgression.transpose p (Interval.add i1 i2)
  /\ ChordProgression.durations p1 = ChordProgression.durations p
  /\ Forall2 (fun c c1 =>
                Note.midi_number (Chord.root c1)
                = Note.midi_number (Chord.root c) + Interval.semitones i1
                /\ Chord.quality c1 = Chord.quality c)
             (ChordProgression.chords p) (ChordProgression.chords p1).
Proof.
  intros Hkey H. unfold ChordProgression.transpose in *.
  inv_bind H as cs1 Hcs1. inv_bind H as k1 Hk1.
  assert (Hp1 : p1 = ChordProgression.mk cs1 k1 (ChordProgression.durations p)).
  { unfold ChordProgression.init in H. destruct cs1; [discriminate|].
    destruct (negb _); [discriminate|]. apply Ok_inj in H. subst p1. reflexivity. }
  subst p1. cbn [ChordProgression.chords ChordProgression.key ChordProgression.durations].
  destruct (transpose_chords_compose _ i2 _ _ Hcs1) as [Hchords Hall].
  split; [|split; [reflexivity | exact Hall]].
  rewrite Hchords.
  destruct (mapM (ChordProgression.transpose_chord (Interval.add i1 i2)) _)
    as [cs2|e]; [|reflexivity].
  rewrite !(bind_eq (Ok _) _ _ eq_refl).
  assert (Hk : match k1 with
               | Some k =>
                   new_tonic ← Note.transpose (Key.tonic k) (Interval.semitones i2);
                   k' ← Key.init new_tonic (Key.mode k);
                   Ok (Some k')
               | None => Ok None
               end
               = match ChordProgression.key p with
                 | Some k =>
                     new_tonic ← Note.transpose (Key.tonic k)
                                   (Interval.semitones (Interval.add i1 i2));
                     k' ← Key.init new_tonic (Key.mode k);
                     Ok (Some k')
                 | None => Ok None
                 end).
  { destruct (ChordProgression.key p) as [k|] eqn:Ek.
    - inv_bind Hk1 as t1 Ht1. inv_bind Hk1 as k' Hk'. apply Ok_inj in Hk1. subst k1.
      unfold Interval.add. rewrite interval_semitones_init.
      destruct (transpose_cases (Key.tonic k) (Interval.semitones i1)) as [Hin Hout].
      assert (Hr : 0 <= Note.midi_number (Key.tonic k) + Interval.semitones i1 <= 127).
      { destruct (Z_le_dec 0 (Note.midi_number (Key.tonic k) + Interval.semitones i1));
          [destruct (Z_le_dec (Note.midi_number (Key.tonic k) + Interval.semitones i1)
                       127); [lia|]|];
          rewrite Hout in Ht1 by lia; discriminate. }
      destruct (Hin Hr) as (t1' & Ht1' & _ & _ & Hcomp & _).
      rewrite Ht1 in Ht1'. apply Ok_inj in Ht1'. subst t1'.
      assert (Hmode : Key.tonic k' = t1 /\ Key.mode k' = Key.mode k).
      { destruct (Hkey k eq_refl) as [E | E]; rewrite E in Hk';
          vm_compute in Hk'; apply Ok_inj in Hk'; subst k'; split; auto. }
      destruct Hmode as [-> ->]. rewrite Hcomp. reflexivity.
    - apply Ok_inj in Hk1. subst k1. reflexivity. }
  rewrite Hk. reflexivity.
Qed.

(** X23: C, Am, F, G up two semitones is D, Bm, G, A, and down again the
    chords started from. *)
Lemma progression_transpose_composes_witness :
  exists p1 p2,
    ChordProgression.transpose four_chords (Interval.init 2) = Ok p1
    /\ ChordProgression.transpose p1 (Interval.init (-2)) = Ok p2
    /\ ChordProgression.chord_symbols p1 = Ok ["D"; "Bm"; "G"; "A"]
    /\ ChordProgression.chords p2 = ChordProgression.chords four_chords.
Proof.
  assert (H1 : exists p1, ChordProgression.transpose four_chords (Interval.init 2) = Ok p1
                          /\ ChordProgression.chord_symbols p1
                             = Ok ["D"; "Bm"; "G"; "A"]).
  { eexists. split; [vm_compute; reflexivity|]. vm_compute. reflexivity. }
  destruct H1 as (p1 & H1 & Hsym).
  destruct (progression_transpose_composes four_chords p1 (Interval.init 2)
              (Interval.init (-2))) as (Hcomp & _).
  - intros k Hk. discriminate Hk.
  - exact H1.
  - exists p1. eexists. split; [exact H1|]. split; [rewrite Hcomp; vm_compute; reflexivity|].
    split; [exact Hsym | reflexivity].
Defined.

Lemma chord_eqb_refl (c : Chord.t) : Chord.eqb c c = true.
Proof.
  unfold Chord.eqb, Note.eqb. rewrite !Z.eqb_refl, String.eqb_refl. reflexivity.
Qed.

Lemma unique_loop_app (seen unique chords : list Chord.t) :
  ChordProgression.unique_loop seen unique chords
  = (unique ++ ChordProgression.unique_loop seen [] chords)%list.
Proof.
  revert seen unique. induction chords as [|c cs IH]; intros seen unique;
    cbn [ChordProgression.unique_loop].
  - rewrite app_nil_r. reflexivity.
  - destruct (negb _); [|apply IH].
    rewrite (IH _ (unique ++ [c])%list), (IH _ ([] ++ [c])%list), <- app_assoc.
    reflexivity.
Qed.

Lemma unique_loop_spec (seen chords : list Chord.t) :
  let u := ChordProgression.unique_loop seen [] chords in
  sublist u chords
  /\ (forall c, In c u -> existsb (Chord.eqb c) seen = false)
  /\ ForallOrdPairs (fun a b => Chord.eqb b a = false) u
  /\ (forall c, In c chords ->
                existsb (Chord.eqb c) seen = true
                \/ exists c', In c' u /\ Chord.eqb c c' = true).
Proof.
  revert seen. induction chords as [|c cs IH]; intros seen;
    cbn [ChordProgression.unique_loop].
  - cbv zeta. split; [apply sublist_nil|]. split; [intros c []|].
    split; [constructor|]. intros c [].
  - destruct (existsb (Chord.eqb c) seen) eqn:Hseen; cbn [negb].
    + destruct (IH seen) as (Hsub & Hnew & Hpairs & Hcover). cbv zeta.
      split; [apply sublist_cons, Hsub|]. split; [exact Hnew|]. split; [exact Hpairs|].
      intros c' [<- | Hin]; [left; exact Hseen | apply Hcover, Hin].
    + rewrite unique_loop_app. cbn [app]. cbv zeta.
      destruct (IH (c :: seen)) as (Hsub & Hnew & Hpairs & Hcover).
      split; [apply sublist_skip, Hsub|]. split; [|split].
      * intros c' [<- | Hin]; [exact Hseen|].
        apply Hnew in Hin. cbn [existsb] in Hin. apply orb_false_iff in Hin. tauto.
      * constructor; [|exact Hpairs]. apply List.Forall_forall. intros b Hb.
        apply Hnew in Hb. cbn [existsb] in Hb. apply orb_false_iff in Hb. tauto.
      * intros c' [<- | Hin].
        -- right. exists c. split; [left; reflexivity | apply chord_eqb_refl].
        -- destruct (Hcover c' Hin) as [Hs | (c'' & Hin' & E)].
           ++ cbn [existsb] in Hs. apply orb_true_iff in Hs as [E | Hs].
              ** right. exists c. split; [left; reflexivity | exact E].
              ** left. exact Hs.
           ++ right. exists c''. split; [right; exact Hin' | exact E].
Qed.

(** X24.  [unique_chords] is a sublist of the chords, in their order, in
    which no two chords are equal; every chord of the progression is
    equal to one of them, and the first of them is the first chord. *)
Theorem unique_chords_first_occurrences (p : ChordProgression.t) :
  let u := ChordProgression.unique_chords p in
  sublist u (ChordProgression.chords p)
  /\ ForallOrdPairs (fun a b => Chord.eqb b a = false) u
  /\ (forall c, In c (ChordProgression.chords p) ->
                exists c', In c' u /\ Chord.eqb c c' = true)
  /\ hd_error u = hd_error (ChordProgression.chords p).
Proof.
  cbv zeta. unfold ChordProgression.unique_chords.
  destruct (unique_loop_spec [] (ChordProgression.chords p))
    as (Hsub & _ & Hpairs & Hcover). cbv zeta in *.
  split; [exact Hsub|]. split; [exact Hpairs|]. split.
  - intros c Hin. destruct (Hcover c Hin) as [Hs | H]; [discriminate Hs | exact H].
  - destruct (ChordProgression.chords p) as [|c cs]; [reflexivity|].
    cbn [ChordProgression.unique_loop existsb negb]. rewrite unique_loop_app. reflexivity.
Qed.

Lemma transitions_spec (c : Chord.t) (cs : list Chord.t) :
  let ts := ChordProgression.transitions (c :: cs) in
  length ts = length cs
  /\ map (fun t => fst (fst t)) ts = removelast (c :: cs)
  /\ map (fun t => snd (fst t)) ts = cs
  /\ sum_semitones ts
     = Note.midi_number (Chord.root (List.last cs c)) - Note.midi_number (Chord.root c).
Proof.
  revert c. induction cs as [|c' cs IH]; intros c.
  - cbn. repeat split; lia.
  - destruct (IH c') as (Hlen & Hfst & Hsnd & Hsum). cbv zeta in *.
    change (ChordProgression.transitions (c :: c' :: cs))
      with ((c, c', Interval.from_notes (Chord.root c) (Chord.root c'))
            :: ChordProgression.transitions (c' :: cs)).
    cbn [length map fst snd sum_semitones]. rewrite Hlen, Hfst, Hsnd, Hsum.
    split; [reflexivity|]. split; [reflexivity|]. split; [reflexivity|].
    unfold Interval.from_notes. rewrite interval_semitones_init.
    assert (Hlast : forall (l : list Chord.t) a b, List.last (a :: l) b = List.last l a).
    { clear. induction l as [|x l IHl]; intros a b; [reflexivity|].
      change (List.last (a :: x :: l) b) with (List.last (x :: l) b).
      rewrite !IHl. reflexivity. }
    rewrite Hlast. lia.
Qed.

(** X25.  For a progression of at least one chord, [get_chord_transitions]
    has one entry fewer than there are chords; the entries pair each
    chord with the next, each carries the difference of the two roots'
    MIDI numbers as its semitones, and these add up to the movement
    from the first root to the last. *)
Theorem chord_transitions_telescope (p : ChordProgression.t) (first : Chord.t)
    (rest : list Chord.t) :
  ChordProgression.chords p = first :: rest ->
  let ts := ChordProgression.get_chord_transitions p in
  Z.of_nat (length ts) = ChordProgression.len p - 1
  /\ map (fun t => fst (fst t)) ts = removelast (ChordProgression.chords p)
  /\ map (fun t => snd (fst t)) ts = rest
  /\ Forall (fun t => Interval.semitones (snd t)
                      = Note.midi_number (Chord.root (snd (fst t)))
                        - Note.midi_number (Chord.root (fst (fst t)))) ts
  /\ sum_semitones ts
     = Note.midi_number (Chord.root (List.last rest first))
       - Note.midi_number (Chord.root first).
Proof.
  intros Hp. cbv zeta. unfold ChordProgression.get_chord_transitions, ChordProgression.len.
  rewrite Hp. destruct (transitions_spec first rest) as (Hlen & Hfst & Hsnd & Hsum).
  cbv zeta in *. rewrite Hlen. cbn [length]. split; [lia|]. split; [exact Hfst|].
  split; [exact Hsnd|]. split; [|exact Hsum].
  clear. revert first. induction rest as [|c' cs IH]; intros c; [constructor|].
  change (ChordProgression.transitions (c :: c' :: cs))
    with ((c, c', Interval.from_notes (Chord.root c) (Chord.root c'))
          :: ChordProgression.transitions (c' :: cs)).
  constructor; [|apply IH]. cbn [fst snd]. unfold Interval.from_notes.
  apply interval_semitones_init.
Qed.

(** X25: C, Am, F, G moves by 9, -4 and 2 semitones, 7 in all. *)
Lemma chord_transitions_telescope_witness :
  map (fun t => Interval.semitones (snd t))
      (ChordProgression.get_chord_transitions four_chords) = [9; -4; 2]
  /\ sum_semitones (ChordProgression.get_chord_transitions four_chords) = 67 - 60.
Proof.
  split; [vm_compute; reflexivity|].
  exact (proj2 (proj2 (proj2 (proj2
           (chord_transitions_telescope four_chords _ _ eq_refl))))).
Defined.

(** X26.  On progressions with as many durations as chords, which are not
    empty: [repeat] raises [ValueError] for a count below 1; for a
    count of at least 1 it returns a progression of count times the
    length with the key kept, and repeating once more is extending the
    progression by the repeated one.  [extend] always returns,
    appends chords and durations and keeps the first key, and
    extending is associative. *)
Theorem repeat_and_extend_compose (p q r : ChordProgression.t) (times : Z) :
  ChordProgression.invariant p ->
  ChordProgression.invariant q ->
  ChordProgression.invariant r ->
  (times < 1 -> ChordProgression.repeat p times = Raise ValueError)
  /\ (1 <= times ->
      exists repeated again,
        ChordProgression.repeat p times = Ok repeated
        /\ ChordProgression.len repeated = times * ChordProgression.len p
        /\ ChordProgression.key repeated = ChordProgression.key p
        /\ ChordProgression.repeat p (times + 1) = Ok again
        /\ ChordProgression.extend p repeated = Ok again)
  /\ (exists pq qr pqr,
        ChordProgression.extend p q = Ok pq
        /\ ChordProgression.extend q r = Ok qr
        /\ ChordProgression.chords pq
           = (ChordProgression.chords p ++ ChordProgression.chords q)%list
        /\ ChordProgression.durations pq
           = (ChordProgression.durations p ++ ChordProgression.durations q)%list
        /\ ChordProgression.key pq = ChordProgression.key p
        /\ ChordProgression.extend pq r = Ok pqr
        /\ ChordProgression.extend p qr = Ok pqr).
Proof.
  intros [Hp Hpne] [Hq Hqne] [Hr Hrne].
  assert (Hne : forall (a b : list Chord.t), a <> [] -> (a ++ b)%list <> []).
  { intros a b Ha E. apply app_eq_nil in E as [E _]. contradiction. }
  split; [|split].
  - intros H. unfold ChordProgression.repeat.
    destruct (Z.ltb_spec times 1); [reflexivity | lia].
  - intros H. unfold ChordProgression.repeat, ChordProgression.extend, Py.mul_list.
    destruct (Z.ltb_spec times 1); [lia|].
    destruct (Z.ltb_spec (times + 1) 1); [lia|].
    replace (Z.to_nat (times + 1)) with (S (Z.to_nat times)) by lia.
    cbn [Py.repeat_list].
    destruct (Z.to_nat times) as [|t] eqn:Et; [lia|].
    set (cs := Py.repeat_list (ChordProgression.chords p) (S t)).
    set (ds := Py.repeat_list (ChordProgression.durations p) (S t)).
    assert (Hcs : cs <> []).
    { unfold cs. cbn [Py.repeat_list]. apply Hne, Hpne. }
    assert (Hlen : length cs = length ds).
    { unfold cs, ds. rewrite !length_repeat_list, Hp. reflexivity. }
    rewrite (init_with_durations cs _ ds Hcs Hlen).
    eexists _, _. split; [reflexivity|].
    cbn [ChordProgression.chords ChordProgression.durations ChordProgression.key].
    unfold ChordProgression.len. cbn [ChordProgression.chords].
    split; [unfold cs; rewrite length_repeat_list; lia|]. split; [reflexivity|].
    assert (Hagain : ChordProgression.init (ChordProgression.chords p ++ cs)
                       (ChordProgression.key p)
                       (Some (ChordProgression.durations p ++ ds)%list)
                     = Ok (ChordProgression.mk (ChordProgression.chords p ++ cs)
                             (ChordProgression.key p)
                             (ChordProgression.durations p ++ ds))).
    { apply init_with_durations; [apply Hne, Hpne|].
      rewrite !length_app, Hlen, Hp. reflexivity. }
    split; exact Hagain.
  - unfold ChordProgression.extend.
    rewrite (init_with_durations (ChordProgression.chords p ++ ChordProgression.chords q)
               _ (ChordProgression.durations p ++ ChordProgression.durations q))
      by (try (apply Hne, Hpne); rewrite !length_app; congruence).
    rewrite (init_with_durations (ChordProgression.chords q ++ ChordProgression.chords r)
               _ (ChordProgression.durations q ++ ChordProgression.durations r))
      by (try (apply Hne, Hqne); rewrite !length_app; congruence).
    eexists _, _, _. split; [reflexivity|]. split; [reflexivity|].
    cbn [ChordProgression.chords ChordProgression.durations ChordProgression.key].
    do 3 (split; [reflexivity|]). rewrite <- !app_assoc.
    assert (Hall : ChordProgression.init
                     (ChordProgression.chords p ++ ChordProgression.chords q
                      ++ ChordProgression.chords r)
                     (ChordProgression.key p)
                     (Some (ChordProgression.durations p ++ ChordProgression.durations q
                            ++ ChordProgression.durations r)%list)
                   = Ok (ChordProgression.mk
                           (ChordProgression.chords p ++ ChordProgression.chords q
                            ++ ChordProgression.chords r)
                           (ChordProgression.key p)
                           (ChordProgression.durations p ++ ChordProgression.durations q
                            ++ ChordProgression.durations r))).
    { apply init_with_durations; [apply Hne, Hpne|].
      rewrite !length_app. congruence. }
    split; exact Hall.
Qed.

(** X26: four chords repeated twice are eight, and extended by them they
    are the four repeated three times. *)
Lemma repeat_and_extend_compose_witness :
  exists twice thrice,
    ChordProgression.repeat four_chords 2 = Ok twice
    /\ ChordProgression.len twice = 8
    /\ ChordProgression.repeat four_chords 3 = Ok thrice
    /\ ChordProgression.extend four_chords twice = Ok thrice
    /\ ChordProgression.repeat four_chords 0 = Raise ValueError.
Proof.
  destruct (repeat_and_extend_compose four_chords four_chords four_chords 2
              four_chords_invariant four_chords_invariant four_chords_invariant)
    as (_ & Hrep & _).
  destruct Hrep as (twice & thrice & H2 & Hlen & _ & H3 & He); [lia|].
  exists twice, thrice. repeat split; assumption || reflexivity.
Defined.

(** ** analysis and suggestions: detection and filters *)

Lemma detect_check_all :
  forallb (fun m => forallb (detect_check m) chord_qualities) (Zrange 0 127) = true.
Proof. vm_compute. reflexivity. Qed.

Lemma chord_tones_head (q : string) (l : list Z) :
  Chord.CHORD_TONES !! q = Some l -> exists rest, l = 0 :: rest.
Proof.
  intros H. unfold Chord.CHORD_TONES in H.
  apply elem_of_list_to_map_2, list_elem_of_In in H. cbn [In] in H.
  repeat (destruct H as [H|H]; [injection H as _ <-; eauto|]).
  destruct H.
Qed.

(** X27.  For every chord whose notes can be read, the detector with its
    default settings, given these notes and no bass note, returns a
    chord of the same quality whose root has the pitch class of the
    chord's root in its sharp spelling; that root is the note of the
    MIDI number 0..11, in octave -1, and the bass is the root. *)
Theorem detect_chord_finds_built_chord (chord : Chord.t) (notes : list Note.t) :
  Chord.notes chord = Ok notes ->
  exists c,
    ChordDetector.detect_chord_from_notes ChordDetector.default notes None = Ok (Some c)
    /\ Chord.quality c = Chord.quality chord
    /\ Chord.root c
       = Note.mk (Py.nth_Z (Note.midi_number (Chord.root chord) mod 12)
                           Note.CHROMATIC_SCALE "")
                 (-1) (Note.midi_number (Chord.root chord) mod 12)
    /\ Chord.bass c = Chord.root c.
Proof.
  intros H.
  assert (Hsame : Chord.notes chord
                  = Chord.notes (chord_at (Note.midi_number (Chord.root chord))
                                          (Chord.quality chord))).
  { destruct chord as [[pc o m] q b]. reflexivity. }
  assert (Hin : In (Note.midi_number (Chord.root chord)) (Zrange 0 127)
                /\ In (Chord.quality chord) chord_qualities).
  { pose proof H as H'. unfold Chord.notes in H'.
    destruct (Chord.CHORD_TONES !! Chord.quality chord) as [tones|] eqn:Hq; [|discriminate].
    split; [|eapply chord_tones_keys; exact Hq].
    destruct (chord_tones_head _ _ Hq) as [rest ->]. apply mapM_Forall2 in H'.
    inversion H' as [|? n ? ns Ht _]; subst. apply transpose_inv in Ht as (Hr & _).
    apply In_Zrange. lia. }
  destruct Hin as [Hm Hq]. rewrite Hsame in H.
  pose proof detect_check_all as Hall. rewrite forallb_forall in Hall.
  specialize (Hall _ Hm). rewrite forallb_forall in Hall. specialize (Hall _ Hq).
  unfold detect_check in Hall. rewrite H in Hall.
  destruct (ChordDetector.detect_chord_from_notes _ notes None) as [[c|]|];
    try discriminate.
  apply andb_true_iff in Hall as [Hall Hbass]. apply andb_true_iff in Hall as [Hqual Hroot].
  apply String.eqb_eq in Hqual. apply note_same_eq in Hroot, Hbass.
  exists c. auto.
Qed.

(** X27: the notes of Ebm7 at octave 3 are detected as D#m7, on a root in
    octave -1. *)
Lemma detect_chord_finds_built_chord_witness :
  exists chord notes c,
    Chord.from_symbol "Ebm7" 3 = Ok chord
    /\ Chord.notes chord = Ok notes
    /\ ChordDetector.detect_chord_from_notes ChordDetector.default notes None
       = Ok (Some c)
    /\ Chord.symbol c = Ok "D#m7"
    /\ Note.octave (Chord.root c) = -1.
Proof.
  assert (H : exists chord notes,
            Chord.from_symbol "Ebm7" 3 = Ok chord /\ Chord.notes chord = Ok notes
            /\ Chord.quality chord = "minor7"
            /\ Note.midi_number (Chord.root chord) = 51).
  { eexists _, _. split; [vm_compute; reflexivity|]. split; [vm_compute; reflexivity|].
    split; reflexivity. }
  destruct H as (chord & notes & Hc & Hn & Hq & Hm).
  destruct (detect_chord_finds_built_chord chord notes Hn) as (c & Hd & Hcq & Hcr & Hcb).
  exists chord, notes, c. split; [exact Hc|]. split; [exact Hn|]. split; [exact Hd|].
  rewrite Hq in Hcq. rewrite Hm in Hcr. destruct c as [root quality bass].
  cbn [Chord.root Chord.quality Chord.bass] in *. subst root quality bass.
  split; reflexivity.
Defined.

Lemma index_chromatic (name : string) :
  (In name KeyDetector.CHROMATIC_NOTES ->
   exists i, Py.index name KeyDetector.CHROMATIC_NOTES = Ok i /\ 0 <= i < 12)
  /\ (~ In name KeyDetector.CHROMATIC_NOTES ->
      Py.index name KeyDetector.CHROMATIC_NOTES = Raise ValueError).
Proof.
  split; intros H.
  - cbn [KeyDetector.CHROMATIC_NOTES In] in H.
    repeat (destruct H as [<- | H]; [eexists; split; [reflexivity | lia]|]).
    destruct H.
  - destruct (Py.index name KeyDetector.CHROMATIC_NOTES) as [i|e] eqn:E.
    + exfalso. apply H. eapply index_from_ok_In. exact E.
    + apply index_from_raises in E. subst e. reflexivity.
Qed.

Lemma classic_sharp (note : Note.t) : sharp_spelled note \/ ~ sharp_spelled note.
Proof.
  unfold sharp_spelled.
  destruct (Py.str_in (Note.pitch_class note) KeyDetector.CHROMATIC_NOTES) eqn:E.
  - left. apply str_in_In, E.
  - right. intros H. apply str_in_In in H. congruence.
Qed.

Lemma fill_histogram_unweighted (notes : list Note.t) (histogram : list Q) (i : Z) :
  (Forall sharp_spelled notes ->
   exists h, KeyDetector.fill_histogram None histogram notes i = Ok h
             /\ length h = length histogram)
  /\ (~ Forall sharp_spelled notes ->
      KeyDetector.fill_histogram None histogram notes i = Raise ValueError).
Proof.
  revert histogram i. induction notes as [|note notes IH]; intros histogram i;
    cbn [KeyDetector.fill_histogram].
  - split; [intros _; eauto | intros H; exfalso; apply H; constructor].
  - destruct (index_chromatic (Note.pitch_class note)) as [Hin Hout]. split; intros H.
    + inversion H as [|? ? Hnote Hrest]; subst.
      destruct (Hin Hnote) as (idx & -> & _).
      rewrite (bind_eq (Ok _) _ _ eq_refl). cbn [KeyDetector.weight_at].
      rewrite (bind_eq (Ok _) _ _ eq_refl).
      destruct (IH (KeyDetector.add_at histogram idx 1%Q) (i + 1)) as [IHin _].
      destruct (IHin Hrest) as (h & -> & Hlen). exists h. split; [reflexivity|].
      rewrite Hlen. unfold KeyDetector.add_at. apply length_alter.
    + destruct (classic_sharp note) as [Hnote | Hnote].
      * destruct (Hin Hnote) as (idx & -> & _).
        rewrite (bind_eq (Ok _) _ _ eq_refl). cbn [KeyDetector.weight_at].
        rewrite (bind_eq (Ok _) _ _ eq_refl).
        destruct (IH (KeyDetector.add_at histogram idx 1%Q) (i + 1)) as [_ IHout].
        apply IHout. intros Hrest. apply H. constructor; assumption.
      * rewrite (Hout Hnote). reflexivity.
Qed.

(** X28.  Without weights, and whatever [np.corrcoef] returns: when every
    note has a pitch class of [CHROMATIC_NOTES], the histogram is built
    with twelve entries and [detect_key_from_notes] returns; when some
    note has another pitch class, as a flat-spelled note has, both
    raise [ValueError]. *)
Theorem key_detection_needs_sharp_spelling
    (corrcoef : list Q -> list Q -> option Q) (self : KeyDetector.t)
    (notes : list Note.t) :
  (Forall sharp_spelled notes ->
   (exists histogram,
       KeyDetector._create_pitch_class_histogram notes None = Ok histogram
       /\ length histogram = 12%nat)
   /\ exists key confidence,
        KeyDetector.detect_key_from_notes corrcoef self notes None
        = Ok (key, confidence))
  /\ (~ Forall sharp_spelled notes ->
      KeyDetector._create_pitch_class_histogram notes None = Raise ValueError
      /\ KeyDetector.detect_key_from_notes corrcoef self notes None = Raise ValueError).
Proof.
  destruct (fill_histogram_unweighted notes (replicate 12 0%Q) 0) as [Hin Hout].
  split; intros H.
  - destruct (Hin H) as (h & Hh & Hlen).
    assert (Hhist : exists histogram,
               KeyDetector._create_pitch_class_histogram notes None = Ok histogram
               /\ length histogram = 12%nat).
    { unfold KeyDetector._create_pitch_class_histogram. rewrite (bind_eq _ _ _ Hh).
      destruct (Qlt_le_dec _ _); eexists; (split; [reflexivity|]).
      - rewrite length_map. exact Hlen.
      - exact Hlen. }
    split; [exact Hhist|]. destruct Hhist as (histogram & Hhist & _).
    unfold KeyDetector.detect_key_from_notes. destruct notes as [|note notes'].
    + eexists _, _. vm_compute. reflexivity.
    + rewrite (bind_eq _ _ _ Hhist).
      destruct (find_best_key_match_confidence corrcoef self histogram) as [key Hkey].
      eauto.
  - assert (Hhist : KeyDetector._create_pitch_class_histogram notes None
                    = Raise ValueError).
    { unfold KeyDetector._create_pitch_class_histogram. rewrite (Hout H). reflexivity. }
    split; [exact Hhist|]. unfold KeyDetector.detect_key_from_notes.
    destruct notes as [|note notes']; [exfalso; apply H; constructor|].
    rewrite Hhist. reflexivity.
Qed.

(** X28: F4 with Bb4. *)
Lemma key_detection_needs_sharp_spelling_witness :
  exists b_flat,
    Note.of_name "Bb" 4 = Ok b_flat
    /\ KeyDetector.detect_key_from_notes (fun _ _ => None) (KeyDetector.init "standard")
         [Note.mk "F" 4 65; b_flat] None
       = Raise ValueError.
Proof.
  eexists. split; [vm_compute; reflexivity|].
  apply (key_detection_needs_sharp_spelling (fun _ _ => None)
           (KeyDetector.init "standard")).
  intros H. inversion H as [|? ? _ Hrest]; subst.
  inversion Hrest as [|? ? Hb _]; subst. unfold sharp_spelled in Hb. cbn in Hb.
  repeat (destruct Hb as [Hb | Hb]; [discriminate Hb|]). exact Hb.
Defined.

Lemma collect_tagged (active : list ChordSuggestionEngine.strategy)
    (progression : ChordProgression.t) (key : option Key.t) (s : ChordSuggestion.t) :
  In s (ChordSuggestionEngine.collect active progression key) ->
  exists st, In st active
             /\ ChordSuggestion.strategy_source s
                = Some (ChordSuggestionEngine.get_strategy_name st).
Proof.
  unfold ChordSuggestionEngine.collect. intros H.
  apply in_flat_map in H as (st & Hst & Hs). exists st. split; [exact Hst|].
  destruct (ChordSuggestionEngine.suggest st progression key) as [l|]; [|destruct Hs].
  apply in_map_iff in Hs as (s0 & <- & _). reflexivity.
Qed.

Lemma active_strategies_named (self : ChordSuggestionEngine.t)
    (strategy_filter : option (list string)) (st : ChordSuggestionEngine.strategy) :
  In st (ChordSuggestionEngine.active_strategies self strategy_filter) ->
  In st (ChordSuggestionEngine.strategies self)
  /\ (forall names, strategy_filter = Some names -> names <> [] ->
                    In (ChordSuggestionEngine.get_strategy_name st) names).
Proof.
  unfold ChordSuggestionEngine.active_strategies. intros H.
  destruct strategy_filter as [[|name names]|].
  - split; [exact H|]. intros names E Hne. injection E as <-. contradiction.
  - apply list_elem_of_In, list_elem_of_filter in H as [Hname Hst].
    split; [apply list_elem_of_In, Hst|]. intros names' E _. injection E as <-.
    apply str_in_In. destruct (Py.str_in _ _); [reflexivity | contradiction].
  - split; [exact H|]. intros names E. discriminate E.
Qed.

(** X29.  [get_suggestions] of the engine with its six strategies returns
    for every filter and maximum; every suggestion returned is tagged
    with the name of one of the six strategies, and with a name of the
    filter when the filter is a non-empty list.  When a non-empty
    filter names none of the six strategies, nothing is returned. *)
Theorem suggestions_come_from_active_strategies (progression : ChordProgression.t)
    (key : option Key.t) (strategy_filter : option (list string)) (max_suggestions : Z) :
  exists out,
    ChordSuggestionEngine.get_suggestions ChordSuggestionEngine.init progression key
      strategy_filter max_suggestions = Ok out
    /\ Forall (fun s =>
                 exists name,
                   ChordSuggestion.strategy_source s = Some name
                   /\ In name ["BorrowedChord"; "ChromaticApproach"; "Neapolitan";
                               "SubV7"; "Suspend"; "TSDMovement"]
                   /\ (forall names, strategy_filter = Some names -> names <> [] ->
                                     In name names))
              out
    /\ ((forall names, strategy_filter = Some names ->
                       forall name, In name names ->
                                    ~ In name ["BorrowedChord"; "ChromaticApproach";
                                               "Neapolitan"; "SubV7"; "Suspend";
                                               "TSDMovement"]) ->
        (exists names, strategy_filter = Some names /\ names <> []) ->
        out = []).
Proof.
  set (merged := ChordSuggestionEngine.collect
                   (ChordSuggestionEngine.active_strategies ChordSuggestionEngine.init
                      strategy_filter) progression key).
  pose proof (merged_bounded progression key strategy_filter) as Hb. fold merged in Hb.
  destruct (remove_duplicates_groups merged Hb) as (d & Hd & Hok & Hu).
  unfold ChordSuggestionEngine.get_suggestions. fold merged. rewrite Hu.
  rewrite (bind_eq (Ok _) _ _ eq_refl).
  remember (Py.slice_to (ChordSuggestion.sorted_desc (map snd d)) max_suggestions)
    as out eqn:Eout.
  exists out. split; [reflexivity|].
  assert (Hincl : forall s, In s out -> In s merged).
  { intros s Hs. rewrite Eout in Hs. unfold Py.slice_to in Hs. apply In_firstn in Hs.
    apply (Permutation_in _ (sorted_desc_perm _)) in Hs.
    eapply unique_incl; eauto. }
  split.
  - apply List.Forall_forall. intros s Hs. apply Hincl in Hs.
    apply collect_tagged in Hs as (st & Hst & Hsrc).
    apply active_strategies_named in Hst as [Hall Hnames].
    exists (ChordSuggestionEngine.get_strategy_name st). split; [exact Hsrc|].
    split; [|exact Hnames].
    cbn [ChordSuggestionEngine.init ChordSuggestionEngine.strategies In] in Hall.
    repeat (destruct Hall as [<- | Hall]; [cbn; tauto|]). destruct Hall.
  - intros Hunknown (names & -> & Hne).
    clear Eout. destruct out as [|s rest]; [reflexivity|]. exfalso.
    assert (Hs : In s merged) by (apply Hincl; left; reflexivity).
    apply collect_tagged in Hs as (st & Hst & _).
    apply active_strategies_named in Hst as [Hall Hnames].
    apply (Hunknown names eq_refl _ (Hnames names eq_refl Hne)).
    cbn [ChordSuggestionEngine.init ChordSuggestionEngine.strategies In] in Hall.
    repeat (destruct Hall as [<- | Hall]; [cbn; tauto|]). destruct Hall.
Qed.
